(** * AgentChangeBench metrics engine

    A shallow embedding of [src/tau2/metrics/tcrr.py] and
    [src/tau2/metrics/agent_metrics.py]: canonical tool-call identities
    ([normalized_params]), the transcript scan that extracts tool calls,
    the windowed redundancy ratio (TCRR), pass^k, and the fault-isolated
    aggregation of [compute_metrics]; and of the persona injection and
    state sync of [src/tau2/domains/banking/environment.py] and the
    message step of [src/tau2/domains/retail/user_simulator.py].

    Conventions.
    - Python objects that flow through argument mappings are values of
      [pyval] ([None], booleans, integers, strings, lists, tuples and
      dicts; no floats); Python's [==], [<], [str] and [hash]ability on
      them are [py_eq], [py_lt], [py_str] and [py_hashable].
    - Code that can raise returns [result A]; [try/except] is [catch_type]
      (for [except TypeError]) or [catch_all] (for [except Exception]).
    - Python floats that come out of integer true division are the exact
      rationals ([Q]); rounding to binary64 is not modelled. *)

From Stdlib Require Import ZArith QArith Qround String Ascii List Bool Lia Permutation.
From Stdlib Require Import OrderedTypeEx Lqa.
From stdpp Require Import base option list gmap strings pretty sorting list_numbers.

Local Open Scope string_scope.
Local Open Scope Z_scope.
Local Open Scope list_scope.

(** ** Exceptions and the error monad *)

Inductive exn : Type :=
| TypeError
| AttributeError
| ValueError
| ZeroDivisionError
| ImportError
| IndexError
| KeyError
| RuntimeError.

Inductive result (A : Type) : Type :=
| Ok (a : A)
| Raise (e : exn).
Arguments Ok {A} a.
Arguments Raise {A} e.

Global Instance result_ret : MRet result := fun A a => Ok a.
Global Instance result_bind : MBind result := fun A B f r =>
  match r with
  | Ok a => f a
  | Raise e => Raise e
  end.
Global Instance result_fmap : FMap result := fun A B f r =>
  match r with
  | Ok a => Ok (f a)
  | Raise e => Raise e
  end.

(** [try: body except TypeError: handler] *)
Definition catch_type {A} (body : result A) (handler : result A) : result A :=
  match body with
  | Raise TypeError => handler
  | r => r
  end.

(** [try: body except Exception: handler] *)
Definition catch_all {A} (body : result A) (handler : exn -> result A) : result A :=
  match body with
  | Raise e => handler e
  | r => r
  end.

Definition raises {A} (r : result A) : Prop := exists e, r = Raise e.
Definition returns {A} (r : result A) : Prop := exists a, r = Ok a.

(** A [for] loop whose body can raise: the first exception, in iteration
    order, aborts the loop. *)
Definition mapM {A B} (f : A -> result B) : list A -> result (list B) :=
  fix go (l : list A) : result (list B) :=
    match l with
    | [] => Ok []
    | x :: l' => y ← f x; ys ← go l'; Ok (y :: ys)
    end.

(** A [for] loop that updates local variables [S] and can raise. *)
Definition foldM {A S} (f : S -> A -> result S) : list A -> S -> result S :=
  fix go (l : list A) (s : S) : result S :=
    match l with
    | [] => Ok s
    | x :: l' => s' ← f s x; go l' s'
    end.

(** ** Python values *)

Module Py.

(** The objects an argument mapping is made of (what [json.loads] yields,
    without floats), plus tuples, which canonical forms are made of.
    A [PDict] lists its entries in insertion order. *)
#[local] Unset Elimination Schemes.
Inductive pyval : Type :=
| PNone
| PBool (b : bool)
| PInt (z : Z)
| PStr (s : string)
| PList (l : list pyval)
| PTuple (l : list pyval)
| PDict (d : list (pyval * pyval)).
#[local] Set Elimination Schemes.

(** [bool] is a subclass of [int]: [True == 1], [False == 0]. *)
Definition as_number (v : pyval) : option Z :=
  match v with
  | PBool b => Some (Z.b2z b)
  | PInt z => Some z
  | _ => None
  end.

(** Sequence equality: same length, items pairwise equal. *)
Definition seq_eq {A B} (eqb : A -> B -> bool) : list A -> list B -> bool :=
  fix go (a : list A) (b : list B) : bool :=
    match a, b with
    | [], [] => true
    | x :: a', y :: b' => eqb x y && go a' b'
    | _, _ => false
    end.

(** [d[k]] by key equality; [None] is a missing key. *)
Definition dict_get {K V} (same_key : K -> bool) : list (K * V) -> option V :=
  fix go (d : list (K * V)) : option V :=
    match d with
    | [] => None
    | (k', v') :: d' => if same_key k' then Some v' else go d'
    end.

(** Python's [x == y]. Dictionaries are equal when they have as many
    entries and every key of the left one maps to an equal value in the
    right one, whatever the insertion orders. *)
Fixpoint py_eq (x y : pyval) {struct x} : bool :=
  match x, y with
  | PNone, PNone => true
  | PBool a, PBool b => Z.eqb (Z.b2z a) (Z.b2z b)
  | PBool a, PInt b => Z.eqb (Z.b2z a) b
  | PInt a, PBool b => Z.eqb a (Z.b2z b)
  | PInt a, PInt b => Z.eqb a b
  | PStr a, PStr b => String.eqb a b
  | PList a, PList b => seq_eq py_eq a b
  | PTuple a, PTuple b => seq_eq py_eq a b
  | PDict a, PDict b =>
      Nat.eqb (length a) (length b)
      && forallb (fun kv : pyval * pyval =>
                    let '(k, v) := kv in
                    match dict_get (py_eq k) b with
                    | Some v' => py_eq v v'
                    | None => false
                    end) a
  | _, _ => false
  end.

(** Sequence ordering: the first position where the items differ decides;
    when there is none, the shorter sequence is the smaller. *)
Definition seq_lt {A} (eqb : A -> A -> bool) (ltb : A -> A -> option bool)
  : list A -> list A -> option bool :=
  fix go (a b : list A) : option bool :=
    match a, b with
    | [], [] => Some false
    | [], _ :: _ => Some true
    | _ :: _, [] => Some false
    | x :: a', y :: b' => if eqb x y then go a' b' else ltb x y
    end.

(** Python's [x < y]; [None] stands for the [TypeError]
    "'<' not supported between instances of ...". *)
Fixpoint py_lt (x y : pyval) {struct x} : option bool :=
  match x, y with
  | PBool a, PBool b => Some (Z.ltb (Z.b2z a) (Z.b2z b))
  | PBool a, PInt b => Some (Z.ltb (Z.b2z a) b)
  | PInt a, PBool b => Some (Z.ltb a (Z.b2z b))
  | PInt a, PInt b => Some (Z.ltb a b)
  | PStr a, PStr b => Some (String.ltb a b)
  | PList a, PList b => seq_lt py_eq py_lt a b
  | PTuple a, PTuple b => seq_lt py_eq py_lt a b
  | _, _ => None
  end.

(** *** [repr] and [str] *)

Definition dquote : ascii := ascii_of_nat 34.
Definition squote : ascii := ascii_of_nat 39.
Definition backslash : ascii := ascii_of_nat 92.

Fixpoint has_char (c : ascii) (s : string) : bool :=
  match s with
  | EmptyString => false
  | String c' s' => Ascii.eqb c c' || has_char c s'
  end.

Definition hex_digit (n : nat) : ascii :=
  if (n <? 10)%nat then ascii_of_nat (48 + n) else ascii_of_nat (87 + n).

(** One character of a string literal quoted with [q]. *)
Definition repr_char (q c : ascii) : string :=
  let n := nat_of_ascii c in
  if Ascii.eqb c backslash then String backslash (String backslash EmptyString)
  else if Ascii.eqb c q then String backslash (String q EmptyString)
  else if (n =? 10)%nat then String backslash "n"
  else if (n =? 13)%nat then String backslash "r"
  else if (n =? 9)%nat then String backslash "t"
  else if ((n <? 32) || (n =? 127))%nat
       then String backslash
              (String "x" (String (hex_digit (n / 16)) (String (hex_digit (n mod 16)) EmptyString)))
  else String c EmptyString.

Fixpoint repr_chars (q : ascii) (s : string) : string :=
  match s with
  | EmptyString => EmptyString
  | String c s' => repr_char q c +:+ repr_chars q s'
  end.

(** [repr] of a [str]: single quotes, unless the text has a single quote
    and no double quote. *)
Definition repr_str (s : string) : string :=
  let q := if has_char squote s && negb (has_char dquote s) then dquote else squote in
  String q (repr_chars q s +:+ String q EmptyString).

Fixpoint join (sep : string) (l : list string) : string :=
  match l with
  | [] => ""
  | [s] => s
  | s :: l' => s +:+ sep +:+ join sep l'
  end.

Fixpoint py_repr (v : pyval) : string :=
  match v with
  | PNone => "None"
  | PBool true => "True"
  | PBool false => "False"
  | PInt z => pretty z
  | PStr s => repr_str s
  | PList l => "[" +:+ join ", " (map py_repr l) +:+ "]"
  | PTuple l =>
      match l with
      | [x] => "(" +:+ py_repr x +:+ ",)"
      | _ => "(" +:+ join ", " (map py_repr l) +:+ ")"
      end
  | PDict d =>
      "{" +:+ join ", " (map (fun kv : pyval * pyval =>
                               let '(k, v) := kv in py_repr k +:+ ": " +:+ py_repr v) d)
          +:+ "}"
  end.

(** [str(x)]: the text itself for a [str], [repr(x)] otherwise. *)
Definition py_str (v : pyval) : string :=
  match v with
  | PStr s => s
  | _ => py_repr v
  end.

(** [hash(x)] succeeds: lists and dicts are unhashable, a tuple is hashable
    when its items are. *)
Fixpoint py_hashable (v : pyval) : bool :=
  match v with
  | PList _ | PDict _ => false
  | PTuple l => forallb py_hashable l
  | _ => true
  end.

(** *** [sorted]

    A stable comparison sort on [<]; a comparison that raises [TypeError]
    aborts the sort. CPython decides which pairs to compare; here every new
    element is compared with the elements already placed, left to right,
    until a greater one is found. *)
Section Sorted.
Context {A : Type} (key : A -> pyval).

Fixpoint insert_sorted (x : A) (l : list A) : result (list A) :=
  match l with
  | [] => Ok [x]
  | y :: l' =>
      match py_lt (key x) (key y) with
      | None => Raise TypeError
      | Some true => Ok (x :: y :: l')
      | Some false => r ← insert_sorted x l'; Ok (y :: r)
      end
  end.

Definition sorted_by (l : list A) : result (list A) :=
  fold_left (fun acc x => s ← acc; insert_sorted x s) l (Ok []).
End Sorted.

Definition sorted : list pyval -> result (list pyval) := sorted_by id.

(** [x in s] for a [set] kept as the list of its members: hashing an
    unhashable [x] is a [TypeError]. *)
Definition set_contains (s : list pyval) (x : pyval) : result bool :=
  if py_hashable x then Ok (existsb (fun y => py_eq y x) s) else Raise TypeError.

(** [s.add(x)] *)
Definition set_add (s : list pyval) (x : pyval) : result (list pyval) :=
  present ← set_contains s x;
  Ok (if present : bool then s else (s ++ [x])%list).

(** The [(k, v)] tuple that [sorted(params.items())] compares, for an
    entry that carries the outcome of the loop body for [v]. *)
Definition item_key (e : pyval * pyval * result pyval) : pyval :=
  PTuple [e.1.1; e.1.2].

(** An entry paired with the outcome [body v] of the loop body for its
    value. *)
Definition decorate (body : pyval -> result pyval) (kv : pyval * pyval)
  : pyval * pyval * result pyval :=
  let '(k, v) := kv in (k, v, body v).

(** [normalized_items.append((k, ...))] for one sorted entry. *)
Definition emit_item (e : pyval * pyval * result pyval) : result pyval :=
  nv ← e.2; Ok (PTuple [e.1.1; nv]).

(** The number of constructors of a value. *)
Fixpoint pysize (v : pyval) : nat :=
  match v with
  | PList l | PTuple l => S (list_sum (map pysize l))
  | PDict d =>
      S (list_sum (map (fun kv : pyval * pyval =>
                          let '(k, v) := kv in (pysize k + pysize v)%nat) d))
  | _ => 1%nat
  end.

(** The text of a string key. *)
Definition key_text (k : pyval) : string :=
  match k with
  | PStr s => s
  | _ => ""
  end.

(** What [json.loads] can yield: scalars, lists, and dicts whose keys are
    strings, each key once. *)
Fixpoint is_json (v : pyval) : bool :=
  match v with
  | PNone | PBool _ | PInt _ | PStr _ => true
  | PList l => forallb is_json l
  | PTuple _ => false
  | PDict d =>
      forallb (fun kv : pyval * pyval =>
                 let '(k, v) := kv in
                 match k with
                 | PStr _ => is_json v
                 | _ => false
                 end) d
      && bool_decide (NoDup (map (fun kv : pyval * pyval => key_text kv.1) d))
  end.

(** Values made of JSON values and tuples: what canonical forms are made
    of. *)
Fixpoint wf_value (v : pyval) : bool :=
  match v with
  | PNone | PBool _ | PInt _ | PStr _ => true
  | PList l | PTuple l => forallb wf_value l
  | PDict d =>
      forallb (fun kv : pyval * pyval =>
                 let '(k, v) := kv in
                 match k with
                 | PStr _ => wf_value v
                 | _ => false
                 end) d
      && bool_decide (NoDup (map (fun kv : pyval * pyval => key_text kv.1) d))
  end.

(** An argument mapping: a JSON object. *)
Definition is_args (v : pyval) : bool :=
  match v with
  | PDict _ => is_json v
  | _ => false
  end.

(** The tuple [(name, params_norm)] both metrics use as a call's identity. *)
Definition identity (nm : string) (params_norm : pyval) : pyval :=
  PTuple [PStr nm; params_norm].

End Py.
Import Py.

(** ** Transcripts *)

(** Modelled from the spec: the message classes of [tau2.data_model.message]
    (imported by both source files, not part of them), after sections 3 and
    6 of the specification: a message is one of system, user, assistant,
    tool, multi-tool; user and assistant messages may carry tool calls, a
    turn index and a cost; a tool message carries the identifier of the
    call it answers, an error flag and a content. *)
Record ToolCall : Type := {
  tc_id : string;
  tc_name : string;
  tc_arguments : pyval;
  tc_requestor : string
}.

Record ToolMessage : Type := {
  tm_id : string;
  tm_error : bool;
  tm_content : option string
}.

Record Participant : Type := {
  pm_tool_calls : option (list ToolCall);
  pm_turn_idx : option Z;
  pm_cost : option Q
}.

Inductive Message : Type :=
| SystemMsg (turn_idx : option Z)
| UserMsg (p : Participant)
| AssistantMsg (p : Participant)
| ToolMsg (t : ToolMessage)
| MultiToolMsg (ts : list ToolMessage).

(** [isinstance(msg, AssistantMessage)] *)
Definition is_assistant (msg : Message) : bool :=
  match msg with
  | AssistantMsg _ => true
  | _ => false
  end.

(** The calls the guard [hasattr(msg, "tool_calls") and msg.tool_calls]
    lets through: only user and assistant messages have the attribute, and
    [None] and the empty list are falsy. *)
Definition msg_tool_calls (msg : Message) : list ToolCall :=
  match msg with
  | UserMsg p | AssistantMsg p => default [] (pm_tool_calls p)
  | _ => []
  end.

(** [msg.turn_idx or 0] on a message that carries tool calls. *)
Definition msg_turn_idx (msg : Message) : Z :=
  match msg with
  | UserMsg p | AssistantMsg p => default 0 (pm_turn_idx p)
  | _ => 0
  end.

(** One entry of the [tool_results] dict both extractors build. *)
Record ToolResult : Type := {
  tr_success : bool;
  tr_error : bool;
  tr_content : option string
}.

(** The first loop of both extractors: every [ToolMessage] stores its
    outcome under its id; a later message with the same id overwrites. *)
Definition collect_tool_results (messages : list Message) : gmap string ToolResult :=
  fold_left (fun tool_results msg =>
               match msg with
               | ToolMsg t =>
                   <[tm_id t := {| tr_success := negb (tm_error t);
                                   tr_error := tm_error t;
                                   tr_content := tm_content t |}]> tool_results
               | _ => tool_results
               end) messages ∅.

(** [str.lower] on ASCII text. *)
Definition lower_char (c : ascii) : ascii :=
  let n := nat_of_ascii c in
  if ((65 <=? n) && (n <=? 90))%nat then ascii_of_nat (n + 32) else c.

Fixpoint lower (s : string) : string :=
  match s with
  | EmptyString => EmptyString
  | String c s' => String (lower_char c) (lower s')
  end.

Fixpoint starts_with (p s : string) : bool :=
  match p, s with
  | EmptyString, _ => true
  | String a p', String b s' => Ascii.eqb a b && starts_with p' s'
  | String _ _, EmptyString => false
  end.

(** [keyword in text] on strings. *)
Fixpoint str_contains (keyword text : string) : bool :=
  starts_with keyword text
  || match text with
     | EmptyString => false
     | String _ text' => str_contains keyword text'
     end.

Definition param_error_keywords : list string :=
  [ "invalid parameter"; "missing parameter"; "parameter error";
    "bad parameter"; "invalid argument"; "missing argument" ].

(** [correct]: the outcome stored for the call id, [True] without one. *)
Definition call_correct (tool_results : gmap string ToolResult) (tool_call : ToolCall) : bool :=
  match tool_results !! tc_id tool_call with
  | Some result => tr_success result
  | None => true
  end.

(** [params_valid]: [False] when the stored outcome is an error with a
    non-empty content whose lower-cased text has one of the keywords. *)
Definition call_params_valid (tool_results : gmap string ToolResult) (tool_call : ToolCall) : bool :=
  match tool_results !! tc_id tool_call with
  | Some result =>
      match tr_content result with
      | Some content =>
          if tr_error result && negb (String.eqb content "") then
            let error_content := lower content in
            negb (existsb (fun keyword => str_contains keyword error_content)
                          param_error_keywords)
          else true
      | None => true
      end
  | None => true
  end.

(** ** [tcrr.py] *)

Module Tcrr.

(** [tuple(str(item) for item in v)] *)
Definition str_tuple (v : list pyval) : pyval :=
  PTuple (map (fun item => PStr (py_str item)) v).

(** [normalized_params] of [tcrr.py].

    [for k, v in sorted(params.items())] sorts the [(k, v)] tuples and then
    runs the loop body on them in sorted order. The body is a function of
    [v] alone, so each entry is paired with the outcome of its body before
    the sort, and the loop then goes through these outcomes in sorted
    order, stopping at the first exception. [params.items()] on anything
    but a dict is an [AttributeError]. *)
Fixpoint normalized_params (params : pyval) : result pyval :=
  match params with
  | PDict d =>
      let body (v : pyval) : result pyval :=
        match v with
        | PDict _ => normalized_params v
        | PList l =>
            catch_type
              (normalized_list ←
                 mapM (fun item =>
                         match item with
                         | PDict _ => normalized_params item
                         | PList sub => Ok (str_tuple sub)
                         | _ => Ok item
                         end) l;
               sorted_v ← sorted normalized_list;
               Ok (PTuple sorted_v))
              (Ok (str_tuple l))
        | _ => Ok v
        end in
      items ← sorted_by (fun e : pyval * pyval * result pyval =>
                           PTuple [e.1.1; e.1.2])
                        (map (fun kv : pyval * pyval =>
                                let '(k, v) := kv in (k, v, body v)) d);
      normalized_items ←
        mapM (fun e : pyval * pyval * result pyval =>
                nv ← e.2; Ok (PTuple [e.1.1; nv])) items;
      Ok (PTuple normalized_items)
  | _ => Raise AttributeError
  end.

(** The branch of the inner loop of [normalized_params] for one item of a
    list value. *)
Definition normalize_item (item : pyval) : result pyval :=
  match item with
  | PDict _ => normalized_params item
  | PList sub => Ok (str_tuple sub)
  | _ => Ok item
  end.

(** The body of the loop of [normalized_params] for one value [v]. *)
Definition normalize_value (v : pyval) : result pyval :=
  match v with
  | PDict _ => normalized_params v
  | PList l =>
      catch_type
        (normalized_list ← mapM normalize_item l;
         sorted_v ← sorted normalized_list;
         Ok (PTuple sorted_v))
        (Ok (str_tuple l))
  | _ => Ok v
  end.

Record ToolCallInfo : Type := {
  name : string;
  params : pyval;
  turn_idx : Z;
  assistant_turn_idx : Z;
  call_id : string;
  correct : bool;
  params_valid : bool
}.

Record TCRRResult : Type := {
  total_calls : Z;
  redundant_calls : Z;
  redundancy_ratio : Q;
  redundant_by_turn : gmap Z Z;
  window_size : Z;
  window_redundant_calls : Z;
  batch_redundant_calls : Z
}.

(** The [ToolCallInfo] built for one call of [msg], with the counter value
    [assistant_turn_count] current at that message. *)
Definition tool_call_info (tool_results : gmap string ToolResult) (msg : Message)
    (assistant_turn_count : Z) (tool_call : ToolCall) : ToolCallInfo :=
  {| name := tc_name tool_call;
     params := tc_arguments tool_call;
     turn_idx := msg_turn_idx msg;
     assistant_turn_idx := assistant_turn_count;
     call_id := tc_id tool_call;
     correct := call_correct tool_results tool_call;
     params_valid := call_params_valid tool_results tool_call |}.

(** The second loop of [extract_tool_calls_with_turns]: the state is the
    counter and the list built so far. *)
Definition scan_message (tool_results : gmap string ToolResult)
    (st : Z * list ToolCallInfo) (msg : Message) : Z * list ToolCallInfo :=
  let '(assistant_turn_count, tool_calls) := st in
  let assistant_turn_count :=
    if is_assistant msg then assistant_turn_count + 1 else assistant_turn_count in
  (assistant_turn_count,
   (tool_calls ++ map (tool_call_info tool_results msg assistant_turn_count)
                      (msg_tool_calls msg))%list).

Definition extract_tool_calls_with_turns (messages : list Message) : list ToolCallInfo :=
  let tool_results := collect_tool_results messages in
  (fold_left (scan_message tool_results) messages (0, [])).2.

(** *** Identities and the containers that hold them *)


(** The handler's identity [(name, str(params))]. *)
Definition str_identity (call : ToolCallInfo) : pyval :=
  identity (name call) (PStr (py_str (params call))).

(** [if identity not in d: d[identity] = 0] followed by
    [d[identity] += 1], for a dict kept as its list of entries. *)
Fixpoint count_up (d : list (pyval * Z)) (x : pyval) : list (pyval * Z) :=
  match d with
  | [] => [(x, 0 + 1)]
  | (y, n) :: d' => if py_eq y x then (y, n + 1) :: d' else (y, n) :: count_up d' x
  end.

Definition count_identity (d : list (pyval * Z)) (x : pyval) : result (list (pyval * Z)) :=
  if py_hashable x then Ok (count_up d x) else Raise TypeError.

(** [range(start, stop)] *)
Definition range (start stop : Z) : list Z := seqZ start (stop - start).

(** [redundant_by_turn[turn] += n]; the key was set just before. *)
Definition bump (turn n : Z) (redundant_by_turn : gmap Z Z) : gmap Z Z :=
  <[turn := default 0 (redundant_by_turn !! turn) + n]> redundant_by_turn.

(** [calls_by_turn]: calls grouped by assistant turn, in input order. *)
Definition group_by_turn (tool_calls : list ToolCallInfo) : gmap Z (list ToolCallInfo) :=
  fold_left (fun calls_by_turn call =>
               let turn := assistant_turn_idx call in
               <[turn := (default [] (calls_by_turn !! turn) ++ [call])%list]> calls_by_turn)
            tool_calls ∅.

(** The loop filling [previous_identities]. *)
Definition add_previous (previous_identities : list pyval) (prev_call : ToolCallInfo)
  : result (list pyval) :=
  catch_all
    (params_norm ← normalized_params (params prev_call);
     set_add previous_identities (identity (name prev_call) params_norm))
    (fun _ => set_add previous_identities (str_identity prev_call)).

(** The window loop over the calls of the current turn; the state is
    [window_redundant_calls] and [redundant_by_turn]. *)
Definition check_window (previous_identities : list pyval) (current_turn : Z)
    (st : Z * gmap Z Z) (call : ToolCallInfo) : result (Z * gmap Z Z) :=
  let hit (present : bool) : Z * gmap Z Z :=
    if present then (st.1 + 1, bump current_turn 1 st.2) else st in
  catch_all
    (params_norm ← normalized_params (params call);
     present ← set_contains previous_identities (identity (name call) params_norm);
     Ok (hit present))
    (fun _ =>
       present ← set_contains previous_identities (str_identity call);
       Ok (hit present)).

(** The identity the batch loop gives a call. *)
Definition batch_identity (call : ToolCallInfo) : pyval :=
  match normalized_params (params call) with
  | Ok params_norm => identity (name call) params_norm
  | Raise _ => str_identity call
  end.

(** The loop over [call_identities.items()]; the state is
    [batch_redundant_calls] and [redundant_by_turn]. *)
Definition check_batch (batch_threshold current_turn : Z)
    (st : Z * gmap Z Z) (entry : pyval * Z) : Z * gmap Z Z :=
  let count := entry.2 in
  if count >? batch_threshold then
    let excess_calls := count - batch_threshold in
    (st.1 + excess_calls, bump current_turn excess_calls st.2)
  else st.

(** One iteration of [for current_turn in sorted_turns]; the state is
    [(window_redundant_calls, batch_redundant_calls, redundant_by_turn)]. *)
Definition process_turn (calls_by_turn : gmap Z (list ToolCallInfo))
    (window_sz batch_threshold : Z)
    (st : Z * Z * gmap Z Z) (current_turn : Z) : result (Z * Z * gmap Z Z) :=
  let '(window_redundant, batch_redundant, by_turn) := st in
  let current_calls := default [] (calls_by_turn !! current_turn) in
  let by_turn := <[current_turn := 0]> by_turn in
  let window_start := Z.max 1 (current_turn - window_sz) in
  let previous_calls :=
    flat_map (fun prev_turn => default [] (calls_by_turn !! prev_turn))
             (range window_start current_turn) in
  previous_identities ← foldM add_previous previous_calls [];
  wr ← foldM (check_window previous_identities current_turn) current_calls
             (window_redundant, by_turn);
  call_identities ←
    foldM (fun d call => count_identity d (batch_identity call)) current_calls [];
  let br := fold_left (check_batch batch_threshold current_turn) call_identities
                      (batch_redundant, wr.2) in
  Ok (wr.1, br.1, br.2).

Definition default_window_size : Z := 3.
Definition default_batch_threshold : Z := 2.

(** [total_redundant_calls / total_calls if total_calls > 0 else 0.0] *)
Definition ratio_of (total_redundant_calls total_calls : Z) : Q :=
  if total_calls >? 0 then (inject_Z total_redundant_calls / inject_Z total_calls)%Q
  else 0%Q.

Definition compute_tcrr_windowed (tool_calls : list ToolCallInfo)
    (window_sz batch_threshold : Z) : result TCRRResult :=
  match tool_calls with
  | [] =>
      Ok {| total_calls := 0; redundant_calls := 0; redundancy_ratio := 0%Q;
            redundant_by_turn := ∅; window_size := window_sz;
            window_redundant_calls := 0; batch_redundant_calls := 0 |}
  | _ =>
      let total := Z.of_nat (length tool_calls) in
      let calls_by_turn := group_by_turn tool_calls in
      let sorted_turns := merge_sort Z.le (map fst (map_to_list calls_by_turn)) in
      st ← foldM (process_turn calls_by_turn window_sz batch_threshold)
                 sorted_turns (0, 0, ∅);
      let '(window_redundant, batch_redundant, by_turn) := st in
      let total_redundant_calls := window_redundant + batch_redundant in
      Ok {| total_calls := total;
            redundant_calls := total_redundant_calls;
            redundancy_ratio := ratio_of total_redundant_calls total;
            redundant_by_turn := by_turn;
            window_size := window_sz;
            window_redundant_calls := window_redundant;
            batch_redundant_calls := batch_redundant |}
  end.

End Tcrr.

(** ** [agent_metrics.py]: canonical arguments *)

Module AgentMetrics.

(** [normalized_params] of [agent_metrics.py]: anything but a dict is
    rendered with [str]; list values are sorted as they are. *)
Fixpoint normalized_params (params : pyval) : result pyval :=
  match params with
  | PDict d =>
      let body (v : pyval) : result pyval :=
        match v with
        | PDict _ => normalized_params v
        | PList l =>
            catch_type (sorted_v ← sorted l; Ok (PTuple sorted_v))
                       (Ok (Tcrr.str_tuple l))
        | _ => Ok v
        end in
      items ← sorted_by (fun e : pyval * pyval * result pyval =>
                           PTuple [e.1.1; e.1.2])
                        (map (fun kv : pyval * pyval =>
                                let '(k, v) := kv in (k, v, body v)) d);
      normalized_items ←
        mapM (fun e : pyval * pyval * result pyval =>
                nv ← e.2; Ok (PTuple [e.1.1; nv])) items;
      Ok (PTuple normalized_items)
  | _ => Ok (PStr (py_str params))
  end.

(** The body of the loop of [normalized_params] for one value [v]. *)
Definition normalize_value (v : pyval) : result pyval :=
  match v with
  | PDict _ => normalized_params v
  | PList l =>
      catch_type (sorted_v ← sorted l; Ok (PTuple sorted_v))
                 (Ok (Tcrr.str_tuple l))
  | _ => Ok v
  end.

(** [is_successful]: [(1 - 1e-6) <= reward <= (1 + 1e-6)] *)
Definition is_successful (reward : Q) : bool :=
  Qle_bool (1 - (1 # 1000000)) reward && Qle_bool reward (1 + (1 # 1000000)).

(** [safe_float(val, default)] on an optional float. *)
Definition safe_float (val : option Q) (default : Q) : Q :=
  match val with
  | None => default
  | Some v => v
  end.

(** The dict built for one tool call by [extract_tool_calls_from_messages]. *)
Record ToolCallMetric : Type := {
  name : string;
  params : pyval;
  cost : Q;
  latency : Q;
  correct : bool;
  params_valid : bool
}.

(** [safe_float(msg.cost) if hasattr(msg, "cost") else 0.0] *)
Definition msg_cost (msg : Message) : Q :=
  match msg with
  | UserMsg p | AssistantMsg p => safe_float (pm_cost p) 0
  | _ => 0%Q
  end.

Definition tool_call_metric (tool_results : gmap string ToolResult) (msg : Message)
    (tool_call : ToolCall) : ToolCallMetric :=
  {| name := tc_name tool_call;
     params := tc_arguments tool_call;
     cost := msg_cost msg;
     latency := 0%Q;
     correct := call_correct tool_results tool_call;
     params_valid := call_params_valid tool_results tool_call |}.

Definition extract_tool_calls_from_messages (messages : list Message) : list ToolCallMetric :=
  let tool_results := collect_tool_results messages in
  fold_left (fun tool_calls msg =>
               (tool_calls ++ map (tool_call_metric tool_results msg)
                                  (msg_tool_calls msg))%list)
            messages [].

(** *** pass^k *)

(** The binomial coefficient C(n, k), by Pascal's rule. *)
Fixpoint comb (n k : nat) : nat :=
  match k with
  | O => 1%nat
  | S k' =>
      match n with
      | O => 0%nat
      | S n' => (comb n' k' + comb n' k)%nat
      end
  end.

(** [a / b] on integers: true division. *)
Definition true_div (a b : Z) : result Q :=
  if b =? 0 then Raise ZeroDivisionError else Ok (inject_Z a / inject_Z b)%Q.

(** [math.comb(n, k)] on integers: [ValueError] on a negative argument,
    the binomial coefficient otherwise (0 when [k > n]). *)
Definition math_comb (n k : Z) : result Z :=
  if n <? 0 then Raise ValueError
  else if k <? 0 then Raise ValueError
  else Ok (Z.of_nat (comb (Z.to_nat n) (Z.to_nat k))).

Definition pass_hat_k (num_trials success_count k : Z) : result Q :=
  if num_trials <? k then Raise ValueError
  else
    successes ← math_comb success_count k;
    trials ← math_comb num_trials k;
    true_div successes trials.

(** *** The report *)

Definition Qlt_bool (x y : Q) : bool := negb (Qle_bool y x).

(** [max(a, b)] and [min(a, b)] on floats. *)
Definition py_max (a b : Q) : Q := if Qlt_bool a b then b else a.
Definition py_min (a b : Q) : Q := if Qlt_bool b a then b else a.

Definition Qsum (l : list Q) : Q := fold_left Qplus l 0%Q.

(** [np.mean(l)] on a non-empty list. *)
Definition np_mean (l : list Q) : Q := (Qsum l / inject_Z (Z.of_nat (length l)))%Q.

(** [sum(1 for x in l if test(x))] *)
Definition count_if {A} (test : A -> bool) (l : list A) : Z :=
  Z.of_nat (length (filter (fun x => test x = true) l)).

Record RewardInfo : Type := { reward : Q }.

Record SimulationRun : Type := {
  task_id : string;
  messages : list Message;
  reward_info : option RewardInfo;
  agent_cost : option Q
}.

Record Info : Type := {
  gsrt_judge_llm : option string;
  gsrt_judge_llm_args : option (gmap string Q)
}.

Record Results (Task : Type) : Type := {
  tasks : list Task;
  simulations : list SimulationRun;
  info : Info
}.
Arguments tasks {Task} r.
Arguments simulations {Task} r.
Arguments info {Task} r.

(** Modelled from the spec: what the enhanced estimators of
    [tau2.metrics.tsr], [tau2.metrics.tue] and [tau2.metrics.gsrt] return
    (modules the source imports and does not contain); the fields are the
    attributes [compute_metrics] reads, after sections 4.4 to 4.6. *)
Record ChannelResult : Type := { success_rate : Q }.

Record TSRResult : Type := {
  overall_tsr : Q;
  communicate_info : ChannelResult;
  action : ChannelResult;
  nl_assertion : ChannelResult;
  weights : gmap string Q;
  tsr_by_task_result : gmap string Q
}.

Record TUEResult : Type := {
  overall_tue : Q;
  tool_correctness : Q;
  param_accuracy : Q;
  tue_total_calls : Z;
  correct_calls : Z;
  valid_param_calls : Z
}.

Record GSRTTask : Type := {
  median_gsrt_ack : option Q;
  median_gsrt_tool : option Q;
  median_gsrt_outcome : option Q;
  task_total_shifts : Z;
  recovery_rate : Q;
  transfer_rate : Q
}.

Record GSRTAggregate : Type := {
  aggregate_median_ack : option Q;
  aggregate_median_tool : option Q;
  aggregate_median_outcome : option Q;
  total_shifts : Z;
  overall_recovery_rate : Q;
  overall_transfer_rate : Q;
  never_recovered_rate : Q;
  gsrt_by_task_result : gmap string GSRTTask
}.

Record TcrrTaskEntry : Type := {
  entry_redundancy_ratio : Q;
  entry_total_calls : Z;
  entry_redundant_calls : Z
}.

Record AgentMetrics : Type := {
  avg_reward : Q;
  pass_hat_ks : gmap Z Q;
  avg_agent_cost : Q;
  tsr : Q;
  tue : Q;
  tcrr : Q;
  num_tool_calls : Z;
  tsr_communicate_info : Q;
  tsr_action : Q;
  tsr_nl_assertion : Q;
  tsr_weights : gmap string Q;
  tsr_by_task : gmap string Q;
  tue_tool_correctness : Q;
  tue_param_accuracy : Q;
  tue_correct_calls : Z;
  tue_valid_param_calls : Z;
  tue_by_task : gmap string TUEResult;
  tcrr_window_size : Z;
  tcrr_total_calls : Z;
  tcrr_redundant_calls : Z;
  tcrr_by_task : gmap string TcrrTaskEntry;
  gsrt_median_ack : option Q;
  gsrt_median_tool : option Q;
  gsrt_median_outcome : option Q;
  gsrt_num_shifts : Z;
  gsrt_recovery_rate : Q;
  gsrt_transfer_rate : Q;
  gsrt_never_recovered_rate : Q;
  gsrt_by_task : gmap string GSRTTask
}.

(** The collaborators [compute_metrics] calls and the source does not
    contain: the enhanced estimators, pandas ([get_metrics_df] is built on
    [results.to_df()]; a [Frame] is its data frame) and numpy. *)
Record Collaborators (Task Frame : Type) : Type := {
  compute_tsr_enhanced : list Task -> list SimulationRun -> result TSRResult;
  compute_tue_enhanced_for_simulations : list SimulationRun -> result TUEResult;
  compute_tue_by_task : list SimulationRun -> result (gmap string TUEResult);
  compute_gsrt_enhanced_metrics :
    list Task -> list SimulationRun -> string -> gmap string Q -> result GSRTAggregate;
  get_metrics_df : Results Task -> result (Frame * Z);
  frame_reward_mean : Frame -> Q;
  frame_agent_cost_mean : Frame -> Q;
  np_percentile : list Q -> Q -> Q
}.
Arguments compute_tsr_enhanced {Task Frame} c.
Arguments compute_tue_enhanced_for_simulations {Task Frame} c.
Arguments compute_tue_by_task {Task Frame} c.
Arguments compute_gsrt_enhanced_metrics {Task Frame} c.
Arguments get_metrics_df {Task Frame} c.
Arguments frame_reward_mean {Task Frame} c.
Arguments frame_agent_cost_mean {Task Frame} c.
Arguments np_percentile {Task Frame} c.

Section Report.
Context {Task Frame : Type} (env : Collaborators Task Frame).

Definition default_weights : gmap string Q :=
  <["communicate_info" := 1 # 2]>
    (<["action" := 3 # 10]> (<["nl_assertion" := 1 # 5]> ∅)).

(** The values the TSR block leaves in [tsr], [tsr_communicate_info],
    [tsr_action], [tsr_nl_assertion], [tsr_weights], [tsr_by_task]. *)
Record TsrBlock : Type := {
  b_tsr : Q;
  b_communicate_info : Q;
  b_action : Q;
  b_nl_assertion : Q;
  b_weights : gmap string Q;
  b_by_task : gmap string Q
}.

(** [sim.reward_info and safe_float(sim.reward_info.reward) > 0] *)
Definition positive_reward (sim : SimulationRun) : bool :=
  match reward_info sim with
  | Some ri => Qlt_bool 0 (safe_float (Some (reward ri)) 0)
  | None => false
  end.

(** The handler of the TSR block. *)
Definition tsr_fallback (results : Results Task) : TsrBlock :=
  let success_count := count_if positive_reward (simulations results) in
  {| b_tsr :=
       match simulations results with
       | [] => 0%Q
       | _ => (inject_Z success_count
               / inject_Z (Z.of_nat (length (simulations results))))%Q
       end;
     b_communicate_info := 0;
     b_action := 0;
     b_nl_assertion := 0;
     b_weights := default_weights;
     b_by_task := ∅ |}.

(** [try: compute_tsr_enhanced(...) except Exception: fallback] *)
Definition tsr_block (results : Results Task) : TsrBlock :=
  match compute_tsr_enhanced env (tasks results) (simulations results) with
  | Ok tsr_result =>
      {| b_tsr := overall_tsr tsr_result;
         b_communicate_info := success_rate (communicate_info tsr_result);
         b_action := success_rate (action tsr_result);
         b_nl_assertion := success_rate (nl_assertion tsr_result);
         b_weights := weights tsr_result;
         b_by_task := tsr_by_task_result tsr_result |}
  | Raise _ => tsr_fallback results
  end.

Record TcrrBlock : Type := {
  b_tcrr : Q;
  b_window_size : Z;
  b_total_calls : Z;
  b_redundant_calls : Z;
  b_tcrr_by_task : gmap string TcrrTaskEntry
}.

(** The identity [(call["name"], str(call["params"]))] of the handlers. *)
Definition str_identity (call : ToolCallMetric) : pyval :=
  identity (name call) (PStr (py_str (params call))).

(** One iteration of the duplicate count of the simple TCRR; the state
    is [(seen_calls, duplicate_count)]. *)
Definition count_duplicate (st : list pyval * Z) (call : ToolCallMetric)
  : result (list pyval * Z) :=
  let visit (ident : pyval) : result (list pyval * Z) :=
    present ← set_contains st.1 ident;
    if present : bool then Ok (st.1, st.2 + 1)
    else (seen ← set_add st.1 ident; Ok (seen, st.2)) in
  catch_all
    (params_norm ← normalized_params (params call);
     visit (identity (name call) params_norm))
    (fun _ => visit (str_identity call)).

(** [from tau2.metrics.tcrr import compute_tcrr_enhanced,
    compute_tcrr_by_task]: [tcrr.py] defines neither name. *)
Definition import_tcrr_enhanced : result unit := Raise ImportError.

(** The TCRR block, entered with a non-empty [all_tool_calls].
    [int(tcrr * len(all_tool_calls))] is taken on exact rationals, where
    it gives back the duplicate count; on binary64 the quotient is
    rounded and the product can fall just below the count, and the code
    then reports one less. *)
Definition tcrr_block (all_tool_calls : list ToolCallMetric) : result TcrrBlock :=
  catch_all
    (_ ← import_tcrr_enhanced;
     Raise RuntimeError)
    (fun _ =>
       st ← foldM count_duplicate all_tool_calls ([], 0);
       let duplicate_count := st.2 in
       let n := Z.of_nat (length all_tool_calls) in
       let tcrr :=
         match all_tool_calls with
         | [] => 0%Q
         | _ => (inject_Z duplicate_count / inject_Z n)%Q
         end in
       Ok {| b_tcrr := tcrr;
             b_window_size := 3;
             b_total_calls := n;
             b_redundant_calls := Qfloor (tcrr * inject_Z n);
             b_tcrr_by_task := ∅ |}).

Record TueBlock : Type := {
  b_tue : Q;
  b_tool_correctness : Q;
  b_param_accuracy : Q;
  b_correct_calls : Z;
  b_valid_param_calls : Z;
  b_tue_by_task : gmap string TUEResult
}.

(** The dict comprehension over [tue_by_task_results.items()]. *)
Definition tue_task_entry (r : TUEResult) : TUEResult :=
  {| overall_tue := overall_tue r;
     tool_correctness := tool_correctness r;
     param_accuracy := param_accuracy r;
     tue_total_calls := tue_total_calls r;
     correct_calls := correct_calls r;
     valid_param_calls := valid_param_calls r |}.

(** The handler of the TUE block. *)
Definition tue_fallback (all_tool_calls : list ToolCallMetric) : result TueBlock :=
  let all_costs := filter (fun c => Qlt_bool 0 c = true) (map cost all_tool_calls) in
  let all_latencies := filter (fun c => Qlt_bool 0 c = true) (map latency all_tool_calls) in
  let cost_cap :=
    match all_costs with [] => 1%Q | _ => np_percentile env all_costs 95 end in
  let latency_cap :=
    match all_latencies with [] => 1%Q | _ => np_percentile env all_latencies 95 end in
  let cost_cap := py_max cost_cap (1 # 1000) in
  let latency_cap := py_max latency_cap (1 # 1000) in
  let num_total := Z.of_nat (length all_tool_calls) in
  let num_correct := count_if correct all_tool_calls in
  let num_valid_params := count_if params_valid all_tool_calls in
  T_correct ← true_div num_correct num_total;
  P_params ← true_div num_valid_params num_total;
  let total_cost := Qsum (map cost all_tool_calls) in
  let C_cost :=
    if Qlt_bool 0 cost_cap
    then py_max 0 (py_min 1 (1 - total_cost / cost_cap))
    else 1%Q in
  let valid_latencies := all_latencies in
  let L_latency :=
    match valid_latencies with
    | [] => 1%Q
    | _ =>
        if Qlt_bool 0 latency_cap then
          let avg_latency := np_mean valid_latencies in
          let capped_latency := py_min avg_latency latency_cap in
          py_max 0 (py_min 1 (1 - capped_latency / latency_cap))
        else 1%Q
    end in
  let tue := ((2 # 5) * T_correct + (1 # 4) * P_params
              + (1 # 5) * C_cost + (3 # 20) * L_latency)%Q in
  let ratio (c : Z) : Q :=
    match all_tool_calls with
    | [] => 0%Q
    | _ => (inject_Z c / inject_Z num_total)%Q
    end in
  Ok {| b_tue := tue;
        b_tool_correctness := ratio num_correct;
        b_param_accuracy := ratio num_valid_params;
        b_correct_calls := num_correct;
        b_valid_param_calls := num_valid_params;
        b_tue_by_task := ∅ |}.

Definition tue_block (results : Results Task) (all_tool_calls : list ToolCallMetric)
  : result TueBlock :=
  catch_all
    (tue_result ← compute_tue_enhanced_for_simulations env (simulations results);
     tue_by_task_results ← compute_tue_by_task env (simulations results);
     Ok {| b_tue := overall_tue tue_result;
           b_tool_correctness := tool_correctness tue_result;
           b_param_accuracy := param_accuracy tue_result;
           b_correct_calls := correct_calls tue_result;
           b_valid_param_calls := valid_param_calls tue_result;
           b_tue_by_task := tue_task_entry <$> tue_by_task_results |})
    (fun _ => tue_fallback all_tool_calls).

(** [x or default] on an optional string / mapping. *)
Definition judge_model_of (i : Info) : string :=
  match gsrt_judge_llm i with
  | Some m => if String.eqb m "" then "gpt-4o-mini" else m
  | None => "gpt-4o-mini"
  end.

Definition judge_args_of (i : Info) : gmap string Q :=
  match gsrt_judge_llm_args i with
  | Some a => if decide (a = ∅) then <["temperature" := 0%Q]> ∅ else a
  | None => <["temperature" := 0%Q]> ∅
  end.

Definition gsrt_task_entry (t : GSRTTask) : GSRTTask :=
  {| median_gsrt_ack := median_gsrt_ack t;
     median_gsrt_tool := median_gsrt_tool t;
     median_gsrt_outcome := median_gsrt_outcome t;
     task_total_shifts := task_total_shifts t;
     recovery_rate := recovery_rate t;
     transfer_rate := transfer_rate t |}.

(** The GSRT block: the aggregate of the enhanced estimator, or the
    all-empty aggregate of the handler. *)
Definition gsrt_block (results : Results Task) : GSRTAggregate :=
  match compute_gsrt_enhanced_metrics env (tasks results) (simulations results)
          (judge_model_of (info results)) (judge_args_of (info results)) with
  | Ok g =>
      {| aggregate_median_ack := aggregate_median_ack g;
         aggregate_median_tool := aggregate_median_tool g;
         aggregate_median_outcome := aggregate_median_outcome g;
         total_shifts := total_shifts g;
         overall_recovery_rate := overall_recovery_rate g;
         overall_transfer_rate := overall_transfer_rate g;
         never_recovered_rate := never_recovered_rate g;
         gsrt_by_task_result := gsrt_task_entry <$> gsrt_by_task_result g |}
  | Raise _ =>
      {| aggregate_median_ack := None;
         aggregate_median_tool := None;
         aggregate_median_outcome := None;
         total_shifts := 0;
         overall_recovery_rate := 0;
         overall_transfer_rate := 0;
         never_recovered_rate := 0;
         gsrt_by_task_result := ∅ |}
  end.

(** What [compute_metrics] and [compute_metrics_simple] have in common,
    word for word: everything from the TSR block to the construction of
    [AgentMetrics]. *)
Definition assemble (results : Results Task)
    (avg_reward_v : Q) (pass_hat_ks_v : gmap Z Q) (avg_agent_cost_v : Q)
  : result AgentMetrics :=
  let t := tsr_block results in
  let all_tool_calls :=
    flat_map (fun run => extract_tool_calls_from_messages (messages run))
             (simulations results) in
  let num := Z.of_nat (length all_tool_calls) in
  blocks ←
    match all_tool_calls with
    | [] =>
        Ok ({| b_tcrr := 0; b_window_size := 3; b_total_calls := 0;
               b_redundant_calls := 0; b_tcrr_by_task := ∅ |},
            {| b_tue := 0; b_tool_correctness := 0; b_param_accuracy := 0;
               b_correct_calls := 0; b_valid_param_calls := 0;
               b_tue_by_task := ∅ |})
    | _ =>
        c ← tcrr_block all_tool_calls;
        u ← tue_block results all_tool_calls;
        Ok (c, u)
    end;
  let '(c, u) := blocks in
  let g := gsrt_block results in
  Ok {| avg_reward := avg_reward_v;
        pass_hat_ks := pass_hat_ks_v;
        avg_agent_cost := avg_agent_cost_v;
        tsr := b_tsr t;
        tue := b_tue u;
        tcrr := b_tcrr c;
        num_tool_calls := num;
        tsr_communicate_info := b_communicate_info t;
        tsr_action := b_action t;
        tsr_nl_assertion := b_nl_assertion t;
        tsr_weights := b_weights t;
        tsr_by_task := b_by_task t;
        tue_tool_correctness := b_tool_correctness u;
        tue_param_accuracy := b_param_accuracy u;
        tue_correct_calls := b_correct_calls u;
        tue_valid_param_calls := b_valid_param_calls u;
        tue_by_task := b_tue_by_task u;
        tcrr_window_size := b_window_size c;
        tcrr_total_calls := b_total_calls c;
        tcrr_redundant_calls := b_redundant_calls c;
        tcrr_by_task := b_tcrr_by_task c;
        gsrt_median_ack := aggregate_median_ack g;
        gsrt_median_tool := aggregate_median_tool g;
        gsrt_median_outcome := aggregate_median_outcome g;
        gsrt_num_shifts := total_shifts g;
        gsrt_recovery_rate := overall_recovery_rate g;
        gsrt_transfer_rate := overall_transfer_rate g;
        gsrt_never_recovered_rate := never_recovered_rate g;
        gsrt_by_task := gsrt_by_task_result g |}.

(** [sim.reward_info.reward if sim.reward_info else 0.0] *)
Definition reward_of (sim : SimulationRun) : Q :=
  match reward_info sim with
  | Some ri => reward ri
  | None => 0%Q
  end.

(** [sim.agent_cost if sim.agent_cost else 0.0] *)
Definition cost_of (sim : SimulationRun) : Q :=
  match agent_cost sim with
  | Some c => if Qeq_bool c 0 then 0%Q else c
  | None => 0%Q
  end.

(** [task_groups]: the success flags of the runs of each task, tasks in
    order of first appearance. *)
Fixpoint group_add (groups : list (string * list bool)) (tid : string) (b : bool)
  : list (string * list bool) :=
  match groups with
  | [] => [(tid, [b])]
  | (t, bs) :: groups' =>
      if String.eqb t tid then (t, (bs ++ [b])%list) :: groups'
      else (t, bs) :: group_add groups' tid b
  end.

Definition task_groups (sims : list SimulationRun) : list (string * list bool) :=
  fold_left (fun groups sim => group_add groups (task_id sim) (is_successful (reward_of sim)))
            sims [].

(** [sum(successes) / len(successes)] *)
Definition group_success_rate (successes : list bool) : result Q :=
  true_div (count_if id successes) (Z.of_nat (length successes)).

Definition simple_pass_hat_ks (sims : list SimulationRun) : result (gmap Z Q) :=
  match sims with
  | [] => Ok ∅
  | _ =>
      match task_groups sims with
      | [] => Ok ∅
      | groups =>
          task_success_rates ← mapM (fun g => group_success_rate g.2) groups;
          Ok (<[1 := np_mean task_success_rates]> ∅)
      end
  end.

Definition compute_metrics_simple (results : Results Task) : result AgentMetrics :=
  let rewards := map reward_of (simulations results) in
  let avg_reward_v := match rewards with [] => 0%Q | _ => np_mean rewards end in
  let agent_costs := map cost_of (simulations results) in
  let avg_agent_cost_v := match agent_costs with [] => 0%Q | _ => np_mean agent_costs end in
  pass_hat_ks_v ← simple_pass_hat_ks (simulations results);
  assemble results avg_reward_v pass_hat_ks_v avg_agent_cost_v.

(** [for column in df_pass_hat_k.columns]: [df_pass_hat_k] is the second
    component of what [get_metrics_df] returns, the integer [max_k], and
    an integer has no attribute [columns]. *)
Definition pass_hat_columns (df_pass_hat_k : Z) : result (gmap Z Q) :=
  Raise AttributeError.

(** The body of the outer [try] of [compute_metrics]. *)
Definition compute_metrics_full (results : Results Task) : result AgentMetrics :=
  r ← get_metrics_df env results;
  let '(df, df_pass_hat_k) := r in
  let avg_reward_v := frame_reward_mean env df in
  pass_hat_ks_v ← pass_hat_columns df_pass_hat_k;
  let avg_agent_cost_v := frame_agent_cost_mean env df in
  assemble results avg_reward_v pass_hat_ks_v avg_agent_cost_v.

Definition compute_metrics (results : Results Task) : result AgentMetrics :=
  catch_all (compute_metrics_full results)
            (fun _ => compute_metrics_simple results).

End Report.

End AgentMetrics.



(** * Vocabulary of the properties *)

Module Spec.

(** The number of assistant messages in a stretch of transcript. *)
Definition count_assistant (messages : list Message) : Z :=
  Z.of_nat (length (filter (fun msg => is_assistant msg = true) messages)).

(** The tool calls of a transcript, in transcript order. *)
Definition transcript_calls (messages : list Message) : list ToolCall :=
  flat_map msg_tool_calls messages.

(** The infos the scan appends for a message reached with counter [seen]. *)
Definition infos_at (tool_results : gmap string ToolResult) (seen : Z) (msg : Message)
  : list Tcrr.ToolCallInfo :=
  map (Tcrr.tool_call_info tool_results msg (seen + Z.b2z (is_assistant msg)))
      (msg_tool_calls msg).

(** The outcome an extractor stores for a tool message. *)
Definition outcome_of (t : ToolMessage) : ToolResult :=
  {| tr_success := negb (tm_error t); tr_error := tm_error t;
     tr_content := tm_content t |}.

(** The result correlated with a call id: the last tool message of the
    transcript that carries this id, if there is one. *)
Fixpoint correlated (messages : list Message) (id : string) : option ToolMessage :=
  match messages with
  | [] => None
  | msg :: rest =>
      match correlated rest id with
      | Some t => Some t
      | None =>
          match msg with
          | ToolMsg t => if String.eqb (tm_id t) id then Some t else None
          | _ => None
          end
      end
  end.

(** [text] contains [keyword], letter case aside: some stretch of [text]
    reads as [keyword] once both are lower-cased. *)
Definition contains_nocase (keyword text : string) : Prop :=
  exists before mid after : string,
    text = before +:+ mid +:+ after /\ lower mid = lower keyword.

(** The content of a correlated result reports a parameter error. *)
Definition reports_param_error (t : ToolMessage) : Prop :=
  tm_error t = true
  /\ exists content keyword,
       tm_content t = Some content
       /\ In keyword param_error_keywords
       /\ contains_nocase keyword content.

(** The flags the specification gives a call of the transcript
    [messages]: [correct] is the success flag of the correlated result,
    or true without one; [valid] is false exactly when the correlated
    result reports a parameter error. *)
Definition flags_as_specified (messages : list Message) (tool_call : ToolCall)
    (correct valid : bool) : Prop :=
  correct = match correlated messages (tc_id tool_call) with
            | Some t => negb (tm_error t)
            | None => true
            end
  /\ (valid = false
      <-> exists t, correlated messages (tc_id tool_call) = Some t
                    /\ reports_param_error t).

(** What the inner loop of [tcrr.py] makes of an item that is not a
    mapping. *)
Definition plain_item (item : pyval) : pyval :=
  match item with
  | PList sub => Tcrr.str_tuple sub
  | _ => item
  end.

(** The elements of a list can all be compared with one another (and with
    themselves) by [<]. *)
Definition mutually_orderable (l : list pyval) : bool :=
  forallb (fun x => forallb (fun y => bool_decide (is_Some (py_lt x y))) l) l.

(** [keys_permuted v v']: [v'] is [v] with the entries of some of its
    mappings permuted, at any depth; lists keep their order. *)
#[local] Unset Elimination Schemes.
Inductive keys_permuted : pyval -> pyval -> Prop :=
| kp_same (v : pyval) : keys_permuted v v
| kp_list (l l' : list pyval) :
    Forall2 keys_permuted l l' ->
    keys_permuted (PList l) (PList l')
| kp_dict (d e d' : list (pyval * pyval)) :
    Forall2 (fun kv kv' : pyval * pyval => kv.1 = kv'.1 /\ keys_permuted kv.2 kv'.2) d e ->
    Permutation e d' ->
    keys_permuted (PDict d) (PDict d').
#[local] Set Elimination Schemes.

(** The items of a list value, as the inner loop of [tcrr.py] normalizes
    them, can all be compared with one another: the sort of line 64 goes
    through in whatever order the items come. *)
Definition items_sort (l : list pyval) : Prop :=
  exists ns, mapM Tcrr.normalize_item l = Ok ns /\ mutually_orderable ns = true.

(** [reordered_tcrr a a']: what [tcrr.py] canonicalizes. [a'] is [a] with
    the entries of some mappings permuted and some list values
    reordered. The mappings concerned are [a] itself, the values reached
    through mapping-valued entries, and the mappings that are items of a
    list value whose normalized items sort (and what is reached from
    these in the same ways); the list values concerned are those whose
    normalized items sort. The other items of a list value stay as they
    are. *)
#[local] Unset Elimination Schemes.
Inductive reordered_tcrr : pyval -> pyval -> Prop :=
| rt_same (v : pyval) : reordered_tcrr v v
| rt_list (l e l' : list pyval) :
    items_sort l ->
    Forall2 (fun x y : pyval =>
               x = y \/ ((exists d, x = PDict d) /\ reordered_tcrr x y)) l e ->
    Permutation e l' ->
    reordered_tcrr (PList l) (PList l')
| rt_dict (d e d' : list (pyval * pyval)) :
    Forall2 (fun kv kv' : pyval * pyval =>
               kv.1 = kv'.1 /\ reordered_tcrr kv.2 kv'.2) d e ->
    Permutation e d' ->
    reordered_tcrr (PDict d) (PDict d').
#[local] Set Elimination Schemes.

(** [reordered_am a a']: what [agent_metrics.py] canonicalizes. The
    mappings whose entries may be permuted are [a] itself and the values
    reached through mapping-valued entries; a list value may be
    reordered when its elements are mutually orderable as they stand.
    The items of a list value are not normalized, but they are compared
    with [==], which does not see the key order of a mapping: inside the
    items of a list value that is mutually orderable, or has at most one
    item (it is then sorted without a comparison), the keys of mappings
    at any depth may be permuted. *)
#[local] Unset Elimination Schemes.
Inductive reordered_am : pyval -> pyval -> Prop :=
| ra_same (v : pyval) : reordered_am v v
| ra_list (l e l' : list pyval) :
    mutually_orderable l = true \/ (length l <= 1)%nat ->
    Forall2 keys_permuted l e ->
    Permutation e l' ->
    reordered_am (PList l) (PList l')
| ra_dict (d e d' : list (pyval * pyval)) :
    Forall2 (fun kv kv' : pyval * pyval =>
               kv.1 = kv'.1 /\ reordered_am kv.2 kv'.2) d e ->
    Permutation e d' ->
    reordered_am (PDict d) (PDict d').
#[local] Set Elimination Schemes.

(** An argument mapping whose list value holds two mappings that cannot
    be ordered, and the same with the keys of the first one permuted. *)
Definition nested_args : pyval :=
  PDict [(PStr "filters",
          PList [ PDict [(PStr "a", PInt 1); (PStr "b", PInt 2)];
                  PDict [(PStr "a", PStr "s")] ])].

Definition nested_args_permuted : pyval :=
  PDict [(PStr "filters",
          PList [ PDict [(PStr "b", PInt 2); (PStr "a", PInt 1)];
                  PDict [(PStr "a", PStr "s")] ])].

(** An argument mapping whose list value holds lists, and the same with
    the first inner list reordered. *)
Definition inner_list_args : pyval :=
  PDict [(PStr "ids", PList [ PList [PInt 2; PInt 1]; PList [PInt 3] ])].

Definition inner_list_args_reordered : pyval :=
  PDict [(PStr "ids", PList [ PList [PInt 1; PInt 2]; PList [PInt 3] ])].

(** An argument mapping whose list value holds two mappings that sort
    once normalized, and the same with the keys of the first one
    permuted. *)
Definition filter_args : pyval :=
  PDict [(PStr "filters",
          PList [ PDict [(PStr "a", PInt 1); (PStr "b", PInt 2)];
                  PDict [(PStr "a", PInt 3); (PStr "b", PInt 4)] ])].

Definition filter_args_permuted : pyval :=
  PDict [(PStr "filters",
          PList [ PDict [(PStr "b", PInt 2); (PStr "a", PInt 1)];
                  PDict [(PStr "a", PInt 3); (PStr "b", PInt 4)] ])].

(** A search request with a list of numbers, a list of mappings and a
    nested mapping, and the same with every key order and list order
    changed. *)
Definition search_args : pyval :=
  PDict [ (PStr "query", PStr "shoes");
          (PStr "sizes", PList [PInt 44; PInt 42; PInt 43]);
          (PStr "filters",
           PList [ PDict [(PStr "field", PStr "size"); (PStr "max", PInt 44)];
                   PDict [(PStr "field", PStr "price"); (PStr "max", PInt 90)] ]);
          (PStr "page", PDict [ (PStr "size", PInt 10);
                                (PStr "sort", PList [PStr "price"; PStr "name"]) ]) ].

Definition search_args_permuted : pyval :=
  PDict [ (PStr "page", PDict [ (PStr "sort", PList [PStr "name"; PStr "price"]);
                                (PStr "size", PInt 10) ]);
          (PStr "filters",
           PList [ PDict [(PStr "max", PInt 90); (PStr "field", PStr "price")];
                   PDict [(PStr "max", PInt 44); (PStr "field", PStr "size")] ]);
          (PStr "sizes", PList [PInt 42; PInt 43; PInt 44]);
          (PStr "query", PStr "shoes") ].

(** A transfer request with a list of numbers, a nested mapping and a
    list that holds one mapping, and the same with the keys permuted
    (those of the mapping in the list too) and the numbers reordered. *)
Definition transfer_args : pyval :=
  PDict [ (PStr "to", PStr "A2");
          (PStr "amounts", PList [PInt 30; PInt 10; PInt 20]);
          (PStr "only", PList [ PDict [ (PStr "a", PInt 1);
                                        (PStr "b", PList [PInt 2; PInt 1]) ] ]);
          (PStr "options", PDict [ (PStr "notify", PBool true);
                                   (PStr "tags", PList [PStr "x"; PStr "a"]) ]) ].

Definition transfer_args_permuted : pyval :=
  PDict [ (PStr "options", PDict [ (PStr "tags", PList [PStr "a"; PStr "x"]);
                                   (PStr "notify", PBool true) ]);
          (PStr "only", PList [ PDict [ (PStr "b", PList [PInt 2; PInt 1]);
                                        (PStr "a", PInt 1) ] ]);
          (PStr "amounts", PList [PInt 10; PInt 20; PInt 30]);
          (PStr "to", PStr "A2") ].




(** A call of [get_balance] on one account, made in assistant turn [t]. *)
Definition balance_call (t : Z) : Tcrr.ToolCallInfo :=
  {| Tcrr.name := "get_balance";
     Tcrr.params := PDict [(PStr "account_id", PStr "A1")];
     Tcrr.turn_idx := 0;
     Tcrr.assistant_turn_idx := t;
     Tcrr.call_id := "call";
     Tcrr.correct := true;
     Tcrr.params_valid := true |}.

(** Collaborators that all fail: every enhanced estimator and pandas
    raise. *)
Definition failing_collaborators : AgentMetrics.Collaborators unit unit :=
  {| AgentMetrics.compute_tsr_enhanced := fun _ _ => Raise ValueError;
     AgentMetrics.compute_tue_enhanced_for_simulations := fun _ => Raise ValueError;
     AgentMetrics.compute_tue_by_task := fun _ => Raise ValueError;
     AgentMetrics.compute_gsrt_enhanced_metrics := fun _ _ _ _ => Raise RuntimeError;
     AgentMetrics.get_metrics_df := fun _ => Raise KeyError;
     AgentMetrics.frame_reward_mean := fun _ => 0%Q;
     AgentMetrics.frame_agent_cost_mean := fun _ => 0%Q;
     AgentMetrics.np_percentile := fun _ _ => 1%Q |}.

(** A run whose reward, 0.5, is positive and below the success band. *)
Definition half_reward_run : AgentMetrics.SimulationRun :=
  {| AgentMetrics.task_id := "t"; AgentMetrics.messages := [];
     AgentMetrics.reward_info := Some {| AgentMetrics.reward := 1 # 2 |};
     AgentMetrics.agent_cost := None |}.

(** Results with a run of reward 1 and a run of reward 0 that made one
    tool call. *)
Definition two_runs : AgentMetrics.Results unit :=
  {| AgentMetrics.tasks := [tt];
     AgentMetrics.simulations :=
       [ {| AgentMetrics.task_id := "t1";
            AgentMetrics.messages :=
              [ AssistantMsg
                  {| pm_tool_calls :=
                       Some [ {| tc_id := "c1"; tc_name := "get_balance";
                                 tc_arguments := PDict [(PStr "account_id", PStr "A1")];
                                 tc_requestor := "assistant" |} ];
                     pm_turn_idx := Some 1;
                     pm_cost := None |} ];
            AgentMetrics.reward_info := Some {| AgentMetrics.reward := 0 |};
            AgentMetrics.agent_cost := None |};
         {| AgentMetrics.task_id := "t2";
            AgentMetrics.messages := [];
            AgentMetrics.reward_info := Some {| AgentMetrics.reward := 1 |};
            AgentMetrics.agent_cost := None |} ];
     AgentMetrics.info :=
       {| AgentMetrics.gsrt_judge_llm := None;
          AgentMetrics.gsrt_judge_llm_args := None |} |}.

End Spec.
Import Spec.

Module Counters.

(** The sum of the values of a per-turn counter such as
    [redundant_by_turn]. *)
Definition counter_total (m : gmap Z Z) : Z :=
  foldr Z.add 0 (map snd (map_to_list m)).

(** What the loop over [call_identities.items()] adds for the entries
    [d]: the count in excess of the threshold, for the counts above it. *)
Definition batch_excess (batch_threshold : Z) (d : list (pyval * Z)) : Z :=
  foldr (fun entry acc => Z.max 0 (entry.2 - batch_threshold) + acc) 0 d.

(** The number of calls filed under the turns [ts]. *)
Definition calls_in (m : gmap Z (list Tcrr.ToolCallInfo)) (ts : list Z) : Z :=
  foldr (fun t acc => Z.of_nat (length (default [] (m !! t))) + acc) 0 ts.

End Counters.
Import Counters.

(** ** [tcrr.py]: per-task results *)

Module TcrrByTask.
Import Tcrr.

(** [sims_by_task[task_id].append(sim)], for a dict kept as its list of
    entries in insertion order. *)
Fixpoint file_simulation (sims_by_task : list (string * list AgentMetrics.SimulationRun))
    (sim : AgentMetrics.SimulationRun)
  : list (string * list AgentMetrics.SimulationRun) :=
  match sims_by_task with
  | [] => [(AgentMetrics.task_id sim, [sim])]
  | (task_id, task_sims) :: rest =>
      if String.eqb task_id (AgentMetrics.task_id sim)
      then (task_id, task_sims ++ [sim]) :: rest
      else (task_id, task_sims) :: file_simulation rest sim
  end.

Definition group_by_task (simulations : list AgentMetrics.SimulationRun)
  : list (string * list AgentMetrics.SimulationRun) :=
  fold_left file_simulation simulations [].

(** The calls of the runs of one task, run after run. *)
Definition task_calls (task_sims : list AgentMetrics.SimulationRun) : list ToolCallInfo :=
  flat_map (fun sim => extract_tool_calls_with_turns (AgentMetrics.messages sim)) task_sims.

(** One iteration of [for task_id, task_sims in sims_by_task.items()];
    the state is [(results_by_task, all_tool_calls)]. *)
Definition task_step (window_sz batch_threshold : Z)
    (st : list (string * TCRRResult) * list ToolCallInfo)
    (entry : string * list AgentMetrics.SimulationRun)
  : result (list (string * TCRRResult) * list ToolCallInfo) :=
  let task_tool_calls := task_calls entry.2 in
  r ← compute_tcrr_windowed task_tool_calls window_sz batch_threshold;
  Ok (st.1 ++ [(entry.1, r)], st.2 ++ task_tool_calls).

(** [compute_tcrr]; the window size and the batch threshold are what
    [get_tcrr_window_size()] and [get_tcrr_batch_threshold()] of
    [tau2.metrics.config] return (a module the source imports and does
    not contain). [results_by_task] is the dict as its list of entries, in
    insertion order. *)
Definition compute_tcrr (window_sz batch_threshold : Z)
    (simulations : list AgentMetrics.SimulationRun)
  : result (TCRRResult * list (string * TCRRResult)) :=
  st ← foldM (task_step window_sz batch_threshold) (group_by_task simulations) ([], []);
  aggregated_result ← compute_tcrr_windowed st.2 window_sz batch_threshold;
  Ok (aggregated_result, st.1).

(** An entry of [problematic_tasks]. *)
Record ProblematicTask : Type := {
  p_task_id : string;
  p_redundancy_ratio : Q;
  p_total_calls : Z;
  p_redundant_calls : Z
}.

(** [list.sort(key=..., reverse=True)] on float keys: a stable sort,
    greatest key first; an element goes behind the elements placed before
    it whose key is not smaller. *)
Fixpoint insert_descending (x : ProblematicTask) (l : list ProblematicTask)
  : list ProblematicTask :=
  match l with
  | [] => [x]
  | y :: l' =>
      if AgentMetrics.Qlt_bool (p_redundancy_ratio y) (p_redundancy_ratio x)
      then x :: y :: l'
      else y :: insert_descending x l'
  end.

Definition sort_descending (l : list ProblematicTask) : list ProblematicTask :=
  fold_left (fun acc x => insert_descending x acc) l [].

Definition problematic (entry : string * TCRRResult) : bool :=
  AgentMetrics.Qlt_bool (3 # 10) (redundancy_ratio entry.2).

Definition problematic_entry (entry : string * TCRRResult) : ProblematicTask :=
  {| p_task_id := entry.1;
     p_redundancy_ratio := redundancy_ratio entry.2;
     p_total_calls := total_calls entry.2;
     p_redundant_calls := redundant_calls entry.2 |}.

(** [get_detailed_tcrr_breakdown]: the value under the one key,
    ['problematic_tasks'], of the dict it returns. *)
Definition get_detailed_tcrr_breakdown (results_by_task : list (string * TCRRResult))
  : list ProblematicTask :=
  let problematic_tasks :=
    map problematic_entry
        (filter (fun entry => problematic entry = true) results_by_task) in
  take 5 (sort_descending problematic_tasks).

End TcrrByTask.

(** ** [agent_metrics.py]: task ids and data frames *)

Module MetricsHelpers.

(** [s.split(sep)] for a separator of one character: the pieces between
    the occurrences of [sep], at least one piece. *)
Fixpoint split (sep : ascii) (s : string) : list string :=
  match s with
  | EmptyString => [EmptyString]
  | String c s' =>
      if Ascii.eqb c sep then EmptyString :: split sep s'
      else
        match split sep s' with
        | part :: parts => String c part :: parts
        | [] => [String c EmptyString]
        end
  end.

(** [extract_domain_from_task_id]: [parts[0]] when [len(parts) > 0]. *)
Definition extract_domain_from_task_id (task_id : string) : string :=
  let parts := split "_" task_id in
  match parts with
  | part :: _ => part
  | [] => "unknown"
  end.

Section Frames.
Context {Task Frame : Type} (env : AgentMetrics.Collaborators Task Frame).

(** The pandas tail of [get_tasks_pass_hat_k] and [prepare_dfs]: the
    column [num_actions] taken from [df] and the sort by it. *)
Variable with_num_actions : Frame -> Frame -> result Frame.

(** [get_tasks_pass_hat_k]: after [get_metrics_df(results)] the function
    calls itself with the same argument. [depth] is the number of stack
    frames left before Python's recursion limit, at which the call raises
    [RecursionError] (a [RuntimeError]). *)
Fixpoint get_tasks_pass_hat_k (depth : nat) (results : AgentMetrics.Results Task)
  : result Frame :=
  match depth with
  | O => Raise RuntimeError
  | S depth' =>
      r ← AgentMetrics.get_metrics_df env results;
      df_pass_hat_k ← get_tasks_pass_hat_k depth' results;
      with_num_actions r.1 df_pass_hat_k
  end.

Definition prepare_dfs (depth : nat) (results : AgentMetrics.Results Task)
  : result (Frame * Frame) :=
  match depth with
  | O => Raise RuntimeError
  | S depth' =>
      r ← AgentMetrics.get_metrics_df env results;
      df_pass_hat_k ← get_tasks_pass_hat_k depth' results;
      df_pass_hat_k ← with_num_actions r.1 df_pass_hat_k;
      Ok (r.1, df_pass_hat_k)
  end.

End Frames.

End MetricsHelpers.

(** ** [domains/banking/environment.py] *)

Module Banking.

(** *** Containers

    [in], subscription and item assignment on the objects of a JSON
    document. *)

(** [d[k] = v] on the entries of a dict: the value of an existing key is
    replaced in place, a new key goes to the end. *)
Fixpoint dict_set (d : list (pyval * pyval)) (k v : pyval) : list (pyval * pyval) :=
  match d with
  | [] => [(k, v)]
  | (k', v') :: d' => if py_eq k' k then (k', v) :: d' else (k', v') :: dict_set d' k v
  end.

(** [seq[i]] for an integer [i]: negative indices count from the end. *)
Definition seq_index {A} (l : list A) (i : Z) : result A :=
  let n := Z.of_nat (length l) in
  let j := if i <? 0 then i + n else i in
  if (0 <=? j) && (j <? n) then
    match l !! Z.to_nat j with
    | Some x => Ok x
    | None => Raise IndexError
    end
  else Raise IndexError.

Fixpoint chars (s : string) : list string :=
  match s with
  | EmptyString => []
  | String c s' => String c EmptyString :: chars s'
  end.

(** [x in container] *)
Definition py_in (x container : pyval) : result bool :=
  match container with
  | PDict d =>
      if py_hashable x
      then Ok (bool_decide (is_Some (dict_get (fun k => py_eq k x) d)))
      else Raise TypeError
  | PList l | PTuple l => Ok (existsb (fun y => py_eq y x) l)
  | PStr s =>
      match x with
      | PStr t => Ok (str_contains t s)
      | _ => Raise TypeError
      end
  | _ => Raise TypeError
  end.

(** [container[key]] *)
Definition py_getitem (container key : pyval) : result pyval :=
  match container with
  | PDict d =>
      if py_hashable key then
        match dict_get (fun k => py_eq k key) d with
        | Some v => Ok v
        | None => Raise KeyError
        end
      else Raise TypeError
  | PList l | PTuple l =>
      match as_number key with
      | Some i => seq_index l i
      | None => Raise TypeError
      end
  | PStr s =>
      match as_number key with
      | Some i => c ← seq_index (chars s) i; Ok (PStr c)
      | None => Raise TypeError
      end
  | _ => Raise TypeError
  end.

(** [container[key] = value]: the container after the assignment. *)
Definition py_setitem (container key value : pyval) : result pyval :=
  match container with
  | PDict d =>
      if py_hashable key then Ok (PDict (dict_set d key value)) else Raise TypeError
  | PList l =>
      match as_number key with
      | Some i =>
          _ ← seq_index l i;
          let n := Z.of_nat (length l) in
          let j := if i <? 0 then i + n else i in
          Ok (PList (<[Z.to_nat j := value]> l))
      | None => Raise TypeError
      end
  | _ => Raise TypeError
  end.

(** [d.get(key)] for a string key. *)
Definition entry (d : list (pyval * pyval)) (key : string) : option pyval :=
  dict_get (fun k => py_eq k (PStr key)) d.

(** *** Personas *)

(** [inject_persona_data]. The assignment
    [task_data["user_scenario"]["persona"] = ...] changes the scenario
    object that [task_data] holds; the function returns [task_data], here
    with that scenario in its place. *)
Definition inject_persona_data (task_data personas : pyval) : result pyval :=
  has_scenario ← py_in (PStr "user_scenario") task_data;
  has_persona ←
    (if has_scenario : bool then
       scenario ← py_getitem task_data (PStr "user_scenario");
       py_in (PStr "persona") scenario
     else Ok false);
  if has_persona : bool then
    scenario ← py_getitem task_data (PStr "user_scenario");
    persona_key ← py_getitem scenario (PStr "persona");
    known ← py_in persona_key personas;
    if known : bool then
      persona ← py_getitem personas persona_key;
      scenario ← py_getitem task_data (PStr "user_scenario");
      scenario ← py_setitem scenario (PStr "persona") persona;
      py_setitem task_data (PStr "user_scenario") scenario
    else Ok task_data
  else Ok task_data.

(** A task that names its persona, and the personas on file. *)
Definition named_persona_task : list (pyval * pyval) :=
  [ (PStr "id", PStr "banking_001");
    (PStr "user_scenario",
     PDict [ (PStr "persona", PStr "EASY_1");
             (PStr "instructions", PStr "Ask for the balance.") ]) ].

Definition personas_on_file : list (pyval * pyval) :=
  [ (PStr "EASY_1", PDict [(PStr "tone", PStr "polite")]);
    (PStr "HARD_1", PDict [(PStr "tone", PStr "curt")]) ].

(** *** Synchronisation *)

(** Modelled from the source: the attributes of the customer, account
    and card records that [sync_tools] reads (the classes are in
    [tau2.domains.banking.data_model], which the source imports and does
    not contain). *)
Record Customer : Type := {
  c_customer_id : string;
  account_ids : list string;
  card_ids : list string
}.

Record Account : Type := {
  a_account_id : string;
  a_status : string;
  current_balance : Q
}.

Record Card : Type := {
  k_card_id : string;
  k_status : string
}.

(** The attributes of the user database that [sync_tools] reads and
    writes ([BankingUserDB] is not part of the source either). *)
Record UserDB : Type := {
  phone_number : option string;
  customer_id : option string;
  primary_account_active : option bool;
  primary_account_id : option string;
  account_balance : option Q;
  primary_card_active : option bool;
  primary_card_id : option string
}.

(** The lookups of [BankingTools] that [sync_tools] calls. *)
Record Tools : Type := {
  get_customer_by_phone : string -> result Customer;
  get_account : string -> result Account;
  _get_card : string -> result Card
}.

(** A block that changes the database and can raise: its outcome and the
    database as it is when the block ends or raises. *)
Definition Sync (A : Type) : Type := UserDB -> result A * UserDB.

Definition sync_ret {A} (a : A) : Sync A := fun db => (Ok a, db).

Definition sync_bind {A B} (m : Sync A) (k : A -> Sync B) : Sync B :=
  fun db =>
    match m db with
    | (Ok a, db') => k a db'
    | (Raise e, db') => (Raise e, db')
    end.

(** A call that leaves the database alone. *)
Definition call {A} (r : result A) : Sync A := fun db => (r, db).

(** An attribute assignment. *)
Definition assign (f : UserDB -> UserDB) : Sync unit := fun db => (Ok tt, f db).

(** The body of the [try] of [sync_tools]. *)
Definition sync_body (tools : Tools) (phone : string) : Sync unit :=
  sync_bind (call (get_customer_by_phone tools phone)) (fun customer =>
  sync_bind (assign (fun db =>
     {| phone_number := phone_number db;
        customer_id := Some (c_customer_id customer);
        primary_account_active := primary_account_active db;
        primary_account_id := primary_account_id db;
        account_balance := account_balance db;
        primary_card_active := primary_card_active db;
        primary_card_id := primary_card_id db |})) (fun _ =>
  sync_bind
    (match account_ids customer with
     | first_account :: _ =>
         sync_bind (call (get_account tools first_account)) (fun account =>
         assign (fun db =>
           {| phone_number := phone_number db;
              customer_id := customer_id db;
              primary_account_active := Some (String.eqb (a_status account) "Active");
              primary_account_id := Some (a_account_id account);
              account_balance := Some (current_balance account);
              primary_card_active := primary_card_active db;
              primary_card_id := primary_card_id db |}))
     | [] => sync_ret tt
     end) (fun _ =>
  match card_ids customer with
  | first_card :: _ =>
      sync_bind (call (_get_card tools first_card)) (fun card =>
      assign (fun db =>
        {| phone_number := phone_number db;
           customer_id := customer_id db;
           primary_account_active := primary_account_active db;
           primary_account_id := primary_account_id db;
           account_balance := account_balance db;
           primary_card_active := Some (String.eqb (k_status card) "Active");
           primary_card_id := Some (k_card_id card) |}))
  | [] => sync_ret tt
  end))).

(** [sync_tools]: nothing without a phone number ([None] or empty);
    otherwise the body, whose exceptions are swallowed. The result is the
    user database afterwards. *)
Definition sync_tools (tools : Tools) (db : UserDB) : UserDB :=
  match phone_number db with
  | None => db
  | Some phone =>
      if String.eqb phone "" then db
      else (sync_body tools phone db).2
  end.

End Banking.

(** ** [domains/retail/user_simulator.py] *)

Module RetailUser.

(** Texts are held as their UTF-8 bytes. [code_points] reads the
    characters back: one to four bytes each; a byte sequence that is not
    UTF-8 (a Python [str] never gives one) is read as U+FFFD. *)
Definition continuation (b : ascii) : option N :=
  let n := N_of_ascii b in
  if ((128 <=? n) && (n <? 192))%N then Some (n - 128)%N else None.

Definition replacement_character : N := 65533%N.

Fixpoint code_points (s : string) : list N :=
  match s with
  | EmptyString => []
  | String b0 s1 =>
      let n0 := N_of_ascii b0 in
      if (n0 <? 128)%N then n0 :: code_points s1
      else if ((n0 <? 192) || (248 <=? n0))%N then replacement_character :: code_points s1
      else
        match s1 with
        | String b1 s2 =>
            match continuation b1 with
            | Some c1 =>
                if (n0 <? 224)%N then ((n0 - 192) * 64 + c1)%N :: code_points s2
                else
                  match s2 with
                  | String b2 s3 =>
                      match continuation b2 with
                      | Some c2 =>
                          if (n0 <? 240)%N
                          then ((n0 - 224) * 4096 + c1 * 64 + c2)%N :: code_points s3
                          else
                            match s3 with
                            | String b3 s4 =>
                                match continuation b3 with
                                | Some c3 =>
                                    ((n0 - 240) * 262144 + c1 * 4096 + c2 * 64 + c3)%N
                                    :: code_points s4
                                | None => replacement_character :: code_points s1
                                end
                            | EmptyString => replacement_character :: code_points s1
                            end
                      | None => replacement_character :: code_points s1
                      end
                  | EmptyString => replacement_character :: code_points s1
                  end
            | None => replacement_character :: code_points s1
            end
        | EmptyString => [replacement_character]
        end
  end.

(** [c.isspace()], the characters [str.strip()] removes: the ASCII
    whitespace U+0009 to U+000D, U+001C to U+0020, and U+0085, U+00A0,
    U+1680, U+2000 to U+200A, U+2028, U+2029, U+202F, U+205F, U+3000. *)
Definition is_space (c : N) : bool :=
  (((9 <=? c) && (c <=? 13)) || ((28 <=? c) && (c <=? 32))
   || (c =? 133) || (c =? 160) || (c =? 5760)
   || ((8192 <=? c) && (c <=? 8202))
   || (c =? 8232) || (c =? 8233) || (c =? 8239) || (c =? 8287) || (c =? 12288))%N.

(** [s.strip() == ""]: every character of [s] is whitespace. *)
Definition is_blank (s : string) : bool := forallb is_space (code_points s).

(** The text made of U+00A0 (no-break space) alone. *)
Definition no_break_space : string :=
  String (ascii_of_nat 194) (String (ascii_of_nat 160) EmptyString).

Section Simulator.
(** The payloads the simulator passes on without looking at them. *)
Context {Usage RawData : Type}.

(** Modelled from the source: the attributes of the messages of
    [tau2.data_model.message] that the simulator reads and writes (the
    module is imported by the source and not part of it). *)
Record AssistantMessage : Type := {
  a_content : option string;
  a_tool_calls : option (list ToolCall);
  a_cost : option Q;
  a_usage : option Usage;
  a_raw_data : option RawData
}.

Record UserMessage : Type := {
  u_content : option string;
  u_tool_calls : option (list ToolCall);
  u_cost : option Q;
  u_usage : option Usage;
  u_raw_data : option RawData
}.

Inductive ChatMessage : Type :=
| FromSystem (content : string)
| FromAssistant (m : AssistantMessage)
| FromUser (m : UserMessage)
| FromTool (m : ToolMessage)
| FromTools (tool_messages : list ToolMessage).

Record UserState : Type := {
  system_messages : list ChatMessage;
  messages : list ChatMessage
}.

(** What the simulator calls and the source does not contain:
    [UserState.flip_roles] and the language model behind [generate]
    (with the simulator's model, tools and arguments). *)
Variable flip_roles : UserState -> result (list ChatMessage).
Variable generate : list ChatMessage -> result AssistantMessage.

(** [state.messages.extend(message.tool_messages)] for a bundle,
    [state.messages.append(message)] otherwise. *)
Definition receive (message : ChatMessage) (state : UserState) : UserState :=
  {| system_messages := system_messages state;
     messages :=
       match message with
       | FromTools tool_messages => messages state ++ map FromTool tool_messages
       | _ => messages state ++ [message]
       end |}.

(** The tool call attributed to the user. *)
Definition as_user_call (tool_call : ToolCall) : ToolCall :=
  {| tc_id := tc_id tool_call;
     tc_name := tc_name tool_call;
     tc_arguments := tc_arguments tool_call;
     tc_requestor := "user" |}.

(** [bool(getattr(assistant_message, "tool_calls", None))] *)
Definition has_tool_calls (m : AssistantMessage) : bool :=
  match a_tool_calls m with
  | Some (_ :: _) => true
  | _ => false
  end.

(** The content after the step that ensures a non-empty content. *)
Definition ensured_content (m : AssistantMessage) : option string :=
  if negb (has_tool_calls m)
     && match a_content m with
        | None => true
        | Some content => is_blank content
        end
  then Some "(no content)"
  else a_content m.

(** The user message built from the reply. *)
Definition user_message_of (m : AssistantMessage) : UserMessage :=
  {| u_content := ensured_content m;
     u_tool_calls :=
       match a_tool_calls m with
       | Some (tool_call :: tool_calls) => Some (map as_user_call (tool_call :: tool_calls))
       | _ => None
       end;
     u_cost := a_cost m;
     u_usage := a_usage m;
     u_raw_data := a_raw_data m |}.

Definition fallback_message : UserMessage :=
  {| u_content := Some "I'm having trouble responding. Could you please repeat that?";
     u_tool_calls := None;
     u_cost := None;
     u_usage := None;
     u_raw_data := None |}.

(** [_generate_next_message]. The incoming message is added to
    [state.messages] first, in place; the handler of the [try] then
    builds its state from the list as it is by then. *)
Definition _generate_next_message (message : ChatMessage) (state : UserState)
  : UserMessage * UserState :=
  let state := receive message state in
  match flipped ← flip_roles state;
        generate (system_messages state ++ flipped) with
  | Ok assistant_message =>
      let user_message := user_message_of assistant_message in
      (user_message,
       {| system_messages := system_messages state;
          messages := messages state ++ [FromUser user_message] |})
  | Raise _ =>
      let user_message := fallback_message in
      (user_message,
       {| system_messages := system_messages state;
          messages := messages state ++ [message; FromUser user_message] |})
  end.

End Simulator.

End RetailUser.

(** ** Repeated calls *)

Module Repeats.
Import Tcrr.

(** Two calls with equal identities [(name, normalized_params(params))]. *)
Definition same_call (a b : ToolCallInfo) : bool :=
  py_eq (batch_identity a) (batch_identity b).

(** [earlier] was made in one of the turns
    [range(max(1, turn - window_size), turn)] before the turn of [call]. *)
Definition in_window (window_sz : Z) (earlier call : ToolCallInfo) : bool :=
  (Z.max 1 (assistant_turn_idx call - window_sz) <=? assistant_turn_idx earlier)
  && (assistant_turn_idx earlier <? assistant_turn_idx call).

(** [call] repeats a call of the window before its turn. *)
Definition repeats_earlier (tool_calls : list ToolCallInfo) (window_sz : Z)
    (call : ToolCallInfo) : bool :=
  existsb (fun earlier => in_window window_sz earlier call && same_call earlier call)
          tool_calls.

(** The number of calls that repeat a call of their window. *)
Definition window_repeats (tool_calls : list ToolCallInfo) (window_sz : Z) : Z :=
  Z.of_nat (length (List.filter (repeats_earlier tool_calls window_sz) tool_calls)).

(** The number of calls of the turn of [call] that are the same call
    ([call] itself included, when it is in the list). *)
Definition copies_in_turn (tool_calls : list ToolCallInfo) (call : ToolCallInfo) : Z :=
  Z.of_nat (length (List.filter
                      (fun other =>
                         (assistant_turn_idx other =? assistant_turn_idx call)
                         && same_call other call)
                      tool_calls)).

(** The number of calls of [calls] whose identity is [x]. *)
Definition copies_of (calls : list ToolCallInfo) (x : pyval) : Z :=
  Z.of_nat (length (List.filter (fun c => py_eq (batch_identity c) x) calls)).

(** What the counting loop has built after the calls [done]: a dict
    [d] with one entry per identity met, holding the number of calls
    with that identity. *)
Definition counted (d : list (pyval * Z)) (done : list ToolCallInfo) : Prop :=
  StronglySorted (fun k k' => py_eq k k' = false) (map fst d)
  /\ Forall (fun e => wf_value e.1 = true
                     /\ e.2 = copies_of done e.1
                     /\ exists c0, In c0 done /\ py_eq (batch_identity c0) e.1 = true) d
  /\ (forall c0, In c0 done ->
        existsb (fun k => py_eq k (batch_identity c0)) (map fst d) = true).

(** The calls of turn [t] that repeat a call of their window, summed
    over the turns [ts]. *)
Definition repeats_in (tool_calls : list ToolCallInfo) (window_sz : Z) (ts : list Z) : Z :=
  foldr (fun t acc =>
           Z.of_nat (length (List.filter (repeats_earlier tool_calls window_sz)
                               (List.filter (fun c => assistant_turn_idx c =? t)
                                            tool_calls))) + acc)
        0 ts.

(** No two calls of the list have the same identity. *)
Fixpoint all_distinct (tool_calls : list ToolCallInfo) : bool :=
  match tool_calls with
  | [] => true
  | call :: rest =>
      forallb (fun other => negb (same_call call other)) rest && all_distinct rest
  end.

(** A balance request for [account], made in assistant turn [t]. *)
Definition balance_of (account : string) (t : Z) : ToolCallInfo :=
  {| name := "get_balance";
     params := PDict [(PStr "account_id", PStr account)];
     turn_idx := 0;
     assistant_turn_idx := t;
     call_id := "call";
     correct := true;
     params_valid := true |}.

End Repeats.

(** ** Arguments the two canonical forms agree on *)

Module FlatArgs.

(** Neither a dict nor a list. *)
Definition scalar (v : pyval) : bool :=
  match v with
  | PDict _ | PList _ => false
  | _ => true
  end.

(** Every list that is a value of the mapping, or of a mapping nested in
    it as a value, holds scalars only. *)
Fixpoint flat_lists (v : pyval) : bool :=
  match v with
  | PDict d => forallb (fun kv : pyval * pyval => flat_lists kv.2) d
  | PList l => forallb scalar l
  | _ => true
  end.

(** Arguments with a list of lists. *)
Definition nested_list_args : pyval :=
  PDict [(PStr "ids", PList [PList [PInt 1; PInt 2]])].

End FlatArgs.

(** ** [agent_metrics.py]: the report as a dict *)

Module ReportDict.
Import AgentMetrics.

(** The values [as_dict] files, by the type of their field. *)
Inductive Value : Type :=
| VFloat (x : Q)
| VInt (n : Z)
| VOptFloat (x : option Q)
| VRates (m : gmap string Q)
| VTueByTask (m : gmap string TUEResult)
| VTcrrByTask (m : gmap string TcrrTaskEntry)
| VGsrtByTask (m : gmap string GSRTTask).

(** The dict literal of [as_dict]. *)
Definition fixed_entries (self : AgentMetrics) : list (string * Value) :=
  [ ("avg_reward", VFloat (avg_reward self));
    ("avg_agent_cost", VFloat (avg_agent_cost self));
    ("tsr", VFloat (tsr self));
    ("tue", VFloat (tue self));
    ("tcrr", VFloat (tcrr self));
    ("num_tool_calls", VInt (num_tool_calls self));
    ("tsr_communicate_info", VFloat (tsr_communicate_info self));
    ("tsr_action", VFloat (tsr_action self));
    ("tsr_nl_assertion", VFloat (tsr_nl_assertion self));
    ("tsr_weights", VRates (tsr_weights self));
    ("tsr_by_task", VRates (tsr_by_task self));
    ("tue_tool_correctness", VFloat (tue_tool_correctness self));
    ("tue_param_accuracy", VFloat (tue_param_accuracy self));
    ("tue_correct_calls", VInt (tue_correct_calls self));
    ("tue_valid_param_calls", VInt (tue_valid_param_calls self));
    ("tue_by_task", VTueByTask (tue_by_task self));
    ("tcrr_window_size", VInt (tcrr_window_size self));
    ("tcrr_total_calls", VInt (tcrr_total_calls self));
    ("tcrr_redundant_calls", VInt (tcrr_redundant_calls self));
    ("tcrr_by_task", VTcrrByTask (tcrr_by_task self));
    ("gsrt_median_ack", VOptFloat (gsrt_median_ack self));
    ("gsrt_median_tool", VOptFloat (gsrt_median_tool self));
    ("gsrt_median_outcome", VOptFloat (gsrt_median_outcome self));
    ("gsrt_num_shifts", VInt (gsrt_num_shifts self));
    ("gsrt_recovery_rate", VFloat (gsrt_recovery_rate self));
    ("gsrt_transfer_rate", VFloat (gsrt_transfer_rate self));
    ("gsrt_never_recovered_rate", VFloat (gsrt_never_recovered_rate self));
    ("gsrt_by_task", VGsrtByTask (gsrt_by_task self)) ].

(** The key [f"pass_hat_{k}"]. *)
Definition pass_hat_key (k : Z) : string := "pass_hat_" +:+ py_str (PInt k).

(** [data[f"pass_hat_{k}"] = v] *)
Definition file_pass_hat (data : gmap string Value) (kv : Z * Q) : gmap string Value :=
  <[pass_hat_key kv.1 := VFloat kv.2]> data.

(** [as_dict]: the literal, then the loop over [pass_hat_ks.items()]. *)
Definition as_dict (self : AgentMetrics) : gmap string Value :=
  fold_left file_pass_hat (map_to_list (pass_hat_ks self))
            (list_to_map (fixed_entries self)).

End ReportDict.

(** * Properties *)

(** ** Python values: induction, sorting, hashing *)

Module PyFacts.

Lemma pysize_pos (v : pyval) : (0 < pysize v)%nat.
Proof. destruct v; simpl; lia. Qed.

Lemma list_sum_In (f : pyval -> nat) (x : pyval) (l : list pyval) :
  In x l -> (f x <= list_sum (map f l))%nat.
Proof.
  induction l as [|y l IH]; simpl; [tauto|].
  intros [->|H]; [lia | specialize (IH H); lia].
Qed.

Lemma pysize_list_item (x : pyval) (l : list pyval) :
  In x l -> (pysize x < pysize (PList l))%nat.
Proof. intros H. apply (list_sum_In pysize) in H. simpl. lia. Qed.

Lemma pysize_tuple_item (x : pyval) (l : list pyval) :
  In x l -> (pysize x < pysize (PTuple l))%nat.
Proof. intros H. apply (list_sum_In pysize) in H. simpl. lia. Qed.

Lemma pysize_dict_entry (k v : pyval) (d : list (pyval * pyval)) :
  In (k, v) d -> (pysize k < pysize (PDict d))%nat /\ (pysize v < pysize (PDict d))%nat.
Proof.
  simpl. induction d as [|[k' v'] d IH]; simpl; [tauto|].
  intros [[= -> ->]|H].
  - pose proof (pysize_pos k). pose proof (pysize_pos v). lia.
  - specialize (IH H). lia.
Qed.

(** Induction on the size of a value. *)
Lemma pyval_size_ind (P : pyval -> Prop) :
  (forall v, (forall w, (pysize w < pysize v)%nat -> P w) -> P v) ->
  forall v, P v.
Proof.
  intros H v. remember (pysize v) as n eqn:Hn. revert v Hn.
  induction n as [n IH] using lt_wf_ind. intros v ->.
  apply H. intros w Hw. exact (IH _ Hw w eq_refl).
Qed.

(** *** The error monad *)

Lemma bind_ok {A B} (r : result A) (f : A -> result B) (b : B) :
  r ≫= f = Ok b <-> exists a, r = Ok a /\ f a = Ok b.
Proof.
  destruct r as [a|e]; simpl.
  - split; [eauto | intros (a' & [= <-] & H); exact H].
  - split; [discriminate | intros (a' & H & _); discriminate].
Qed.

Lemma mapM_ok {A B} (f : A -> result B) (l : list A) (ys : list B) :
  mapM f l = Ok ys <-> Forall2 (fun x y => f x = Ok y) l ys.
Proof.
  revert ys. induction l as [|x l IH]; intros ys; simpl.
  - split; [intros [= <-]; constructor | intros H; inversion H; reflexivity].
  - split.
    + intros H. apply bind_ok in H as (y & Hy & H).
      apply bind_ok in H as (ys' & Hys & [= <-]).
      constructor; [exact Hy | apply IH; exact Hys].
    + intros H. inversion H as [|? y ? ys' Hy Hys]; subst.
      apply IH in Hys. rewrite Hy. simpl. rewrite Hys. reflexivity.
Qed.

Lemma mapM_cons {A B} (f : A -> result B) (x : A) (l : list A) :
  mapM f (x :: l) = (y ← f x; ys ← mapM f l; Ok (y :: ys)).
Proof. reflexivity. Qed.

Lemma mapM_total {A B} (f : A -> result B) (l : list A) :
  Forall (fun x => exists y, f x = Ok y) l -> exists ys, mapM f l = Ok ys.
Proof.
  induction 1 as [|x l [y Hy] _ [ys Hys]]; simpl; [eauto|].
  rewrite Hy. simpl. rewrite Hys. simpl. eauto.
Qed.

Lemma mapM_raise {A B} (f : A -> result B) (l : list A) (e : exn) :
  mapM f l = Raise e -> exists x, In x l /\ f x = Raise e.
Proof.
  induction l as [|x l IH]; simpl; [discriminate|].
  destruct (f x) as [y|e'] eqn:Hx; simpl.
  - destruct (mapM f l) as [ys|e'']; simpl; [discriminate|].
    intros [= <-]. destruct (IH eq_refl) as (x' & H & Hx'). eauto.
  - intros [= <-]. eauto.
Qed.

(** *** [sorted] *)

Section SortedFacts.
Context {A : Type} (key : A -> pyval).

Lemma insert_sorted_perm (x : A) (l r : list A) :
  insert_sorted key x l = Ok r -> Permutation (x :: l) r.
Proof.
  revert r. induction l as [|y l IH]; intros r; simpl.
  - intros [= <-]. reflexivity.
  - destruct (py_lt (key x) (key y)) as [[|]|]; try discriminate.
    + intros [= <-]. reflexivity.
    + intros H. apply bind_ok in H as (r' & Hr' & [= <-]).
      rewrite perm_swap. constructor. apply IH. exact Hr'.
Qed.

Lemma insert_sorted_raise (x : A) (l : list A) (e : exn) :
  insert_sorted key x l = Raise e -> e = TypeError.
Proof.
  induction l as [|y l IH]; simpl; [discriminate|].
  destruct (py_lt (key x) (key y)) as [[|]|]; try discriminate.
  - destruct (insert_sorted key x l); simpl; [discriminate|].
    intros [= <-]. apply IH. reflexivity.
  - intros [= <-]. reflexivity.
Qed.

Lemma insert_sorted_total (x : A) (l : list A) :
  Forall (fun y => is_Some (py_lt (key x) (key y))) l ->
  exists r, insert_sorted key x l = Ok r.
Proof.
  induction 1 as [|y l [b Hb] _ [r Hr]]; simpl; [eauto|].
  rewrite Hb. destruct b; [eauto|]. rewrite Hr. simpl. eauto.
Qed.

Lemma sort_fold_perm (l : list A) (s0 s : list A) :
  fold_left (fun acc x => s ← acc; insert_sorted key x s) l (Ok s0) = Ok s ->
  Permutation (s0 ++ l) s.
Proof.
  revert s0. induction l as [|x l IH]; intros s0; simpl.
  - intros [= <-]. rewrite app_nil_r. reflexivity.
  - destruct (insert_sorted key x s0) as [s1|e] eqn:Hx.
    + intros H. apply IH in H. rewrite <- H.
      apply insert_sorted_perm in Hx. rewrite <- Hx. simpl.
      symmetry. apply Permutation_middle.
    + intros H. exfalso. clear -H. induction l as [|y l IHl]; simpl in H;
        [discriminate | auto].
Qed.

Lemma sort_fold_raise (l : list A) (r : result (list A)) (e : exn) :
  (forall e', r = Raise e' -> e' = TypeError) ->
  fold_left (fun acc x => s ← acc; insert_sorted key x s) l r = Raise e ->
  e = TypeError.
Proof.
  revert r. induction l as [|x l IH]; intros r Hr; simpl.
  - intros H. auto.
  - apply IH. intros e'. destruct r as [s0|e0]; simpl.
    + apply insert_sorted_raise.
    + intros [= <-]. auto.
Qed.

Lemma sorted_by_perm (l s : list A) : sorted_by key l = Ok s -> Permutation l s.
Proof. intros H. apply sort_fold_perm in H. exact H. Qed.

Lemma sorted_by_raise (l : list A) (e : exn) :
  sorted_by key l = Raise e -> e = TypeError.
Proof. apply sort_fold_raise. discriminate. Qed.

Lemma sort_fold_total (l s0 : list A) :
  Forall (fun x => Forall (fun y => is_Some (py_lt (key x) (key y))) s0) l ->
  ForallOrdPairs (fun y x => is_Some (py_lt (key x) (key y))) l ->
  exists s, fold_left (fun acc x => s ← acc; insert_sorted key x s) l (Ok s0) = Ok s.
Proof.
  revert s0. induction l as [|x l IH]; intros s0 H0 Hl; simpl; [eauto|].
  inversion H0 as [|? ? Hx H0']; subst. inversion Hl as [|? ? Hxl Hl']; subst.
  destruct (insert_sorted_total x s0 Hx) as [s1 Hs1]. rewrite Hs1.
  apply IH; [|exact Hl'].
  apply insert_sorted_perm in Hs1.
  rewrite Forall_forall in H0', Hxl. apply Forall_forall. intros z Hz.
  rewrite <- Hs1. constructor; [apply Hxl, Hz | apply H0', Hz].
Qed.

(** Sorting succeeds when every element can be compared with every
    element that comes before it. *)
Lemma sorted_by_total (l : list A) :
  ForallOrdPairs (fun y x => is_Some (py_lt (key x) (key y))) l ->
  exists s, sorted_by key l = Ok s.
Proof.
  intros H. apply sort_fold_total; [|exact H].
  apply Forall_forall. intros x _. constructor.
Qed.

End SortedFacts.

End PyFacts.

(** ** Canonical arguments: totality on JSON, hashable results *)

Module NormFacts.
Import PyFacts.

Lemma tcrr_normalized_dict (d : list (pyval * pyval)) :
  Tcrr.normalized_params (PDict d)
  = (items ← sorted_by item_key
               (map (fun kv : pyval * pyval =>
                       let '(k, v) := kv in (k, v, Tcrr.normalize_value v)) d);
     normalized_items ← mapM emit_item items;
     Ok (PTuple normalized_items)).
Proof. reflexivity. Qed.

Lemma am_normalized_dict (d : list (pyval * pyval)) :
  AgentMetrics.normalized_params (PDict d)
  = (items ← sorted_by item_key
               (map (fun kv : pyval * pyval =>
                       let '(k, v) := kv in (k, v, AgentMetrics.normalize_value v)) d);
     normalized_items ← mapM emit_item items;
     Ok (PTuple normalized_items)).
Proof. reflexivity. Qed.

(** Two entries with different string keys compare by their keys. *)
Lemma item_lt (k k' : string) (v v' : pyval) :
  k <> k' ->
  py_lt (PTuple [PStr k; v]) (PTuple [PStr k'; v']) = Some (String.ltb k k').
Proof.
  intros H. simpl. destruct (String.eqb_spec k k'); [contradiction | reflexivity].
Qed.

Lemma is_json_dict (d : list (pyval * pyval)) :
  is_json (PDict d) = true <->
  (forall k v, In (k, v) d -> (exists s, k = PStr s) /\ is_json v = true)
  /\ NoDup (map (fun kv : pyval * pyval => key_text kv.1) d).
Proof.
  simpl. rewrite andb_true_iff, bool_decide_eq_true, forallb_forall.
  split; intros [H1 H2]; (split; [|exact H2]).
  - intros k v Hin. specialize (H1 _ Hin). simpl in H1.
    destruct k; try discriminate. eauto.
  - intros [k v] Hin. destruct (H1 _ _ Hin) as [[s ->] Hv]. exact Hv.
Qed.

Lemma is_json_list (l : list pyval) :
  is_json (PList l) = true <-> forall x, In x l -> is_json x = true.
Proof. simpl. apply forallb_forall. Qed.

(** The entries of a JSON object can be sorted, whatever the loop body
    made of their values. *)
Lemma items_sortable (body : pyval -> result pyval) (d : list (pyval * pyval)) :
  is_json (PDict d) = true ->
  exists items,
    sorted_by item_key
      (map (fun kv : pyval * pyval => let '(k, v) := kv in (k, v, body v)) d)
    = Ok items
    /\ Permutation
         (map (fun kv : pyval * pyval => let '(k, v) := kv in (k, v, body v)) d) items.
Proof.
  intros Hj. apply is_json_dict in Hj as [Hkeys Hnd].
  destruct (sorted_by_total item_key
              (map (fun kv : pyval * pyval => let '(k, v) := kv in (k, v, body v)) d))
    as [items Hitems].
  - clear -Hkeys Hnd. induction d as [|[k v] d IH]; cbn [map]; [constructor|].
    cbn [map fst] in Hnd. inversion Hnd as [|? ? Hk Hnd']; subst. constructor.
    + apply List.Forall_forall. intros e He. apply in_map_iff in He as ([k' v'] & <- & Hin).
      destruct (Hkeys k v (or_introl eq_refl)) as [[s ->] _].
      destruct (Hkeys k' v' (or_intror Hin)) as [[s' ->] _].
      unfold item_key. cbn [fst snd]. rewrite item_lt; [eauto|].
      intros ->. apply Hk, list_elem_of_In, in_map_iff. exists (PStr s, v'). auto.
    + apply IH; [|exact Hnd']. intros k' v' Hin. apply Hkeys. right. exact Hin.
  - exists items. split; [exact Hitems|]. apply sorted_by_perm in Hitems. exact Hitems.
Qed.

Lemma hashable_str_tuple (l : list pyval) : py_hashable (Tcrr.str_tuple l) = true.
Proof.
  unfold Tcrr.str_tuple. simpl. apply forallb_forall.
  intros x Hx. apply in_map_iff in Hx as (y & <- & _). reflexivity.
Qed.

Lemma hashable_perm (l l' : list pyval) :
  Permutation l l' -> forallb py_hashable l = true -> forallb py_hashable l' = true.
Proof.
  intros Hp. rewrite !forallb_forall. intros H x Hx. apply H.
  eapply Permutation_in; [symmetry; exact Hp | exact Hx].
Qed.

(** What the loop needs from the outcomes [body v] to complete. *)
Lemma loop_completes (body : pyval -> result pyval) (Q : pyval -> Prop)
    (d : list (pyval * pyval)) :
  is_json (PDict d) = true ->
  (forall k v, In (k, v) d -> exists nv, body v = Ok nv /\ Q nv) ->
  exists items ns,
    sorted_by item_key
      (map (fun kv : pyval * pyval => let '(k, v) := kv in (k, v, body v)) d)
    = Ok items
    /\ mapM emit_item items = Ok ns
    /\ Forall (fun n => exists s nv, n = PTuple [PStr s; nv] /\ Q nv) ns.
Proof.
  intros Hj Hbody. destruct (items_sortable body d Hj) as (items & Hs & Hp).
  apply is_json_dict in Hj as [Hkeys _].
  assert (Hall : Forall (fun e => exists s nv, emit_item e = Ok (PTuple [PStr s; nv])
                                               /\ Q nv) items).
  { apply List.Forall_forall. intros e He.
    eapply Permutation_in in He; [|symmetry; exact Hp].
    apply in_map_iff in He as ([k v] & <- & Hin).
    destruct (Hkeys k v Hin) as [[s ->] _].
    destruct (Hbody _ _ Hin) as (nv & Hnv & HQ).
    exists s, nv. unfold emit_item. simpl. rewrite Hnv. auto. }
  assert (Hns : exists ns, mapM emit_item items = Ok ns
                 /\ Forall (fun n => exists s nv, n = PTuple [PStr s; nv] /\ Q nv) ns).
  { clear Hs Hp.
    induction Hall as [|e items (s & nv & He & HQ) _ (ns & Hns & HF)].
    - exists []. auto.
    - exists (PTuple [PStr s; nv] :: ns). split.
      + simpl. rewrite He. simpl. rewrite Hns. reflexivity.
      + constructor; eauto. }
  destruct Hns as (ns & Hns & HF). exists items, ns. auto.
Qed.

(** On a JSON value the loop body of [tcrr.py] returns a hashable value,
    and so does [normalized_params] on a JSON object. *)
Lemma tcrr_normalize_json (v : pyval) :
  is_json v = true ->
  (exists nv, Tcrr.normalize_value v = Ok nv /\ py_hashable nv = true)
  /\ (forall d, v = PDict d ->
      exists n, Tcrr.normalized_params v = Ok n /\ py_hashable n = true).
Proof.
  induction v as [v IH] using pyval_size_ind. intros Hj.
  assert (Hdict : forall d, v = PDict d ->
            exists n, Tcrr.normalized_params v = Ok n /\ py_hashable n = true).
  { intros d ->. rewrite tcrr_normalized_dict.
    destruct (loop_completes Tcrr.normalize_value (fun nv => py_hashable nv = true) d Hj)
      as (items & ns & Hs & Hm & HF).
    - intros k v Hin. apply IH.
      + apply (pysize_dict_entry k v d Hin).
      + apply is_json_dict in Hj as [Hkeys _]. apply (Hkeys k v Hin).
    - rewrite Hs. simpl. rewrite Hm. simpl. eexists. split; [reflexivity|].
      simpl. apply forallb_forall. intros n Hn.
      rewrite List.Forall_forall in HF. destruct (HF n Hn) as (s & nv & -> & Hh).
      simpl. rewrite Hh. reflexivity. }
  split; [|exact Hdict].
  destruct v as [| | | |l| |d]; try (eexists; split; reflexivity); try discriminate.
  - (* a list value *)
    assert (Hitems : exists nl, mapM Tcrr.normalize_item l = Ok nl
                                /\ forallb py_hashable nl = true).
    { assert (Hall : Forall (fun x => exists y, Tcrr.normalize_item x = Ok y
                                                /\ py_hashable y = true) l).
      { apply List.Forall_forall. intros x Hx.
        pose proof (proj1 (is_json_list l) Hj x Hx) as Hjx.
        destruct x as [| | | |sub| |dx]; try (eexists; split; reflexivity);
          try discriminate.
        - eexists. split; [reflexivity | apply hashable_str_tuple].
        - destruct (IH (PDict dx)) as [_ Hd];
            [apply pysize_list_item; exact Hx | exact Hjx |].
          exact (Hd dx eq_refl). }
      clear -Hall. induction Hall as [|x l (y & Hy & Hh) _ (nl & Hnl & Hhl)].
      - exists []. auto.
      - exists (y :: nl). simpl. rewrite Hy. simpl. rewrite Hnl. simpl.
        rewrite Hh, Hhl. auto. }
    destruct Hitems as (nl & Hnl & Hh). unfold Tcrr.normalize_value. rewrite Hnl.
    simpl. destruct (sorted nl) as [s|e] eqn:Hs; simpl.
    + eexists. split; [reflexivity|]. simpl.
      apply (hashable_perm nl); [apply (sorted_by_perm id); exact Hs | exact Hh].
    + apply (sorted_by_raise id) in Hs. subst e. simpl.
      eexists. split; [reflexivity | apply hashable_str_tuple].
  - (* a dict value *)
    exact (Hdict d eq_refl).
Qed.

Lemma tcrr_normalized_args (a : pyval) :
  is_args a = true ->
  exists n, Tcrr.normalized_params a = Ok n /\ py_hashable n = true.
Proof.
  destruct a; try discriminate. intros H.
  eapply (proj2 (tcrr_normalize_json _ H)). reflexivity.
Qed.


End NormFacts.

(** ** Python's [==] on well-formed values is an equivalence *)

Module EqFacts.
Import PyFacts.

Lemma wf_list (l : list pyval) :
  wf_value (PList l) = true <-> forall x, In x l -> wf_value x = true.
Proof. simpl. apply forallb_forall. Qed.

Lemma wf_tuple (l : list pyval) :
  wf_value (PTuple l) = true <-> forall x, In x l -> wf_value x = true.
Proof. simpl. apply forallb_forall. Qed.

Lemma wf_dict (d : list (pyval * pyval)) :
  wf_value (PDict d) = true <->
  (forall k v, In (k, v) d -> (exists s, k = PStr s) /\ wf_value v = true)
  /\ List.NoDup (map (fun kv : pyval * pyval => key_text kv.1) d).
Proof.
  simpl. rewrite andb_true_iff, bool_decide_eq_true, forallb_forall, NoDup_ListNoDup.
  split; intros [H1 H2]; (split; [|exact H2]).
  - intros k v Hin. specialize (H1 _ Hin). simpl in H1.
    destruct k; try discriminate. eauto.
  - intros [k v] Hin. destruct (H1 _ _ Hin) as [[s ->] Hv]. exact Hv.
Qed.

Lemma wf_dict_value (d : list (pyval * pyval)) (k v : pyval) :
  wf_value (PDict d) = true -> In (k, v) d -> wf_value v = true.
Proof. intros H Hin. apply wf_dict in H as [H _]. apply (H k v Hin). Qed.

Lemma json_wf (v : pyval) : is_json v = true -> wf_value v = true.
Proof.
  induction v as [v IH] using pyval_size_ind. intros Hj.
  destruct v as [| | | |l|l|d]; try reflexivity; try discriminate.
  - apply wf_list. intros x Hx. apply IH; [apply pysize_list_item, Hx|].
    simpl in Hj. rewrite forallb_forall in Hj. auto.
  - simpl in Hj |- *. apply andb_true_iff in Hj as [H1 H2].
    rewrite H2, andb_true_r. rewrite forallb_forall in H1 |- *.
    intros [k v] Hin. specialize (H1 _ Hin). simpl in H1.
    destruct k; try discriminate.
    apply IH; [apply (pysize_dict_entry _ _ _ Hin) | exact H1].
Qed.

(** *** Lookup in a well-formed dict *)

Lemma dict_get_cons {K V} (f : K -> bool) (k : K) (v : V) (d : list (K * V)) :
  dict_get f ((k, v) :: d) = if f k then Some v else dict_get f d.
Proof. reflexivity. Qed.

Lemma dict_get_in (d : list (pyval * pyval)) (s : string) (v : pyval) :
  List.NoDup (map (fun kv : pyval * pyval => key_text kv.1) d) ->
  In (PStr s, v) d -> dict_get (py_eq (PStr s)) d = Some v.
Proof.
  induction d as [|[k' v'] d' IH]; [intros _ []|].
  cbn [map fst]. intros Hnodup. inversion Hnodup as [|? ? Hk Hnd]; subst.
  rewrite dict_get_cons. intros [[= -> ->]|Hin].
  - cbn [py_eq]. rewrite String.eqb_refl. reflexivity.
  - destruct (py_eq (PStr s) k') eqn:E.
    + exfalso. destruct k'; cbn [py_eq] in E; try discriminate.
      apply String.eqb_eq in E. subst. apply Hk. cbn [key_text].
      apply in_map_iff. exists (PStr s0, v). auto.
    + apply IH; assumption.
Qed.

Lemma dict_get_some (d : list (pyval * pyval)) (s : string) (v : pyval) :
  (forall k v, In (k, v) d -> exists s, k = PStr s) ->
  dict_get (py_eq (PStr s)) d = Some v -> In (PStr s, v) d.
Proof.
  induction d as [|[k' v'] d' IH]; intros Hkeys; [discriminate|].
  rewrite dict_get_cons. destruct (py_eq (PStr s) k') eqn:E.
  - intros [= ->]. left.
    destruct (Hkeys k' v (or_introl eq_refl)) as [s' ->].
    cbn [py_eq] in E. apply String.eqb_eq in E. subst. reflexivity.
  - intros H. right. apply IH; [|exact H].
    intros k v0 Hin. apply (Hkeys k v0). right. exact Hin.
Qed.

Lemma dict_entry_unique (d : list (pyval * pyval)) (k v1 v2 : pyval) :
  List.NoDup (map (fun kv : pyval * pyval => key_text kv.1) d) ->
  In (k, v1) d -> In (k, v2) d -> v1 = v2.
Proof.
  induction d as [|[k' v'] d' IH]; [intros _ []|].
  cbn [map fst]. intros Hnodup. inversion Hnodup as [|? ? Hk Hnd]; subst.
  intros [[= -> ->]|H1] [[= <-]|H2]; try reflexivity.
  - exfalso. apply Hk. apply in_map_iff. exists (k, v2). auto.
  - exfalso. apply Hk. apply in_map_iff. exists (k', v1). auto.
  - apply IH; assumption.
Qed.

Lemma dict_key_entry (d : list (pyval * pyval)) (s : string) :
  (forall k v, In (k, v) d -> exists s, k = PStr s) ->
  In s (map (fun kv : pyval * pyval => key_text kv.1) d) ->
  exists v, In (PStr s, v) d.
Proof.
  intros Hkeys H. apply in_map_iff in H as ([k v] & Hs & Hin). cbn [fst] in Hs.
  destruct (Hkeys k v Hin) as [s' ->]. cbn [key_text] in Hs. subst. eauto.
Qed.

Lemma py_eq_dict_unfold (a b : list (pyval * pyval)) :
  py_eq (PDict a) (PDict b)
  = Nat.eqb (length a) (length b)
    && forallb (fun kv : pyval * pyval =>
                  let '(k, v) := kv in
                  match dict_get (py_eq k) b with
                  | Some v' => py_eq v v'
                  | None => false
                  end) a.
Proof. reflexivity. Qed.

(** Equality of two well-formed dicts, entry by entry. *)
Lemma py_eq_dict (a b : list (pyval * pyval)) :
  wf_value (PDict a) = true -> wf_value (PDict b) = true ->
  (py_eq (PDict a) (PDict b) = true <->
   length a = length b
   /\ forall s v, In (PStr s, v) a ->
                  exists v', In (PStr s, v') b /\ py_eq v v' = true).
Proof.
  intros Ha Hb. apply wf_dict in Ha as [Hka _]. apply wf_dict in Hb as [Hkb Hnb].
  assert (Hkb' : forall k v, In (k, v) b -> exists s, k = PStr s).
  { intros k v Hin. apply (Hkb k v Hin). }
  rewrite py_eq_dict_unfold, andb_true_iff, Nat.eqb_eq, forallb_forall.
  split; intros [Hlen H]; (split; [exact Hlen|]).
  - intros s v Hin. specialize (H _ Hin). lazy beta iota in H.
    destruct (dict_get (py_eq (PStr s)) b) as [v'|] eqn:E; [|discriminate].
    exists v'. split; [|exact H]. apply (dict_get_some b s v' Hkb' E).
  - intros [k v] Hin. destruct (Hka k v Hin) as [[s ->] _].
    destruct (H s v Hin) as (v' & Hin' & Heq).
    lazy beta iota. rewrite (dict_get_in b s v' Hnb Hin'). exact Heq.
Qed.

Lemma seq_eq_spec (a b : list pyval) :
  seq_eq py_eq a b = true <-> Forall2 (fun x y => py_eq x y = true) a b.
Proof.
  revert b. induction a as [|x a IH]; intros [|y b]; simpl.
  - split; [constructor | reflexivity].
  - split; [discriminate | intros H; inversion H].
  - split; [discriminate | intros H; inversion H].
  - rewrite andb_true_iff, IH. split.
    + intros [H1 H2]. constructor; assumption.
    + intros H. inversion H; subst. auto.
Qed.

Lemma py_eq_refl (v : pyval) : wf_value v = true -> py_eq v v = true.
Proof.
  induction v as [v IH] using pyval_size_ind. intros Hw.
  destruct v as [| b | z | s | l | l | d]; try reflexivity.
  - destruct b; reflexivity.
  - apply Z.eqb_refl.
  - apply String.eqb_refl.
  - change (seq_eq py_eq l l = true). apply seq_eq_spec, Forall_Forall2_diag, List.Forall_forall.
    intros x Hx. apply IH; [apply pysize_list_item, Hx | apply (proj1 (wf_list l) Hw x Hx)].
  - change (seq_eq py_eq l l = true). apply seq_eq_spec, Forall_Forall2_diag, List.Forall_forall.
    intros x Hx. apply IH; [apply pysize_tuple_item, Hx | apply (proj1 (wf_tuple l) Hw x Hx)].
  - apply (py_eq_dict d d Hw Hw). split; [reflexivity|].
    intros s v Hin. exists v. split; [exact Hin|].
    apply IH; [apply (pysize_dict_entry _ _ _ Hin)|].
    apply wf_dict in Hw as [Hk _]. apply (Hk _ _ Hin).
Qed.

(** Equality of numbers: [bool] and [int] compare by value. *)
Lemma py_eq_number (x y : pyval) (a : Z) :
  as_number x = Some a ->
  py_eq x y = match as_number y with Some b => Z.eqb a b | None => false end.
Proof.
  destruct x; try discriminate; intros [= <-]; destruct y; reflexivity.
Qed.

Lemma py_eq_number_r (x y : pyval) (b : Z) :
  as_number y = Some b ->
  py_eq x y = match as_number x with Some a => Z.eqb a b | None => false end.
Proof.
  destruct y; try discriminate; intros [= <-]; destruct x; reflexivity.
Qed.

Lemma py_eq_sym_imp (x : pyval) :
  wf_value x = true -> forall y, wf_value y = true ->
  py_eq x y = true -> py_eq y x = true.
Proof.
  induction x as [x IH] using pyval_size_ind. intros Hx y Hy.
  destruct (as_number x) as [a|] eqn:Ea.
  { rewrite (py_eq_number x y a Ea), (py_eq_number_r y x a Ea).
    destruct (as_number y); [rewrite Z.eqb_sym; auto | auto]. }
  destruct x as [| | | s | l | l | d]; try discriminate;
    destruct y as [| | | s' | l' | l' | d']; try discriminate; try reflexivity.
  - simpl. rewrite String.eqb_sym. auto.
  - change (seq_eq py_eq l l' = true -> seq_eq py_eq l' l = true).
    rewrite !seq_eq_spec. intros H. apply Forall2_flip.
    pose proof (proj1 (wf_list l) Hx) as Hl. pose proof (proj1 (wf_list l') Hy) as Hl'.
    clear Hx Hy Ea. induction H as [|x y l l' Hxy H IHF]; constructor.
    + apply IH; [apply pysize_list_item; left; reflexivity | apply Hl; left; reflexivity
                | apply Hl'; left; reflexivity | exact Hxy].
    + apply IHF.
      * intros w Hw. apply IH. simpl in *. lia.
      * intros w Hw. apply Hl. right. exact Hw.
      * intros w Hw. apply Hl'. right. exact Hw.
  - change (seq_eq py_eq l l' = true -> seq_eq py_eq l' l = true).
    rewrite !seq_eq_spec. intros H. apply Forall2_flip.
    pose proof (proj1 (wf_tuple l) Hx) as Hl. pose proof (proj1 (wf_tuple l') Hy) as Hl'.
    clear Hx Hy Ea. induction H as [|x y l l' Hxy H IHF]; constructor.
    + apply IH; [apply pysize_tuple_item; left; reflexivity | apply Hl; left; reflexivity
                | apply Hl'; left; reflexivity | exact Hxy].
    + apply IHF.
      * intros w Hw. apply IH. simpl in *. lia.
      * intros w Hw. apply Hl. right. exact Hw.
      * intros w Hw. apply Hl'. right. exact Hw.
  - rewrite (py_eq_dict d d' Hx Hy), (py_eq_dict d' d Hy Hx).
    intros [Hlen H]. split; [symmetry; exact Hlen|].
    pose proof (proj1 (wf_dict d) Hx) as [Hkd Hnd].
    pose proof (proj1 (wf_dict d') Hy) as [Hkd' Hnd'].
    assert (Hincl : incl (map (fun kv : pyval * pyval => key_text kv.1) d)
                         (map (fun kv : pyval * pyval => key_text kv.1) d')).
    { intros s Hs.
      destruct (dict_key_entry d s (fun k v Hin => proj1 (Hkd k v Hin)) Hs) as [v Hin].
      destruct (H s v Hin) as (v' & Hin' & _).
      apply in_map_iff. exists (PStr s, v'). auto. }
    assert (Hincl' : incl (map (fun kv : pyval * pyval => key_text kv.1) d')
                          (map (fun kv : pyval * pyval => key_text kv.1) d)).
    { apply NoDup_length_incl; [exact Hnd | rewrite !length_map; lia | exact Hincl]. }
    intros s v' Hin'.
    assert (Hs : In s (map (fun kv : pyval * pyval => key_text kv.1) d)).
    { apply Hincl'. apply in_map_iff. exists (PStr s, v'). auto. }
    destruct (dict_key_entry d s (fun k v Hin => proj1 (Hkd k v Hin)) Hs) as [v Hin].
    exists v. split; [exact Hin|].
    destruct (H s v Hin) as (v'' & Hin'' & Heq).
    rewrite (dict_entry_unique d' (PStr s) v' v'' Hnd' Hin' Hin'').
    apply IH; [apply (pysize_dict_entry _ _ _ Hin) | apply (Hkd _ _ Hin)
              | apply (Hkd' _ _ Hin'') | exact Heq].
Qed.

Lemma py_eq_sym (x y : pyval) :
  wf_value x = true -> wf_value y = true -> py_eq x y = py_eq y x.
Proof.
  intros Hx Hy. destruct (py_eq x y) eqn:E1, (py_eq y x) eqn:E2; try reflexivity.
  - apply py_eq_sym_imp in E1; [congruence | assumption | assumption].
  - apply py_eq_sym_imp in E2; [congruence | assumption | assumption].
Qed.

Lemma py_eq_trans (x : pyval) :
  wf_value x = true -> forall y z, wf_value y = true -> wf_value z = true ->
  py_eq x y = true -> py_eq y z = true -> py_eq x z = true.
Proof.
  induction x as [x IH] using pyval_size_ind. intros Hx y z Hy Hz.
  destruct (as_number x) as [a|] eqn:Ea.
  { rewrite (py_eq_number x y a Ea), (py_eq_number x z a Ea).
    destruct (as_number y) as [b|] eqn:Eb; [|discriminate].
    rewrite (py_eq_number y z b Eb). destruct (as_number z); [|auto].
    rewrite !Z.eqb_eq. congruence. }
  destruct x as [| | | s | l | l | d]; try discriminate;
    destruct y as [| | | s' | l' | l' | d']; try discriminate;
    destruct z as [| | | s'' | l'' | l'' | d'']; try discriminate; try reflexivity.
  - simpl. rewrite !String.eqb_eq. congruence.
  - change (seq_eq py_eq l l' = true -> seq_eq py_eq l' l'' = true
            -> seq_eq py_eq l l'' = true).
    rewrite !seq_eq_spec.
    pose proof (proj1 (wf_list l) Hx) as Hl. pose proof (proj1 (wf_list l') Hy) as Hl'.
    pose proof (proj1 (wf_list l'') Hz) as Hl''.
    clear Hx Hy Hz Ea. intros H. revert l'' Hl''.
    induction H as [|x y l l' Hxy H IHF]; intros l'' Hl'' H'; inversion H'; subst;
      constructor.
    + apply (IH x) with (y := y); try (apply pysize_list_item; left; reflexivity);
        auto using in_eq.
    + apply IHF; auto using in_cons. intros w Hw. apply IH. simpl in *. lia.
  - change (seq_eq py_eq l l' = true -> seq_eq py_eq l' l'' = true
            -> seq_eq py_eq l l'' = true).
    rewrite !seq_eq_spec.
    pose proof (proj1 (wf_tuple l) Hx) as Hl. pose proof (proj1 (wf_tuple l') Hy) as Hl'.
    pose proof (proj1 (wf_tuple l'') Hz) as Hl''.
    clear Hx Hy Hz Ea. intros H. revert l'' Hl''.
    induction H as [|x y l l' Hxy H IHF]; intros l'' Hl'' H'; inversion H'; subst;
      constructor.
    + apply (IH x) with (y := y); try (apply pysize_tuple_item; left; reflexivity);
        auto using in_eq.
    + apply IHF; auto using in_cons. intros w Hw. apply IH. simpl in *. lia.
  - rewrite (py_eq_dict d d' Hx Hy), (py_eq_dict d' d'' Hy Hz), (py_eq_dict d d'' Hx Hz).
    intros [Hlen H] [Hlen' H']. split; [congruence|].
    intros s v Hin. destruct (H s v Hin) as (v' & Hin' & Heq).
    destruct (H' s v' Hin') as (v'' & Hin'' & Heq').
    exists v''. split; [exact Hin''|].
    apply (IH v) with (y := v'); try assumption.
    + apply (pysize_dict_entry _ _ _ Hin).
    + apply (wf_dict_value d _ _ Hx Hin).
    + apply (wf_dict_value d' _ _ Hy Hin').
    + apply (wf_dict_value d'' _ _ Hz Hin'').
Qed.

End EqFacts.

(** ** Python's [<] on well-formed values *)

Module LtFacts.
Import PyFacts EqFacts.

(** Equal values are equal to the same values. *)
Lemma py_eq_cong (x x' y y' : pyval) :
  wf_value x = true -> wf_value x' = true -> wf_value y = true -> wf_value y' = true ->
  py_eq x x' = true -> py_eq y y' = true -> py_eq x y = py_eq x' y'.
Proof.
  intros Hx Hx' Hy Hy' Exx Eyy.
  destruct (py_eq x y) eqn:E1, (py_eq x' y') eqn:E2; try reflexivity.
  - assert (py_eq x' y' = true); [|congruence].
    apply (py_eq_trans x' Hx' x y' Hx Hy'); [rewrite py_eq_sym; assumption|].
    apply (py_eq_trans x Hx y y' Hy Hy'); assumption.
  - assert (py_eq x y = true); [|congruence].
    apply (py_eq_trans x Hx x' y Hx' Hy); [assumption|].
    apply (py_eq_trans x' Hx' y' y Hy' Hy); [assumption|].
    rewrite py_eq_sym; assumption.
Qed.

Lemma seq_lt_cons (x y : pyval) (a b : list pyval) :
  seq_lt py_eq py_lt (x :: a) (y :: b)
  = if py_eq x y then seq_lt py_eq py_lt a b else py_lt x y.
Proof. reflexivity. Qed.

Lemma seq_lt_cons_tuple (x y : pyval) (a b : list pyval) :
  py_lt (PTuple (x :: a)) (PTuple (y :: b))
  = if py_eq x y then py_lt (PTuple a) (PTuple b) else py_lt x y.
Proof. reflexivity. Qed.

Lemma py_lt_number (x y : pyval) (a : Z) :
  as_number x = Some a ->
  py_lt x y = match as_number y with Some b => Some (Z.ltb a b) | None => None end.
Proof.
  destruct x; try discriminate; intros [= <-]; destruct y; reflexivity.
Qed.

Lemma py_lt_number_r (x y : pyval) (b : Z) :
  as_number y = Some b ->
  py_lt x y = match as_number x with Some a => Some (Z.ltb a b) | None => None end.
Proof.
  destruct y; try discriminate; intros [= <-]; destruct x; reflexivity.
Qed.

Lemma as_number_eq (x y : pyval) (a : Z) :
  as_number x = Some a -> py_eq x y = true -> as_number y = Some a.
Proof.
  intros Ha. rewrite (py_eq_number x y a Ha).
  destruct (as_number y); [|discriminate]. rewrite Z.eqb_eq. congruence.
Qed.

Lemma as_number_eq_none (x y : pyval) :
  as_number x = None -> py_eq x y = true -> as_number y = None.
Proof.
  intros Ha E. destruct (as_number y) as [b|] eqn:Eb; [|reflexivity].
  rewrite (py_eq_number_r x y b Eb), Ha in E. discriminate.
Qed.

(** [<] cannot tell equal values apart. *)
Lemma py_lt_cong (x : pyval) :
  wf_value x = true ->
  forall x' y y', wf_value x' = true -> wf_value y = true -> wf_value y' = true ->
  py_eq x x' = true -> py_eq y y' = true -> py_lt x y = py_lt x' y'.
Proof.
  induction x as [x IH] using pyval_size_ind. intros Hx x' y y' Hx' Hy Hy' Exx Eyy.
  destruct (as_number x) as [a|] eqn:Ea.
  { pose proof (as_number_eq x x' a Ea Exx) as Ea'.
    rewrite (py_lt_number x y a Ea), (py_lt_number x' y' a Ea').
    destruct (as_number y) as [b|] eqn:Eb.
    - rewrite (as_number_eq y y' b Eb Eyy). reflexivity.
    - rewrite (as_number_eq_none y y' Eb Eyy). reflexivity. }
  pose proof (as_number_eq_none x x' Ea Exx) as Ea'.
  destruct x as [| | | s | l | l | d]; try discriminate;
    destruct x' as [| | | s' | l' | l' | d']; try discriminate;
    try (destruct y, y'; reflexivity).
  - (* strings *)
    cbn [py_eq] in Exx. apply String.eqb_eq in Exx. subst s'.
    destruct y as [| | | t | | | ]; destruct y' as [| | | t' | | | ]; try discriminate;
      try reflexivity.
    cbn [py_eq] in Eyy. apply String.eqb_eq in Eyy. subst. reflexivity.
  - (* lists *)
    destruct y as [| | | |m| | ]; destruct y' as [| | | |m'| | ]; try discriminate;
      try reflexivity.
    change (seq_lt py_eq py_lt l m = seq_lt py_eq py_lt l' m').
    change (seq_eq py_eq l l' = true) in Exx. change (seq_eq py_eq m m' = true) in Eyy.
    apply seq_eq_spec in Exx. apply seq_eq_spec in Eyy.
    pose proof (proj1 (wf_list l) Hx) as Hl. pose proof (proj1 (wf_list l') Hx') as Hl'.
    pose proof (proj1 (wf_list m) Hy) as Hm. pose proof (proj1 (wf_list m') Hy') as Hm'.
    assert (IH' : forall w, In w l -> forall x' y y', wf_value x' = true ->
                  wf_value y = true -> wf_value y' = true ->
                  py_eq w x' = true -> py_eq y y' = true -> py_lt w y = py_lt x' y').
    { intros w Hw. apply IH; [apply pysize_list_item, Hw | apply Hl, Hw]. }
    clear IH Hx Hx' Hy Hy' Ea Ea'. revert m m' Eyy Hm Hm'.
    induction Exx as [|x x' l l' Exx' _ IHF]; intros m m' Eyy Hm Hm';
      destruct Eyy as [|y y' m m' Eyy' Eyy]; try reflexivity.
    rewrite !seq_lt_cons.
    rewrite (py_eq_cong x x' y y') by auto using in_eq.
    destruct (py_eq x' y').
    + apply IHF; auto using in_cons.
    + apply IH'; auto using in_eq.
  - (* tuples *)
    destruct y as [| | | | |m| ]; destruct y' as [| | | | |m'| ]; try discriminate;
      try reflexivity.
    change (seq_lt py_eq py_lt l m = seq_lt py_eq py_lt l' m').
    change (seq_eq py_eq l l' = true) in Exx. change (seq_eq py_eq m m' = true) in Eyy.
    apply seq_eq_spec in Exx. apply seq_eq_spec in Eyy.
    pose proof (proj1 (wf_tuple l) Hx) as Hl. pose proof (proj1 (wf_tuple l') Hx') as Hl'.
    pose proof (proj1 (wf_tuple m) Hy) as Hm. pose proof (proj1 (wf_tuple m') Hy') as Hm'.
    assert (IH' : forall w, In w l -> forall x' y y', wf_value x' = true ->
                  wf_value y = true -> wf_value y' = true ->
                  py_eq w x' = true -> py_eq y y' = true -> py_lt w y = py_lt x' y').
    { intros w Hw. apply IH; [apply pysize_tuple_item, Hw | apply Hl, Hw]. }
    clear IH Hx Hx' Hy Hy' Ea Ea'. revert m m' Eyy Hm Hm'.
    induction Exx as [|x x' l l' Exx' _ IHF]; intros m m' Eyy Hm Hm';
      destruct Eyy as [|y y' m m' Eyy' Eyy]; try reflexivity.
    rewrite !seq_lt_cons.
    rewrite (py_eq_cong x x' y y') by auto using in_eq.
    destruct (py_eq x' y').
    + apply IHF; auto using in_cons.
    + apply IH'; auto using in_eq.
Qed.

(** *** Strings *)

Lemma ltb_lt (s t : string) : String.ltb s t = true <-> String_as_OT.lt s t.
Proof.
  rewrite <- String_as_OT.cmp_lt. unfold String.ltb, String_as_OT.cmp.
  destruct (String.compare s t); simpl; intuition congruence.
Qed.

Lemma ltb_irrefl (s : string) : String.ltb s s = false.
Proof.
  unfold String.ltb. pose proof (proj2 (String_as_OT.cmp_eq s s) eq_refl) as H.
  unfold String_as_OT.cmp in H. rewrite H. reflexivity.
Qed.

Lemma ltb_asym (s t : string) : String.ltb s t = true -> String.ltb t s = false.
Proof.
  unfold String.ltb. rewrite (String.compare_antisym t s).
  destruct (String.compare s t); simpl; congruence.
Qed.

Lemma ltb_trans (s t u : string) :
  String.ltb s t = true -> String.ltb t u = true -> String.ltb s u = true.
Proof. rewrite !ltb_lt. apply String_as_OT.lt_trans. Qed.

Lemma ltb_tie (s t : string) :
  String.ltb s t = false -> String.ltb t s = false -> s = t.
Proof.
  unfold String.ltb. rewrite (String.compare_antisym t s).
  destruct (String.compare s t) eqn:E; simpl; try congruence.
  intros _ _. apply String.compare_eq_iff. exact E.
Qed.

Lemma ltb_total (s t : string) :
  s <> t -> String.ltb s t = true \/ String.ltb t s = true.
Proof.
  intros H. destruct (String.ltb s t) eqn:E1; [auto|].
  destruct (String.ltb t s) eqn:E2; [auto|].
  destruct (H (ltb_tie s t E1 E2)).
Qed.

(** *** Sequences *)

Lemma seq_lt_irrefl (a b : list pyval) :
  seq_lt py_eq py_lt a b = Some true -> seq_eq py_eq a b = false.
Proof.
  revert b. induction a as [|x a IH]; intros [|y b]; simpl; try discriminate;
    try reflexivity.
  destruct (py_eq x y); [apply IH | reflexivity].
Qed.

Lemma seq_lt_asym (a : list pyval) :
  (forall x, In x a -> wf_value x = true) ->
  (forall x, In x a -> forall y, wf_value y = true ->
             py_lt x y = Some true -> py_lt y x = Some false) ->
  forall b, (forall x, In x b -> wf_value x = true) ->
  seq_lt py_eq py_lt a b = Some true -> seq_lt py_eq py_lt b a = Some false.
Proof.
  induction a as [|x a IH]; intros Ha Helem [|y b] Hb; simpl; try discriminate;
    try reflexivity.
  rewrite (py_eq_sym y x) by auto using in_eq.
  destruct (py_eq x y).
  - apply IH; auto using in_cons.
  - apply Helem; auto using in_eq.
Qed.

Lemma seq_lt_tie (a : list pyval) :
  (forall x, In x a -> wf_value x = true) ->
  (forall x, In x a -> forall y, wf_value y = true ->
             py_lt x y = Some false -> py_lt y x = Some false -> py_eq x y = true) ->
  forall b, (forall x, In x b -> wf_value x = true) ->
  seq_lt py_eq py_lt a b = Some false -> seq_lt py_eq py_lt b a = Some false ->
  seq_eq py_eq a b = true.
Proof.
  induction a as [|x a IH]; intros Ha Helem [|y b] Hb; simpl; try discriminate;
    try reflexivity.
  rewrite (py_eq_sym y x) by auto using in_eq.
  destruct (py_eq x y) eqn:E.
  - apply IH; auto using in_cons.
  - intros H1 H2. rewrite (Helem x (in_eq _ _) y) in E; auto using in_eq.
Qed.

(** [x < y] excludes [x == y]. *)
Lemma py_lt_irrefl (x y : pyval) : py_lt x y = Some true -> py_eq x y = false.
Proof.
  destruct (as_number x) as [a|] eqn:Ea.
  { rewrite (py_lt_number x y a Ea), (py_eq_number x y a Ea).
    destruct (as_number y); [|discriminate].
    intros [= H]. apply Z.ltb_lt in H. apply Z.eqb_neq. lia. }
  destruct x as [| | | s | l | l | d]; try discriminate;
    destruct y as [| | | s' | l' | l' | d']; try discriminate.
  - cbn [py_lt py_eq]. intros [= H]. apply String.eqb_neq. intros ->.
    rewrite ltb_irrefl in H. discriminate.
  - apply seq_lt_irrefl.
  - apply seq_lt_irrefl.
Qed.

Lemma seq_lt_trans (a : list pyval) :
  (forall x, In x a -> wf_value x = true) ->
  (forall x, In x a -> forall y z, wf_value y = true -> wf_value z = true ->
             py_lt x y = Some true -> py_lt y z = Some true ->
             py_lt x z = Some true) ->
  forall b c,
    (forall x, In x b -> wf_value x = true) ->
    (forall x, In x c -> wf_value x = true) ->
    seq_lt py_eq py_lt a b = Some true -> seq_lt py_eq py_lt b c = Some true ->
    seq_lt py_eq py_lt a c = Some true.
Proof.
  induction a as [|x a IH]; intros Ha Helem [|y b] [|z c] Hb Hc; simpl;
    try discriminate; try reflexivity.
  assert (Hx : wf_value x = true) by auto using in_eq.
  assert (Hy : wf_value y = true) by auto using in_eq.
  assert (Hz : wf_value z = true) by auto using in_eq.
  destruct (py_eq x y) eqn:Exy; destruct (py_eq y z) eqn:Eyz.
  - rewrite (py_eq_trans x Hx y z Hy Hz Exy Eyz).
    apply IH; [intros w Hw; apply Ha; right; exact Hw
              |intros w Hw; apply Helem; right; exact Hw
              |intros w Hw; apply Hb; right; exact Hw
              |intros w Hw; apply Hc; right; exact Hw].
  - intros _ Hlt.
    rewrite (py_eq_cong x y z z Hx Hy Hz Hz Exy (py_eq_refl z Hz)), Eyz.
    rewrite (py_lt_cong x Hx y z z Hy Hz Hz Exy (py_eq_refl z Hz)). exact Hlt.
  - intros Hlt _.
    rewrite <- (py_eq_cong x x y z Hx Hx Hy Hz (py_eq_refl x Hx) Eyz), Exy.
    rewrite <- (py_lt_cong x Hx x y z Hx Hy Hz (py_eq_refl x Hx) Eyz). exact Hlt.
  - intros H1 H2. pose proof (Helem x (in_eq _ _) y z Hy Hz H1 H2) as H3.
    rewrite (py_lt_irrefl x z H3). exact H3.
Qed.

(** [<] is asymmetric... *)
Lemma py_lt_asym (x : pyval) :
  wf_value x = true -> forall y, wf_value y = true ->
  py_lt x y = Some true -> py_lt y x = Some false.
Proof.
  induction x as [x IH] using pyval_size_ind. intros Hx y Hy.
  destruct (as_number x) as [a|] eqn:Ea.
  { rewrite (py_lt_number x y a Ea), (py_lt_number_r y x a Ea).
    destruct (as_number y); [|discriminate].
    intros [= H]. f_equal. apply Z.ltb_lt in H. apply Z.ltb_ge. lia. }
  destruct x as [| | | s | l | l | d]; try discriminate;
    destruct y as [| | | s' | l' | l' | d']; try discriminate.
  - cbn [py_lt]. intros [= H]. rewrite (ltb_asym _ _ H). reflexivity.
  - apply seq_lt_asym; try (apply wf_list; assumption).
    intros w Hw. apply IH; [apply pysize_list_item, Hw | apply (proj1 (wf_list l) Hx w Hw)].
  - apply seq_lt_asym; try (apply wf_tuple; assumption).
    intros w Hw. apply IH; [apply pysize_tuple_item, Hw | apply (proj1 (wf_tuple l) Hx w Hw)].
Qed.

(** ... transitive ... *)
Lemma py_lt_trans (x : pyval) :
  wf_value x = true -> forall y z, wf_value y = true -> wf_value z = true ->
  py_lt x y = Some true -> py_lt y z = Some true -> py_lt x z = Some true.
Proof.
  induction x as [x IH] using pyval_size_ind. intros Hx y z Hy Hz.
  destruct (as_number x) as [a|] eqn:Ea.
  { rewrite (py_lt_number x y a Ea), (py_lt_number x z a Ea).
    destruct (as_number y) as [b|] eqn:Eb; [|discriminate].
    rewrite (py_lt_number y z b Eb). destruct (as_number z); [|discriminate].
    intros [= H1] [= H2]. f_equal. apply Z.ltb_lt in H1, H2. apply Z.ltb_lt. lia. }
  destruct x as [| | | s | l | l | d]; try discriminate;
    destruct y as [| | | s' | l' | l' | d']; try discriminate;
    destruct z as [| | | s'' | l'' | l'' | d'']; try discriminate.
  - cbn [py_lt]. intros [= H1] [= H2]. rewrite (ltb_trans _ _ _ H1 H2). reflexivity.
  - apply seq_lt_trans; try (apply wf_list; assumption).
    intros w Hw. apply IH; [apply pysize_list_item, Hw | apply (proj1 (wf_list l) Hx w Hw)].
  - apply seq_lt_trans; try (apply wf_tuple; assumption).
    intros w Hw. apply IH; [apply pysize_tuple_item, Hw | apply (proj1 (wf_tuple l) Hx w Hw)].
Qed.

(** ... and values that it does not order either way are equal. *)
Lemma py_lt_tie (x : pyval) :
  wf_value x = true -> forall y, wf_value y = true ->
  py_lt x y = Some false -> py_lt y x = Some false -> py_eq x y = true.
Proof.
  induction x as [x IH] using pyval_size_ind. intros Hx y Hy.
  destruct (as_number x) as [a|] eqn:Ea.
  { rewrite (py_lt_number x y a Ea), (py_lt_number_r y x a Ea), (py_eq_number x y a Ea).
    destruct (as_number y); [|discriminate].
    intros [= H1] [= H2]. apply Z.ltb_ge in H1, H2. apply Z.eqb_eq. lia. }
  destruct x as [| | | s | l | l | d]; try discriminate;
    destruct y as [| | | s' | l' | l' | d']; try discriminate.
  - cbn [py_lt py_eq]. intros [= H1] [= H2]. apply String.eqb_eq, ltb_tie; assumption.
  - apply seq_lt_tie; try (apply wf_list; assumption).
    intros w Hw. apply IH; [apply pysize_list_item, Hw | apply (proj1 (wf_list l) Hx w Hw)].
  - apply seq_lt_tie; try (apply wf_tuple; assumption).
    intros w Hw. apply IH; [apply pysize_tuple_item, Hw | apply (proj1 (wf_tuple l) Hx w Hw)].
Qed.

End LtFacts.

(** ** [sorted] does not depend on the order of its input *)

Module SortFacts.
Import PyFacts.

Lemma sort_fold_from_raise {A} (key : A -> pyval) (l : list A) (e : exn) :
  fold_left (fun acc x => s ← acc; insert_sorted key x s) l (Raise e) = Raise e.
Proof. induction l as [|x l IH]; simpl; [reflexivity | exact IH]. Qed.

(** Sorting the images of a list is sorting the list by the images. *)
Lemma insert_sorted_map {A B} (key : B -> pyval) (f : A -> B) (x : A) (s : list A) :
  insert_sorted key (f x) (map f s)
  = map f <$> insert_sorted (fun a => key (f a)) x s.
Proof.
  induction s as [|y s IH]; simpl; [reflexivity|].
  destruct (py_lt (key (f x)) (key (f y))) as [[|]|]; try reflexivity.
  rewrite IH. destruct (insert_sorted _ x s); reflexivity.
Qed.

Lemma sorted_by_map {A B} (key : B -> pyval) (f : A -> B) (l : list A) :
  sorted_by key (map f l) = map f <$> sorted_by (fun a => key (f a)) l.
Proof.
  unfold sorted_by.
  change (Ok (@nil B)) with (map f <$> Ok (@nil A)).
  generalize (Ok (@nil A)). induction l as [|x l IH]; intros r; simpl; [reflexivity|].
  rewrite <- IH. f_equal. destruct r as [s|e]; simpl; [|reflexivity].
  apply insert_sorted_map.
Qed.

(** Sorting depends on the keys only through the comparisons. *)
Lemma insert_sorted_ext {A} (key1 key2 : A -> pyval) (x : A) (s : list A) :
  (forall y, In y s -> py_lt (key1 x) (key1 y) = py_lt (key2 x) (key2 y)) ->
  insert_sorted key1 x s = insert_sorted key2 x s.
Proof.
  induction s as [|y s IH]; intros H; simpl; [reflexivity|].
  rewrite <- (H y (in_eq _ _)), IH; [reflexivity|].
  intros z Hz. apply H. right. exact Hz.
Qed.

Lemma sorted_by_ext {A} (key1 key2 : A -> pyval) (l : list A) :
  (forall x y, In x l -> In y l -> py_lt (key1 x) (key1 y) = py_lt (key2 x) (key2 y)) ->
  sorted_by key1 l = sorted_by key2 l.
Proof.
  unfold sorted_by. intros H.
  assert (G : forall l' s0,
             (forall x y, In x (s0 ++ l') -> In y (s0 ++ l') ->
                          py_lt (key1 x) (key1 y) = py_lt (key2 x) (key2 y)) ->
             fold_left (fun acc x => s ← acc; insert_sorted key1 x s) l' (Ok s0)
             = fold_left (fun acc x => s ← acc; insert_sorted key2 x s) l' (Ok s0)).
  { induction l' as [|x l' IH]; intros s0 Hs; simpl; [reflexivity|].
    rewrite (insert_sorted_ext key1 key2 x s0).
    - destruct (insert_sorted key2 x s0) as [s1|e] eqn:E.
      + apply IH. apply insert_sorted_perm in E.
        assert (Hp : Permutation (s0 ++ x :: l') (s1 ++ l')).
        { rewrite <- E. simpl. symmetry. apply Permutation_middle. }
        intros a b Ha Hb. apply Hs; eapply Permutation_in; try (symmetry; exact Hp);
          assumption.
      + rewrite !sort_fold_from_raise. reflexivity.
    - intros y Hy. apply Hs; apply in_or_app; [right; left; reflexivity | left; exact Hy]. }
  apply G. exact H.
Qed.

(** Sorting a permutation: the results agree up to ties. *)
Section Permuted.
Context {A : Type} (key : A -> pyval) (S : A -> Prop) (R : A -> A -> Prop).
Hypothesis Htot : forall x y, S x -> S y -> is_Some (py_lt (key x) (key y)).
Hypothesis Hasym : forall x y, S x -> S y -> py_lt (key x) (key y) = Some true -> py_lt (key y) (key x) = Some false.
Hypothesis Htrans : forall x y z, S x -> S y -> S z ->
  py_lt (key x) (key y) = Some true -> py_lt (key y) (key z) = Some true -> py_lt (key x) (key z) = Some true.
Hypothesis Htie : forall x y, S x -> S y ->
  py_lt (key x) (key y) = Some false -> py_lt (key y) (key x) = Some false -> R x y.
Hypothesis Hcong : forall x x' y y', S x -> S x' -> S y -> S y' ->
  R x x' -> R y y' -> py_lt (key x) (key y) = py_lt (key x') (key y').
Hypothesis Hrefl : forall x, S x -> R x x.
Hypothesis Hrtrans : forall x y z, S x -> S y -> S z -> R x y -> R y z -> R x z.

Lemma related_refl (s : list A) : Forall S s -> Forall2 R s s.
Proof. intros H. apply Forall_Forall2_diag. eapply Forall_impl; [exact H | exact Hrefl]. Qed.

Lemma related_trans (s1 s2 s3 : list A) :
  Forall S s1 -> Forall S s2 -> Forall S s3 ->
  Forall2 R s1 s2 -> Forall2 R s2 s3 -> Forall2 R s1 s3.
Proof.
  intros H1 H2 H3 H12. revert s3 H3 H1 H2.
  induction H12 as [|x y s1 s2 Hxy _ IH]; intros s3 H3 H1 H2 H23;
    inversion H23; subst; constructor.
  - inversion H1; inversion H2; inversion H3; subst. eapply Hrtrans; eauto.
  - inversion H1; inversion H2; inversion H3; subst. apply IH; assumption.
Qed.

Lemma insert_keeps (x : A) (s r : list A) :
  insert_sorted key x s = Ok r -> S x -> Forall S s -> Forall S r.
Proof.
  intros H Hx Hs. apply insert_sorted_perm in H.
  apply List.Forall_forall. intros y Hy.
  eapply Permutation_in in Hy; [|symmetry; exact H].
  destruct Hy as [<-|Hy]; [exact Hx|]. rewrite List.Forall_forall in Hs. auto.
Qed.

Lemma insert_related (x x' : A) (s s' : list A) :
  S x -> S x' -> Forall S s -> Forall S s' -> R x x' -> Forall2 R s s' ->
  exists r r', insert_sorted key x s = Ok r /\ insert_sorted key x' s' = Ok r'
               /\ Forall2 R r r'.
Proof.
  intros Hx Hx' Hs Hs' Hxx H. revert Hs Hs'.
  induction H as [|y y' s s' Hyy H IH]; intros Hs Hs'; simpl.
  - exists [x], [x']. repeat split. constructor; [exact Hxx | constructor].
  - inversion Hs as [|? ? Hy Hs0]; inversion Hs' as [|? ? Hy' Hs0']; subst.
    rewrite <- (Hcong x x' y y' Hx Hx' Hy Hy' Hxx Hyy).
    destruct (Htot x y Hx Hy) as [[|] ->].
    + eexists _, _. repeat split. repeat constructor; assumption.
    + destruct (IH Hs0 Hs0') as (r & r' & -> & -> & Hr). simpl.
      eexists _, _. repeat split. constructor; assumption.
Qed.

Lemma insert_total (x : A) (s : list A) :
  S x -> Forall S s -> exists r, insert_sorted key x s = Ok r /\ Forall S r.
Proof.
  intros Hx Hs.
  destruct (insert_related x x s s Hx Hx Hs Hs (Hrefl x Hx) (related_refl s Hs))
    as (r & _ & Hr & _ & _).
  exists r. split; [exact Hr|]. eapply insert_keeps; eauto.
Qed.

(** Inserting two elements in either order. *)
Lemma insert_swap (a b : A) (s : list A) :
  S a -> S b -> Forall S s ->
  exists r r',
    (insert_sorted key a s ≫= insert_sorted key b) = Ok r
    /\ (insert_sorted key b s ≫= insert_sorted key a) = Ok r'
    /\ Forall2 R r r'.
Proof.
  intros Ha Hb Hs.
  induction Hs as [|y s Hy Hs IH].
  - destruct (Htot b a Hb Ha) as [[|] Hba].
    + pose proof (Hasym b a Hb Ha Hba) as Hab.
      repeat (simpl; rewrite ?Hab, ?Hba).
      eexists _, _. repeat split. apply related_refl. repeat constructor; assumption.
    + destruct (Htot a b Ha Hb) as [[|] Hab]; repeat (simpl; rewrite ?Hab, ?Hba).
      * eexists _, _. repeat split. apply related_refl. repeat constructor; assumption.
      * eexists _, _. repeat split.
        constructor; [apply Htie; assumption|].
        constructor; [apply Htie; assumption | constructor].
  - destruct (Htot a y Ha Hy) as [[|] Hay]; destruct (Htot b y Hb Hy) as [[|] Hby].
    + (* both go before y *)
      destruct (Htot b a Hb Ha) as [[|] Hba].
      * pose proof (Hasym b a Hb Ha Hba) as Hab.
        repeat (simpl; rewrite ?Hay, ?Hby, ?Hab, ?Hba).
        eexists _, _. repeat split. apply related_refl. repeat constructor; assumption.
      * destruct (Htot a b Ha Hb) as [[|] Hab];
          repeat (simpl; rewrite ?Hay, ?Hby, ?Hab, ?Hba).
        -- eexists _, _. repeat split. apply related_refl.
           repeat constructor; assumption.
        -- eexists _, _. repeat split.
           constructor; [apply Htie; assumption|].
           constructor; [apply Htie; assumption|].
           apply related_refl. constructor; assumption.
    + (* a before y, b after *)
      assert (Hba : py_lt (key b) (key a) = Some false).
      { destruct (Htot b a Hb Ha) as [[|] Hba]; [|exact Hba].
        rewrite (Htrans b a y Hb Ha Hy Hba Hay) in Hby. discriminate. }
      destruct (insert_total b s Hb Hs) as (r & Hr & Hsr).
      repeat (simpl; rewrite ?Hay, ?Hby, ?Hba, ?Hr).
      eexists _, _. repeat split. apply related_refl. repeat constructor; assumption.
    + (* b before y, a after *)
      assert (Hab : py_lt (key a) (key b) = Some false).
      { destruct (Htot a b Ha Hb) as [[|] Hab]; [|exact Hab].
        rewrite (Htrans a b y Ha Hb Hy Hab Hby) in Hay. discriminate. }
      destruct (insert_total a s Ha Hs) as (r & Hr & Hsr).
      repeat (simpl; rewrite ?Hay, ?Hby, ?Hab, ?Hr).
      eexists _, _. repeat split. apply related_refl. repeat constructor; assumption.
    + (* both after y *)
      destruct (insert_total a s Ha Hs) as (ra & Hra & Hsa).
      destruct (insert_total b s Hb Hs) as (rb & Hrb & Hsb).
      destruct IH as (r & r' & H1 & H2 & Hrr).
      rewrite Hra in H1. rewrite Hrb in H2. simpl in H1, H2.
      repeat (simpl; rewrite ?Hay, ?Hby, ?Hra, ?Hrb, ?H1, ?H2).
      eexists _, _. repeat split. constructor; [apply Hrefl; assumption | exact Hrr].
Qed.

Local Abbreviation sort_from l r :=
  (fold_left (fun acc x => s ← acc; insert_sorted key x s) l r) (only parsing).

Lemma sort_from_related (l : list A) :
  Forall S l ->
  forall s0 s0', Forall S s0 -> Forall S s0' -> Forall2 R s0 s0' ->
  exists s s', sort_from l (Ok s0) = Ok s /\ sort_from l (Ok s0') = Ok s'
               /\ Forall2 R s s' /\ Forall S s /\ Forall S s'.
Proof.
  induction 1 as [|x l Hx Hl IH]; intros s0 s0' Hs0 Hs0' H0; simpl.
  - eauto 10.
  - destruct (insert_related x x s0 s0' Hx Hx Hs0 Hs0' (Hrefl x Hx) H0)
      as (r & r' & Hr & Hr' & Hrr).
    rewrite Hr, Hr'. apply IH; [eapply insert_keeps; eauto .. | exact Hrr].
Qed.

Lemma sort_from_permuted (l l' : list A) :
  Permutation l l' -> Forall S l ->
  forall s0 s0', Forall S s0 -> Forall S s0' -> Forall2 R s0 s0' ->
  exists s s', sort_from l (Ok s0) = Ok s /\ sort_from l' (Ok s0') = Ok s'
               /\ Forall2 R s s' /\ Forall S s /\ Forall S s'.
Proof.
  induction 1 as [|x l l' Hp IH|x y l|l l' l'' Hp1 IH1 Hp2 IH2];
    intros Hl s0 s0' Hs0 Hs0' H0.
  - simpl. eauto 10.
  - inversion Hl as [|? ? Hx Hl0]; subst. simpl.
    destruct (insert_related x x s0 s0' Hx Hx Hs0 Hs0' (Hrefl x Hx) H0)
      as (r & r' & Hr & Hr' & Hrr).
    rewrite Hr, Hr'. apply IH; [exact Hl0 | eapply insert_keeps; eauto .. | exact Hrr].
  - inversion Hl as [|? ? Hy Hl0]; subst. inversion Hl0 as [|? ? Hx Hl1]; subst.
    simpl.
    destruct (insert_swap y x s0 Hy Hx Hs0) as (r1 & r2 & H1 & H2 & H12).
    destruct (insert_total y s0 Hy Hs0) as (ry & Hry & Hsy).
    destruct (insert_total x s0 Hx Hs0) as (rx & Hrx & Hsx).
    rewrite Hry, Hrx in *. simpl in H1, H2.
    destruct (insert_related x x s0 s0' Hx Hx Hs0 Hs0' (Hrefl x Hx) H0)
      as (rx0 & rx' & Hrx0 & Hrx' & Hxx).
    rewrite Hrx in Hrx0. injection Hrx0 as <-.
    assert (Hsx' : Forall S rx') by (eapply insert_keeps; eauto).
    destruct (insert_related y y rx rx' Hy Hy Hsx Hsx' (Hrefl y Hy) Hxx)
      as (r2' & r3 & Hr2' & Hr3 & H23).
    rewrite H2 in Hr2'. injection Hr2' as <-.
    rewrite Hrx'. simpl. rewrite H1, Hr3.
    assert (Hs1 : Forall S r1) by (eapply insert_keeps; eauto).
    assert (Hs2 : Forall S r2) by (eapply insert_keeps; eauto).
    assert (Hs3 : Forall S r3) by (eapply insert_keeps; eauto).
    apply sort_from_related; try assumption.
    apply (related_trans r1 r2 r3); assumption.
  - assert (Hl' : Forall S l').
    { apply List.Forall_forall. intros z Hz. rewrite List.Forall_forall in Hl. apply Hl.
      eapply Permutation_in; [symmetry; exact Hp1 | exact Hz]. }
    destruct (IH1 Hl s0 s0 Hs0 Hs0 (related_refl s0 Hs0))
      as (s1 & s2 & H1 & H2 & H12 & Hs1 & Hs2).
    destruct (IH2 Hl' s0 s0' Hs0 Hs0' H0) as (s2' & s3 & H2' & H3 & H23 & _ & Hs3).
    rewrite H2 in H2'. injection H2' as <-.
    exists s1, s3. repeat split; try assumption.
    apply (related_trans s1 s2 s3); assumption.
Qed.

(** The two sorts succeed and agree element by element, up to [R]. *)
Lemma sorted_by_permuted (l l' : list A) :
  Permutation l l' -> Forall S l ->
  exists s s', sorted_by key l = Ok s /\ sorted_by key l' = Ok s' /\ Forall2 R s s'.
Proof.
  intros Hp Hl.
  destruct (sort_from_permuted l l' Hp Hl [] [] ltac:(constructor) ltac:(constructor)
              ltac:(constructor)) as (s & s' & H1 & H2 & H12 & _).
  exists s, s'. auto.
Qed.

(** Sorting two lists that agree element by element, up to [R]. *)
Lemma sort_from_pairwise (l l' : list A) :
  Forall2 R l l' -> Forall S l -> Forall S l' ->
  forall s0 s0', Forall S s0 -> Forall S s0' -> Forall2 R s0 s0' ->
  exists s s', sort_from l (Ok s0) = Ok s /\ sort_from l' (Ok s0') = Ok s'
               /\ Forall2 R s s' /\ Forall S s /\ Forall S s'.
Proof.
  induction 1 as [|x x' l l' Hxx _ IH]; intros Hl Hl' s0 s0' Hs0 Hs0' H0; simpl.
  - eauto 10.
  - inversion Hl as [|? ? Hx Hl0]; inversion Hl' as [|? ? Hx' Hl0']; subst.
    destruct (insert_related x x' s0 s0' Hx Hx' Hs0 Hs0' Hxx H0)
      as (r & r' & Hr & Hr' & Hrr).
    rewrite Hr, Hr'. apply IH; try assumption; eapply insert_keeps; eauto.
Qed.

(** The same when the second list is moreover permuted. *)
Lemma sorted_by_pairwise_permuted (l e l' : list A) :
  Forall2 R l e -> Permutation e l' -> Forall S l -> Forall S e ->
  exists s s', sorted_by key l = Ok s /\ sorted_by key l' = Ok s' /\ Forall2 R s s'.
Proof.
  intros HF Hp Hl He.
  destruct (sort_from_pairwise l e HF Hl He [] [] ltac:(constructor) ltac:(constructor)
              ltac:(constructor)) as (s & se & H1 & H2 & H12 & Hs & Hse).
  destruct (sort_from_permuted e l' Hp He [] [] ltac:(constructor) ltac:(constructor)
              ltac:(constructor)) as (se' & s' & H2' & H3 & H23 & _ & Hs').
  rewrite H2 in H2'. injection H2' as <-.
  exists s, s'. split; [exact H1|]. split; [exact H3|].
  apply (related_trans s se s'); assumption.
Qed.

End Permuted.

End SortFacts.

(** ** Canonical arguments do not depend on the order of keys and lists *)

Module InvarianceFacts.
Import PyFacts EqFacts LtFacts SortFacts NormFacts.

Lemma orderable_spec (l : list pyval) :
  mutually_orderable l = true
  <-> forall x y, In x l -> In y l -> is_Some (py_lt x y).
Proof.
  unfold mutually_orderable. rewrite forallb_forall. split.
  - intros H x y Hx Hy. specialize (H x Hx). rewrite forallb_forall in H.
    specialize (H y Hy). apply bool_decide_eq_true in H. exact H.
  - intros H x Hx. apply forallb_forall. intros y Hy.
    apply bool_decide_eq_true. auto.
Qed.

Lemma Forall2_combine {A B} (Q : A -> B -> Prop) (l : list A) (l' : list B) :
  Forall2 Q l l' ->
  l = map fst (combine l l') /\ l' = map snd (combine l l')
  /\ Forall (fun p => Q p.1 p.2) (combine l l').
Proof.
  induction 1 as [|x y l l' Hxy _ (IH1 & IH2 & IH3)]; simpl.
  - repeat split. constructor.
  - rewrite <- IH1, <- IH2. repeat split. constructor; assumption.
Qed.

(** *** Sorting the entries of a mapping *)

Section Entries.
Variable body : pyval -> result pyval.

Local Abbreviation dec := (decorate body).

Lemma dec_map (d : list (pyval * pyval)) :
  map (fun kv : pyval * pyval => let '(k, v) := kv in (k, v, body v)) d = map dec d.
Proof. reflexivity. Qed.

Lemma emit_decorate (k v : pyval) :
  emit_item (dec (k, v)) = (nv ← body v; Ok (PTuple [k; nv])).
Proof. reflexivity. Qed.

(** With string keys, each once, the entries are sorted by key alone. *)
Lemma sorted_items_by_key (d : list (pyval * pyval)) :
  wf_value (PDict d) = true ->
  sorted_by item_key (map dec d) = map dec <$> sorted_by fst d.
Proof.
  intros Hw. rewrite sorted_by_map. f_equal. apply sorted_by_ext.
  pose proof (proj1 (wf_dict d) Hw) as [Hk Hnd].
  intros [k v] [k' v'] Hin Hin'. unfold item_key, decorate. cbn [fst snd].
  destruct (Hk k v Hin) as [[s ->] Hv]. destruct (Hk k' v' Hin') as [[s' ->] Hv'].
  destruct (String.eqb_spec s s') as [<-|Hne].
  - rewrite (dict_entry_unique d (PStr s) v' v Hnd Hin' Hin).
    rewrite !seq_lt_cons_tuple, !py_eq_refl by (reflexivity || assumption).
    cbn [py_lt]. rewrite ltb_irrefl. reflexivity.
  - rewrite item_lt by assumption. reflexivity.
Qed.

(** Sorting the entries by key does not depend on their order. *)
Lemma sorted_entries_permuted (e d' : list (pyval * pyval)) :
  (forall k v, In (k, v) e -> exists s, k = PStr s) ->
  List.NoDup (map (fun kv : pyval * pyval => key_text kv.1) e) ->
  Permutation e d' ->
  exists s, sorted_by fst e = Ok s /\ sorted_by fst d' = Ok s.
Proof.
  intros Hk Hnd Hp.
  destruct (sorted_by_permuted fst (fun x => In x e) eq) with (l := e) (l' := d')
    as (s & s' & H1 & H2 & H12).
  - intros [k v] [k' v'] Hx Hy.
    destruct (Hk _ _ Hx) as [a ->]. destruct (Hk _ _ Hy) as [b ->]. cbn. eauto.
  - intros [k v] [k' v'] Hx Hy.
    destruct (Hk _ _ Hx) as [a ->]. destruct (Hk _ _ Hy) as [b ->]. cbn.
    intros [= H]. rewrite (ltb_asym _ _ H). reflexivity.
  - intros [k v] [k' v'] [k'' v''] Hx Hy Hz.
    destruct (Hk _ _ Hx) as [a ->]. destruct (Hk _ _ Hy) as [b ->].
    destruct (Hk _ _ Hz) as [c ->]. cbn.
    intros [= H1] [= H2]. rewrite (ltb_trans _ _ _ H1 H2). reflexivity.
  - intros [k v] [k' v'] Hx Hy.
    destruct (Hk _ _ Hx) as [a ->]. destruct (Hk _ _ Hy) as [b ->]. cbn.
    intros [= H1] [= H2]. pose proof (ltb_tie _ _ H1 H2) as ->.
    f_equal. exact (dict_entry_unique e (PStr b) v v' Hnd Hx Hy).
  - intros x x' y y' _ _ _ _ -> ->. reflexivity.
  - reflexivity.
  - intros x y z _ _ _ -> ->. reflexivity.
  - exact Hp.
  - apply List.Forall_forall. auto.
  - exists s. split; [exact H1|]. rewrite H2. f_equal. symmetry.
    clear -H12. induction H12; [reflexivity | congruence].
Qed.

(** Entries with the same keys, in the same order, sort alike. *)
Lemma sorted_entries_related (Q : pyval * pyval -> pyval * pyval -> Prop)
    (d e : list (pyval * pyval)) (s : list (pyval * pyval)) :
  (forall kv kv', Q kv kv' -> kv.1 = kv'.1) ->
  Forall2 Q d e ->
  sorted_by fst d = Ok s ->
  exists sz, s = map fst sz /\ sorted_by fst e = Ok (map snd sz)
             /\ Forall (fun p => Q p.1 p.2) sz.
Proof.
  intros HQ HF Hs. destruct (Forall2_combine Q d e HF) as (Hd & He & Hz).
  set (z := combine d e) in *.
  rewrite Hd, sorted_by_map in Hs.
  destruct (sorted_by (fun a : pyval * pyval * (pyval * pyval) => a.1.1) z)
    as [sz|err] eqn:Hsz; [|discriminate].
  injection Hs as <-. exists sz. split; [reflexivity|].
  assert (Hp : Permutation z sz) by (apply (sorted_by_perm _ _ _ Hsz)).
  split.
  - rewrite He, sorted_by_map.
    rewrite (sorted_by_ext (fun a : pyval * pyval * (pyval * pyval) => a.2.1)
                           (fun a : pyval * pyval * (pyval * pyval) => a.1.1)).
    + rewrite Hsz. reflexivity.
    + rewrite List.Forall_forall in Hz. intros x y Hx Hy.
      rewrite <- (HQ _ _ (Hz x Hx)), <- (HQ _ _ (Hz y Hy)). reflexivity.
  - apply List.Forall_forall. intros p Hpin. rewrite List.Forall_forall in Hz.
    apply Hz. eapply Permutation_in; [symmetry; exact Hp | exact Hpin].
Qed.

(** The loop over two mappings whose entries correspond: same keys, and
    bodies that return equal values. *)
Lemma loop_invariant (d e d' : list (pyval * pyval)) :
  is_json (PDict d) = true ->
  wf_value (PDict d') = true ->
  Forall2 (fun kv kv' : pyval * pyval =>
             kv.1 = kv'.1
             /\ exists nv nv', body kv.2 = Ok nv /\ body kv'.2 = Ok nv'
                               /\ py_eq nv nv' = true) d e ->
  Permutation e d' ->
  exists ns ns',
    (items ← sorted_by item_key (map dec d); mapM emit_item items) = Ok ns
    /\ (items ← sorted_by item_key (map dec d'); mapM emit_item items) = Ok ns'
    /\ py_eq (PTuple ns) (PTuple ns') = true.
Proof.
  intros Hj Hw' HF Hp.
  pose proof (json_wf _ Hj) as Hw.
  pose proof (proj1 (wf_dict d) Hw) as [Hk Hnd].
  assert (Hkeys : map (fun kv : pyval * pyval => kv.1) d
                  = map (fun kv : pyval * pyval => kv.1) e).
  { clear -HF. induction HF as [|x y d e [Hxy _] _ IH]; simpl; congruence. }
  assert (Hke : forall k v, In (k, v) e -> exists s, k = PStr s).
  { intros k v Hin.
    assert (Hin' : In k (map (fun kv : pyval * pyval => kv.1) d)).
    { rewrite Hkeys. apply in_map_iff. exists (k, v). auto. }
    apply in_map_iff in Hin' as ([k0 v0] & <- & Hin0). apply (Hk _ _ Hin0). }
  assert (Hnde : List.NoDup (map (fun kv : pyval * pyval => key_text kv.1) e)).
  { rewrite <- (map_map (fun kv : pyval * pyval => kv.1) key_text), <- Hkeys, map_map.
    exact Hnd. }
  rewrite !sorted_items_by_key by assumption.
  destruct (sorted_entries_permuted e d' Hke Hnde Hp) as (se & Hse & Hsd').
  destruct (sorted_entries_permuted d d (fun k v Hin => proj1 (Hk k v Hin)) Hnd
              (Permutation_refl d)) as (sd & Hsd & _).
  destruct (sorted_entries_related _ d e sd (fun kv kv' H => proj1 H) HF Hsd)
    as (sz & -> & Hse' & Hz).
  rewrite Hse in Hse'. injection Hse' as ->.
  rewrite Hsd, Hsd'. cbn [fmap result_fmap mbind result_bind].
  assert (Hkz : forall p, In p sz -> exists s, p.1.1 = PStr s).
  { intros p Hpin. apply (sorted_by_perm _ _ _) in Hsd.
    destruct p as [[k v] kv']. cbn [fst]. apply (Hk k v).
    eapply Permutation_in; [symmetry; exact Hsd|].
    apply in_map_iff. exists (k, v, kv'). auto. }
  clear -Hz Hkz. induction Hz as [|[[k v] [k' v']] sz Hq _ IH].
  - exists [], []. auto.
  - destruct IH as (ns & ns' & H1 & H2 & H12).
    { intros p Hpin. apply Hkz. right. exact Hpin. }
    destruct (Hkz _ (in_eq _ _)) as [s Hs]. cbn [fst snd] in Hq, Hs. subst k.
    destruct Hq as (<- & nv & nv' & Hnv & Hnv' & Heq).
    exists (PTuple [PStr s; nv] :: ns), (PTuple [PStr s; nv'] :: ns').
    cbn [map fst snd]. rewrite !mapM_cons, !emit_decorate, Hnv, Hnv'.
    cbn [mbind result_bind]. rewrite H1, H2. cbn [mbind result_bind]. repeat split.
    change (seq_eq py_eq (PTuple [PStr s; nv] :: ns) (PTuple [PStr s; nv'] :: ns') = true).
    change (seq_eq py_eq ns ns' = true) in H12.
    cbn [seq_eq]. rewrite H12, andb_true_r.
    change ((String.eqb s s && (py_eq nv nv' && true)) = true).
    rewrite String.eqb_refl, Heq. reflexivity.
Qed.

End Entries.

(** *** What reordering preserves *)

Lemma Forall2_partner {A B} (Q : A -> B -> Prop) (l : list A) (e : list B) (x : A) :
  Forall2 Q l e -> In x l -> exists y, In y e /\ Q x y.
Proof.
  induction 1 as [|a b l e Hab _ IH]; intros Hin; [destruct Hin|].
  destruct Hin as [<-|Hin].
  - exists b. split; [left; reflexivity | exact Hab].
  - destruct (IH Hin) as (y & Hy & Hq). exists y. split; [right; exact Hy | exact Hq].
Qed.

Lemma Forall2_partner_r {A B} (Q : A -> B -> Prop) (l : list A) (e : list B) (y : B) :
  Forall2 Q l e -> In y e -> exists x, In x l /\ Q x y.
Proof.
  induction 1 as [|a b l e Hab _ IH]; intros Hin; [destruct Hin|].
  destruct Hin as [<-|Hin].
  - exists a. split; [left; reflexivity | exact Hab].
  - destruct (IH Hin) as (x & Hx & Hq). exists x. split; [right; exact Hx | exact Hq].
Qed.

(** Entries that correspond, key by key, to the entries of a JSON
    mapping, with JSON values, make a JSON mapping in any order. *)
Lemma dict_json_step (Q : pyval -> pyval -> Prop) (d e d' : list (pyval * pyval)) :
  is_json (PDict d) = true ->
  (forall k v v', In (k, v) d -> Q v v' -> is_json v' = true) ->
  Forall2 (fun kv kv' : pyval * pyval => kv.1 = kv'.1 /\ Q kv.2 kv'.2) d e ->
  Permutation e d' ->
  is_json (PDict d') = true.
Proof.
  intros Hj HQ HF Hp.
  pose proof (proj1 (is_json_dict d) Hj) as [Hk Hnd].
  assert (He : (forall k v, In (k, v) e -> (exists s, k = PStr s) /\ is_json v = true)
               /\ map (fun kv : pyval * pyval => key_text kv.1) e
                  = map (fun kv : pyval * pyval => key_text kv.1) d).
  { clear -HF Hk HQ. induction HF as [|[k v] [k' v'] d e [Hkk Hvv] _ IHF].
    - split; [intros k v []| reflexivity].
    - cbn [fst snd] in Hkk, Hvv. subst k'.
      destruct IHF as [IH1 IH2].
      + intros k0 v0 v0' Hin. apply (HQ k0 v0). right. exact Hin.
      + intros k0 v0 Hin. apply Hk. right. exact Hin.
      + split.
        * intros k0 v0 [[= <- <-]|Hin]; [|apply IH1; exact Hin].
          split; [apply (Hk k v (or_introl eq_refl))|].
          apply (HQ k v v' (or_introl eq_refl) Hvv).
        * cbn [map fst]. rewrite IH2. reflexivity. }
  destruct He as [Hke Hkeys]. apply is_json_dict. split.
  - intros k v Hin. apply Hke. eapply Permutation_in; [symmetry; exact Hp | exact Hin].
  - rewrite <- Hp, Hkeys. exact Hnd.
Qed.

Lemma keys_permuted_json (v : pyval) :
  is_json v = true -> forall v', keys_permuted v v' -> is_json v' = true.
Proof.
  induction v as [v IH] using pyval_size_ind. intros Hj v' Hre.
  inversion Hre as [|l l' HF|d e d' HF Hp]; subst; [exact Hj| |].
  - apply is_json_list. intros y Hy.
    destruct (Forall2_partner_r _ _ _ y HF Hy) as (x & Hx & Hxy).
    apply (IH x (pysize_list_item x l Hx) (proj1 (is_json_list l) Hj x Hx) y Hxy).
  - apply (dict_json_step keys_permuted d e d' Hj); [|exact HF | exact Hp].
    intros k v v' Hin. apply IH; [apply (pysize_dict_entry _ _ _ Hin)|].
    apply (proj1 (is_json_dict d) Hj) in Hin as [_ Hv]. exact Hv.
Qed.

(** Permuting keys is invisible to [==]. *)
Lemma keys_permuted_eq (v : pyval) :
  is_json v = true -> forall v', keys_permuted v v' -> py_eq v v' = true.
Proof.
  induction v as [v IH] using pyval_size_ind. intros Hj v' Hre.
  pose proof (keys_permuted_json v Hj v' Hre) as Hj'.
  inversion Hre as [|l l' HF|d e d' HF Hp]; subst.
  - apply py_eq_refl, json_wf, Hj.
  - change (seq_eq py_eq l l' = true). apply seq_eq_spec.
    pose proof (proj1 (is_json_list l) Hj) as Hl.
    clear -HF Hl IH. induction HF as [|x y l l' Hxy _ IHF]; constructor.
    + apply IH; [apply pysize_list_item; left; reflexivity | apply Hl; left; reflexivity|].
      exact Hxy.
    + apply IHF.
      * intros w Hw. apply IH. simpl in *. lia.
      * intros z Hz. apply Hl. right. exact Hz.
  - apply py_eq_dict; [apply json_wf, Hj | apply json_wf, Hj'|].
    pose proof (proj1 (is_json_dict d) Hj) as [Hk _].
    split.
    + rewrite (Forall2_length _ _ _ HF). apply Permutation_length, Hp.
    + intros s v Hin.
      destruct (Forall2_partner _ _ _ (PStr s, v) HF Hin) as ([k' v'] & Hin' & Hkk & Hvv).
      cbn [fst snd] in Hkk, Hvv. subst k'. exists v'. split.
      * eapply Permutation_in; [exact Hp | exact Hin'].
      * apply (IH v (proj2 (pysize_dict_entry _ _ _ Hin)) (proj2 (Hk _ _ Hin)) v' Hvv).
Qed.

Lemma reordered_tcrr_json (v : pyval) :
  is_json v = true -> forall v', reordered_tcrr v v' -> is_json v' = true.
Proof.
  induction v as [v IH] using pyval_size_ind. intros Hj v' Hre.
  inversion Hre as [|l e l' _ HF Hp|d e d' HF Hp]; subst; [exact Hj| |].
  - pose proof (proj1 (is_json_list l) Hj) as Hl.
    apply is_json_list. intros y Hy.
    apply (Permutation_in y (Permutation_sym Hp)) in Hy.
    destruct (Forall2_partner_r _ _ _ y HF Hy) as (x & Hx & [<-|[_ Hxy]]).
    + apply Hl, Hx.
    + apply (IH x (pysize_list_item x l Hx) (Hl x Hx) y Hxy).
  - apply (dict_json_step reordered_tcrr d e d' Hj); [|exact HF | exact Hp].
    intros k v v' Hin. apply IH; [apply (pysize_dict_entry _ _ _ Hin)|].
    apply (proj1 (is_json_dict d) Hj) in Hin as [_ Hv]. exact Hv.
Qed.

Lemma reordered_am_json (v : pyval) :
  is_json v = true -> forall v', reordered_am v v' -> is_json v' = true.
Proof.
  induction v as [v IH] using pyval_size_ind. intros Hj v' Hre.
  inversion Hre as [|l e l' _ HF Hp|d e d' HF Hp]; subst; [exact Hj| |].
  - pose proof (proj1 (is_json_list l) Hj) as Hl.
    apply is_json_list. intros y Hy.
    apply (Permutation_in y (Permutation_sym Hp)) in Hy.
    destruct (Forall2_partner_r _ _ _ y HF Hy) as (x & Hx & Hxy).
    apply (keys_permuted_json x (Hl x Hx) y Hxy).
  - apply (dict_json_step reordered_am d e d' Hj); [|exact HF | exact Hp].
    intros k v v' Hin. apply IH; [apply (pysize_dict_entry _ _ _ Hin)|].
    apply (proj1 (is_json_dict d) Hj) in Hin as [_ Hv]. exact Hv.
Qed.

Lemma hashable_wf (v : pyval) : py_hashable v = true -> wf_value v = true.
Proof.
  induction v as [v IH] using pyval_size_ind. intros Hh.
  destruct v as [| | | |l|l|d]; try reflexivity; try discriminate.
  apply wf_tuple. intros x Hx. apply IH; [apply pysize_tuple_item, Hx|].
  simpl in Hh. rewrite forallb_forall in Hh. auto.
Qed.

Lemma wf_str_tuple (l : list pyval) : wf_value (Tcrr.str_tuple l) = true.
Proof. apply hashable_wf, hashable_str_tuple. Qed.

Lemma wf_perm (l l' : list pyval) :
  Permutation l l' -> (forall x, In x l -> wf_value x = true) ->
  forall x, In x l' -> wf_value x = true.
Proof.
  intros Hp H x Hx. apply H. eapply Permutation_in; [symmetry; exact Hp | exact Hx].
Qed.

(** On a JSON value the loop body of [agent_metrics.py] returns a
    well-formed value, and so does [normalized_params]. *)
Lemma am_normalize_wf (v : pyval) :
  is_json v = true ->
  (exists nv, AgentMetrics.normalize_value v = Ok nv /\ wf_value nv = true)
  /\ (exists n, AgentMetrics.normalized_params v = Ok n /\ wf_value n = true).
Proof.
  induction v as [v IH] using pyval_size_ind. intros Hj.
  assert (Hdict : forall d, v = PDict d ->
            exists n, AgentMetrics.normalized_params v = Ok n /\ wf_value n = true).
  { intros d ->. rewrite am_normalized_dict.
    destruct (loop_completes AgentMetrics.normalize_value (fun nv => wf_value nv = true)
                d Hj) as (items & ns & Hs & Hm & HF).
    - intros k v Hin. apply IH.
      + apply (pysize_dict_entry k v d Hin).
      + apply is_json_dict in Hj as [Hkeys _]. apply (Hkeys k v Hin).
    - rewrite Hs. simpl. rewrite Hm. simpl. eexists. split; [reflexivity|].
      apply wf_tuple. intros n Hn. rewrite List.Forall_forall in HF.
      destruct (HF n Hn) as (s & nv & -> & Hw). simpl. rewrite Hw. reflexivity. }
  destruct v as [| | | |l| |d]; try (split; eexists; split; reflexivity);
    try discriminate.
  - split; [|eexists; split; reflexivity].
    unfold AgentMetrics.normalize_value.
    destruct (sorted l) as [s|e] eqn:Hs; simpl.
    + eexists. split; [reflexivity|]. apply wf_tuple.
      apply (wf_perm l s (sorted_by_perm _ _ _ Hs)).
      intros x Hx. apply json_wf, (proj1 (is_json_list l) Hj x Hx).
    + apply (sorted_by_raise id) in Hs. subst e. simpl.
      eexists. split; [reflexivity | apply wf_str_tuple].
  - split; exact (Hdict d eq_refl).
Qed.

(** *** List values *)

Lemma str_tuple_lt (a b : list pyval) :
  is_Some (py_lt (Tcrr.str_tuple a) (Tcrr.str_tuple b)).
Proof.
  unfold Tcrr.str_tuple. revert b. induction a as [|x a IH]; intros [|y b]; cbn [map].
  - cbn. eauto.
  - cbn. eauto.
  - cbn. eauto.
  - rewrite seq_lt_cons_tuple. cbn [py_eq py_lt].
    destruct (String.eqb (py_str x) (py_str y)); [apply IH | eauto].
Qed.

Lemma plain_item_orderable (a b : pyval) :
  is_json a = true -> is_json b = true ->
  is_Some (py_lt a b) -> is_Some (py_lt (plain_item a) (plain_item b)).
Proof.
  intros Ha Hb H.
  destruct a as [| | | |la| |da]; destruct b as [| | | |lb| |db];
    try exact H; try discriminate; try (destruct H; discriminate).
  apply str_tuple_lt.
Qed.

Lemma normalize_item_plain (a : pyval) :
  is_Some (py_lt a a) -> Tcrr.normalize_item a = Ok (plain_item a).
Proof. destruct a; try reflexivity. intros [b H]. discriminate. Qed.

(** A list of JSON values that can be ordered as they stand can also be
    ordered once the inner loop of [tcrr.py] has normalized its items. *)
Lemma orderable_items_sort (l : list pyval) :
  is_json (PList l) = true -> mutually_orderable l = true -> items_sort l.
Proof.
  intros Hj Hord.
  pose proof (proj1 (is_json_list l) Hj) as Hjl.
  pose proof (proj1 (orderable_spec l) Hord) as Ho.
  assert (Hm : forall m, (forall x, In x m -> In x l) ->
                         mapM Tcrr.normalize_item m = Ok (map plain_item m)).
  { induction m as [|x m IHm]; intros Hin; [reflexivity|].
    rewrite mapM_cons, normalize_item_plain by (apply Ho; apply Hin; left; reflexivity).
    cbn [mbind result_bind]. rewrite IHm; [reflexivity|].
    intros y Hy. apply Hin. right. exact Hy. }
  exists (map plain_item l). split; [apply Hm; auto|].
  apply orderable_spec. intros x y Hx Hy.
  apply in_map_iff in Hx as (a & <- & Ha). apply in_map_iff in Hy as (b & <- & Hb).
  apply plain_item_orderable; auto.
Qed.

(** Sorting well-formed, mutually orderable values: the result does not
    depend on their order, nor on which of two equal ([==]) values
    stands for an element. *)
Lemma sorted_pairwise_permuted (l e l' : list pyval) :
  (forall x, In x l -> wf_value x = true) ->
  (forall y, In y e -> wf_value y = true) ->
  (forall x y, In x l -> In y l -> is_Some (py_lt x y)) ->
  Forall2 (fun x y => py_eq x y = true) l e ->
  Permutation e l' ->
  exists s s', sorted l = Ok s /\ sorted l' = Ok s'
               /\ py_eq (PTuple s) (PTuple s') = true.
Proof.
  intros Hwl Hwe Hord HF Hp.
  destruct (sorted_by_pairwise_permuted id
              (fun z => wf_value z = true /\ exists x, In x l /\ py_eq x z = true)
              (fun x y => py_eq x y = true))
    with (l := l) (e := e) (l' := l') as (s & s' & H1 & H2 & H12); unfold id in *.
  - intros z z' [Hz (x & Hx & Hxz)] [Hz' (x' & Hx' & Hxz')].
    rewrite <- (py_lt_cong x (Hwl x Hx) z x' z' Hz (Hwl x' Hx') Hz' Hxz Hxz').
    apply Hord; assumption.
  - intros x y [Hx _] [Hy _]. apply py_lt_asym; assumption.
  - intros x y z [Hx _] [Hy _] [Hz _]. apply py_lt_trans; assumption.
  - intros x y [Hx _] [Hy _]. apply py_lt_tie; assumption.
  - intros x x' y y' [Hx _] [Hx' _] [Hy _] [Hy' _]. apply py_lt_cong; assumption.
  - intros x [Hx _]. apply py_eq_refl; assumption.
  - intros x y z [Hx _] [Hy _] [Hz _]. apply py_eq_trans; assumption.
  - exact HF.
  - exact Hp.
  - apply List.Forall_forall. intros x Hx. split; [apply Hwl, Hx|].
    exists x. split; [exact Hx | apply py_eq_refl, Hwl, Hx].
  - apply List.Forall_forall. intros y Hy. split; [apply Hwe, Hy|].
    destruct (Forall2_partner_r _ _ _ y HF Hy) as (x & Hx & Hxy). eauto.
  - exists s, s'. split; [exact H1|]. split; [exact H2|].
    apply seq_eq_spec. exact H12.
Qed.

Lemma am_list_value (l e l' : list pyval) :
  is_json (PList l) = true ->
  mutually_orderable l = true \/ (length l <= 1)%nat ->
  Forall2 keys_permuted l e ->
  Permutation e l' ->
  exists c c', AgentMetrics.normalize_value (PList l) = Ok c
               /\ AgentMetrics.normalize_value (PList l') = Ok c'
               /\ py_eq c c' = true.
Proof.
  intros Hj Hcase HF Hp.
  pose proof (proj1 (is_json_list l) Hj) as Hjl.
  assert (Heq : Forall2 (fun x y => py_eq x y = true) l e).
  { clear -HF Hjl. induction HF as [|x y l e Hxy _ IH]; constructor.
    - apply keys_permuted_eq; [apply Hjl; left; reflexivity | exact Hxy].
    - apply IH. intros z Hz. apply Hjl. right. exact Hz. }
  assert (Hwe : forall y, In y e -> wf_value y = true).
  { intros y Hy. destruct (Forall2_partner_r _ _ _ y HF Hy) as (x & Hx & Hxy).
    apply json_wf, (keys_permuted_json x (Hjl x Hx) y Hxy). }
  destruct Hcase as [Hord|Hlen].
  - destruct (sorted_pairwise_permuted l e l') as (s & s' & H1 & H2 & H12);
      try assumption.
    + intros x Hx. apply json_wf. auto.
    + apply orderable_spec. exact Hord.
    + unfold AgentMetrics.normalize_value. rewrite H1, H2. cbn. eauto.
  - destruct l as [|x [|x2 l]]; [| |simpl in Hlen; lia].
    + inversion HF; subst. apply Permutation_nil in Hp. subst l'.
      eexists _, _. split; [reflexivity|]. split; reflexivity.
    + inversion HF as [|? y ? e0 Hxy HF0]; subst. inversion HF0; subst.
      apply Permutation_length_1_inv in Hp. subst l'.
      inversion Heq as [|? ? ? ? Exy _]; subst.
      exists (PTuple [x]), (PTuple [y]). split; [reflexivity|]. split; [reflexivity|].
      change (py_eq x y && true = true). rewrite Exy. reflexivity.
Qed.

Lemma mapM_permuted {A B} (f : A -> result B) (e l' : list A) (ne : list B) :
  mapM f e = Ok ne -> Permutation e l' ->
  exists nl', mapM f l' = Ok nl' /\ Permutation ne nl'.
Proof.
  intros Hm Hp. revert ne Hm.
  induction Hp as [|x e l' Hp IH|x y e|e l' l'' Hp1 IH1 Hp2 IH2]; intros ne Hm.
  - exists ne. split; [exact Hm | reflexivity].
  - rewrite mapM_cons in *. destruct (f x) as [n|err]; [|discriminate].
    cbn [mbind result_bind] in *.
    destruct (mapM f e) as [ns|err] eqn:E; [|discriminate]. injection Hm as <-.
    destruct (IH ns eq_refl) as (nl' & -> & Hperm). cbn [mbind result_bind].
    exists (n :: nl'). split; [reflexivity | constructor; exact Hperm].
  - rewrite !mapM_cons in *.
    destruct (f y) as [ny|err]; [|discriminate]. cbn [mbind result_bind] in *.
    destruct (f x) as [nx|err]; [|discriminate]. cbn [mbind result_bind] in *.
    destruct (mapM f e) as [ns|err]; [|discriminate]. injection Hm as <-.
    cbn [mbind result_bind].
    exists (nx :: ny :: ns). split; [reflexivity | apply perm_swap].
  - destruct (IH1 ne Hm) as (n1 & H1 & P1). destruct (IH2 n1 H1) as (n2 & H2 & P2).
    exists n2. split; [exact H2 | etransitivity; eassumption].
Qed.

(** The list branch of [tcrr.py], given what the inner loop makes of the
    items. *)
Lemma tcrr_list_value (l e l' : list pyval) (ns : list pyval) :
  mapM Tcrr.normalize_item l = Ok ns ->
  mutually_orderable ns = true ->
  (forall n, In n ns -> wf_value n = true) ->
  Forall2 (fun x y =>
             exists n n', Tcrr.normalize_item x = Ok n /\ Tcrr.normalize_item y = Ok n'
                          /\ wf_value n' = true /\ py_eq n n' = true) l e ->
  Permutation e l' ->
  exists c c', Tcrr.normalize_value (PList l) = Ok c
               /\ Tcrr.normalize_value (PList l') = Ok c'
               /\ py_eq c c' = true.
Proof.
  intros Hns Hord Hw HF Hp.
  assert (He : exists ne, mapM Tcrr.normalize_item e = Ok ne
                          /\ Forall2 (fun n n' => py_eq n n' = true) ns ne
                          /\ forall n', In n' ne -> wf_value n' = true).
  { apply mapM_ok in Hns. clear -Hns HF.
    revert ns Hns. induction HF as [|x y l e (n & n' & Hn & Hn' & Hwn' & Heq) _ IH];
      intros ns Hns.
    - inversion Hns; subst. exists []. split; [reflexivity|]. split; [constructor|].
      intros n' [].
    - inversion Hns as [|? n0 ? ns0 Hx Hrest]; subst.
      rewrite Hn in Hx. injection Hx as <-.
      destruct (IH ns0 Hrest) as (ne & Hme & Hfe & Hwe).
      exists (n' :: ne). rewrite mapM_cons, Hn'. cbn [mbind result_bind]. rewrite Hme.
      split; [reflexivity|]. split; [constructor; assumption|].
      intros z [<-|Hz]; [exact Hwn' | apply Hwe, Hz]. }
  destruct He as (ne & Hme & Hfe & Hwe).
  destruct (mapM_permuted _ e l' ne Hme Hp) as (nl' & Hml' & Hperm).
  destruct (sorted_pairwise_permuted ns ne nl') as (s & s' & H1 & H2 & H12);
    try assumption.
  { apply orderable_spec. exact Hord. }
  unfold Tcrr.normalize_value. rewrite Hns, Hml'. cbn [mbind result_bind].
  change (sorted_by id) with sorted. rewrite H1, H2. cbn. eauto.
Qed.

(** *** Mappings *)

(** What the inner loop of [tcrr.py] makes of a JSON item. *)
Lemma normalize_item_json (x : pyval) :
  is_json x = true -> exists n, Tcrr.normalize_item x = Ok n /\ wf_value n = true.
Proof.
  intros Hj. destruct x as [| | | |l| |d]; try (eexists; split; reflexivity);
    try discriminate.
  - eexists. split; [reflexivity | apply wf_str_tuple].
  - destruct (proj2 (tcrr_normalize_json (PDict d) Hj) d eq_refl) as (n & Hn & Hh).
    exists n. split; [exact Hn | apply hashable_wf, Hh].
Qed.

(** The loop body of [tcrr.py] on a value and on a reordered one. *)
Lemma tcrr_value_invariant (v : pyval) :
  is_json v = true -> forall v', reordered_tcrr v v' ->
  exists nv nv', Tcrr.normalize_value v = Ok nv /\ Tcrr.normalize_value v' = Ok nv'
                 /\ py_eq nv nv' = true.
Proof.
  induction v as [v IH] using pyval_size_ind. intros Hj v' Hre.
  inversion Hre as [|l e l' (ns & Hns & Hord) HF Hp|d e d' HF Hp]; subst.
  - destruct (proj1 (tcrr_normalize_json v' Hj)) as (nv & Hnv & Hh).
    exists nv, nv. split; [exact Hnv|]. split; [exact Hnv|].
    apply py_eq_refl, hashable_wf, Hh.
  - pose proof (proj1 (is_json_list l) Hj) as Hl.
    apply (tcrr_list_value l e l' ns Hns Hord); [| |exact Hp].
    + intros n Hn. apply mapM_ok in Hns.
      destruct (Forall2_partner_r _ _ _ n Hns Hn) as (x & Hx & Hxn).
      destruct (normalize_item_json x (Hl x Hx)) as (n0 & Hn0 & Hw).
      rewrite Hxn in Hn0. injection Hn0 as ->. exact Hw.
    + clear Hns Hord Hp Hre.
      assert (Hstep : forall x y, In x l ->
                x = y \/ ((exists d, x = PDict d) /\ reordered_tcrr x y) ->
                exists n n', Tcrr.normalize_item x = Ok n /\ Tcrr.normalize_item y = Ok n'
                             /\ wf_value n' = true /\ py_eq n n' = true).
      { intros x y Hx [<-|[[d ->] Hxy]].
        - destruct (normalize_item_json x (Hl x Hx)) as (n & Hn & Hw).
          exists n, n. split; [exact Hn|]. split; [exact Hn|]. split; [exact Hw|].
          apply py_eq_refl, Hw.
        - destruct (IH (PDict d) (pysize_list_item _ l Hx) (Hl _ Hx) y Hxy)
            as (nv & nv' & H1 & H2 & H12).
          pose proof (reordered_tcrr_json _ (Hl _ Hx) y Hxy) as Hjy.
          assert (Hy : exists d', y = PDict d') by (inversion Hxy; subst; eauto).
          destruct Hy as [d' ->].
          destruct (normalize_item_json (PDict d') Hjy) as (n0 & Hn0 & Hw).
          change (Tcrr.normalize_item (PDict d')) with (Tcrr.normalize_value (PDict d'))
            in Hn0.
          rewrite H2 in Hn0. injection Hn0 as <-.
          exists nv, nv'. split; [exact H1|]. split; [exact H2|]. split; assumption. }
      clear -HF Hstep. induction HF as [|x y l e Hxy _ IHF]; constructor.
      * apply Hstep; [left; reflexivity | exact Hxy].
      * apply IHF. intros x0 y0 Hx0. apply Hstep. right. exact Hx0.
  - change (Tcrr.normalize_value (PDict d)) with (Tcrr.normalized_params (PDict d)).
    change (Tcrr.normalize_value (PDict d')) with (Tcrr.normalized_params (PDict d')).
    rewrite !tcrr_normalized_dict.
    pose proof (proj1 (is_json_dict d) Hj) as [Hk _].
    destruct (loop_invariant Tcrr.normalize_value d e d') as (ns & ns' & H1 & H2 & H12).
    + exact Hj.
    + apply json_wf. apply (reordered_tcrr_json _ Hj _ Hre).
    + assert (IH' : forall k v, In (k, v) d -> forall v', reordered_tcrr v v' ->
                exists nv nv', Tcrr.normalize_value v = Ok nv
                               /\ Tcrr.normalize_value v' = Ok nv'
                               /\ py_eq nv nv' = true).
      { intros k v Hin. apply IH; [apply (pysize_dict_entry _ _ _ Hin) | apply (Hk _ _ Hin)]. }
      clear -HF IH'. induction HF as [|[k v] [k' v'] d e [Hkk Hvv] _ IHF]; constructor.
      * split; [exact Hkk|]. apply (IH' k v (or_introl eq_refl)). exact Hvv.
      * apply IHF. intros k0 v0 Hin. apply (IH' k0 v0). right. exact Hin.
    + exact Hp.
    + apply bind_ok in H1 as (items & Hi & Hm). apply bind_ok in H2 as (items' & Hi' & Hm').
      change (map (fun kv : pyval * pyval =>
                     let '(k, v) := kv in (k, v, Tcrr.normalize_value v)) d)
        with (map (decorate Tcrr.normalize_value) d).
      change (map (fun kv : pyval * pyval =>
                     let '(k, v) := kv in (k, v, Tcrr.normalize_value v)) d')
        with (map (decorate Tcrr.normalize_value) d').
      rewrite Hi, Hi'. cbn [mbind result_bind]. rewrite Hm, Hm'. cbn [mbind result_bind].
      eauto.
Qed.

(** The loop body of [agent_metrics.py] on a value and on a reordered
    one. *)
Lemma am_value_invariant (v : pyval) :
  is_json v = true -> forall v', reordered_am v v' ->
  exists nv nv', AgentMetrics.normalize_value v = Ok nv
                 /\ AgentMetrics.normalize_value v' = Ok nv'
                 /\ py_eq nv nv' = true.
Proof.
  induction v as [v IH] using pyval_size_ind. intros Hj v' Hre.
  inversion Hre as [|l e l' Hcase HF Hp|d e d' HF Hp]; subst.
  - destruct (proj1 (am_normalize_wf v' Hj)) as (nv & Hnv & Hw).
    exists nv, nv. split; [exact Hnv|]. split; [exact Hnv | apply py_eq_refl, Hw].
  - apply (am_list_value l e l'); assumption.
  - change (AgentMetrics.normalize_value (PDict d))
      with (AgentMetrics.normalized_params (PDict d)).
    change (AgentMetrics.normalize_value (PDict d'))
      with (AgentMetrics.normalized_params (PDict d')).
    rewrite !am_normalized_dict.
    pose proof (proj1 (is_json_dict d) Hj) as [Hk _].
    destruct (loop_invariant AgentMetrics.normalize_value d e d')
      as (ns & ns' & H1 & H2 & H12).
    + exact Hj.
    + apply json_wf. apply (reordered_am_json _ Hj _ Hre).
    + assert (IH' : forall k v, In (k, v) d -> forall v', reordered_am v v' ->
                exists nv nv', AgentMetrics.normalize_value v = Ok nv
                               /\ AgentMetrics.normalize_value v' = Ok nv'
                               /\ py_eq nv nv' = true).
      { intros k v Hin. apply IH; [apply (pysize_dict_entry _ _ _ Hin) | apply (Hk _ _ Hin)]. }
      clear -HF IH'. induction HF as [|[k v] [k' v'] d e [Hkk Hvv] _ IHF]; constructor.
      * split; [exact Hkk|]. apply (IH' k v (or_introl eq_refl)). exact Hvv.
      * apply IHF. intros k0 v0 Hin. apply (IH' k0 v0). right. exact Hin.
    + exact Hp.
    + apply bind_ok in H1 as (items & Hi & Hm). apply bind_ok in H2 as (items' & Hi' & Hm').
      change (map (fun kv : pyval * pyval =>
                     let '(k, v) := kv in (k, v, AgentMetrics.normalize_value v)) d)
        with (map (decorate AgentMetrics.normalize_value) d).
      change (map (fun kv : pyval * pyval =>
                     let '(k, v) := kv in (k, v, AgentMetrics.normalize_value v)) d')
        with (map (decorate AgentMetrics.normalize_value) d').
      rewrite Hi, Hi'. cbn [mbind result_bind]. rewrite Hm, Hm'. cbn [mbind result_bind].
      eauto.
Qed.

Lemma tcrr_args_invariant (a a' : pyval) :
  is_args a = true -> reordered_tcrr a a' ->
  exists c c', Tcrr.normalized_params a = Ok c /\ Tcrr.normalized_params a' = Ok c'
               /\ py_eq c c' = true.
Proof.
  intros Ha Hre. destruct a as [| | | | | |d]; try discriminate.
  assert (Ha' : exists d', a' = PDict d') by (inversion Hre; subst; eauto).
  destruct Ha' as [d' ->].
  exact (tcrr_value_invariant (PDict d) Ha (PDict d') Hre).
Qed.

Lemma am_args_invariant (a a' : pyval) :
  is_args a = true -> reordered_am a a' ->
  exists c c', AgentMetrics.normalized_params a = Ok c
               /\ AgentMetrics.normalized_params a' = Ok c'
               /\ py_eq c c' = true.
Proof.
  intros Ha Hre. destruct a as [| | | | | |d]; try discriminate.
  assert (Ha' : exists d', a' = PDict d') by (inversion Hre; subst; eauto).
  destruct Ha' as [d' ->].
  exact (am_value_invariant (PDict d) Ha (PDict d') Hre).
Qed.

(** C1, as stated, fails for both implementations. Permuting the keys of
    a mapping that sits in a list value changes the canonical form when
    the list cannot be sorted, because the fallback renders the raw items
    with [str]; so does reordering a list nested in a list value. In both
    examples the two argument mappings are equal for Python ([==]) in the
    first case, and differ only by the order of an orderable inner list in
    the second. In [agent_metrics.py] the key order of a mapping in a
    list value shows even when [tcrr.py] canonicalizes it: the raw
    mappings are sorted, which fails as soon as there are two. *)
Lemma canonical_form_depends_on_nested_order :
  py_eq nested_args nested_args_permuted = true
  /\ (exists c c', Tcrr.normalized_params nested_args = Ok c
                   /\ Tcrr.normalized_params nested_args_permuted = Ok c'
                   /\ py_eq c c' = false)
  /\ (exists c c', AgentMetrics.normalized_params nested_args = Ok c
                   /\ AgentMetrics.normalized_params nested_args_permuted = Ok c'
                   /\ py_eq c c' = false)
  /\ mutually_orderable [PInt 2; PInt 1] = true
  /\ Permutation [PInt 2; PInt 1] [PInt 1; PInt 2]
  /\ (exists c c', Tcrr.normalized_params inner_list_args = Ok c
                   /\ Tcrr.normalized_params inner_list_args_reordered = Ok c'
                   /\ py_eq c c' = false)
  /\ (exists c c', AgentMetrics.normalized_params inner_list_args = Ok c
                   /\ AgentMetrics.normalized_params inner_list_args_reordered = Ok c'
                   /\ py_eq c c' = false)
  /\ py_eq filter_args filter_args_permuted = true
  /\ (exists c c', AgentMetrics.normalized_params filter_args = Ok c
                   /\ AgentMetrics.normalized_params filter_args_permuted = Ok c'
                   /\ py_eq c c' = false).
Proof.
  split; [reflexivity|].
  split; [eexists _, _; split; [reflexivity|]; split; reflexivity|].
  split; [eexists _, _; split; [reflexivity|]; split; reflexivity|].
  split; [reflexivity|].
  split; [apply perm_swap|].
  split; [eexists _, _; split; [reflexivity|]; split; reflexivity|].
  split; [eexists _, _; split; [reflexivity|]; split; reflexivity|].
  split; [reflexivity|].
  eexists _, _; split; [reflexivity|]; split; reflexivity.
Qed.

(** C1, amended. Let [a] be a JSON argument mapping: string keys at
    every level, and values that are [None], booleans, integers,
    strings, lists and such mappings (no floats).

    [tcrr.py]: for every [a'] with [reordered_tcrr a a'], that is [a]
    with the keys permuted in [a], in the mappings reached through
    mapping-valued entries and in the mappings that are items of a list
    value whose normalized items are mutually orderable, and with such
    list values reordered, [normalized_params] returns on [a] and on
    [a'], and the two results are equal ([==]).

    [agent_metrics.py]: for every [a'] with [reordered_am a a'], that is
    [a] with the keys permuted in [a] and in the mappings reached through
    mapping-valued entries, with the list values whose elements are
    mutually orderable reordered, and with the keys permuted in mappings
    at any depth inside the items of a list value that is mutually
    orderable or has at most one item, [normalized_params] returns on
    [a] and on [a'], and the two results are equal ([==]). *)
Theorem canonicalization_invariance :
  forall a a' : pyval,
    is_args a = true ->
    (reordered_tcrr a a' ->
     exists c c', Tcrr.normalized_params a = Ok c
                  /\ Tcrr.normalized_params a' = Ok c'
                  /\ py_eq c c' = true)
    /\ (reordered_am a a' ->
        exists c c', AgentMetrics.normalized_params a = Ok c
                     /\ AgentMetrics.normalized_params a' = Ok c'
                     /\ py_eq c c' = true).
Proof.
  intros a a' Ha. split; intros Hre;
    [apply tcrr_args_invariant | apply am_args_invariant]; assumption.
Qed.

Lemma search_args_reordered : reordered_tcrr search_args search_args_permuted.
Proof.
  unfold search_args, search_args_permuted.
  eapply (rt_dict _
            [ (PStr "query", PStr "shoes");
              (PStr "sizes", PList [PInt 42; PInt 43; PInt 44]);
              (PStr "filters",
               PList [ PDict [(PStr "max", PInt 90); (PStr "field", PStr "price")];
                       PDict [(PStr "max", PInt 44); (PStr "field", PStr "size")] ]);
              (PStr "page", PDict [ (PStr "sort", PList [PStr "name"; PStr "price"]);
                                    (PStr "size", PInt 10) ]) ]).
  - constructor; [split; [reflexivity | apply rt_same]|].
    constructor.
    { split; [reflexivity|].
      apply (rt_list _ [PInt 44; PInt 42; PInt 43]).
      - eexists. split; reflexivity.
      - repeat constructor.
      - apply (Permutation_cons_append [PInt 42; PInt 43] (PInt 44)). }
    constructor.
    { split; [reflexivity|].
      apply (rt_list _ [ PDict [(PStr "max", PInt 44); (PStr "field", PStr "size")];
                         PDict [(PStr "max", PInt 90); (PStr "field", PStr "price")] ]).
      - eexists. split; reflexivity.
      - constructor.
        { right. split; [eexists; reflexivity|].
          apply (rt_dict _ [(PStr "field", PStr "size"); (PStr "max", PInt 44)]).
          - repeat constructor.
          - apply perm_swap. }
        constructor; [|constructor].
        right. split; [eexists; reflexivity|].
        apply (rt_dict _ [(PStr "field", PStr "price"); (PStr "max", PInt 90)]).
        + repeat constructor.
        + apply perm_swap.
      - apply perm_swap. }
    constructor; [|constructor].
    split; [reflexivity|].
    apply (rt_dict _ [ (PStr "size", PInt 10);
                       (PStr "sort", PList [PStr "name"; PStr "price"]) ]).
    + constructor; [split; [reflexivity | apply rt_same]|].
      constructor; [|constructor].
      split; [reflexivity|].
      apply (rt_list _ [PStr "price"; PStr "name"]).
      * eexists. split; reflexivity.
      * repeat constructor.
      * apply perm_swap.
    + apply perm_swap.
  - apply (Permutation_rev
             [ (PStr "query", PStr "shoes");
               (PStr "sizes", PList [PInt 42; PInt 43; PInt 44]);
               (PStr "filters",
                PList [ PDict [(PStr "max", PInt 90); (PStr "field", PStr "price")];
                        PDict [(PStr "max", PInt 44); (PStr "field", PStr "size")] ]);
               (PStr "page", PDict [ (PStr "sort", PList [PStr "name"; PStr "price"]);
                                     (PStr "size", PInt 10) ]) ]).
Qed.

Lemma transfer_args_reordered : reordered_am transfer_args transfer_args_permuted.
Proof.
  unfold transfer_args, transfer_args_permuted.
  eapply (ra_dict _
            [ (PStr "to", PStr "A2");
              (PStr "amounts", PList [PInt 10; PInt 20; PInt 30]);
              (PStr "only", PList [ PDict [ (PStr "b", PList [PInt 2; PInt 1]);
                                            (PStr "a", PInt 1) ] ]);
              (PStr "options", PDict [ (PStr "tags", PList [PStr "a"; PStr "x"]);
                                       (PStr "notify", PBool true) ]) ]).
  - constructor; [split; [reflexivity | apply ra_same]|].
    constructor.
    { split; [reflexivity|].
      apply (ra_list _ [PInt 30; PInt 10; PInt 20]).
      - left. reflexivity.
      - repeat constructor.
      - apply (Permutation_cons_append [PInt 10; PInt 20] (PInt 30)). }
    constructor.
    { split; [reflexivity|].
      apply (ra_list _ [ PDict [ (PStr "b", PList [PInt 2; PInt 1]);
                                 (PStr "a", PInt 1) ] ]).
      - right. simpl. lia.
      - constructor; [|constructor].
        apply (kp_dict _ [ (PStr "a", PInt 1); (PStr "b", PList [PInt 2; PInt 1]) ]).
        + repeat constructor.
        + apply perm_swap.
      - reflexivity. }
    constructor; [|constructor].
    split; [reflexivity|].
    apply (ra_dict _ [ (PStr "notify", PBool true);
                       (PStr "tags", PList [PStr "a"; PStr "x"]) ]).
    + constructor; [split; [reflexivity | apply ra_same]|].
      constructor; [|constructor].
      split; [reflexivity|].
      apply (ra_list _ [PStr "x"; PStr "a"]).
      * left. reflexivity.
      * repeat constructor.
      * apply perm_swap.
    + apply perm_swap.
  - apply (Permutation_rev
             [ (PStr "to", PStr "A2");
               (PStr "amounts", PList [PInt 10; PInt 20; PInt 30]);
               (PStr "only", PList [ PDict [ (PStr "b", PList [PInt 2; PInt 1]);
                                             (PStr "a", PInt 1) ] ]);
               (PStr "options", PDict [ (PStr "tags", PList [PStr "a"; PStr "x"]);
                                        (PStr "notify", PBool true) ]) ]).
Qed.

(** [canonicalization_invariance] on a search request for [tcrr.py] (a
    list of mappings reordered, their keys permuted) and on a transfer
    request for [agent_metrics.py] (the keys of the one mapping of a
    list permuted), each written in two orders. *)
Lemma canonicalization_invariance_witness :
  is_args search_args = true
  /\ reordered_tcrr search_args search_args_permuted
  /\ (exists c c', Tcrr.normalized_params search_args = Ok c
                   /\ Tcrr.normalized_params search_args_permuted = Ok c'
                   /\ py_eq c c' = true)
  /\ is_args transfer_args = true
  /\ reordered_am transfer_args transfer_args_permuted
  /\ (exists c c', AgentMetrics.normalized_params transfer_args = Ok c
                   /\ AgentMetrics.normalized_params transfer_args_permuted = Ok c'
                   /\ py_eq c c' = true).
Proof.
  assert (Hs : is_args search_args = true) by reflexivity.
  assert (Ht : is_args transfer_args = true) by reflexivity.
  split; [exact Hs|]. split; [exact search_args_reordered|].
  split.
  { exact (proj1 (canonicalization_invariance search_args search_args_permuted Hs)
             search_args_reordered). }
  split; [exact Ht|]. split; [exact transfer_args_reordered|].
  exact (proj2 (canonicalization_invariance transfer_args transfer_args_permuted Ht)
           transfer_args_reordered).
Defined.

End InvarianceFacts.

(** ** pass^k *)

Module PassHatKFacts.
Import AgentMetrics.

Lemma comb_zero_r (n : nat) : comb n 0 = 1%nat.
Proof. destruct n; reflexivity. Qed.

Lemma comb_small (n k : nat) : (n < k)%nat -> comb n k = 0%nat.
Proof.
  revert k. induction n as [|n IH]; intros [|k] H; simpl; try lia.
  rewrite !IH by lia. reflexivity.
Qed.

Lemma comb_positive (n k : nat) : (k <= n)%nat -> (0 < comb n k)%nat.
Proof.
  revert k. induction n as [|n IH]; intros [|k] H; simpl; try lia.
  specialize (IH k ltac:(lia)). lia.
Qed.

(** [comb] is the binomial coefficient: n! = C(n,k) * k! * (n-k)!. *)
Lemma comb_factorial (n k : nat) :
  (k <= n)%nat -> (comb n k * fact k * fact (n - k) = fact n)%nat.
Proof.
  revert k. induction n as [|n IH]; intros k H.
  - assert (k = 0%nat) by lia. subst. reflexivity.
  - destruct k as [|k].
    + rewrite comb_zero_r. simpl. lia.
    + destruct (decide (k = n)) as [->|Hne].
      * simpl comb. rewrite (comb_small n (S n)) by lia.
        specialize (IH n ltac:(lia)). rewrite Nat.sub_diag in *.
        simpl fact in *. nia.
      * assert (Hk : (k <= n)%nat) by lia.
        assert (Hk' : (S k <= n)%nat) by lia.
        pose proof (IH k Hk) as H1. pose proof (IH (S k) Hk') as H2.
        replace (n - k)%nat with (S (n - S k)) in H1 by lia.
        replace (S n - S k)%nat with (S (n - S k)) by lia.
        change (comb (S n) (S k)) with (comb n k + comb n (S k))%nat.
        change (fact (S n)) with (S n * fact n)%nat.
        change (fact (S k)) with (S k * fact k)%nat in *.
        change (fact (S (n - S k))) with (S (n - S k) * fact (n - S k))%nat in *.
        replace (S n) with (S k + S (n - S k))%nat at 2 by lia.
        nia.
Qed.

Lemma math_comb_count (n k : Z) :
  0 <= n -> 0 <= k ->
  math_comb n k = Ok (Z.of_nat (comb (Z.to_nat n) (Z.to_nat k))).
Proof.
  intros Hn Hk. unfold math_comb.
  destruct (Z.ltb_spec n 0); [lia|]. destruct (Z.ltb_spec k 0); [lia|]. reflexivity.
Qed.

Lemma math_comb_negative (n k : Z) :
  n < 0 \/ k < 0 -> math_comb n k = Raise ValueError.
Proof.
  intros H. unfold math_comb.
  destruct (Z.ltb_spec n 0); [reflexivity|].
  destruct (Z.ltb_spec k 0); [reflexivity | lia].
Qed.

Lemma pass_hat_k_below (n s k : Z) : n < k -> pass_hat_k n s k = Raise ValueError.
Proof. intros H. unfold pass_hat_k. destruct (Z.ltb_spec n k); [reflexivity | lia]. Qed.

Lemma pass_hat_k_counts (n s k : Z) :
  0 <= s -> 0 <= k -> k <= n ->
  pass_hat_k n s k
  = Ok (inject_Z (Z.of_nat (comb (Z.to_nat s) (Z.to_nat k)))
        / inject_Z (Z.of_nat (comb (Z.to_nat n) (Z.to_nat k))))%Q
  /\ comb (Z.to_nat n) (Z.to_nat k) <> 0%nat.
Proof.
  intros Hs Hk Hkn.
  pose proof (comb_positive (Z.to_nat n) (Z.to_nat k) ltac:(lia)) as Hpos.
  unfold pass_hat_k. destruct (Z.ltb_spec n k) as [?|_]; [lia|].
  rewrite !math_comb_count by lia. cbn [mbind result_bind]. unfold true_div.
  destruct (Z.eqb_spec (Z.of_nat (comb (Z.to_nat n) (Z.to_nat k))) 0) as [E|_]; [lia|].
  split; [reflexivity | lia].
Qed.

(** On all integers: [pass_hat_k] fails exactly when [num_trials < k] or
    [math.comb] is given a negative number, and always with
    [ValueError]; the division never is by zero. *)
Lemma pass_hat_k_fails_iff (n s k : Z) :
  (raises (pass_hat_k n s k) <-> n < k \/ s < 0 \/ k < 0)
  /\ (raises (pass_hat_k n s k) -> pass_hat_k n s k = Raise ValueError).
Proof.
  assert (Hfail : n < k \/ s < 0 \/ k < 0 -> pass_hat_k n s k = Raise ValueError).
  { intros H. destruct (Z.ltb_spec n k) as [Hlt|Hge]; [apply pass_hat_k_below, Hlt|].
    unfold pass_hat_k. destruct (Z.ltb_spec n k) as [?|_]; [lia|].
    rewrite (math_comb_negative s k) by lia. reflexivity. }
  assert (Hfine : ~ (n < k \/ s < 0 \/ k < 0) -> ~ raises (pass_hat_k n s k)).
  { intros H [e He]. destruct (pass_hat_k_counts n s k) as [Hq _]; try lia. congruence. }
  split; [split|].
  - intros Hr. destruct (decide (n < k \/ s < 0 \/ k < 0)) as [?|Hn]; [assumption|].
    destruct (Hfine Hn Hr).
  - intros H. exists ValueError. apply Hfail, H.
  - intros Hr. apply Hfail.
    destruct (decide (n < k \/ s < 0 \/ k < 0)) as [?|Hn]; [assumption|].
    destruct (Hfine Hn Hr).
Qed.

(** C3. For counts (a success count and a [k] that are not negative),
    [pass_hat_k num_trials success_count k] fails, with [ValueError],
    exactly when [num_trials < k]; otherwise the divisor [C(num_trials, k)]
    is not zero and the result is [C(success_count, k) / C(num_trials, k)].
    In particular [pass_hat_k 4 3 2] is [3/6 = 1/2] and
    [pass_hat_k 2 _ 3] fails. *)
Theorem pass_hat_k_spec :
  forall num_trials success_count k : Z,
    0 <= success_count -> 0 <= k ->
    (raises (pass_hat_k num_trials success_count k) <-> num_trials < k)
    /\ (pass_hat_k num_trials success_count k = Raise ValueError
        <-> num_trials < k)
    /\ (pass_hat_k num_trials success_count k
          = Ok (inject_Z (Z.of_nat (comb (Z.to_nat success_count) (Z.to_nat k)))
                / inject_Z (Z.of_nat (comb (Z.to_nat num_trials) (Z.to_nat k))))%Q
        /\ comb (Z.to_nat num_trials) (Z.to_nat k) <> 0%nat
        <-> ~ num_trials < k)
    /\ (exists q, pass_hat_k 4 3 2 = Ok q /\ (q == 3 # 6)%Q /\ (q == 1 # 2)%Q)
    /\ pass_hat_k 2 success_count 3 = Raise ValueError.
Proof.
  intros n s k Hs Hk.
  assert (Hge : ~ n < k ->
                pass_hat_k n s k
                = Ok (inject_Z (Z.of_nat (comb (Z.to_nat s) (Z.to_nat k)))
                      / inject_Z (Z.of_nat (comb (Z.to_nat n) (Z.to_nat k))))%Q
                /\ comb (Z.to_nat n) (Z.to_nat k) <> 0%nat).
  { intros H. apply pass_hat_k_counts; lia. }
  pose proof (pass_hat_k_below n s k) as Hlt.
  split; [|split; [|split; [|split]]].
  - split.
    + intros [e He]. destruct (decide (n < k)) as [?|Hn]; [assumption|].
      destruct (Hge Hn) as [Hq _]. congruence.
    + intros Hnk. exists ValueError. auto.
  - split; [|exact Hlt].
    intros He. destruct (decide (n < k)) as [?|Hn]; [assumption|].
    destruct (Hge Hn) as [Hq _]. congruence.
  - split; [|exact Hge].
    intros [Hq _] Hnk. rewrite (Hlt Hnk) in Hq. discriminate.
  - eexists. split; [reflexivity|]. split; reflexivity.
  - reflexivity.
Qed.

(** [pass_hat_k_spec] on four trials with three successes and [k = 2]. *)
Lemma pass_hat_k_spec_witness :
  0 <= 3 /\ 0 <= 2
  /\ (raises (pass_hat_k 4 3 2) <-> 4 < 2)
  /\ (exists q, pass_hat_k 4 3 2 = Ok q /\ (q == 1 # 2)%Q).
Proof.
  assert (Hs : 0 <= 3) by lia. assert (Hk : 0 <= 2) by lia.
  split; [exact Hs|]. split; [exact Hk|].
  destruct (pass_hat_k_spec 4 3 2 Hs Hk) as (Hr & _ & _ & (q & Hq & _ & Hhalf) & _).
  split; [exact Hr|]. exists q. split; [exact Hq | exact Hhalf].
Defined.

End PassHatKFacts.

(** ** Successful trials *)

Module SuccessFacts.
Import AgentMetrics.

(** C10. [is_successful r] holds exactly when
    [1 - 1e-6 <= r <= 1 + 1e-6]. A positive reward below the band, such as
    0.5, is a failed trial for pass^k ([simple_pass_hat_ks] reports 0 for
    k = 1) and a success for the TSR fallback ([tsr_fallback] reports 1). *)
Theorem is_successful_band :
  forall r : Q,
    (is_successful r = true
     <-> (1 - (1 # 1000000) <= r)%Q /\ (r <= 1 + (1 # 1000000))%Q)
    /\ ((0 < r)%Q /\ (r < 1 - (1 # 1000000))%Q ->
        is_successful r = false
        /\ forall sim, reward_info sim = Some {| reward := r |} ->
                       positive_reward sim = true)
    /\ is_successful (1 # 2) = false
    /\ positive_reward half_reward_run = true
    /\ (exists q, simple_pass_hat_ks [half_reward_run] = Ok (<[1 := q]> ∅)
                  /\ (q == 0)%Q)
    /\ (forall (Task : Type) (ts : list Task) (i : Info),
          (b_tsr (tsr_fallback
                    {| tasks := ts; simulations := [half_reward_run]; info := i |})
           == 1)%Q).
Proof.
  intros r. split; [|split; [|repeat split]].
  - unfold is_successful. rewrite andb_true_iff, !Qle_bool_iff. reflexivity.
  - intros [Hpos Hlow]. split.
    + unfold is_successful. apply andb_false_iff. left.
      apply not_true_is_false. rewrite Qle_bool_iff.
      intros Hle. apply (Qlt_irrefl r). eapply Qlt_le_trans; eauto.
    + intros sim Hsim. unfold positive_reward. rewrite Hsim. simpl.
      unfold Qlt_bool. apply negb_true_iff, not_true_is_false.
      rewrite Qle_bool_iff. intros Hle. apply (Qlt_irrefl 0).
      eapply Qlt_le_trans; eauto.
  - eexists. split; [reflexivity|]. reflexivity.
Qed.

End SuccessFacts.

(** ** The transcript scan *)

Module ExtractFacts.
Import Tcrr.

Section Scan.
Variable tool_results : gmap string ToolResult.

Lemma scan_message_eq (st : Z * list ToolCallInfo) (msg : Message) :
  scan_message tool_results st msg
  = (st.1 + Z.b2z (is_assistant msg), st.2 ++ infos_at tool_results st.1 msg).
Proof.
  destruct st as [c acc]. unfold scan_message, infos_at. simpl.
  destruct (is_assistant msg); simpl; rewrite ?Z.add_0_r; reflexivity.
Qed.

Lemma count_assistant_cons (msg : Message) (l : list Message) :
  count_assistant (msg :: l) = Z.b2z (is_assistant msg) + count_assistant l.
Proof.
  unfold count_assistant. rewrite filter_cons.
  destruct (is_assistant msg); case_decide; try congruence;
    simpl length; simpl Z.b2z; set (n := length _); clearbody n; lia.
Qed.

Lemma count_assistant_app (l1 l2 : list Message) :
  count_assistant (l1 ++ l2) = count_assistant l1 + count_assistant l2.
Proof.
  unfold count_assistant. rewrite filter_app, length_app.
  apply Nat2Z.inj_add.
Qed.

(** The counter after a stretch of transcript. *)
Lemma scan_counter (l : list Message) (st : Z * list ToolCallInfo) :
  (fold_left (scan_message tool_results) l st).1 = st.1 + count_assistant l.
Proof.
  revert st. induction l as [|msg l IH]; intros st; simpl fold_left.
  - change (count_assistant []) with 0. lia.
  - rewrite IH, scan_message_eq, count_assistant_cons. cbn [fst]. lia.
Qed.

(** The list only grows. *)
Lemma scan_extends (l : list Message) (st : Z * list ToolCallInfo) :
  exists more, (fold_left (scan_message tool_results) l st).2 = st.2 ++ more
               /\ length more = length (transcript_calls l).
Proof.
  revert st. induction l as [|msg l IH]; intros st; simpl fold_left.
  - exists []. rewrite app_nil_r. auto.
  - destruct (IH (scan_message tool_results st msg)) as (more & -> & Hlen).
    rewrite scan_message_eq. simpl.
    exists (infos_at tool_results st.1 msg ++ more). rewrite app_assoc. split; [reflexivity|].
    unfold transcript_calls in *. simpl. rewrite !length_app, Hlen.
    unfold infos_at. rewrite length_map. reflexivity.
Qed.

(** What the scan appends for the message at a given position. *)
Lemma scan_split (before : list Message) (msg : Message) (after : list Message) :
  exists head tail,
    (fold_left (scan_message tool_results) (before ++ msg :: after) (0, [])).2
    = head ++ infos_at tool_results (count_assistant before) msg ++ tail
    /\ length head = length (transcript_calls before)
    /\ length tail = length (transcript_calls after).
Proof.
  rewrite fold_left_app. simpl fold_left.
  set (st := fold_left (scan_message tool_results) before (0, [])).
  destruct (scan_extends before (0, [])) as (head & Hhead & Hlen).
  fold st in Hhead. simpl in Hhead.
  pose proof (scan_counter before (0, [])) as Hc. fold st in Hc. simpl in Hc.
  destruct (scan_extends after (scan_message tool_results st msg)) as (tail & -> & Hlen').
  rewrite scan_message_eq. simpl. rewrite Hhead, Hc.
  exists head, tail. rewrite <- app_assoc. auto.
Qed.

End Scan.

(** The records the scan appends for a message carry the ids, names and
    arguments of the message's calls, and all the same assistant-turn
    index. *)
Lemma infos_at_fields (tool_results : gmap string ToolResult) (seen : Z) (msg : Message) :
  map call_id (infos_at tool_results seen msg) = map tc_id (msg_tool_calls msg)
  /\ map name (infos_at tool_results seen msg) = map tc_name (msg_tool_calls msg)
  /\ map params (infos_at tool_results seen msg) = map tc_arguments (msg_tool_calls msg)
  /\ Forall (fun info => assistant_turn_idx info = seen + Z.b2z (is_assistant msg))
            (infos_at tool_results seen msg).
Proof.
  unfold infos_at. rewrite !map_map. cbn [tool_call_info call_id name params].
  repeat split. apply Forall_forall. intros info Hin.
  apply list_elem_of_In, in_map_iff in Hin as (tool_call & <- & _). reflexivity.
Qed.

(** C4. The counter of [extract_tool_calls_with_turns] starts at 0 and has
    gone up by exactly one for each assistant message scanned. The
    records extracted for the calls of a message (they stand in the
    output after the records of the messages before it, and carry the
    ids, names and arguments of its calls) all have as
    [assistant_turn_idx] the counter value at that message, itself
    included: the number of assistant messages up to and including it.
    So the records of a message with no assistant message up to it have
    index 0, and the records of the first assistant message have
    index 1. *)
Theorem assistant_turn_stamps :
  forall (before : list Message) (msg : Message) (after : list Message),
    let messages := before ++ msg :: after in
    let tool_results := collect_tool_results messages in
    (fold_left (scan_message tool_results) [] (0, [])).1 = 0
    /\ (fold_left (scan_message tool_results) before (0, [])).1
       = count_assistant before
    /\ (fold_left (scan_message tool_results) (before ++ [msg]) (0, [])).1
       = (fold_left (scan_message tool_results) before (0, [])).1
         + (if is_assistant msg then 1 else 0)
    /\ (exists head here tail,
          extract_tool_calls_with_turns messages = head ++ here ++ tail
          /\ length head = length (transcript_calls before)
          /\ length tail = length (transcript_calls after)
          /\ map call_id here = map tc_id (msg_tool_calls msg)
          /\ map name here = map tc_name (msg_tool_calls msg)
          /\ map params here = map tc_arguments (msg_tool_calls msg)
          /\ Forall (fun info =>
                       assistant_turn_idx info
                       = (fold_left (scan_message tool_results) (before ++ [msg])
                                    (0, [])).1) here
          /\ Forall (fun info =>
                       assistant_turn_idx info = count_assistant (before ++ [msg])) here
          /\ (count_assistant (before ++ [msg]) = 0 ->
              Forall (fun info => assistant_turn_idx info = 0) here)
          /\ (count_assistant before = 0 -> is_assistant msg = true ->
              Forall (fun info => assistant_turn_idx info = 1) here)).
Proof.
  intros before msg after messages tool_results.
  assert (Hstamp : count_assistant (before ++ [msg])
                   = count_assistant before + Z.b2z (is_assistant msg)).
  { rewrite count_assistant_app, count_assistant_cons.
    change (count_assistant []) with 0. lia. }
  split; [reflexivity|]. split; [|split].
  - rewrite scan_counter. cbn [fst]. lia.
  - rewrite !scan_counter, Hstamp. cbn [fst].
    destruct (is_assistant msg); cbn [Z.b2z]; lia.
  - destruct (scan_split tool_results before msg after) as (head & tail & Hex & Hh & Ht).
    destruct (infos_at_fields tool_results (count_assistant before) msg)
      as (Hid & Hname & Hparams & Hturn).
    exists head, (infos_at tool_results (count_assistant before) msg), tail.
    split; [exact Hex|]. split; [exact Hh|]. split; [exact Ht|].
    split; [exact Hid|]. split; [exact Hname|]. split; [exact Hparams|].
    split; [|split; [|split]].
    + rewrite scan_counter, Hstamp. cbn [fst]. rewrite Z.add_0_l. exact Hturn.
    + rewrite Hstamp. exact Hturn.
    + intros H0. rewrite Hstamp in H0. rewrite H0 in Hturn. exact Hturn.
    + intros H0 Ha. eapply Forall_impl; [exact Hturn|].
      intros info Hi. cbn beta in Hi. rewrite Hi, H0, Ha. reflexivity.
Qed.

End ExtractFacts.

(** ** Correctness and parameter validity of extracted calls *)

Module FlagFacts.

Lemma collect_from (messages : list Message) (m : gmap string ToolResult) (id : string) :
  fold_left (fun tool_results msg =>
               match msg with
               | ToolMsg t =>
                   <[tm_id t := {| tr_success := negb (tm_error t);
                                   tr_error := tm_error t;
                                   tr_content := tm_content t |}]> tool_results
               | _ => tool_results
               end) messages m !! id
  = match correlated messages id with
    | Some t => Some (outcome_of t)
    | None => m !! id
    end.
Proof.
  revert m. induction messages as [|msg rest IH]; intros m; simpl; [reflexivity|].
  rewrite IH. destruct (correlated rest id); [reflexivity|].
  destruct msg as [| | |t|]; try reflexivity.
  destruct (String.eqb_spec (tm_id t) id) as [->|Hne].
  - rewrite lookup_insert_eq. reflexivity.
  - rewrite lookup_insert_ne by assumption. reflexivity.
Qed.

Lemma collect_lookup (messages : list Message) (id : string) :
  collect_tool_results messages !! id = outcome_of <$> correlated messages id.
Proof.
  unfold collect_tool_results. rewrite collect_from, lookup_empty.
  destruct (correlated messages id); reflexivity.
Qed.

Lemma starts_with_spec (p s : string) :
  starts_with p s = true <-> exists rest, s = p +:+ rest.
Proof.
  revert s. induction p as [|a p IH]; intros s; simpl.
  - split; [intros _; exists s; reflexivity | reflexivity].
  - destruct s as [|b s].
    + split; [discriminate | intros [rest H]; discriminate].
    + rewrite andb_true_iff, IH. split.
      * intros [Hab [rest ->]]. apply Ascii.eqb_eq in Hab. subst. exists rest. reflexivity.
      * intros [rest H]. injection H as -> ->. split; [apply Ascii.eqb_refl | eauto].
Qed.

Lemma str_contains_spec (keyword text : string) :
  str_contains keyword text = true
  <-> exists before after, text = before +:+ keyword +:+ after.
Proof.
  induction text as [|c text IH].
  - simpl. rewrite orb_false_r, starts_with_spec. split.
    + intros [rest H]. exists EmptyString, rest. exact H.
    + intros (before & after & H). destruct before; [exists after; exact H|discriminate].
  - simpl. rewrite orb_true_iff, starts_with_spec, IH. split.
    + intros [[rest H]|(before & after & H)].
      * exists EmptyString, rest. exact H.
      * exists (String c before), after. simpl. rewrite H. reflexivity.
    + intros (before & after & H). destruct before as [|b before].
      * left. exists after. exact H.
      * right. simpl in H. injection H as -> ->. eauto.
Qed.

Lemma lower_app (a b : string) : lower (a +:+ b) = lower a +:+ lower b.
Proof. induction a as [|c a IH]; simpl; [reflexivity | rewrite IH; reflexivity]. Qed.

Lemma lower_split (s x y : string) :
  lower s = x +:+ y -> exists a b, s = a +:+ b /\ lower a = x /\ lower b = y.
Proof.
  revert s. induction x as [|c x IH]; intros s H.
  - exists EmptyString, s. auto.
  - destruct s as [|d s]; [discriminate|]. simpl in H. injection H as Hc H.
    destruct (IH s H) as (a & b & -> & Ha & Hb).
    exists (String d a), b. simpl. rewrite Ha, Hc. auto.
Qed.

Lemma keywords_lower (keyword : string) :
  In keyword param_error_keywords -> lower keyword = keyword.
Proof.
  unfold param_error_keywords. simpl.
  intros [<-|[<-|[<-|[<-|[<-|[<-|[]]]]]]]; reflexivity.
Qed.

Lemma keywords_nonempty (keyword : string) :
  In keyword param_error_keywords -> keyword <> "".
Proof.
  unfold param_error_keywords. simpl.
  intros [<-|[<-|[<-|[<-|[<-|[<-|[]]]]]]]; discriminate.
Qed.

Lemma contains_nocase_spec (keyword content : string) :
  In keyword param_error_keywords ->
  (str_contains keyword (lower content) = true <-> contains_nocase keyword content).
Proof.
  intros Hk. rewrite str_contains_spec. unfold contains_nocase.
  rewrite (keywords_lower _ Hk). split.
  - intros (x & z & H). apply lower_split in H as (a & rest & -> & Ha & H).
    apply lower_split in H as (mid & b & -> & Hm & Hb).
    exists a, mid, b. auto.
  - intros (a & mid & b & -> & Hm). exists (lower a), (lower b).
    rewrite !lower_app, Hm. reflexivity.
Qed.

Lemma call_correct_spec (messages : list Message) (tool_call : ToolCall) :
  call_correct (collect_tool_results messages) tool_call
  = match correlated messages (tc_id tool_call) with
    | Some t => negb (tm_error t)
    | None => true
    end.
Proof.
  unfold call_correct. rewrite collect_lookup.
  destruct (correlated messages (tc_id tool_call)); reflexivity.
Qed.

#[local] Opaque param_error_keywords.

Lemma call_params_valid_spec (messages : list Message) (tool_call : ToolCall) :
  call_params_valid (collect_tool_results messages) tool_call = false
  <-> exists t, correlated messages (tc_id tool_call) = Some t
                /\ reports_param_error t.
Proof.
  unfold call_params_valid. rewrite collect_lookup.
  destruct (correlated messages (tc_id tool_call)) as [t|]; simpl.
  2: { split; [discriminate | intros (t & H & _); discriminate]. }
  unfold reports_param_error.
  destruct (tm_content t) as [content|] eqn:Hc.
  2: { split; [discriminate|].
       intros (t' & [= <-] & _ & content & kw & H & _). congruence. }
  destruct (tm_error t) eqn:He; simpl.
  2: { split; [discriminate|]. intros (t' & [= <-] & H & _). congruence. }
  destruct (String.eqb_spec content "") as [->|Hne]; simpl.
  - split; [discriminate|].
    intros (t' & [= <-] & _ & content & kw & Hc' & Hk & (a & mid & b & Hs & Hm)).
    rewrite Hc in Hc'. injection Hc' as <-.
    destruct a; [|discriminate]. destruct mid; [|discriminate].
    rewrite (keywords_lower _ Hk) in Hm. symmetry in Hm.
    destruct (keywords_nonempty _ Hk Hm).
  - cbn [andb negb]. rewrite negb_false_iff, existsb_exists. split.
    + intros (kw & Hk & H). exists t. split; [reflexivity|]. split; [exact He|].
      exists content, kw. rewrite <- contains_nocase_spec by assumption. auto.
    + intros (t' & [= <-] & _ & content' & kw & Hc' & Hk & H).
      rewrite Hc in Hc'. injection Hc' as <-.
      exists kw. rewrite contains_nocase_spec by assumption. auto.
Qed.

#[local] Transparent param_error_keywords.

Lemma flags_hold (messages : list Message) (tool_call : ToolCall) :
  flags_as_specified messages tool_call
    (call_correct (collect_tool_results messages) tool_call)
    (call_params_valid (collect_tool_results messages) tool_call).
Proof. split; [apply call_correct_spec | apply call_params_valid_spec]. Qed.

Lemma scan_flags (tool_results : gmap string ToolResult) (l : list Message)
    (st : Z * list Tcrr.ToolCallInfo) :
  exists more,
    (fold_left (Tcrr.scan_message tool_results) l st).2 = st.2 ++ more
    /\ Forall2 (fun tool_call info =>
                  Tcrr.call_id info = tc_id tool_call
                  /\ Tcrr.name info = tc_name tool_call
                  /\ Tcrr.params info = tc_arguments tool_call
                  /\ Tcrr.correct info = call_correct tool_results tool_call
                  /\ Tcrr.params_valid info = call_params_valid tool_results tool_call)
               (transcript_calls l) more.
Proof.
  revert st. induction l as [|msg l IH]; intros st; simpl fold_left.
  - exists []. rewrite app_nil_r. split; [reflexivity | constructor].
  - destruct (IH (Tcrr.scan_message tool_results st msg)) as (more & -> & HF).
    destruct st as [c acc]. unfold Tcrr.scan_message at 1. cbn [snd].
    eexists. rewrite <- app_assoc. split; [reflexivity|].
    unfold transcript_calls. simpl flat_map. apply Forall2_app; [|exact HF].
    apply Forall2_fmap_r, Forall_Forall2_diag, Forall_forall.
    intros tool_call _. simpl. auto.
Qed.

Lemma metric_flags (tool_results : gmap string ToolResult) (l : list Message)
    (acc : list AgentMetrics.ToolCallMetric) :
  exists more,
    fold_left (fun tool_calls msg =>
                 tool_calls ++ map (AgentMetrics.tool_call_metric tool_results msg)
                                   (msg_tool_calls msg)) l acc
    = acc ++ more
    /\ Forall2 (fun tool_call m =>
                  AgentMetrics.name m = tc_name tool_call
                  /\ AgentMetrics.params m = tc_arguments tool_call
                  /\ AgentMetrics.correct m = call_correct tool_results tool_call
                  /\ AgentMetrics.params_valid m
                     = call_params_valid tool_results tool_call)
               (transcript_calls l) more.
Proof.
  revert acc. induction l as [|msg l IH]; intros acc; simpl fold_left.
  - exists []. rewrite app_nil_r. split; [reflexivity | constructor].
  - destruct (IH (acc ++ map (AgentMetrics.tool_call_metric tool_results msg)
                             (msg_tool_calls msg))) as (more & -> & HF).
    eexists. rewrite <- app_assoc. split; [reflexivity|].
    unfold transcript_calls. simpl flat_map. apply Forall2_app; [|exact HF].
    apply Forall2_fmap_r, Forall_Forall2_diag, Forall_forall.
    intros tool_call _. simpl. auto.
Qed.

(** C5. Both extractors return one record per tool call of the
    transcript, in transcript order, and the flags of each record are the
    specified ones: [correct] is the success flag (not error) of the
    correlated result when a tool message with the call's id exists and
    true otherwise; [params_valid] is false exactly when the correlated
    result is an error whose content contains, letter case aside, one of
    the six keywords. *)
Theorem extracted_flags :
  forall messages : list Message,
    Forall2 (fun tool_call info =>
               Tcrr.call_id info = tc_id tool_call
               /\ Tcrr.name info = tc_name tool_call
               /\ flags_as_specified messages tool_call
                    (Tcrr.correct info) (Tcrr.params_valid info))
            (transcript_calls messages)
            (Tcrr.extract_tool_calls_with_turns messages)
    /\ Forall2 (fun tool_call m =>
                  AgentMetrics.name m = tc_name tool_call
                  /\ flags_as_specified messages tool_call
                       (AgentMetrics.correct m) (AgentMetrics.params_valid m))
               (transcript_calls messages)
               (AgentMetrics.extract_tool_calls_from_messages messages)
    /\ param_error_keywords
       = [ "invalid parameter"; "missing parameter"; "parameter error";
           "bad parameter"; "invalid argument"; "missing argument" ].
Proof.
  intros messages. split; [|split; [|reflexivity]].
  - unfold Tcrr.extract_tool_calls_with_turns.
    destruct (scan_flags (collect_tool_results messages) messages (0, []))
      as (more & -> & HF).
    simpl. eapply Forall2_impl; [exact HF|].
    intros tool_call info (Hid & Hn & _ & Hc & Hv). rewrite Hc, Hv.
    split; [exact Hid|]. split; [exact Hn|]. apply flags_hold.
  - unfold AgentMetrics.extract_tool_calls_from_messages.
    destruct (metric_flags (collect_tool_results messages) messages [])
      as (more & -> & HF).
    simpl. eapply Forall2_impl; [exact HF|].
    intros tool_call m (Hn & _ & Hc & Hv). rewrite Hc, Hv.
    split; [exact Hn|]. apply flags_hold.
Qed.

End FlagFacts.

(** ** The windowed redundancy ratio *)

Module TcrrFacts.
Import PyFacts NormFacts Tcrr.

Lemma seq_eq_refl (l : list pyval) :
  (forall x, In x l -> py_eq x x = true) -> seq_eq py_eq l l = true.
Proof.
  induction l as [|x l IH]; intros H; simpl; [reflexivity|].
  rewrite (H x (or_introl eq_refl)), IH; [reflexivity|].
  intros y Hy. apply H. right. exact Hy.
Qed.

(** A hashable value is equal to itself. *)
Lemma py_eq_refl_hashable (v : pyval) : py_hashable v = true -> py_eq v v = true.
Proof.
  induction v as [v IH] using pyval_size_ind. intros Hh.
  destruct v as [| b | z | s | l | l | d]; simpl in *; try discriminate; try reflexivity.
  - destruct b; reflexivity.
  - apply Z.eqb_refl.
  - apply String.eqb_refl.
  - apply seq_eq_refl. intros x Hx. apply IH.
    + apply (pysize_tuple_item x l Hx).
    + rewrite forallb_forall in Hh. auto.
Qed.

Lemma hashable_identity (nm : string) (n : pyval) :
  py_hashable (identity nm n) = py_hashable n.
Proof. simpl. rewrite andb_true_r. reflexivity. Qed.

Lemma hashable_str_identity (call : ToolCallInfo) :
  py_hashable (str_identity call) = true.
Proof. reflexivity. Qed.

Lemma foldM_total {A S} (f : S -> A -> result S) (l : list A) (s : S) :
  Forall (fun x => forall s, exists s', f s x = Ok s') l ->
  exists s', foldM f l s = Ok s'.
Proof.
  intros H. revert s. induction H as [|x l Hx _ IH]; intros s; simpl; [eauto|].
  destruct (Hx s) as [s' ->]. simpl. apply IH.
Qed.

(** Filling [previous_identities] never fails: an identity that cannot
    be hashed is replaced by the string one. *)
Lemma add_previous_total (s : list pyval) (call : ToolCallInfo) :
  exists s', add_previous s call = Ok s'.
Proof.
  unfold add_previous, set_add, set_contains.
  rewrite hashable_str_identity. simpl.
  destruct (normalized_params (params call)) as [n|e]; simpl; [|eauto].
  destruct (py_hashable n); simpl; eauto.
Qed.

Lemma check_window_total (s : list pyval) (t : Z) (st : Z * gmap Z Z)
    (call : ToolCallInfo) :
  exists st', check_window s t st call = Ok st'
              /\ (st'.1 = st.1 \/ st'.1 = st.1 + 1).
Proof.
  unfold check_window, set_contains.
  rewrite hashable_str_identity. simpl.
  destruct (normalized_params (params call)) as [n|e]; simpl.
  - destruct (py_hashable n); simpl.
    + destruct (existsb _ s); simpl; eauto.
    + destruct (existsb _ s); simpl; eauto.
  - destruct (existsb _ s); simpl; eauto.
Qed.

Lemma batch_identity_args (call : ToolCallInfo) :
  is_args (params call) = true ->
  exists n, normalized_params (params call) = Ok n
            /\ py_hashable n = true
            /\ batch_identity call = identity (name call) n.
Proof.
  intros H. destruct (tcrr_normalized_args _ H) as (n & Hn & Hh).
  exists n. unfold batch_identity. rewrite Hn. auto.
Qed.

Lemma count_identity_total (d : list (pyval * Z)) (call : ToolCallInfo) :
  is_args (params call) = true ->
  exists d', count_identity d (batch_identity call) = Ok d'.
Proof.
  intros H. destruct (batch_identity_args call H) as (n & _ & Hh & ->).
  unfold count_identity. rewrite hashable_identity, Hh. eauto.
Qed.

(** The calls filed under a turn are calls of the input. *)
Lemma group_by_turn_from (tool_calls : list ToolCallInfo)
    (m : gmap Z (list ToolCallInfo)) (P : ToolCallInfo -> Prop) :
  Forall P tool_calls ->
  (forall t cs, m !! t = Some cs -> Forall P cs) ->
  forall t cs,
    fold_left (fun calls_by_turn call =>
                 let turn := assistant_turn_idx call in
                 <[turn := default [] (calls_by_turn !! turn) ++ [call]]> calls_by_turn)
              tool_calls m !! t = Some cs ->
    Forall P cs.
Proof.
  intros H. revert m. induction H as [|c l Hc _ IH]; intros m Hm t cs; simpl.
  - apply Hm.
  - apply IH. intros t' cs'.
    destruct (decide (assistant_turn_idx c = t')) as [<-|Hne].
    + rewrite lookup_insert_eq. intros [= <-]. apply Forall_app. split; [|auto].
      destruct (m !! assistant_turn_idx c) as [cs0|] eqn:E; simpl; [eauto|constructor].
    + rewrite lookup_insert_ne by assumption. apply Hm.
Qed.

Lemma group_by_turn_Forall (tool_calls : list ToolCallInfo) (P : ToolCallInfo -> Prop)
    (t : Z) :
  Forall P tool_calls -> Forall P (default [] (group_by_turn tool_calls !! t)).
Proof.
  intros H. destruct (group_by_turn tool_calls !! t) as [cs|] eqn:E; simpl; [|constructor].
  eapply (group_by_turn_from tool_calls ∅ P H); [|exact E].
  intros t' cs'. rewrite lookup_empty. discriminate.
Qed.

Lemma process_turn_total (tool_calls : list ToolCallInfo) (ws bt : Z)
    (st : Z * Z * gmap Z Z) (t : Z) :
  Forall (fun c => is_args (params c) = true) tool_calls ->
  exists st', process_turn (group_by_turn tool_calls) ws bt st t = Ok st'.
Proof.
  intros Hargs. destruct st as [[w b] rbt]. unfold process_turn.
  destruct (foldM_total add_previous
              (flat_map (fun prev_turn => default [] (group_by_turn tool_calls !! prev_turn))
                        (range (Z.max 1 (t - ws)) t)) []) as [prev ->].
  { apply Forall_forall. intros c _ s. apply add_previous_total. }
  simpl.
  destruct (foldM_total (check_window prev t)
              (default [] (group_by_turn tool_calls !! t)) (w, <[t:=0]> rbt)) as [wr ->].
  { apply Forall_forall. intros c _ s.
    destruct (check_window_total prev t s c) as (st' & H & _). eauto. }
  simpl.
  destruct (foldM_total (fun d call => count_identity d (batch_identity call))
              (default [] (group_by_turn tool_calls !! t)) []) as [ids ->].
  { eapply Forall_impl; [apply (group_by_turn_Forall _ _ t Hargs)|].
    intros c Hc d. apply count_identity_total. exact Hc. }
  simpl. eauto.
Qed.

Lemma compute_nonempty (tool_calls : list ToolCallInfo) (ws bt : Z) :
  tool_calls <> [] ->
  compute_tcrr_windowed tool_calls ws bt
  = (st ← foldM (process_turn (group_by_turn tool_calls) ws bt)
               (merge_sort Z.le (map fst (map_to_list (group_by_turn tool_calls))))
               (0, 0, ∅);
     Ok {| total_calls := Z.of_nat (length tool_calls);
           redundant_calls := st.1.1 + st.1.2;
           redundancy_ratio := ratio_of (st.1.1 + st.1.2) (Z.of_nat (length tool_calls));
           redundant_by_turn := st.2;
           window_size := ws;
           window_redundant_calls := st.1.1;
           batch_redundant_calls := st.1.2 |}).
Proof.
  intros H. destruct tool_calls as [|c l]; [contradiction|].
  unfold compute_tcrr_windowed.
  destruct (foldM _ _ _) as [[[w b] rbt]|e]; reflexivity.
Qed.

(** C2. On calls whose arguments are JSON objects [compute_tcrr_windowed]
    returns, for every window size and batch threshold, a result with
    [redundant_calls = window_redundant_calls + batch_redundant_calls] and
    [redundancy_ratio = redundant_calls / total_calls] when there are
    calls, 0 when there are none; with no calls everything is 0. The two
    counts are independent: one call in turn 1 repeated three times in turn
    2 gives, with threshold 2, three window-redundant and one
    batch-redundant call, four redundant calls among four. *)
Theorem tcrr_result_shape :
  forall (tool_calls : list ToolCallInfo) (window_sz batch_threshold : Z),
    Forall (fun c => is_args (params c) = true) tool_calls ->
    (exists r,
        compute_tcrr_windowed tool_calls window_sz batch_threshold = Ok r
        /\ total_calls r = Z.of_nat (length tool_calls)
        /\ redundant_calls r = window_redundant_calls r + batch_redundant_calls r
        /\ (0 < total_calls r ->
            redundancy_ratio r
            = (inject_Z (redundant_calls r) / inject_Z (total_calls r))%Q)
        /\ (total_calls r = 0 -> redundancy_ratio r = 0%Q))
    /\ compute_tcrr_windowed [] window_sz batch_threshold
       = Ok {| total_calls := 0; redundant_calls := 0; redundancy_ratio := 0%Q;
               redundant_by_turn := ∅; window_size := window_sz;
               window_redundant_calls := 0; batch_redundant_calls := 0 |}
    /\ (exists r,
          compute_tcrr_windowed
            [balance_call 1; balance_call 2; balance_call 2; balance_call 2] 3 2 = Ok r
          /\ window_redundant_calls r = 3 /\ batch_redundant_calls r = 1
          /\ redundant_calls r = 4 /\ total_calls r = 4).
Proof.
  intros tool_calls ws bt Hargs. split; [|split; [reflexivity|]].
  - destruct tool_calls as [|c l] eqn:E.
    + eexists. split; [reflexivity|]. simpl. repeat split; reflexivity.
    + rewrite <- E in *. rewrite compute_nonempty by (rewrite E; discriminate).
      assert (Hfold : forall turns st, exists st',
                 foldM (process_turn (group_by_turn tool_calls) ws bt) turns st = Ok st').
      { intros turns st. apply foldM_total. apply Forall_forall.
        intros t _ s. apply process_turn_total. exact Hargs. }
      destruct (Hfold (merge_sort Z.le (map fst (map_to_list (group_by_turn tool_calls))))
                      (0, 0, ∅)) as [[[w b] rbt] Hst].
      rewrite Hst. simpl.
      eexists. split; [reflexivity|]. simpl.
      split; [reflexivity|]. split; [reflexivity|]. split.
      * intros Hpos. unfold ratio_of.
        destruct (Z.gtb_spec (Z.of_nat (length tool_calls)) 0); [reflexivity|lia].
      * intros H0. unfold ratio_of. rewrite H0. reflexivity.
  - vm_compute. eexists. split; [reflexivity|]. repeat split.
Qed.

(** The hypothesis of [tcrr_result_shape] holds of two [get_balance]
    calls. *)
Lemma tcrr_result_shape_witness :
  Forall (fun c => is_args (params c) = true) [balance_call 1; balance_call 2]
  /\ exists r,
       compute_tcrr_windowed [balance_call 1; balance_call 2] 3 2 = Ok r
       /\ total_calls r = 2
       /\ redundant_calls r = window_redundant_calls r + batch_redundant_calls r.
Proof.
  assert (H : Forall (fun c => is_args (params c) = true)
                     [balance_call 1; balance_call 2]).
  { repeat constructor. }
  split; [exact H|].
  destruct (tcrr_result_shape [balance_call 1; balance_call 2] 3 2 H)
    as [(r & Hr & Ht & Hsum & _) _].
  exists r. split; [exact Hr|]. split; [exact Ht | exact Hsum].
Defined.

Lemma check_window_miss (t : Z) (st : Z * gmap Z Z) (call : ToolCallInfo) :
  check_window [] t st call = Ok st.
Proof.
  unfold check_window, set_contains. rewrite hashable_str_identity. simpl.
  destruct (normalized_params (params call)) as [n|e]; simpl; [|reflexivity].
  destruct (py_hashable n); reflexivity.
Qed.

Lemma add_previous_first (call : ToolCallInfo) (n : pyval) :
  normalized_params (params call) = Ok n -> py_hashable n = true ->
  add_previous [] call = Ok [identity (name call) n].
Proof.
  intros Hn Hh. unfold add_previous, set_add, set_contains.
  rewrite Hn. simpl. rewrite Hh. reflexivity.
Qed.

Lemma check_window_hit (t : Z) (st : Z * gmap Z Z) (call : ToolCallInfo) (n : pyval) :
  normalized_params (params call) = Ok n -> py_hashable n = true ->
  check_window [identity (name call) n] t st call = Ok (st.1 + 1, bump t 1 st.2).
Proof.
  intros Hn Hh. unfold check_window, set_contains.
  rewrite Hn. cbn [mbind result_bind]. rewrite hashable_identity, Hh.
  cbn [existsb]. rewrite py_eq_refl_hashable by (rewrite hashable_identity; exact Hh).
  reflexivity.
Qed.

Lemma count_identity_args (d : list (pyval * Z)) (call : ToolCallInfo) (n : pyval) :
  normalized_params (params call) = Ok n -> py_hashable n = true ->
  count_identity d (batch_identity call) = Ok (count_up d (identity (name call) n)).
Proof.
  intros Hn Hh. unfold count_identity, batch_identity. rewrite Hn.
  rewrite hashable_identity, Hh. reflexivity.
Qed.

(** C6. Two calls with the same name and the same arguments, one in
    assistant turn 1 and one in turn 2, with a window of 3 (and a batch
    threshold of at least 1, such as the default 2): two calls, one of
    them window-redundant, none batch-redundant, ratio 1/2. *)
Theorem window_example :
  forall (nm : string) (p : pyval) (t1 t2 : Z) (id1 id2 : string)
         (ok1 valid1 ok2 valid2 : bool) (batch_threshold : Z),
    is_args p = true ->
    1 <= batch_threshold ->
    exists r,
      compute_tcrr_windowed
        [ {| name := nm; params := p; turn_idx := t1; assistant_turn_idx := 1;
             call_id := id1; correct := ok1; params_valid := valid1 |};
          {| name := nm; params := p; turn_idx := t2; assistant_turn_idx := 2;
             call_id := id2; correct := ok2; params_valid := valid2 |} ]
        3 batch_threshold = Ok r
      /\ total_calls r = 2
      /\ window_redundant_calls r = 1
      /\ batch_redundant_calls r = 0
      /\ redundant_calls r = 1
      /\ redundancy_ratio r = (1 # 2)%Q.
Proof.
  intros nm p t1 t2 id1 id2 ok1 valid1 ok2 valid2 bt Hargs Hbt.
  destruct (tcrr_normalized_args p Hargs) as (n & Hn & Hh).
  set (c1 := {| name := nm; params := p; turn_idx := t1; assistant_turn_idx := 1;
                call_id := id1; correct := ok1; params_valid := valid1 |}).
  set (c2 := {| name := nm; params := p; turn_idx := t2; assistant_turn_idx := 2;
                call_id := id2; correct := ok2; params_valid := valid2 |}).
  rewrite compute_nonempty by discriminate.
  assert (Hg : group_by_turn [c1; c2] = <[2 := [c2]]> (<[1 := [c1]]> ∅)).
  { reflexivity. }
  rewrite Hg.
  assert (Hs : merge_sort Z.le (map fst (map_to_list (<[2 := [c2]]> (<[1 := [c1]]> (∅ : gmap Z (list ToolCallInfo)))))) = [1; 2]).
  { reflexivity. }
  rewrite Hs. clear Hg Hs.
  set (m := <[2 := [c2]]> (<[1 := [c1]]> (∅ : gmap Z (list ToolCallInfo)))).
  assert (H1 : process_turn m 3 bt (0, 0, ∅) 1 = Ok (0, 0, <[1 := 0]> ∅)).
  { unfold process_turn.
    change (m !! 1) with (Some [c1]).
    change (range (Z.max 1 (1 - 3)) 1) with (@nil Z).
    cbn [flat_map foldM default from_option id mbind result_bind].
    rewrite check_window_miss. cbn [mbind result_bind].
    rewrite (count_identity_args [] c1 n Hn Hh). cbn [mbind result_bind count_up fold_left].
    unfold check_batch. cbn [fst snd].
    destruct (Z.gtb_spec (0 + 1) bt); [lia|]. reflexivity. }
  assert (H2 : process_turn m 3 bt (0, 0, <[1 := 0]> ∅) 2
               = Ok (1, 0, bump 2 1 (<[2 := 0]> (<[1 := 0]> ∅)))).
  { unfold process_turn.
    change (m !! 2) with (Some [c2]).
    change (range (Z.max 1 (2 - 3)) 2) with [1].
    cbn [flat_map foldM default from_option id mbind result_bind app].
    change (m !! 1) with (Some [c1]). cbn [default from_option id app foldM].
    rewrite (add_previous_first c1 n Hn Hh). cbn [mbind result_bind].
    change (name c1) with (name c2).
    rewrite (check_window_hit 2 _ c2 n Hn Hh). cbn [mbind result_bind fst snd].
    rewrite (count_identity_args [] c2 n Hn Hh). cbn [mbind result_bind count_up fold_left].
    unfold check_batch. cbn [fst snd].
    destruct (Z.gtb_spec (0 + 1) bt); [lia|]. reflexivity. }
  cbn [foldM]. rewrite H1. cbn [mbind result_bind]. rewrite H2. cbn [mbind result_bind].
  eexists. split; [reflexivity|]. cbn. repeat split; reflexivity.
Qed.

(** [window_example] on two [get_balance] calls, with the default
    threshold. *)
Lemma window_example_witness :
  is_args (PDict [(PStr "account_id", PStr "A1")]) = true
  /\ 1 <= default_batch_threshold
  /\ exists r,
       compute_tcrr_windowed [balance_call 1; balance_call 2]
         default_window_size default_batch_threshold = Ok r
       /\ total_calls r = 2
       /\ window_redundant_calls r = 1
       /\ batch_redundant_calls r = 0
       /\ redundant_calls r = 1
       /\ redundancy_ratio r = (1 # 2)%Q.
Proof.
  assert (Ha : is_args (PDict [(PStr "account_id", PStr "A1")]) = true)
    by reflexivity.
  assert (Hb : 1 <= default_batch_threshold) by (unfold default_batch_threshold; lia).
  split; [exact Ha|]. split; [exact Hb|].
  exact (window_example "get_balance" (PDict [(PStr "account_id", PStr "A1")])
           0 0 "call" "call" true true true true default_batch_threshold Ha Hb).
Defined.

Lemma range_empty (start stop : Z) : stop <= start -> range start stop = [].
Proof.
  intros H. unfold range, seqZ.
  destruct (stop - start) eqn:E; try lia; reflexivity.
Qed.

(** C7. Three calls with the same name and the same arguments, all in
    assistant turn 1, with a batch threshold of 2 and any window: three
    calls, one of them batch-redundant (the one beyond the threshold), none
    window-redundant, ratio 1/3. *)
Theorem batch_example :
  forall (nm : string) (p : pyval) (t1 t2 t3 : Z) (id1 id2 id3 : string)
         (ok1 valid1 ok2 valid2 ok3 valid3 : bool) (window_sz : Z),
    is_args p = true ->
    exists r,
      compute_tcrr_windowed
        [ {| name := nm; params := p; turn_idx := t1; assistant_turn_idx := 1;
             call_id := id1; correct := ok1; params_valid := valid1 |};
          {| name := nm; params := p; turn_idx := t2; assistant_turn_idx := 1;
             call_id := id2; correct := ok2; params_valid := valid2 |};
          {| name := nm; params := p; turn_idx := t3; assistant_turn_idx := 1;
             call_id := id3; correct := ok3; params_valid := valid3 |} ]
        window_sz 2 = Ok r
      /\ total_calls r = 3
      /\ batch_redundant_calls r = 1
      /\ window_redundant_calls r = 0
      /\ redundant_calls r = 1
      /\ redundancy_ratio r = (1 # 3)%Q.
Proof.
  intros nm p t1 t2 t3 id1 id2 id3 ok1 valid1 ok2 valid2 ok3 valid3 ws Hargs.
  destruct (tcrr_normalized_args p Hargs) as (n & Hn & Hh).
  set (c1 := {| name := nm; params := p; turn_idx := t1; assistant_turn_idx := 1;
                call_id := id1; correct := ok1; params_valid := valid1 |}).
  set (c2 := {| name := nm; params := p; turn_idx := t2; assistant_turn_idx := 1;
                call_id := id2; correct := ok2; params_valid := valid2 |}).
  set (c3 := {| name := nm; params := p; turn_idx := t3; assistant_turn_idx := 1;
                call_id := id3; correct := ok3; params_valid := valid3 |}).
  rewrite compute_nonempty by discriminate.
  assert (Hg : group_by_turn [c1; c2; c3] = <[1 := [c1; c2; c3]]> ∅) by reflexivity.
  rewrite Hg.
  assert (Hs : merge_sort Z.le
                 (map fst (map_to_list
                             (<[1 := [c1; c2; c3]]> (∅ : gmap Z (list ToolCallInfo)))))
               = [1]) by reflexivity.
  rewrite Hs. clear Hg Hs.
  set (m := <[1 := [c1; c2; c3]]> (∅ : gmap Z (list ToolCallInfo))).
  assert (Hid : py_eq (identity nm n) (identity nm n) = true).
  { apply py_eq_refl_hashable. rewrite hashable_identity. exact Hh. }
  assert (H1 : process_turn m ws 2 (0, 0, ∅) 1 = Ok (0, 1, bump 1 1 (<[1 := 0]> ∅))).
  { unfold process_turn.
    change (m !! 1) with (Some [c1; c2; c3]).
    rewrite range_empty by lia.
    cbn [flat_map foldM default from_option id mbind result_bind].
    repeat (rewrite check_window_miss; cbn [mbind result_bind]).
    rewrite (count_identity_args [] c1 n Hn Hh). cbn [mbind result_bind count_up].
    rewrite (count_identity_args _ c2 n Hn Hh). cbn [mbind result_bind count_up].
    change (name c2) with nm. change (name c1) with nm. rewrite Hid.
    rewrite (count_identity_args _ c3 n Hn Hh). cbn [mbind result_bind count_up].
    change (name c3) with nm. rewrite Hid.
    reflexivity. }
  cbn [foldM]. rewrite H1. cbn [mbind result_bind].
  eexists. split; [reflexivity|]. cbn. repeat split; reflexivity.
Qed.

(** [batch_example] on three [get_balance] calls, with the default
    window. *)
Lemma batch_example_witness :
  is_args (PDict [(PStr "account_id", PStr "A1")]) = true
  /\ exists r,
       compute_tcrr_windowed [balance_call 1; balance_call 1; balance_call 1]
         default_window_size 2 = Ok r
       /\ total_calls r = 3
       /\ batch_redundant_calls r = 1
       /\ window_redundant_calls r = 0
       /\ redundant_calls r = 1
       /\ redundancy_ratio r = (1 # 3)%Q.
Proof.
  assert (Ha : is_args (PDict [(PStr "account_id", PStr "A1")]) = true)
    by reflexivity.
  split; [exact Ha|].
  exact (batch_example "get_balance" (PDict [(PStr "account_id", PStr "A1")])
           0 0 0 "call" "call" "call" true true true true true true
           default_window_size Ha).
Defined.

End TcrrFacts.

(** ** Fault isolation of the report *)

Module ReportFacts.
Import PyFacts AgentMetrics.

Section WithCollaborators.
Context {Task Frame : Type} (env : Collaborators Task Frame).

Lemma group_add_nonempty (groups : list (string * list bool)) (tid : string) (b : bool) :
  Forall (fun g => g.2 <> []) groups ->
  Forall (fun g => g.2 <> []) (group_add groups tid b).
Proof.
  induction 1 as [|[t bs] groups Hg Hgs IH]; simpl.
  - constructor; [discriminate | constructor].
  - destruct (String.eqb t tid).
    + constructor; [simpl; destruct bs; discriminate | assumption].
    + constructor; [exact Hg | exact IH].
Qed.

Lemma task_groups_nonempty (sims : list SimulationRun) :
  Forall (fun g => g.2 <> []) (task_groups sims).
Proof.
  unfold task_groups.
  assert (H : Forall (fun g : string * list bool => g.2 <> []) []) by constructor.
  revert H. generalize (@nil (string * list bool)).
  induction sims as [|sim sims IH]; intros groups H; simpl; [exact H|].
  apply IH, group_add_nonempty, H.
Qed.

Lemma true_div_total (a b : Z) : b <> 0 -> exists q, true_div a b = Ok q.
Proof.
  intros H. unfold true_div. destruct (Z.eqb_spec b 0); [contradiction | eauto].
Qed.

Lemma simple_pass_hat_ks_total (sims : list SimulationRun) :
  exists ks, simple_pass_hat_ks sims = Ok ks.
Proof.
  unfold simple_pass_hat_ks. destruct sims as [|sim sims]; [eauto|].
  pose proof (task_groups_nonempty (sim :: sims)) as Hne.
  destruct (task_groups (sim :: sims)) as [|g groups]; [eauto|].
  destruct (mapM_total (fun g => group_success_rate g.2) (g :: groups)) as [rates ->].
  - eapply Forall_impl; [exact Hne|]. intros [t bs] Hbs. simpl in *.
    apply true_div_total. destruct bs; [contradiction | simpl; lia].
  - simpl. eauto.
Qed.

(** Counting duplicates never fails: an identity that cannot be hashed is
    replaced by the string one. *)
Lemma count_duplicate_total (st : list pyval * Z) (call : ToolCallMetric) :
  exists st', count_duplicate st call = Ok st'.
Proof.
  unfold count_duplicate, set_add, set_contains.
  assert (Hs : py_hashable (str_identity call) = true) by reflexivity.
  rewrite Hs. simpl.
  assert (Hfb : exists st',
             (if existsb (fun y => py_eq y (str_identity call)) st.1
              then Ok (st.1, st.2 + 1)
              else Ok (if existsb (fun y => py_eq y (str_identity call)) st.1
                       then st.1 else st.1 ++ [str_identity call], st.2)) = Ok st').
  { destruct (existsb _ st.1); simpl; eauto. }
  destruct (normalized_params (params call)) as [n|e]; simpl; [|exact Hfb].
  destruct (py_hashable n); simpl; [|exact Hfb].
  repeat match goal with
         | |- context [existsb ?f ?l] => destruct (existsb f l); simpl
         end; eauto.
Qed.

Lemma tcrr_block_total (all_tool_calls : list ToolCallMetric) :
  exists c, tcrr_block all_tool_calls = Ok c.
Proof.
  unfold tcrr_block, import_tcrr_enhanced. simpl.
  assert (H : forall l st, exists st', foldM count_duplicate l st = Ok st').
  { induction l as [|x l IH]; intros st; simpl; [eauto|].
    destruct (count_duplicate_total st x) as [st' ->]. simpl. apply IH. }
  destruct (H all_tool_calls ([], 0)) as [st ->]. simpl. eauto.
Qed.

Lemma tue_block_total (results : Results Task) (all_tool_calls : list ToolCallMetric) :
  all_tool_calls <> [] -> exists u, tue_block env results all_tool_calls = Ok u.
Proof.
  intros Hne.
  assert (Hfb : exists u, tue_fallback env all_tool_calls = Ok u).
  { unfold tue_fallback.
    assert (Hlen : Z.of_nat (length all_tool_calls) <> 0).
    { destruct all_tool_calls; [contradiction | simpl; lia]. }
    destruct (true_div_total (count_if correct all_tool_calls) _ Hlen) as [q1 ->].
    destruct (true_div_total (count_if params_valid all_tool_calls) _ Hlen) as [q2 ->].
    simpl. eauto. }
  unfold tue_block.
  destruct (compute_tue_enhanced_for_simulations env (simulations results));
    simpl; [|exact Hfb].
  destruct (compute_tue_by_task env (simulations results)); simpl; [eauto | exact Hfb].
Qed.

(** Whatever the figures handed to it, the common part of the two
    computations completes, and its TSR fields are those of the TSR
    block. *)
Lemma assemble_total (results : Results Task) (r : Q) (ks : gmap Z Q) (c : Q) :
  exists m, assemble env results r ks c = Ok m.
Proof.
  unfold assemble.
  destruct (flat_map _ (simulations results)) as [|x l] eqn:E; simpl; [eauto|].
  destruct (tcrr_block_total (x :: l)) as [cb ->]. simpl.
  destruct (tue_block_total results (x :: l)) as [ub ->]; [discriminate|].
  simpl. eauto.
Qed.

Lemma assemble_tsr (results : Results Task) (r : Q) (ks : gmap Z Q) (c : Q)
    (m : AgentMetrics) :
  assemble env results r ks c = Ok m ->
  tsr m = b_tsr (tsr_block env results)
  /\ tsr_communicate_info m = b_communicate_info (tsr_block env results)
  /\ tsr_action m = b_action (tsr_block env results)
  /\ tsr_nl_assertion m = b_nl_assertion (tsr_block env results)
  /\ tsr_weights m = b_weights (tsr_block env results)
  /\ tsr_by_task m = b_by_task (tsr_block env results).
Proof.
  unfold assemble. intros H. apply bind_ok in H as ([cb ub] & _ & [= <-]).
  simpl. repeat split; reflexivity.
Qed.

Lemma compute_metrics_simple_total (results : Results Task) :
  exists m, compute_metrics_simple env results = Ok m.
Proof.
  unfold compute_metrics_simple.
  destruct (simple_pass_hat_ks_total (simulations results)) as [ks ->]. simpl.
  apply assemble_total.
Qed.

Lemma compute_metrics_from_assemble (results : Results Task) (m : AgentMetrics) :
  compute_metrics env results = Ok m ->
  exists r ks c, assemble env results r ks c = Ok m.
Proof.
  unfold compute_metrics, catch_all.
  destruct (compute_metrics_full env results) as [m'|e] eqn:Hfull.
  - intros [= <-]. unfold compute_metrics_full in Hfull.
    apply bind_ok in Hfull as ([df k] & _ & H).
    apply bind_ok in H as (ks & _ & H). eauto.
  - unfold compute_metrics_simple. intros H.
    apply bind_ok in H as (ks & _ & H). eauto.
Qed.

Lemma compute_metrics_total (results : Results Task) :
  exists m, compute_metrics env results = Ok m.
Proof.
  unfold compute_metrics, catch_all.
  destruct (compute_metrics_full env results); [eauto|].
  apply compute_metrics_simple_total.
Qed.

Lemma positive_reward_spec (sim : SimulationRun) :
  positive_reward sim = true
  <-> exists ri, reward_info sim = Some ri /\ (0 < reward ri)%Q.
Proof.
  unfold positive_reward, Qlt_bool, safe_float.
  destruct (reward_info sim) as [ri|].
  - rewrite negb_true_iff. split.
    + intros H. exists ri. split; [reflexivity|].
      apply Qnot_le_lt. intros Hle. apply Qle_bool_iff in Hle. congruence.
    + intros (ri' & [= <-] & Hlt). apply not_true_is_false.
      rewrite Qle_bool_iff. intros Hle. apply (Qlt_irrefl 0).
      eapply Qlt_le_trans; eauto.
  - split; [discriminate | intros (ri & H & _); discriminate].
Qed.

End WithCollaborators.

(** C8. When the enhanced TSR estimator raises, [compute_metrics] returns
    a report, whatever the other collaborators do, and in it [tsr] is the
    binary-success fallback: the number of runs whose reward is strictly
    positive divided by the number of runs, 0 without runs; the three
    channel rates are 0 and the weights are the defaults 0.5, 0.3, 0.2. *)
Theorem tsr_fallback_isolated :
  forall (Task Frame : Type) (env : Collaborators Task Frame) (results : Results Task),
    raises (compute_tsr_enhanced env (tasks results) (simulations results)) ->
    exists m,
      compute_metrics env results = Ok m
      /\ tsr m = match simulations results with
                 | [] => 0%Q
                 | _ => (inject_Z (count_if positive_reward (simulations results))
                         / inject_Z (Z.of_nat (length (simulations results))))%Q
                 end
      /\ (forall sim, positive_reward sim = true
                      <-> exists ri, reward_info sim = Some ri /\ (0 < reward ri)%Q)
      /\ tsr_communicate_info m = 0%Q
      /\ tsr_action m = 0%Q
      /\ tsr_nl_assertion m = 0%Q
      /\ tsr_weights m = default_weights
      /\ default_weights !! "communicate_info" = Some (1 # 2)%Q
      /\ default_weights !! "action" = Some (3 # 10)%Q
      /\ default_weights !! "nl_assertion" = Some (1 # 5)%Q
      /\ dom default_weights = {[ "communicate_info"; "action"; "nl_assertion" ]}.
Proof.
  intros Task Frame env results [e He].
  destruct (compute_metrics_total env results) as [m Hm].
  exists m. split; [exact Hm|].
  destruct (compute_metrics_from_assemble env results m Hm) as (r & ks & c & Ha).
  destruct (assemble_tsr env results r ks c m Ha) as (H1 & H2 & H3 & H4 & H5 & _).
  unfold tsr_block in *. rewrite He in *.
  split; [exact H1|]. split; [apply positive_reward_spec|].
  split; [exact H2|]. split; [exact H3|]. split; [exact H4|]. split; [exact H5|].
  split; [reflexivity|]. split; [reflexivity|]. split; [reflexivity|].
  unfold default_weights. rewrite !dom_insert_L, dom_empty_L. set_solver.
Qed.

(** [tsr_fallback_isolated] where every collaborator fails: of two runs,
    one has a positive reward, and [tsr] is 1/2. *)
Lemma tsr_fallback_isolated_witness :
  raises (compute_tsr_enhanced failing_collaborators (tasks two_runs)
            (simulations two_runs))
  /\ exists m,
       compute_metrics failing_collaborators two_runs = Ok m
       /\ tsr m = (1 # 2)%Q
       /\ tsr_communicate_info m = 0%Q
       /\ tsr_weights m = default_weights.
Proof.
  assert (H : raises (compute_tsr_enhanced failing_collaborators (tasks two_runs)
                        (simulations two_runs))).
  { exists ValueError. reflexivity. }
  split; [exact H|].
  destruct (tsr_fallback_isolated unit unit failing_collaborators two_runs H)
    as (m & Hm & Ht & _ & Hc & _ & _ & Hw & _).
  exists m. split; [exact Hm|]. split; [|split; [exact Hc | exact Hw]].
  rewrite Ht. reflexivity.
Defined.

End ReportFacts.

(** ** Canonicalization and failure *)

Module TotalityFacts.
Import PyFacts NormFacts.

Lemma tcrr_rejects_non_mapping :
  Tcrr.normalized_params (PStr "A1") = Raise AttributeError
  /\ Tcrr.normalized_params (PList [PInt 1]) = Raise AttributeError
  /\ Tcrr.normalized_params PNone = Raise AttributeError.
Proof. repeat split. Qed.









End TotalityFacts.

Module TcrrBoundFacts.
Import PyFacts NormFacts Tcrr TcrrFacts.

Lemma check_window_cases (prev : list pyval) (t : Z) (st : Z * gmap Z Z)
    (call : ToolCallInfo) :
  check_window prev t st call = Ok st
  \/ check_window prev t st call = Ok (st.1 + 1, bump t 1 st.2).
Proof.
  unfold check_window, set_contains.
  rewrite hashable_str_identity. simpl.
  destruct (normalized_params (params call)) as [n|e]; simpl.
  - destruct (py_hashable n); simpl.
    + destruct (existsb _ prev); simpl; auto.
    + destruct (existsb _ prev); simpl; auto.
  - destruct (existsb _ prev); simpl; auto.
Qed.

Lemma check_window_nothing_before (t : Z) (st : Z * gmap Z Z) (call : ToolCallInfo) :
  check_window [] t st call = Ok st.
Proof.
  unfold check_window, set_contains.
  rewrite hashable_str_identity. simpl.
  destruct (normalized_params (params call)) as [n|e]; simpl; [|reflexivity].
  destruct (py_hashable n); reflexivity.
Qed.

Lemma bump_insert (t n x : Z) (base : gmap Z Z) :
  bump t n (<[t := x]> base) = <[t := x + n]> base.
Proof. unfold bump. rewrite lookup_insert_eq. simpl. apply insert_insert_eq. Qed.

Lemma check_window_fold (prev : list pyval) (t : Z) (calls : list ToolCallInfo) :
  forall (w x : Z) (base : gmap Z Z),
  exists d, 0 <= d <= Z.of_nat (length calls)
            /\ (prev = [] -> d = 0)
            /\ foldM (check_window prev t) calls (w, <[t := x]> base)
               = Ok (w + d, <[t := x + d]> base).
Proof.
  induction calls as [|c calls IH]; intros w x base.
  - exists 0. simpl. rewrite !Z.add_0_r. repeat split; auto; lia.
  - cbn [foldM]. destruct (check_window_cases prev t (w, <[t := x]> base) c) as [E|E].
    + rewrite E. cbn [mbind result_bind].
      destruct (IH w x base) as (d & Hd & Hz & Hf). exists d.
      split; [simpl length; lia|]. split; [exact Hz | exact Hf].
    + rewrite E. cbn [mbind result_bind fst snd]. rewrite bump_insert.
      destruct (IH (w + 1) (x + 1) base) as (d & Hd & Hz & Hf). exists (1 + d).
      split; [simpl length; lia|]. split.
      * intros ->. rewrite check_window_nothing_before in E.
        injection E as E1 _. cbn [fst] in E1. lia.
      * rewrite Hf, !Z.add_assoc. reflexivity.
Qed.

Lemma check_batch_fold (bt t : Z) (d : list (pyval * Z)) :
  forall (b x : Z) (base : gmap Z Z),
    fold_left (check_batch bt t) d (b, <[t := x]> base)
    = (b + batch_excess bt d, <[t := x + batch_excess bt d]> base).
Proof.
  induction d as [|[i n] d IH]; intros b x base; simpl.
  - rewrite !Z.add_0_r. reflexivity.
  - unfold check_batch at 2. cbn [fst snd].
    destruct (Z.gtb_spec n bt) as [Hgt|Hle].
    + rewrite bump_insert, IH. rewrite (Z.max_r 0 (n - bt)) by lia.
      rewrite !Z.add_assoc. reflexivity.
    + rewrite IH. rewrite (Z.max_l 0 (n - bt)) by lia. reflexivity.
Qed.

Lemma batch_excess_nonneg (bt : Z) (d : list (pyval * Z)) : 0 <= batch_excess bt d.
Proof. induction d as [|e d IH]; simpl; lia. Qed.

Lemma batch_excess_bound (bt : Z) (d : list (pyval * Z)) :
  0 <= bt -> Forall (fun e => 0 <= e.2) d ->
  batch_excess bt d <= foldr Z.add 0 (map snd d).
Proof.
  intros Hbt H. induction H as [|e d He _ IH]; simpl; lia.
Qed.

Lemma count_up_total (d : list (pyval * Z)) (x : pyval) :
  Forall (fun e => 0 <= e.2) d ->
  Forall (fun e => 0 <= e.2) (count_up d x)
  /\ foldr Z.add 0 (map snd (count_up d x)) = foldr Z.add 0 (map snd d) + 1.
Proof.
  induction 1 as [|[y n] d Hn Hd IH]; simpl.
  - split; [constructor; [simpl; lia | constructor] | lia].
  - simpl in Hn. destruct (py_eq y x); simpl.
    + split; [constructor; [simpl; lia | exact Hd] | lia].
    + destruct IH as [IH1 IH2]. split; [constructor; [simpl; lia | exact IH1] | lia].
Qed.

Lemma count_identity_fold (calls : list ToolCallInfo) :
  forall d d',
    Forall (fun e => 0 <= e.2) d ->
    foldM (fun d call => count_identity d (batch_identity call)) calls d = Ok d' ->
    Forall (fun e => 0 <= e.2) d'
    /\ foldr Z.add 0 (map snd d') = foldr Z.add 0 (map snd d) + Z.of_nat (length calls).
Proof.
  induction calls as [|c calls IH]; intros d d' Hd; cbn [foldM].
  - intros [= <-]. split; [exact Hd | simpl; lia].
  - unfold count_identity at 2. destruct (py_hashable (batch_identity c)); [|discriminate].
    cbn [mbind result_bind]. intros H.
    destruct (count_up_total d (batch_identity c) Hd) as [H1 H2].
    destruct (IH _ _ H1 H) as [H3 H4]. split; [exact H3|].
    rewrite H4, H2. simpl length. lia.
Qed.

(** One turn of [compute_tcrr_windowed]. *)
Lemma process_turn_step (m : gmap Z (list ToolCallInfo)) (ws bt : Z)
    (w b : Z) (rbt : gmap Z Z) (t : Z) (st' : Z * Z * gmap Z Z) :
  process_turn m ws bt (w, b, rbt) t = Ok st' ->
  exists dw db,
    st' = (w + dw, b + db, <[t := dw + db]> rbt)
    /\ 0 <= dw <= calls_in m [t]
    /\ 0 <= db
    /\ (0 <= bt -> db <= calls_in m [t])
    /\ (ws <= 0 \/ t <= 1 -> dw = 0).
Proof.
  unfold process_turn, calls_in. cbn [foldr]. rewrite Z.add_0_r.
  set (calls := default [] (m !! t)).
  destruct (foldM add_previous _ []) as [prev|e] eqn:Eprev; [|discriminate].
  cbn [mbind result_bind].
  destruct (check_window_fold prev t calls w 0 rbt) as (dw & Hdw & Hz & ->).
  cbn [mbind result_bind fst snd].
  destruct (foldM (fun d call => count_identity d (batch_identity call)) calls [])
    as [ids|e] eqn:Eids; [|discriminate].
  cbn [mbind result_bind]. rewrite check_batch_fold. cbn [fst snd].
  intros [= <-]. exists dw, (batch_excess bt ids).
  destruct (count_identity_fold calls [] ids ltac:(constructor) Eids) as [Hpos Hsum].
  simpl in Hsum.
  split; [rewrite Z.add_0_l; reflexivity|].
  split; [exact Hdw|]. split; [apply batch_excess_nonneg|]. split.
  - intros Hbt. pose proof (batch_excess_bound bt ids Hbt Hpos) as Hb.
    fold calls. lia.
  - intros Hw. apply Hz.
    rewrite range_empty in Eprev by lia. simpl in Eprev. congruence.
Qed.

Lemma sum_permutation (l l' : list Z) :
  l ≡ₚ l' -> foldr Z.add 0 l = foldr Z.add 0 l'.
Proof. induction 1; simpl; lia. Qed.

Lemma counter_total_empty : counter_total ∅ = 0.
Proof. unfold counter_total. rewrite map_to_list_empty. reflexivity. Qed.

Lemma counter_total_insert (m : gmap Z Z) (t v : Z) :
  m !! t = None -> counter_total (<[t := v]> m) = v + counter_total m.
Proof.
  intros H. unfold counter_total.
  rewrite (sum_permutation _ (map snd ((t, v) :: map_to_list m))).
  - reflexivity.
  - apply Permutation_map, map_to_list_insert, H.
Qed.

Lemma calls_in_cons (m : gmap Z (list ToolCallInfo)) (t : Z) (ts : list Z) :
  calls_in m (t :: ts) = calls_in m [t] + calls_in m ts.
Proof. unfold calls_in. simpl. lia. Qed.

Lemma calls_in_nonneg (m : gmap Z (list ToolCallInfo)) (ts : list Z) :
  0 <= calls_in m ts.
Proof. induction ts as [|t ts IH]; [reflexivity|]. unfold calls_in in *. simpl. lia. Qed.

(** The loop over the turns. *)
Lemma turns_fold (m : gmap Z (list ToolCallInfo)) (ws bt : Z) (ts : list Z) :
  forall (w b : Z) (rbt : gmap Z Z) (st' : Z * Z * gmap Z Z),
    NoDup ts ->
    (forall t, t ∈ ts -> rbt !! t = None) ->
    map_Forall (fun _ v => 0 <= v) rbt ->
    foldM (process_turn m ws bt) ts (w, b, rbt) = Ok st' ->
    exists dw db,
      st'.1.1 = w + dw /\ st'.1.2 = b + db
      /\ 0 <= dw <= calls_in m ts
      /\ 0 <= db
      /\ (0 <= bt -> db <= calls_in m ts)
      /\ (ws <= 0 \/ Forall (fun t => t <= 1) ts -> dw = 0)
      /\ counter_total st'.2 = counter_total rbt + dw + db
      /\ dom st'.2 = dom rbt ∪ list_to_set ts
      /\ map_Forall (fun _ v => 0 <= v) st'.2.
Proof.
  induction ts as [|t ts IH]; intros w b rbt st' Hnd Hfresh Hpos; cbn [foldM].
  - intros [= <-]. exists 0, 0. cbn [fst snd]. unfold calls_in. simpl.
    repeat split; try lia; [rewrite union_empty_r_L; reflexivity | exact Hpos].
  - destruct (process_turn m ws bt (w, b, rbt) t) as [st1|e] eqn:E; [|discriminate].
    cbn [mbind result_bind]. intros Hrest.
    destruct (process_turn_step _ _ _ _ _ _ _ _ E)
      as (dw1 & db1 & -> & Hw1 & Hb1 & Hbb1 & Hz1).
    apply NoDup_cons in Hnd. destruct Hnd as [Hnotin Hnd].
    assert (Hfresh' : forall t', t' ∈ ts -> <[t := dw1 + db1]> rbt !! t' = None).
    { intros t' Ht'. rewrite lookup_insert_ne.
      - apply Hfresh. right. exact Ht'.
      - intros ->. contradiction. }
    assert (Hpos' : map_Forall (fun _ v => 0 <= v) (<[t := dw1 + db1]> rbt)).
    { apply map_Forall_insert_2; [lia | exact Hpos]. }
    destruct (IH _ _ _ _ Hnd Hfresh' Hpos' Hrest)
      as (dw2 & db2 & H1 & H2 & Hw2 & Hb2 & Hbb2 & Hz2 & Hsum & Hdom & Hpos2).
    exists (dw1 + dw2), (db1 + db2). rewrite calls_in_cons.
    rewrite counter_total_insert in Hsum by (apply Hfresh; left).
    rewrite dom_insert_L in Hdom.
    split; [lia|]. split; [lia|]. split; [lia|]. split; [lia|]. split; [lia|].
    split.
    { intros Hc. rewrite Hz1, Hz2; [lia| |].
      - destruct Hc as [?|Hc]; [auto|]. right. inversion Hc; assumption.
      - destruct Hc as [?|Hc]; [auto|]. right. inversion Hc; assumption. }
    split; [lia|]. split; [|exact Hpos2].
    rewrite Hdom. simpl. rewrite (comm_L (∪) {[t]} (dom rbt)), <- (assoc_L (∪)).
    reflexivity.
Qed.

(** *** Grouping by turn *)

Lemma calls_in_permutation (m : gmap Z (list ToolCallInfo)) (ts ts' : list Z) :
  ts ≡ₚ ts' -> calls_in m ts = calls_in m ts'.
Proof. unfold calls_in. induction 1; simpl; lia. Qed.

Lemma calls_in_entries (m : gmap Z (list ToolCallInfo))
    (l : list (Z * list ToolCallInfo)) :
  Forall (fun kv => m !! kv.1 = Some kv.2) l ->
  calls_in m (map fst l) = foldr (fun kv acc => Z.of_nat (length kv.2) + acc) 0 l.
Proof.
  unfold calls_in. induction 1 as [|[k v] l Hkv _ IH]; simpl; [reflexivity|].
  simpl in Hkv. rewrite Hkv, IH. reflexivity.
Qed.

Lemma entries_permutation (l l' : list (Z * list ToolCallInfo)) :
  l ≡ₚ l' ->
  foldr (fun kv acc => Z.of_nat (length kv.2) + acc) 0 l
  = foldr (fun kv acc => Z.of_nat (length kv.2) + acc) 0 l'.
Proof. induction 1; simpl; lia. Qed.

Lemma entries_insert (m : gmap Z (list ToolCallInfo)) (t : Z) (c : ToolCallInfo) :
  foldr (fun kv acc => Z.of_nat (length kv.2) + acc) 0
        (map_to_list (<[t := default [] (m !! t) ++ [c]]> m))
  = foldr (fun kv acc => Z.of_nat (length kv.2) + acc) 0 (map_to_list m) + 1.
Proof.
  destruct (m !! t) as [cs|] eqn:E; simpl.
  - rewrite <- (insert_delete_eq m).
    rewrite (entries_permutation _ _ (map_to_list_insert (delete t m) t (cs ++ [c])
                                        (lookup_delete_eq m t))).
    rewrite <- (entries_permutation _ _ (map_to_list_delete m t cs E)).
    simpl. rewrite length_app. simpl. lia.
  - rewrite (entries_permutation _ _ (map_to_list_insert m t [c] E)). simpl. lia.
Qed.

Lemma group_by_turn_entries (tool_calls : list ToolCallInfo) :
  foldr (fun kv acc => Z.of_nat (length kv.2) + acc) 0
        (map_to_list (group_by_turn tool_calls))
  = Z.of_nat (length tool_calls).
Proof.
  unfold group_by_turn.
  assert (H : forall m : gmap Z (list ToolCallInfo),
             foldr (fun kv acc => Z.of_nat (length kv.2) + acc) 0
               (map_to_list
                  (fold_left (fun calls_by_turn call =>
                                let turn := assistant_turn_idx call in
                                <[turn := default [] (calls_by_turn !! turn) ++ [call]]>
                                  calls_by_turn) tool_calls m))
             = foldr (fun kv acc => Z.of_nat (length kv.2) + acc) 0 (map_to_list m)
               + Z.of_nat (length tool_calls)).
  { induction tool_calls as [|c l IH]; intros m; simpl fold_left.
    - simpl. lia.
    - rewrite IH, entries_insert. simpl length. lia. }
  rewrite H, map_to_list_empty. reflexivity.
Qed.

Lemma group_by_turn_dom (tool_calls : list ToolCallInfo) :
  dom (group_by_turn tool_calls) = list_to_set (map assistant_turn_idx tool_calls).
Proof.
  unfold group_by_turn.
  assert (H : forall m : gmap Z (list ToolCallInfo),
             dom (fold_left (fun calls_by_turn call =>
                               let turn := assistant_turn_idx call in
                               <[turn := default [] (calls_by_turn !! turn) ++ [call]]>
                                 calls_by_turn) tool_calls m)
             = dom m ∪ list_to_set (map assistant_turn_idx tool_calls)).
  { induction tool_calls as [|c l IH]; intros m; simpl fold_left.
    - simpl. rewrite union_empty_r_L. reflexivity.
    - rewrite IH, dom_insert_L. simpl.
      rewrite (comm_L (∪) {[assistant_turn_idx c]} (dom m)), <- (assoc_L (∪)).
      reflexivity. }
  rewrite H, dom_empty_L, union_empty_l_L. reflexivity.
Qed.

(** The turns the main loop goes through: each turn with a call, once. *)
Lemma sorted_turns_spec (m : gmap Z (list ToolCallInfo)) :
  let sorted_turns := merge_sort Z.le (map fst (map_to_list m)) in
  NoDup sorted_turns
  /\ list_to_set sorted_turns = dom m
  /\ calls_in m sorted_turns
     = foldr (fun kv acc => Z.of_nat (length kv.2) + acc) 0 (map_to_list m).
Proof.
  intros sorted_turns.
  assert (Hp : sorted_turns ≡ₚ map fst (map_to_list m)) by apply merge_sort_Permutation.
  split; [|split].
  - rewrite Hp. apply NoDup_fst_map_to_list.
  - apply set_eq. intros t. rewrite elem_of_list_to_set, Hp, elem_of_dom.
    rewrite list_elem_of_fmap. split.
    + intros ([k v] & -> & Hin). apply elem_of_map_to_list in Hin. eauto.
    + intros [v Hv]. exists (t, v). split; [reflexivity|].
      apply elem_of_map_to_list. exact Hv.
  - rewrite (calls_in_permutation _ _ _ Hp). apply calls_in_entries.
    apply Forall_forall. intros [k v] Hin. apply elem_of_map_to_list in Hin. exact Hin.
Qed.

(** The whole computation, on calls with JSON arguments. *)
Lemma compute_accounted (tool_calls : list ToolCallInfo) (ws bt : Z) :
  Forall (fun c => is_args (params c) = true) tool_calls ->
  exists r,
    compute_tcrr_windowed tool_calls ws bt = Ok r
    /\ total_calls r = Z.of_nat (length tool_calls)
    /\ redundant_calls r = window_redundant_calls r + batch_redundant_calls r
    /\ redundancy_ratio r = ratio_of (redundant_calls r) (total_calls r)
    /\ 0 <= window_redundant_calls r <= total_calls r
    /\ 0 <= batch_redundant_calls r
    /\ (0 <= bt -> batch_redundant_calls r <= total_calls r)
    /\ (ws <= 0 \/ Forall (fun c => assistant_turn_idx c <= 1) tool_calls ->
        window_redundant_calls r = 0)
    /\ counter_total (redundant_by_turn r) = redundant_calls r
    /\ dom (redundant_by_turn r) = list_to_set (map assistant_turn_idx tool_calls)
    /\ map_Forall (fun _ v => 0 <= v) (redundant_by_turn r).
Proof.
  intros Hargs. destruct tool_calls as [|c0 l0] eqn:El.
  - eexists. split; [reflexivity|]. cbn.
    rewrite counter_total_empty, dom_empty_L.
    repeat split; try lia; try reflexivity. apply map_Forall_empty.
  - rewrite <- El in *. assert (Hne : tool_calls <> []) by (rewrite El; discriminate).
    clear El. rewrite (compute_nonempty _ _ _ Hne).
    set (m := group_by_turn tool_calls).
    destruct (sorted_turns_spec m) as (Hnd & Hset & Hcalls).
    set (ts := merge_sort Z.le (map fst (map_to_list m))) in *.
    destruct (foldM_total (process_turn m ws bt) ts (0, 0, ∅)) as [st Hst].
    { apply Forall_forall. intros t _ st. apply process_turn_total. exact Hargs. }
    rewrite Hst. cbn [mbind result_bind].
    destruct (turns_fold m ws bt ts 0 0 ∅ st Hnd
                (fun t _ => lookup_empty t) (map_Forall_empty _) Hst)
      as (dw & db & H1 & H2 & Hw & Hb & Hbb & Hz & Hsum & Hdom & Hpos).
    rewrite counter_total_empty in Hsum. rewrite dom_empty_L in Hdom.
    unfold m in Hcalls. rewrite group_by_turn_entries in Hcalls. fold m in Hcalls.
    eexists. split; [reflexivity|]. cbn [total_calls redundant_calls redundancy_ratio
      redundant_by_turn window_redundant_calls batch_redundant_calls].
    split; [reflexivity|]. split; [reflexivity|]. split; [reflexivity|].
    split; [lia|]. split; [lia|]. split; [intros; specialize (Hbb ltac:(assumption)); lia|].
    split.
    { intros Hc. rewrite H1, Hz; [lia|]. destruct Hc as [?|Hc]; [auto|]. right.
      apply Forall_forall. intros t Ht.
      assert (Hin : t ∈ dom m).
      { rewrite <- Hset. apply elem_of_list_to_set. exact Ht. }
      unfold m in Hin. rewrite group_by_turn_dom in Hin.
      apply elem_of_list_to_set, list_elem_of_fmap in Hin as (c & -> & Hcin).
      rewrite Forall_forall in Hc. apply Hc. exact Hcin. }
    split; [lia|]. split; [|exact Hpos].
    rewrite Hdom, Hset, union_empty_l_L. unfold m. apply group_by_turn_dom.
Qed.

Lemma ratio_of_bounds (redundant total : Z) :
  0 <= redundant <= 2 * total ->
  (0 <= ratio_of redundant total)%Q /\ (ratio_of redundant total <= 2)%Q.
Proof.
  intros H. unfold ratio_of. destruct (Z.gtb_spec total 0) as [Hpos|_].
  - assert (Ht : (0 < inject_Z total)%Q).
    { change 0%Q with (inject_Z 0). rewrite <- Zlt_Qlt. lia. }
    split.
    + apply Qle_shift_div_l; [exact Ht|]. rewrite Qmult_0_l.
      change 0%Q with (inject_Z 0). rewrite <- Zle_Qle. lia.
    + apply Qle_shift_div_r; [exact Ht|].
      change 2%Q with (inject_Z 2). rewrite <- inject_Z_mult, <- Zle_Qle. lia.
  - split; [apply Qle_refl | discriminate].
Qed.

(** How far the counts of [compute_tcrr_windowed] can go: each call is
    window-redundant at most once, and with a threshold that is not
    negative at most as many calls are batch-redundant as there are calls;
    as the two counts add up, the ratio lies between 0 and 2, and it does
    exceed 1 (six redundant calls among five, for one call in turn 1
    repeated four times in turn 2). *)
Theorem redundancy_bounds :
  forall (tool_calls : list ToolCallInfo) (window_sz batch_threshold : Z),
    Forall (fun c => is_args (params c) = true) tool_calls ->
    0 <= batch_threshold ->
    (exists r,
        compute_tcrr_windowed tool_calls window_sz batch_threshold = Ok r
        /\ 0 <= window_redundant_calls r <= total_calls r
        /\ 0 <= batch_redundant_calls r <= total_calls r
        /\ 0 <= redundant_calls r <= 2 * total_calls r
        /\ (0 <= redundancy_ratio r)%Q /\ (redundancy_ratio r <= 2)%Q)
    /\ (exists r,
          compute_tcrr_windowed
            [balance_call 1; balance_call 2; balance_call 2; balance_call 2;
             balance_call 2] 3 2 = Ok r
          /\ redundant_calls r = 6 /\ total_calls r = 5
          /\ redundancy_ratio r = (6 # 5)%Q).
Proof.
  intros tool_calls ws bt Hargs Hbt. split.
  - destruct (compute_accounted tool_calls ws bt Hargs)
      as (r & Hr & Htot & Hred & Hratio & Hw & Hb & Hbb & _).
    specialize (Hbb Hbt). exists r. split; [exact Hr|].
    split; [exact Hw|]. split; [lia|]. split; [lia|].
    rewrite Hratio. apply ratio_of_bounds. lia.
  - eexists. split; [vm_compute; reflexivity|]. repeat split.
Qed.

(** [redundancy_bounds] on two calls in consecutive turns. *)
Lemma redundancy_bounds_witness :
  exists r,
    compute_tcrr_windowed [balance_call 1; balance_call 2] 3 2 = Ok r
    /\ 0 <= window_redundant_calls r <= total_calls r
    /\ 0 <= batch_redundant_calls r <= total_calls r
    /\ 0 <= redundant_calls r <= 2 * total_calls r
    /\ (0 <= redundancy_ratio r)%Q /\ (redundancy_ratio r <= 2)%Q.
Proof.
  apply (redundancy_bounds [balance_call 1; balance_call 2] 3 2).
  - repeat constructor.
  - lia.
Defined.

(** [redundant_by_turn] accounts for every redundant call: it has one
    entry for each assistant turn in which a call was made, no entry is
    negative, and the entries add up to [redundant_calls]. *)
Theorem redundant_by_turn_accounts :
  forall (tool_calls : list ToolCallInfo) (window_sz batch_threshold : Z),
    Forall (fun c => is_args (params c) = true) tool_calls ->
    exists r,
      compute_tcrr_windowed tool_calls window_sz batch_threshold = Ok r
      /\ dom (redundant_by_turn r)
         = list_to_set (map assistant_turn_idx tool_calls)
      /\ (forall t v, redundant_by_turn r !! t = Some v -> 0 <= v)
      /\ counter_total (redundant_by_turn r) = redundant_calls r.
Proof.
  intros tool_calls ws bt Hargs.
  destruct (compute_accounted tool_calls ws bt Hargs)
    as (r & Hr & _ & _ & _ & _ & _ & _ & _ & Hsum & Hdom & Hpos).
  exists r. split; [exact Hr|]. split; [exact Hdom|]. split; [|exact Hsum].
  intros t v Htv. apply (Hpos t v Htv).
Qed.

(** [redundant_by_turn_accounts] on a call repeated in the next turn. *)
Lemma redundant_by_turn_accounts_witness :
  exists r,
    compute_tcrr_windowed [balance_call 1; balance_call 2] 3 2 = Ok r
    /\ dom (redundant_by_turn r)
       = list_to_set (map assistant_turn_idx [balance_call 1; balance_call 2])
    /\ (forall t v, redundant_by_turn r !! t = Some v -> 0 <= v)
    /\ counter_total (redundant_by_turn r) = redundant_calls r.
Proof.
  apply (redundant_by_turn_accounts [balance_call 1; balance_call 2] 3 2).
  repeat constructor.
Defined.

(** No call is window-redundant without earlier turns to look at: with a
    window size of 0 or less, or when every call was made in assistant
    turn 1 or before any assistant message (turn 0), the window count is
    0 and all redundancy is batch redundancy. The window starts at turn 1
    at the earliest, so calls of turn 0 are never looked back at. *)
Theorem no_window_without_history :
  forall (tool_calls : list ToolCallInfo) (window_sz batch_threshold : Z),
    Forall (fun c => is_args (params c) = true) tool_calls ->
    window_sz <= 0 \/ Forall (fun c => assistant_turn_idx c <= 1) tool_calls ->
    exists r,
      compute_tcrr_windowed tool_calls window_sz batch_threshold = Ok r
      /\ window_redundant_calls r = 0
      /\ redundant_calls r = batch_redundant_calls r.
Proof.
  intros tool_calls ws bt Hargs Hc.
  destruct (compute_accounted tool_calls ws bt Hargs)
    as (r & Hr & _ & Hred & _ & _ & _ & _ & Hz & _).
  exists r. split; [exact Hr|]. specialize (Hz Hc). split; [exact Hz | lia].
Qed.

(** [no_window_without_history] on the same call made before the first
    assistant message and in the first assistant turn. *)
Lemma no_window_without_history_witness :
  exists r,
    compute_tcrr_windowed [balance_call 0; balance_call 1] 3 2 = Ok r
    /\ window_redundant_calls r = 0
    /\ redundant_calls r = batch_redundant_calls r.
Proof.
  apply (no_window_without_history [balance_call 0; balance_call 1] 3 2).
  - repeat constructor.
  - right. repeat constructor; simpl; lia.
Defined.

End TcrrBoundFacts.

(** ** Per-task redundancy *)

Module TcrrByTaskFacts.
Import PyFacts NormFacts Tcrr TcrrFacts TcrrBoundFacts TcrrByTask.

(** *** Grouping the runs by task *)

Lemma file_simulation_keys (groups : list (string * list AgentMetrics.SimulationRun))
    (sim : AgentMetrics.SimulationRun) :
  map fst (file_simulation groups sim)
  = if bool_decide (AgentMetrics.task_id sim ∈ map fst groups)
    then map fst groups
    else map fst groups ++ [AgentMetrics.task_id sim].
Proof.
  induction groups as [|[t g] groups IH]; cbn [file_simulation map fst].
  - rewrite bool_decide_eq_false_2; [reflexivity|]. apply not_elem_of_nil.
  - destruct (String.eqb_spec t (AgentMetrics.task_id sim)) as [->|Hne];
      cbn [map fst].
    + rewrite bool_decide_eq_true_2; [reflexivity|]. left.
    + rewrite IH. case_bool_decide as Hin.
      * rewrite bool_decide_eq_true_2; [reflexivity|]. right. exact Hin.
      * rewrite bool_decide_eq_false_2; [reflexivity|].
        intros Hin'. apply elem_of_cons in Hin' as [Heq|Hin']; [congruence|contradiction].
Qed.

Lemma file_simulation_members (groups : list (string * list AgentMetrics.SimulationRun))
    (sim : AgentMetrics.SimulationRun) :
  concat (map snd (file_simulation groups sim)) ≡ₚ concat (map snd groups) ++ [sim].
Proof.
  induction groups as [|[t g] groups IH]; simpl; [reflexivity|].
  destruct (String.eqb t (AgentMetrics.task_id sim)); simpl.
  - rewrite <- !app_assoc. apply Permutation_app_head.
    apply Permutation_app_comm.
  - rewrite IH, app_assoc. reflexivity.
Qed.

Lemma filter_task_none (l : list AgentMetrics.SimulationRun) (t : string) :
  (forall s, s ∈ l -> AgentMetrics.task_id s <> t) ->
  filter (fun s => AgentMetrics.task_id s = t) l = [].
Proof.
  intros H. destruct (filter _ l) as [|x f] eqn:E; [reflexivity|].
  assert (Hx : x ∈ filter (fun s => AgentMetrics.task_id s = t) l) by (rewrite E; left).
  apply list_elem_of_filter in Hx as [Hx Hin]. destruct (H x Hin Hx).
Qed.

Lemma filter_task_snoc (l : list AgentMetrics.SimulationRun)
    (sim : AgentMetrics.SimulationRun) (t : string) :
  filter (fun s => AgentMetrics.task_id s = t) (l ++ [sim])
  = filter (fun s => AgentMetrics.task_id s = t) l
    ++ (if bool_decide (AgentMetrics.task_id sim = t) then [sim] else []).
Proof.
  rewrite filter_app, filter_cons, filter_nil.
  case_decide; case_bool_decide; congruence.
Qed.

Lemma file_simulation_groups (groups : list (string * list AgentMetrics.SimulationRun))
    (sim : AgentMetrics.SimulationRun) (l : list AgentMetrics.SimulationRun) :
  Forall (fun e => e.2 = filter (fun s => AgentMetrics.task_id s = e.1) l) groups ->
  (AgentMetrics.task_id sim ∉ map fst groups ->
   filter (fun s => AgentMetrics.task_id s = AgentMetrics.task_id sim) l = []) ->
  NoDup (map fst groups) ->
  Forall (fun e => e.2 = filter (fun s => AgentMetrics.task_id s = e.1) (l ++ [sim]))
         (file_simulation groups sim).
Proof.
  induction 1 as [|[t0 g0] groups Hg0 Hgroups IH]; intros Hnew Hnd; simpl.
  - constructor; [|constructor]. simpl. rewrite filter_task_snoc.
    rewrite Hnew by apply not_elem_of_nil.
    rewrite bool_decide_eq_true_2 by reflexivity. reflexivity.
  - simpl in Hg0, Hnd. apply NoDup_cons in Hnd. destruct Hnd as [Hnotin Hnd].
    destruct (String.eqb_spec t0 (AgentMetrics.task_id sim)) as [->|Hne].
    + constructor.
      * simpl. rewrite filter_task_snoc, bool_decide_eq_true_2 by reflexivity.
        rewrite Hg0. reflexivity.
      * rewrite Forall_forall in Hgroups. apply Forall_forall. intros [t g] Hin.
        simpl. rewrite filter_task_snoc, bool_decide_eq_false_2.
        -- rewrite app_nil_r. apply (Hgroups _ Hin).
        -- intros <-. apply Hnotin. apply list_elem_of_fmap. exists (AgentMetrics.task_id sim, g).
           split; [reflexivity | exact Hin].
    + constructor.
      * simpl. rewrite filter_task_snoc, bool_decide_eq_false_2 by congruence.
        rewrite app_nil_r. exact Hg0.
      * apply IH; [|exact Hnd]. intros Hn. apply Hnew.
        intros Hin. apply elem_of_cons in Hin as [Heq|Hin];
          [simpl in Heq; congruence | contradiction].
Qed.

(** The groups [compute_tcrr] and [compute_metrics_simple] form: one per
    task id, in order of first appearance, each holding the runs of its
    task in input order. *)
Lemma group_by_task_spec (simulations : list AgentMetrics.SimulationRun) :
  NoDup (map fst (group_by_task simulations))
  /\ Forall (fun e => e.2 = filter (fun s => AgentMetrics.task_id s = e.1) simulations)
            (group_by_task simulations)
  /\ (forall t, t ∈ map fst (group_by_task simulations)
                <-> exists sim, sim ∈ simulations /\ AgentMetrics.task_id sim = t)
  /\ concat (map snd (group_by_task simulations)) ≡ₚ simulations.
Proof.
  unfold group_by_task.
  induction simulations as [|sim l IH] using rev_ind.
  - simpl. split; [constructor|]. split; [constructor|]. split; [|reflexivity].
    intros t. split.
    + intros H. inversion H.
    + intros (sim & H & _). inversion H.
  - rewrite fold_left_app. simpl.
    destruct IH as (Hnd & Hg & Hk & Hp).
    set (groups := fold_left file_simulation l []) in *.
    assert (Hkeys := file_simulation_keys groups sim).
    split; [|split; [|split]].
    + rewrite Hkeys. case_bool_decide as Hin; [exact Hnd|].
      apply NoDup_app. split; [exact Hnd|]. split.
      * intros t Ht Hs. apply list_elem_of_singleton in Hs. subst. contradiction.
      * apply NoDup_singleton.
    + apply file_simulation_groups; [exact Hg| |exact Hnd].
      intros Hnotin. apply filter_task_none. intros s Hs Heq.
      apply Hnotin, Hk. eauto.
    + intros t. rewrite Hkeys. split.
      * intros Hin.
        assert (Ht : t ∈ map fst groups \/ t = AgentMetrics.task_id sim).
        { case_bool_decide; [auto|]. apply elem_of_app in Hin as [?|Hs]; [auto|].
          apply list_elem_of_singleton in Hs. auto. }
        destruct Ht as [Ht| ->].
        -- apply Hk in Ht as (s & Hs & Hst). exists s. split; [|exact Hst].
           apply elem_of_app. auto.
        -- exists sim. split; [|reflexivity]. apply elem_of_app. right. left.
      * intros (s & Hs & <-). apply elem_of_app in Hs as [Hs|Hs].
        -- assert (Ht : AgentMetrics.task_id s ∈ map fst groups) by (apply Hk; eauto).
           case_bool_decide; [exact Ht | apply elem_of_app; auto].
        -- apply list_elem_of_singleton in Hs. subst s.
           case_bool_decide as Hin; [exact Hin|]. apply elem_of_app. right. left.
    + rewrite file_simulation_members, Hp. reflexivity.
Qed.

(** *** The calls of a transcript *)

Lemma scan_params (tool_results : gmap string ToolResult) (l : list Message)
    (st : Z * list ToolCallInfo) :
  map params (fold_left (scan_message tool_results) l st).2
  = map params st.2 ++ map tc_arguments (transcript_calls l).
Proof.
  revert st. induction l as [|msg l IH]; intros st; simpl fold_left.
  - unfold transcript_calls. simpl. rewrite app_nil_r. reflexivity.
  - rewrite IH, ExtractFacts.scan_message_eq. cbn [snd].
    unfold transcript_calls. simpl flat_map.
    rewrite !map_app, <- app_assoc. f_equal. f_equal.
    unfold infos_at. rewrite map_map. reflexivity.
Qed.

Lemma extract_params (messages : list Message) :
  map params (extract_tool_calls_with_turns messages)
  = map tc_arguments (transcript_calls messages).
Proof. unfold extract_tool_calls_with_turns. rewrite scan_params. reflexivity. Qed.

Lemma extract_length (messages : list Message) :
  length (extract_tool_calls_with_turns messages) = length (transcript_calls messages).
Proof.
  rewrite <- (length_map params), extract_params, length_map. reflexivity.
Qed.

Lemma extract_args (messages : list Message) :
  Forall (fun tc => is_args (tc_arguments tc) = true) (transcript_calls messages) ->
  Forall (fun c => is_args (params c) = true) (extract_tool_calls_with_turns messages).
Proof.
  intros H.
  assert (Hm : Forall (fun p => is_args p = true)
                 (map params (extract_tool_calls_with_turns messages))).
  { rewrite extract_params. apply Forall_fmap. exact H. }
  apply Forall_fmap in Hm. exact Hm.
Qed.

Lemma task_calls_args (sims : list AgentMetrics.SimulationRun) :
  Forall (fun sim => Forall (fun tc => is_args (tc_arguments tc) = true)
                       (transcript_calls (AgentMetrics.messages sim))) sims ->
  Forall (fun c => is_args (params c) = true) (task_calls sims).
Proof.
  induction 1 as [|sim sims H _ IH]; simpl; [constructor|].
  apply Forall_app. split; [apply extract_args, H | exact IH].
Qed.

Lemma task_calls_length (sims : list AgentMetrics.SimulationRun) :
  length (task_calls sims)
  = length (flat_map (fun sim => transcript_calls (AgentMetrics.messages sim)) sims).
Proof.
  induction sims as [|sim sims IH]; simpl; [reflexivity|].
  rewrite !length_app, IH, extract_length. reflexivity.
Qed.

Lemma flat_map_length_permutation {A B} (f : A -> list B) (l l' : list A) :
  l ≡ₚ l' -> length (flat_map f l) = length (flat_map f l').
Proof. induction 1; simpl; rewrite ?length_app; lia. Qed.

(** *** The loop over the tasks *)

Lemma tasks_fold (ws bt : Z) (groups : list (string * list AgentMetrics.SimulationRun)) :
  forall (acc : list (string * TCRRResult)) (calls : list ToolCallInfo),
    Forall (fun e => Forall (fun c => is_args (params c) = true) (task_calls e.2)) groups ->
    exists rs,
      foldM (task_step ws bt) groups (acc, calls)
      = Ok (acc ++ rs, calls ++ task_calls (concat (map snd groups)))
      /\ Forall2 (fun e r => r.1 = e.1
                             /\ compute_tcrr_windowed (task_calls e.2) ws bt = Ok r.2
                             /\ total_calls r.2 = Z.of_nat (length (task_calls e.2)))
                 groups rs.
Proof.
  induction groups as [|[t g] groups IH]; intros acc calls Hargs; cbn [foldM].
  - exists []. simpl. rewrite !app_nil_r. split; [reflexivity | constructor].
  - apply Forall_cons in Hargs. destruct Hargs as [Hg Hargs]. simpl in Hg.
    destruct (compute_accounted (task_calls g) ws bt Hg) as (r & Hr & Htot & _).
    unfold task_step at 2. cbn [fst snd]. rewrite Hr. cbn [mbind result_bind].
    destruct (IH (acc ++ [(t, r)]) (calls ++ task_calls g) Hargs) as (rs & -> & HF).
    exists ((t, r) :: rs). split.
    + rewrite <- !app_assoc. simpl. unfold task_calls. rewrite flat_map_app.
      reflexivity.
    + constructor; [|exact HF]. simpl. auto.
Qed.

Lemma task_totals (ws bt : Z) (groups : list (string * list AgentMetrics.SimulationRun))
    (rs : list (string * TCRRResult)) :
  Forall2 (fun e r => r.1 = e.1
                      /\ compute_tcrr_windowed (task_calls e.2) ws bt = Ok r.2
                      /\ total_calls r.2 = Z.of_nat (length (task_calls e.2)))
          groups rs ->
  map fst rs = map fst groups
  /\ foldr Z.add 0 (map (fun e => total_calls e.2) rs)
     = Z.of_nat (length (task_calls (concat (map snd groups)))).
Proof.
  induction 1 as [|e r groups rs (Hk & _ & Ht) _ [IH1 IH2]]; simpl; [auto|].
  split; [rewrite Hk, IH1; reflexivity|].
  rewrite IH2, Ht. unfold task_calls. rewrite flat_map_app, length_app. lia.
Qed.

(** [compute_tcrr] on runs whose tool calls have JSON arguments: it
    returns one result per task id, computed on the calls of all the runs
    of that task taken together (run after run, in input order), and an
    aggregated result over the calls of all runs; the aggregated total is
    the sum of the per-task totals, the number of tool calls in the
    transcripts. *)
Theorem compute_tcrr_by_task :
  forall (window_sz batch_threshold : Z) (simulations : list AgentMetrics.SimulationRun),
    Forall (fun sim => Forall (fun tc => is_args (tc_arguments tc) = true)
                         (transcript_calls (AgentMetrics.messages sim))) simulations ->
    exists aggregated results_by_task,
      compute_tcrr window_sz batch_threshold simulations
      = Ok (aggregated, results_by_task)
      /\ NoDup (map fst results_by_task)
      /\ (forall t, t ∈ map fst results_by_task
                    <-> exists sim, sim ∈ simulations /\ AgentMetrics.task_id sim = t)
      /\ (forall t r, (t, r) ∈ results_by_task ->
            compute_tcrr_windowed
              (task_calls (filter (fun s => AgentMetrics.task_id s = t) simulations))
              window_sz batch_threshold = Ok r)
      /\ total_calls aggregated
         = foldr Z.add 0 (map (fun e => total_calls e.2) results_by_task)
      /\ total_calls aggregated
         = Z.of_nat (length (flat_map (fun sim => transcript_calls (AgentMetrics.messages sim))
                                      simulations)).
Proof.
  intros ws bt sims Hargs.
  destruct (group_by_task_spec sims) as (Hnd & Hg & Hk & Hp).
  set (groups := group_by_task sims) in *.
  assert (Hall : Forall (fun sim => Forall (fun tc => is_args (tc_arguments tc) = true)
                                      (transcript_calls (AgentMetrics.messages sim)))
                   (concat (map snd groups))).
  { rewrite Hp. exact Hargs. }
  assert (Hgroups : Forall (fun e => Forall (fun c => is_args (params c) = true)
                                       (task_calls e.2)) groups).
  { rewrite Forall_forall in Hg. apply Forall_forall. intros e He.
    apply task_calls_args. rewrite (Hg e He). apply Forall_forall. intros s Hs.
    apply list_elem_of_filter in Hs as [_ Hs]. rewrite Forall_forall in Hargs. auto. }
  destruct (tasks_fold ws bt groups [] [] Hgroups) as (rs & Hfold & HF).
  destruct (compute_accounted (task_calls (concat (map snd groups))) ws bt
              (task_calls_args _ Hall)) as (agg & Hagg & Htot & _).
  destruct (task_totals ws bt groups rs HF) as [Hkeys Hsum].
  exists agg, rs. split.
  { unfold compute_tcrr. fold groups. rewrite Hfold. cbn [mbind result_bind fst snd app].
    rewrite Hagg. reflexivity. }
  split; [rewrite Hkeys; exact Hnd|].
  split; [intros t; rewrite Hkeys; apply Hk|].
  split.
  { intros t r Hin. apply list_elem_of_lookup in Hin as [i Hi].
    destruct (Forall2_lookup_r _ _ _ _ _ HF Hi) as (e & He & Hk1 & Hr & _).
    simpl in Hk1, Hr. subst t. rewrite Forall_forall in Hg.
    rewrite <- (Hg e); [exact Hr|]. apply list_elem_of_lookup. eauto. }
  split; [rewrite Htot, Hsum; reflexivity|].
  rewrite Htot, task_calls_length. f_equal.
  apply flat_map_length_permutation, Hp.
Qed.

(** [compute_tcrr_by_task] on two runs of one task. *)
Lemma compute_tcrr_by_task_witness :
  exists aggregated results_by_task,
    compute_tcrr 3 2 (AgentMetrics.simulations two_runs)
    = Ok (aggregated, results_by_task)
    /\ NoDup (map fst results_by_task)
    /\ (forall t, t ∈ map fst results_by_task
                  <-> exists sim, sim ∈ AgentMetrics.simulations two_runs
                                  /\ AgentMetrics.task_id sim = t)
    /\ (forall t r, (t, r) ∈ results_by_task ->
          compute_tcrr_windowed
            (task_calls (filter (fun s => AgentMetrics.task_id s = t)
                                (AgentMetrics.simulations two_runs)))
            3 2 = Ok r)
    /\ total_calls aggregated
       = foldr Z.add 0 (map (fun e => total_calls e.2) results_by_task)
    /\ total_calls aggregated
       = Z.of_nat (length (flat_map (fun sim => transcript_calls (AgentMetrics.messages sim))
                                    (AgentMetrics.simulations two_runs))).
Proof.
  apply (compute_tcrr_by_task 3 2 (AgentMetrics.simulations two_runs)).
  repeat constructor.
Defined.

(** *** The breakdown *)

Lemma Qlt_bool_iff (x y : Q) : AgentMetrics.Qlt_bool x y = true <-> (x < y)%Q.
Proof.
  unfold AgentMetrics.Qlt_bool. rewrite negb_true_iff. split.
  - intros H. apply Qnot_le_lt. intros Hle. apply Qle_bool_iff in Hle. congruence.
  - intros H. apply not_true_is_false. rewrite Qle_bool_iff. apply Qlt_not_le, H.
Qed.

Lemma Qlt_bool_false (x y : Q) : AgentMetrics.Qlt_bool x y = false -> (y <= x)%Q.
Proof.
  intros H. apply Qnot_lt_le. intros Hlt. apply Qlt_bool_iff in Hlt. congruence.
Qed.

Lemma insert_descending_perm (x : ProblematicTask) (l : list ProblematicTask) :
  insert_descending x l ≡ₚ x :: l.
Proof.
  induction l as [|y l IH]; simpl; [reflexivity|].
  destruct (AgentMetrics.Qlt_bool _ _); [reflexivity|].
  rewrite IH. apply perm_swap.
Qed.

Lemma sort_descending_perm (l : list ProblematicTask) : sort_descending l ≡ₚ l.
Proof.
  unfold sort_descending.
  assert (H : forall acc, fold_left (fun acc x => insert_descending x acc) l acc ≡ₚ acc ++ l).
  { induction l as [|x l IH]; intros acc; simpl.
    - rewrite app_nil_r. reflexivity.
    - rewrite IH, insert_descending_perm. apply Permutation_middle. }
  apply (H []).
Qed.

Lemma insert_descending_sorted (x : ProblematicTask) (l : list ProblematicTask) :
  StronglySorted (fun p q => (p_redundancy_ratio q <= p_redundancy_ratio p)%Q) l ->
  StronglySorted (fun p q => (p_redundancy_ratio q <= p_redundancy_ratio p)%Q)
                 (insert_descending x l).
Proof.
  induction 1 as [|y l Hl IH Hy]; simpl.
  - constructor; [constructor | constructor].
  - destruct (AgentMetrics.Qlt_bool (p_redundancy_ratio y) (p_redundancy_ratio x)) eqn:E.
    + apply Qlt_bool_iff in E. constructor; [constructor; assumption|].
      constructor; [apply Qlt_le_weak, E|].
      eapply List.Forall_impl; [|exact Hy]. intros q Hq. simpl in Hq.
      eapply Qle_trans; [exact Hq | apply Qlt_le_weak, E].
    + apply Qlt_bool_false in E. constructor; [exact IH|].
      apply List.Forall_forall. intros q Hq.
      apply (Permutation_in _ (insert_descending_perm x l)) in Hq as [<-|Hq]; [exact E|].
      rewrite List.Forall_forall in Hy. apply Hy, Hq.
Qed.

Lemma sort_descending_sorted (l : list ProblematicTask) :
  StronglySorted (fun p q => (p_redundancy_ratio q <= p_redundancy_ratio p)%Q)
                 (sort_descending l).
Proof.
  unfold sort_descending.
  assert (H : forall acc,
             StronglySorted (fun p q => (p_redundancy_ratio q <= p_redundancy_ratio p)%Q) acc ->
             StronglySorted (fun p q => (p_redundancy_ratio q <= p_redundancy_ratio p)%Q)
               (fold_left (fun acc x => insert_descending x acc) l acc)).
  { induction l as [|x l IH]; intros acc Hacc; simpl; [exact Hacc|].
    apply IH, insert_descending_sorted, Hacc. }
  apply H. constructor.
Qed.

(** [get_detailed_tcrr_breakdown] lists the five tasks with the greatest
    redundancy ratio among those above 0.3 (all of them when there are
    fewer), greatest first: every task listed is above 0.3 and carries the
    figures of its result; a task above 0.3 that is left out has five
    tasks listed before it, none with a smaller ratio. *)
Theorem breakdown_top_five :
  forall results_by_task : list (string * TCRRResult),
    length (get_detailed_tcrr_breakdown results_by_task)
    = Nat.min 5 (length (filter (fun entry => problematic entry = true) results_by_task))
    /\ (forall p, p ∈ get_detailed_tcrr_breakdown results_by_task ->
          (3 # 10 < p_redundancy_ratio p)%Q
          /\ exists entry, entry ∈ results_by_task
                           /\ p_task_id p = entry.1
                           /\ p_redundancy_ratio p = redundancy_ratio entry.2
                           /\ p_total_calls p = total_calls entry.2
                           /\ p_redundant_calls p = redundant_calls entry.2)
    /\ (forall (i j : nat) p q,
          (i < j)%nat ->
          get_detailed_tcrr_breakdown results_by_task !! i = Some p ->
          get_detailed_tcrr_breakdown results_by_task !! j = Some q ->
          (p_redundancy_ratio q <= p_redundancy_ratio p)%Q)
    /\ (forall entry,
          entry ∈ results_by_task ->
          (3 # 10 < redundancy_ratio entry.2)%Q ->
          problematic_entry entry ∉ get_detailed_tcrr_breakdown results_by_task ->
          length (get_detailed_tcrr_breakdown results_by_task) = 5%nat
          /\ forall p, p ∈ get_detailed_tcrr_breakdown results_by_task ->
                       (redundancy_ratio entry.2 <= p_redundancy_ratio p)%Q).
Proof.
  intros results_by_task. unfold get_detailed_tcrr_breakdown.
  set (found := filter (fun entry => problematic entry = true) results_by_task).
  set (s := sort_descending (map problematic_entry found)).
  assert (Hperm : s ≡ₚ map problematic_entry found) by apply sort_descending_perm.
  assert (Hsorted := sort_descending_sorted (map problematic_entry found)). fold s in Hsorted.
  assert (Hlen : length s = length found).
  { rewrite Hperm, length_map. reflexivity. }
  assert (Hmem : forall p, p ∈ s ->
            exists entry, entry ∈ results_by_task /\ problematic entry = true
                          /\ p = problematic_entry entry).
  { intros p Hp. rewrite Hperm in Hp. apply list_elem_of_fmap in Hp as (entry & -> & Hin).
    apply list_elem_of_filter in Hin as [Hpr Hin]. eauto. }
  split; [|split; [|split]].
  - rewrite length_take, Hlen. reflexivity.
  - intros p Hp. apply elem_of_take in Hp as (i & Hi & _).
    destruct (Hmem p) as (entry & Hin & Hpr & ->).
    { apply list_elem_of_lookup. eauto. }
    split; [apply Qlt_bool_iff, Hpr|]. exists entry. auto.
  - intros i j p q Hij Hi Hj.
    rewrite lookup_take_Some in Hi, Hj. destruct Hi as [Hi _], Hj as [Hj _].
    rewrite <- (take_drop_middle s j q Hj) in Hsorted, Hi.
    rewrite lookup_app_l in Hi.
    + apply (StronglySorted_app_1_elem_of _ _ _ p q Hsorted).
      * apply list_elem_of_lookup. eauto.
      * left.
    + rewrite length_take. apply lookup_lt_Some in Hj. lia.
  - intros entry Hin Hratio Hout.
    assert (Hs : problematic_entry entry ∈ s).
    { rewrite Hperm. apply list_elem_of_fmap. exists entry. split; [reflexivity|].
      apply list_elem_of_filter. split; [apply Qlt_bool_iff, Hratio | exact Hin]. }
    rewrite <- (take_drop 5 s) in Hs, Hsorted.
    apply elem_of_app in Hs as [Hs|Hs]; [contradiction|].
    split.
    + rewrite length_take. apply list_elem_of_lookup in Hs as [i Hi].
      apply lookup_lt_Some in Hi. rewrite length_drop in Hi. lia.
    + intros p Hp.
      apply (StronglySorted_app_1_elem_of _ _ _ p (problematic_entry entry) Hsorted Hp Hs).
Qed.

End TcrrByTaskFacts.

(** ** pass^k as a probability *)

Module PassHatKMoreFacts.
Import AgentMetrics PassHatKFacts.

Lemma comb_succ_l (n k : nat) : (comb n k <= comb (S n) k)%nat.
Proof. destruct k as [|k]; [rewrite !comb_zero_r; lia | simpl; lia]. Qed.

Lemma comb_monotone (s n k : nat) : (s <= n)%nat -> (comb s k <= comb n k)%nat.
Proof.
  induction 1 as [|n _ IH]; [lia|].
  etransitivity; [exact IH | apply comb_succ_l].
Qed.

Lemma comb_diag (n : nat) : comb n n = 1%nat.
Proof.
  induction n as [|n IH]; [reflexivity|].
  simpl. rewrite IH, (comb_small n (S n)) by lia. reflexivity.
Qed.

Lemma comb_one (n : nat) : comb n 1 = n.
Proof.
  induction n as [|n IH]; [reflexivity|].
  simpl. rewrite IH, comb_zero_r. reflexivity.
Qed.

(** [C(n, k+1) * (k+1) = C(n, k) * (n - k)] *)
Lemma comb_absorb (n k : nat) : (comb n (S k) * S k = comb n k * (n - k))%nat.
Proof.
  destruct (le_lt_dec (S k) n) as [Hle|Hgt].
  - pose proof (comb_factorial n (S k) Hle) as H1.
    pose proof (comb_factorial n k ltac:(lia)) as H2.
    replace (n - k)%nat with (S (n - S k)) in * by lia.
    change (fact (S k)) with (S k * fact k)%nat in H1.
    change (fact (S (n - S k))) with (S (n - S k) * fact (n - S k))%nat in H2.
    pose proof (lt_O_fact k) as Hk. pose proof (lt_O_fact (n - S k)) as Hr.
    assert (H : (comb n (S k) * S k * (fact k * fact (n - S k))
                 = comb n k * S (n - S k) * (fact k * fact (n - S k)))%nat) by nia.
    apply Nat.mul_cancel_r in H; [exact H | nia].
  - rewrite (comb_small n (S k)) by lia. replace (n - k)%nat with 0%nat by lia. lia.
Qed.

Lemma comb_ratio_step (s n k : nat) :
  (s <= n)%nat -> (comb s (S k) * comb n k <= comb s k * comb n (S k))%nat.
Proof.
  intros Hsn.
  assert (H : (comb s (S k) * comb n k * S k <= comb s k * comb n (S k) * S k)%nat).
  { replace (comb s (S k) * comb n k * S k)%nat
      with (comb s (S k) * S k * comb n k)%nat by lia.
    replace (comb s k * comb n (S k) * S k)%nat
      with (comb s k * (comb n (S k) * S k))%nat by lia.
    rewrite !comb_absorb. nia. }
  nia.
Qed.

Lemma comb_ratio_antitone (s n k k' : nat) :
  (s <= n)%nat -> (k <= k')%nat -> (k' <= n)%nat ->
  (comb s k' * comb n k <= comb s k * comb n k')%nat.
Proof.
  intros Hsn Hk Hn. induction Hk as [|k' Hk IH]; [lia|].
  specialize (IH ltac:(lia)).
  pose proof (comb_ratio_step s n k' Hsn) as Hstep.
  pose proof (comb_positive n k' ltac:(lia)) as Hpos.
  assert (H : (comb s (S k') * comb n k * comb n k'
               <= comb s k * comb n (S k') * comb n k')%nat) by nia.
  nia.
Qed.

Lemma Qdiv_nat_le (a b c d : nat) :
  (0 < b)%nat -> (0 < d)%nat -> (a * d <= c * b)%nat ->
  (inject_Z (Z.of_nat a) / inject_Z (Z.of_nat b)
   <= inject_Z (Z.of_nat c) / inject_Z (Z.of_nat d))%Q.
Proof.
  intros Hb Hd H.
  assert (Hb' : (0 < inject_Z (Z.of_nat b))%Q).
  { change 0%Q with (inject_Z 0). rewrite <- Zlt_Qlt. lia. }
  assert (Hd' : (0 < inject_Z (Z.of_nat d))%Q).
  { change 0%Q with (inject_Z 0). rewrite <- Zlt_Qlt. lia. }
  apply Qle_shift_div_r; [exact Hb'|].
  unfold Qdiv. rewrite <- Qmult_assoc, (Qmult_comm (/ _)), Qmult_assoc.
  apply Qle_shift_div_l; [exact Hd'|].
  rewrite <- !inject_Z_mult, <- Zle_Qle. lia.
Qed.

Lemma Qdiv_nat_bounds (a b : nat) :
  (0 < b)%nat -> (a <= b)%nat ->
  (0 <= inject_Z (Z.of_nat a) / inject_Z (Z.of_nat b))%Q
  /\ (inject_Z (Z.of_nat a) / inject_Z (Z.of_nat b) <= 1)%Q.
Proof.
  intros Hb Hab.
  assert (Hb' : (0 < inject_Z (Z.of_nat b))%Q).
  { change 0%Q with (inject_Z 0). rewrite <- Zlt_Qlt. lia. }
  split.
  - apply Qle_shift_div_l; [exact Hb'|]. rewrite Qmult_0_l.
    change 0%Q with (inject_Z 0). rewrite <- Zle_Qle. lia.
  - apply Qle_shift_div_r; [exact Hb'|]. rewrite Qmult_1_l, <- Zle_Qle. lia.
Qed.

Lemma Qdiv_nat_zero (a b : nat) :
  (0 < b)%nat ->
  (inject_Z (Z.of_nat a) / inject_Z (Z.of_nat b) == 0)%Q <-> a = 0%nat.
Proof.
  intros Hb.
  assert (Hb' : (0 < inject_Z (Z.of_nat b))%Q).
  { change 0%Q with (inject_Z 0). rewrite <- Zlt_Qlt. lia. }
  split.
  - intros Hq. destruct a as [|a]; [reflexivity|]. exfalso.
    assert (Hpos : (0 < inject_Z (Z.of_nat (S a)) / inject_Z (Z.of_nat b))%Q).
    { apply Qlt_shift_div_l; [exact Hb'|]. rewrite Qmult_0_l.
      change 0%Q with (inject_Z 0). rewrite <- Zlt_Qlt. lia. }
    rewrite Hq in Hpos. apply (Qlt_irrefl 0 Hpos).
  - intros ->. unfold Qdiv. change (inject_Z (Z.of_nat 0)) with 0%Q.
    apply Qmult_0_l.
Qed.

(** pass^k is a probability. With [k] trials drawn among [num_trials]
    of which [success_count] succeeded, [pass_hat_k] returns a value
    between 0 and 1: 0 exactly when there are fewer than [k] successes, 1
    when every trial succeeded, and for [k = 1] the success rate
    [success_count / num_trials]. *)
Theorem pass_hat_k_probability :
  forall num_trials success_count k : Z,
    0 <= k <= num_trials ->
    0 <= success_count <= num_trials ->
    exists q,
      pass_hat_k num_trials success_count k = Ok q
      /\ (0 <= q)%Q /\ (q <= 1)%Q
      /\ ((q == 0)%Q <-> success_count < k)
      /\ (success_count = num_trials -> (q == 1)%Q)
      /\ (k = 1 -> q = (inject_Z success_count / inject_Z num_trials)%Q).
Proof.
  intros n s k Hk Hs.
  destruct (pass_hat_k_counts n s k) as [Hq Hne]; try lia.
  eexists. split; [exact Hq|].
  pose proof (comb_positive (Z.to_nat n) (Z.to_nat k) ltac:(lia)) as Hpos.
  pose proof (comb_monotone (Z.to_nat s) (Z.to_nat n) (Z.to_nat k) ltac:(lia)) as Hmono.
  destruct (Qdiv_nat_bounds _ _ Hpos Hmono) as [H0 H1].
  split; [exact H0|]. split; [exact H1|]. split; [|split].
  - rewrite (Qdiv_nat_zero _ _ Hpos). split.
    + intros Hz. destruct (Z.lt_ge_cases s k) as [?|Hge]; [assumption|]. exfalso.
      pose proof (comb_positive (Z.to_nat s) (Z.to_nat k) ltac:(lia)). lia.
    + intros Hlt. apply comb_small. lia.
  - intros ->. apply Qmult_inv_r. intros Hz.
    change 0%Q with (inject_Z 0) in Hz. apply (proj1 (inject_Z_injective _ _)) in Hz. lia.
  - intros ->. change (Z.to_nat 1) with 1%nat. rewrite !comb_one, !Z2Nat.id by lia.
    reflexivity.
Qed.

(** [pass_hat_k_probability] on four trials, three successes, [k = 2]. *)
Lemma pass_hat_k_probability_witness :
  exists q,
    pass_hat_k 4 3 2 = Ok q
    /\ (0 <= q)%Q /\ (q <= 1)%Q
    /\ ((q == 0)%Q <-> 3 < 2)
    /\ (3 = 4 -> (q == 1)%Q)
    /\ (2 = 1 -> q = (inject_Z 3 / inject_Z 4)%Q).
Proof. apply (pass_hat_k_probability 4 3 2); lia. Defined.

(** pass^k goes up with the number of successes and down with [k]: more
    successes among the same trials never lower it, and asking for more
    trials to succeed never raises it. *)
Theorem pass_hat_k_monotone :
  forall num_trials success_count success_count' k k' : Z,
    0 <= success_count <= success_count' ->
    success_count' <= num_trials ->
    0 <= k <= k' ->
    k' <= num_trials ->
    exists q more_successes greater_k,
      pass_hat_k num_trials success_count k = Ok q
      /\ pass_hat_k num_trials success_count' k = Ok more_successes
      /\ pass_hat_k num_trials success_count k' = Ok greater_k
      /\ (q <= more_successes)%Q
      /\ (greater_k <= q)%Q.
Proof.
  intros n s s' k k' Hs Hs' Hk Hk'.
  destruct (pass_hat_k_counts n s k) as [H1 _]; try lia.
  destruct (pass_hat_k_counts n s' k) as [H2 _]; try lia.
  destruct (pass_hat_k_counts n s k') as [H3 _]; try lia.
  eexists _, _, _. split; [exact H1|]. split; [exact H2|]. split; [exact H3|].
  pose proof (comb_positive (Z.to_nat n) (Z.to_nat k) ltac:(lia)) as Hpos.
  pose proof (comb_positive (Z.to_nat n) (Z.to_nat k') ltac:(lia)) as Hpos'.
  split.
  - apply Qdiv_nat_le; [exact Hpos | exact Hpos |].
    pose proof (comb_monotone (Z.to_nat s) (Z.to_nat s') (Z.to_nat k) ltac:(lia)). nia.
  - apply Qdiv_nat_le; [exact Hpos' | exact Hpos |].
    apply comb_ratio_antitone; lia.
Qed.

(** [pass_hat_k_monotone] on four trials: two or three successes,
    [k = 1] or [k = 2]. *)
Lemma pass_hat_k_monotone_witness :
  exists q more_successes greater_k,
    pass_hat_k 4 2 1 = Ok q
    /\ pass_hat_k 4 3 1 = Ok more_successes
    /\ pass_hat_k 4 2 2 = Ok greater_k
    /\ (q <= more_successes)%Q
    /\ (greater_k <= q)%Q.
Proof. apply (pass_hat_k_monotone 4 2 3 1 2); lia. Defined.

End PassHatKMoreFacts.

(** ** Task ids and data frames *)

Module MetricsHelpersFacts.
Import MetricsHelpers.

Lemma split_nonempty (sep : ascii) (s : string) : split sep s <> [].
Proof.
  destruct s as [|c s]; simpl; [discriminate|].
  destruct (Ascii.eqb c sep); [discriminate|].
  destruct (split sep s); discriminate.
Qed.

(** The first piece of a split: a prefix without the separator, followed
    by nothing or by the separator. *)
Lemma split_head (sep : ascii) (s : string) :
  exists part parts,
    split sep s = part :: parts
    /\ (forall a b, part <> a +:+ String sep b)
    /\ (s = part \/ exists rest, s = part +:+ String sep rest).
Proof.
  induction s as [|c s (part & parts & Hs & Hno & Hrest)]; simpl.
  - exists EmptyString, []. split; [reflexivity|]. split; [|auto].
    intros [|x a] b; discriminate.
  - destruct (Ascii.eqb_spec c sep) as [->|Hne].
    + exists EmptyString, (split sep s). split; [reflexivity|]. split.
      * intros [|x a] b; discriminate.
      * right. exists s. reflexivity.
    + rewrite Hs. exists (String c part), parts. split; [reflexivity|]. split.
      * intros [|x a] b; simpl; intros [= -> H]; [congruence|]. apply (Hno a b H).
      * destruct Hrest as [->|[rest ->]]; [auto|]. right. exists rest. reflexivity.
Qed.

(** [extract_domain_from_task_id] returns the part of the task id before
    its first underscore (the whole id when it has none): the result has
    no underscore, and the id is the result alone or the result followed
    by an underscore and more. The default ["unknown"] is never used:
    [split] always yields a piece, and the domain of the empty id is the
    empty string. *)
Theorem domain_is_prefix_before_underscore :
  forall task_id : string,
    split "_" task_id <> []
    /\ (forall a b, extract_domain_from_task_id task_id <> a +:+ "_" +:+ b)
    /\ (task_id = extract_domain_from_task_id task_id
        \/ exists rest,
             task_id = extract_domain_from_task_id task_id +:+ "_" +:+ rest)
    /\ extract_domain_from_task_id "" = ""
    /\ (extract_domain_from_task_id task_id = "unknown" ->
        task_id = "unknown" \/ exists rest, task_id = "unknown_" +:+ rest).
Proof.
  intros task_id. split; [apply split_nonempty|].
  unfold extract_domain_from_task_id.
  destruct (split_head "_" task_id) as (part & parts & -> & Hno & Hrest).
  split; [exact Hno|]. split; [exact Hrest|]. split; [reflexivity|].
  intros ->. destruct Hrest as [->|[rest ->]]; [auto|]. right. exists rest. reflexivity.
Qed.

(** [get_tasks_pass_hat_k] calls itself before it does anything with the
    frame, so it never returns one: whatever pandas does and however
    deep the stack may go, it raises, and so does [prepare_dfs], which
    calls it. *)
Theorem get_tasks_pass_hat_k_never_returns :
  forall (Task Frame : Type) (env : AgentMetrics.Collaborators Task Frame)
         (with_num_actions : Frame -> Frame -> result Frame)
         (depth : nat) (results : AgentMetrics.Results Task),
    raises (get_tasks_pass_hat_k env with_num_actions depth results)
    /\ raises (prepare_dfs env with_num_actions depth results).
Proof.
  intros Task Frame env tail depth results.
  assert (H : forall d, raises (get_tasks_pass_hat_k env tail d results)).
  { induction d as [|d [e IH]]; simpl; [exists RuntimeError; reflexivity|].
    destruct (AgentMetrics.get_metrics_df env results) as [r|e']; simpl.
    - rewrite IH. exists e. reflexivity.
    - exists e'. reflexivity. }
  split; [apply H|].
  destruct depth as [|d]; simpl; [exists RuntimeError; reflexivity|].
  destruct (AgentMetrics.get_metrics_df env results) as [r|e']; simpl.
  - destruct (H d) as [e ->]. exists e. reflexivity.
  - exists e'. reflexivity.
Qed.

End MetricsHelpersFacts.

(** ** The two extractors *)

Module ExtractorFacts.
Import ExtractFacts.

Lemma Forall2_maps {A B C} (R : B -> C -> Prop) (f : A -> B) (g : A -> C) (l : list A) :
  (forall x, R (f x) (g x)) -> Forall2 R (map f l) (map g l).
Proof. intros H. induction l as [|x l IH]; simpl; constructor; auto. Qed.

Lemma extractors_step (tool_results : gmap string ToolResult) (l : list Message) :
  forall (st : Z * list Tcrr.ToolCallInfo) (acc : list AgentMetrics.ToolCallMetric),
    Forall2 (fun info m =>
               Tcrr.name info = AgentMetrics.name m
               /\ Tcrr.params info = AgentMetrics.params m
               /\ Tcrr.correct info = AgentMetrics.correct m
               /\ Tcrr.params_valid info = AgentMetrics.params_valid m)
            st.2 acc ->
    Forall2 (fun info m =>
               Tcrr.name info = AgentMetrics.name m
               /\ Tcrr.params info = AgentMetrics.params m
               /\ Tcrr.correct info = AgentMetrics.correct m
               /\ Tcrr.params_valid info = AgentMetrics.params_valid m)
            (fold_left (Tcrr.scan_message tool_results) l st).2
            (fold_left (fun tool_calls msg =>
                          tool_calls ++ map (AgentMetrics.tool_call_metric tool_results msg)
                                            (msg_tool_calls msg)) l acc).
Proof.
  induction l as [|msg l IH]; intros st acc H; simpl fold_left; [exact H|].
  apply IH. rewrite scan_message_eq. cbn [snd]. apply Forall2_app; [exact H|].
  unfold infos_at. apply Forall2_maps. intros tc. simpl. auto.
Qed.

Lemma metrics_step (tool_results : gmap string ToolResult) (l : list Message) :
  forall acc : list AgentMetrics.ToolCallMetric,
    Forall (fun m => AgentMetrics.latency m = 0%Q
                     /\ exists msg, msg ∈ l /\ AgentMetrics.cost m = AgentMetrics.msg_cost msg)
           (drop (length acc)
                 (fold_left (fun tool_calls msg =>
                               tool_calls ++ map (AgentMetrics.tool_call_metric tool_results msg)
                                                 (msg_tool_calls msg)) l acc)).
Proof.
  induction l as [|msg l IH]; intros acc; simpl fold_left.
  - rewrite drop_all. constructor.
  - specialize (IH (acc ++ map (AgentMetrics.tool_call_metric tool_results msg)
                              (msg_tool_calls msg))).
    rewrite length_app in IH.
    set (r := fold_left _ l _) in *.
    assert (Hr : exists more, r = (acc ++ map (AgentMetrics.tool_call_metric tool_results msg)
                                              (msg_tool_calls msg)) ++ more).
    { subst r. clear IH.
      generalize (acc ++ map (AgentMetrics.tool_call_metric tool_results msg)
                             (msg_tool_calls msg)).
      induction l as [|x l IHl]; intros a; simpl.
      - exists []. rewrite app_nil_r. reflexivity.
      - destruct (IHl (a ++ map (AgentMetrics.tool_call_metric tool_results x)
                               (msg_tool_calls x))) as [more ->].
        eexists. rewrite <- !app_assoc. reflexivity. }
    destruct Hr as [more Hr]. rewrite Hr in *.
    rewrite <- app_assoc, drop_app_length.
    rewrite <- length_app, drop_app_length in IH.
    apply Forall_app. split.
    + apply Forall_forall. intros m Hm. apply list_elem_of_fmap in Hm as (tc & -> & _).
      split; [reflexivity|]. exists msg. split; [left | reflexivity].
    + eapply Forall_impl; [exact IH|]. intros m (Hl & msg' & Hin & Hc).
      split; [exact Hl|]. exists msg'. split; [right; exact Hin | exact Hc].
Qed.

Lemma extractors_correspond (messages : list Message) :
  Forall2 (fun info m =>
             Tcrr.name info = AgentMetrics.name m
             /\ Tcrr.params info = AgentMetrics.params m
             /\ Tcrr.correct info = AgentMetrics.correct m
             /\ Tcrr.params_valid info = AgentMetrics.params_valid m)
          (Tcrr.extract_tool_calls_with_turns messages)
          (AgentMetrics.extract_tool_calls_from_messages messages).
Proof.
  apply (extractors_step (collect_tool_results messages) messages (0, []) []).
  constructor.
Qed.

Lemma metrics_length (messages : list Message) :
  length (AgentMetrics.extract_tool_calls_from_messages messages)
  = length (transcript_calls messages).
Proof.
  rewrite <- (Forall2_length _ _ _ (extractors_correspond messages)).
  apply TcrrByTaskFacts.extract_length.
Qed.

Lemma metrics_latency (messages : list Message) :
  Forall (fun m => AgentMetrics.latency m = 0%Q)
         (AgentMetrics.extract_tool_calls_from_messages messages).
Proof.
  eapply Forall_impl; [apply (metrics_step (collect_tool_results messages) messages [])|].
  intros m [H _]. exact H.
Qed.

(** The two extractors see the same calls: their records correspond one
    to one, in transcript order, with the same name, arguments,
    correctness flag and parameter-validity flag. The records of
    [extract_tool_calls_from_messages] carry the cost of a message of the
    transcript (0.0 when it has none) and a latency that is always 0.0. *)
Theorem extractors_agree :
  forall messages : list Message,
    Forall2 (fun info m =>
               Tcrr.name info = AgentMetrics.name m
               /\ Tcrr.params info = AgentMetrics.params m
               /\ Tcrr.correct info = AgentMetrics.correct m
               /\ Tcrr.params_valid info = AgentMetrics.params_valid m)
            (Tcrr.extract_tool_calls_with_turns messages)
            (AgentMetrics.extract_tool_calls_from_messages messages)
    /\ length (AgentMetrics.extract_tool_calls_from_messages messages)
       = length (transcript_calls messages)
    /\ Forall (fun m => AgentMetrics.latency m = 0%Q
                        /\ exists msg, msg ∈ messages
                                       /\ AgentMetrics.cost m = AgentMetrics.msg_cost msg)
              (AgentMetrics.extract_tool_calls_from_messages messages).
Proof.
  intros messages. split; [apply extractors_correspond|].
  split; [apply metrics_length|].
  apply (metrics_step (collect_tool_results messages) messages []).
Qed.

(** *** Assistant-turn indices in extraction order *)

Lemma scan_sorted (tool_results : gmap string ToolResult) (l : list Message) :
  forall st : Z * list Tcrr.ToolCallInfo,
    StronglySorted (fun a b => Tcrr.assistant_turn_idx a <= Tcrr.assistant_turn_idx b) st.2 ->
    Forall (fun a => 0 <= Tcrr.assistant_turn_idx a <= st.1) st.2 ->
    0 <= st.1 ->
    StronglySorted (fun a b => Tcrr.assistant_turn_idx a <= Tcrr.assistant_turn_idx b)
                   (fold_left (Tcrr.scan_message tool_results) l st).2
    /\ Forall (fun a => 0 <= Tcrr.assistant_turn_idx a
                        <= (fold_left (Tcrr.scan_message tool_results) l st).1)
              (fold_left (Tcrr.scan_message tool_results) l st).2.
Proof.
  induction l as [|msg l IH]; intros st Hs Hb Hc; simpl fold_left; [auto|].
  assert (Hz : 0 <= Z.b2z (is_assistant msg) <= 1) by (destruct (is_assistant msg); simpl; lia).
  apply IH; rewrite scan_message_eq; cbn [fst snd].
  - apply StronglySorted_app_2; [|exact Hs|].
    + intros a b Ha Hb'. rewrite Forall_forall in Hb. specialize (Hb a Ha).
      unfold infos_at in Hb'. apply list_elem_of_fmap in Hb' as (tc & -> & _). simpl. lia.
    + unfold infos_at. clear.
      induction (msg_tool_calls msg) as [|x xs IHx]; simpl; constructor; [exact IHx|].
      apply List.Forall_forall. intros b Hb. apply in_map_iff in Hb as (tc & <- & _).
      simpl. lia.
  - apply Forall_app. split.
    + eapply Forall_impl; [exact Hb|]. intros a Ha. simpl in Ha. lia.
    + unfold infos_at. apply Forall_forall. intros a Ha.
      apply list_elem_of_fmap in Ha as (tc & -> & _). simpl. lia.
  - lia.
Qed.

(** [extract_tool_calls_with_turns] returns the calls in non-decreasing
    order of assistant-turn index, each index between 0 and the number of
    assistant messages of the transcript: the calls of one assistant turn
    are next to each other. *)
Theorem assistant_turns_in_order :
  forall messages : list Message,
    (forall (i j : nat) a b,
        (i <= j)%nat ->
        Tcrr.extract_tool_calls_with_turns messages !! i = Some a ->
        Tcrr.extract_tool_calls_with_turns messages !! j = Some b ->
        Tcrr.assistant_turn_idx a <= Tcrr.assistant_turn_idx b)
    /\ (forall a, a ∈ Tcrr.extract_tool_calls_with_turns messages ->
                  0 <= Tcrr.assistant_turn_idx a <= count_assistant messages).
Proof.
  intros messages. unfold Tcrr.extract_tool_calls_with_turns.
  destruct (scan_sorted (collect_tool_results messages) messages (0, []))
    as [Hs Hb]; [constructor | constructor | simpl; lia |].
  rewrite scan_counter in Hb. cbn [fst] in Hb. rewrite Z.add_0_l in Hb.
  set (r := (fold_left _ messages (0, [])).2) in *.
  split.
  - intros i j a b Hij Hi Hj. destruct (decide (i = j)) as [->|Hne].
    + rewrite Hi in Hj. injection Hj as ->. lia.
    + rewrite <- (take_drop_middle r j b Hj) in Hs, Hi.
      apply (StronglySorted_app_1_elem_of _ _ _ a b Hs); [|left].
      rewrite lookup_app_l in Hi.
      * apply list_elem_of_lookup. eauto.
      * rewrite length_take. apply lookup_lt_Some in Hj. lia.
  - intros a Ha. rewrite Forall_forall in Hb. apply Hb, Ha.
Qed.

End ExtractorFacts.

(** ** The report *)

Module ReportMoreFacts.
Import PyFacts AgentMetrics ReportFacts.

Section WithCollaborators.
Context {Task Frame : Type} (env : Collaborators Task Frame).

(** The full computation never gets past the pass^k columns, so the
    report is always that of [compute_metrics_simple]. *)
Lemma compute_metrics_is_simple (results : Results Task) :
  compute_metrics env results = compute_metrics_simple env results.
Proof.
  unfold compute_metrics, compute_metrics_full, pass_hat_columns.
  destruct (get_metrics_df env results) as [[df k]|e]; reflexivity.
Qed.

Lemma all_tool_calls_length (sims : list SimulationRun) :
  length (flat_map (fun run => extract_tool_calls_from_messages (messages run)) sims)
  = length (flat_map (fun sim => transcript_calls (messages sim)) sims).
Proof.
  induction sims as [|sim sims IH]; simpl; [reflexivity|].
  rewrite !length_app, IH, ExtractorFacts.metrics_length. reflexivity.
Qed.

(** *** The duplicate count *)

Lemma count_duplicate_cases (st : list pyval * Z) (call : ToolCallMetric) :
  exists ident,
    count_duplicate st call
    = if existsb (fun y => py_eq y ident) st.1
      then Ok (st.1, st.2 + 1)
      else Ok (st.1 ++ [ident], st.2).
Proof.
  unfold count_duplicate, set_add, set_contains.
  assert (Hs : py_hashable (str_identity call) = true) by reflexivity.
  rewrite Hs. simpl.
  assert (Hfb : exists ident,
             (if existsb (fun y => py_eq y (str_identity call)) st.1
              then Ok (st.1, st.2 + 1)
              else Ok (if existsb (fun y => py_eq y (str_identity call)) st.1
                       then st.1 else st.1 ++ [str_identity call], st.2))
             = if existsb (fun y => py_eq y ident) st.1
               then Ok (st.1, st.2 + 1)
               else Ok (st.1 ++ [ident], st.2)).
  { exists (str_identity call). destruct (existsb _ st.1); reflexivity. }
  destruct (normalized_params (params call)) as [n|e]; simpl; [|exact Hfb].
  destruct (py_hashable n); simpl; [|exact Hfb].
  exists (identity (name call) n). clear Hfb.
  destruct (existsb (fun y => py_eq y (identity (name call) n)) st.1); reflexivity.
Qed.

Lemma count_duplicate_fold (l : list ToolCallMetric) :
  forall (seen : list pyval) (dup : Z),
  exists seen' dup',
    foldM count_duplicate l (seen, dup) = Ok (seen', dup')
    /\ dup <= dup'
    /\ (length seen <= length seen')%nat
    /\ (dup' - dup) + Z.of_nat (length seen') = Z.of_nat (length seen) + Z.of_nat (length l)
    /\ (l <> [] -> seen' <> []).
Proof.
  induction l as [|c l IH]; intros seen dup; cbn [foldM].
  - exists seen, dup. split; [reflexivity|]. split; [lia|]. split; [lia|].
    split; [simpl; lia|]. intros H. contradiction.
  - destruct (count_duplicate_cases (seen, dup) c) as [ident ->]. cbn [fst snd].
    destruct (existsb (fun y => py_eq y ident) seen) eqn:E; cbn [mbind result_bind].
    + destruct (IH seen (dup + 1)) as (seen' & dup' & -> & H1 & Hl & H2 & H3).
      exists seen', dup'. split; [reflexivity|]. split; [lia|]. split; [exact Hl|].
      split; [simpl length; lia|].
      intros _ ->. destruct seen; [discriminate E|]. simpl in Hl. lia.
    + destruct (IH (seen ++ [ident]) dup) as (seen' & dup' & -> & H1 & Hl & H2 & H3).
      rewrite length_app in H2, Hl. simpl length in *.
      exists seen', dup'. split; [reflexivity|]. split; [lia|]. split; [lia|].
      split; [lia|]. intros _ ->. simpl in Hl. lia.
Qed.

Lemma tcrr_block_bounds (all_tool_calls : list ToolCallMetric) :
  all_tool_calls <> [] ->
  exists c,
    tcrr_block all_tool_calls = Ok c
    /\ b_window_size c = 3
    /\ b_total_calls c = Z.of_nat (length all_tool_calls)
    /\ b_tcrr_by_task c = ∅
    /\ (0 <= b_tcrr c)%Q /\ (b_tcrr c < 1)%Q
    /\ 0 <= b_redundant_calls c < Z.of_nat (length all_tool_calls).
Proof.
  intros Hne. unfold tcrr_block, import_tcrr_enhanced. cbn [mbind result_bind catch_all].
  destruct (count_duplicate_fold all_tool_calls [] 0) as (seen & dup & -> & H1 & _ & H2 & H3).
  specialize (H3 Hne). cbn [mbind result_bind snd length] in *.
  assert (Hseen : (0 < length seen)%nat) by (destruct seen; [contradiction | simpl; lia]).
  set (n := Z.of_nat (length all_tool_calls)) in *.
  assert (Hn : 0 < n) by lia.
  assert (Hn' : (0 < inject_Z n)%Q).
  { change 0%Q with (inject_Z 0). rewrite <- Zlt_Qlt. exact Hn. }
  destruct all_tool_calls as [|c0 l0]; [contradiction|].
  eexists. split; [reflexivity|]. cbn [b_window_size b_total_calls b_tcrr_by_task b_tcrr
                                        b_redundant_calls].
  split; [reflexivity|]. split; [reflexivity|]. split; [reflexivity|].
  assert (Hprod : (inject_Z dup / inject_Z n * inject_Z n == inject_Z dup)%Q).
  { rewrite Qmult_comm. apply Qmult_div_r. intros Hz. rewrite Hz in Hn'.
    apply (Qlt_irrefl 0 Hn'). }
  split; [|split].
  - apply Qle_shift_div_l; [exact Hn'|]. rewrite Qmult_0_l.
    change 0%Q with (inject_Z 0). rewrite <- Zle_Qle. lia.
  - apply Qlt_shift_div_r; [exact Hn'|]. rewrite Qmult_1_l, <- Zlt_Qlt. lia.
  - rewrite Hprod, Qfloor_Z. lia.
Qed.

End WithCollaborators.

(** [compute_metrics] always returns a report, and its tool-call figures
    are those of the simple duplicate count, not of the windowed TCRR:
    [num_tool_calls] and [tcrr_total_calls] are the number of tool calls
    in the transcripts, the window size reported is 3, there is no
    per-task breakdown, and [tcrr] lies between 0 and 1, below 1 when
    there is a call (a first occurrence is never a duplicate). *)
Theorem report_tool_call_figures :
  forall (Task Frame : Type) (env : Collaborators Task Frame) (results : Results Task),
    exists m,
      compute_metrics env results = Ok m
      /\ num_tool_calls m
         = Z.of_nat (length (flat_map (fun sim => transcript_calls (messages sim))
                                      (simulations results)))
      /\ tcrr_total_calls m = num_tool_calls m
      /\ tcrr_window_size m = 3
      /\ tcrr_by_task m = ∅
      /\ (0 <= tcrr m)%Q /\ (tcrr m <= 1)%Q
      /\ (0 < num_tool_calls m -> (tcrr m < 1)%Q)
      /\ 0 <= tcrr_redundant_calls m <= tcrr_total_calls m.
Proof.
  intros Task Frame env results.
  destruct (compute_metrics_total env results) as [m Hm].
  exists m. split; [exact Hm|].
  destruct (compute_metrics_from_assemble env results m Hm) as (r & ks & c & Ha).
  unfold assemble in Ha. apply bind_ok in Ha as ([cb ub] & Hblocks & [= <-]).
  cbn [num_tool_calls tcrr_total_calls tcrr_window_size tcrr_by_task tcrr
       tcrr_redundant_calls].
  rewrite <- all_tool_calls_length.
  set (calls := flat_map (fun run => extract_tool_calls_from_messages (messages run))
                         (simulations results)) in *.
  split; [reflexivity|].
  destruct calls as [|c0 l0] eqn:Ecalls.
  - injection Hblocks as <- _. simpl.
    repeat split; try reflexivity; try lia; try discriminate.
  - apply bind_ok in Hblocks as (cb' & Hcb & Hrest).
    apply bind_ok in Hrest as (ub' & _ & [= <- <-]).
    destruct (tcrr_block_bounds (c0 :: l0)) as (cb'' & Hcb'' & Hw & Ht & Hbt & H0 & H1 & Hr);
      [discriminate|].
    rewrite Hcb'' in Hcb. injection Hcb as <-.
    rewrite Hw, Ht, Hbt.
    split; [reflexivity|]. split; [reflexivity|]. split; [reflexivity|].
    split; [exact H0|]. split; [apply Qlt_le_weak, H1|]. split; [intros _; exact H1 | lia].
Qed.

(** *** pass^k in the report *)

Lemma group_add_file (groups : list (string * list SimulationRun)) (sim : SimulationRun) :
  map (fun e => (e.1, map (fun s => is_successful (reward_of s)) e.2))
      (TcrrByTask.file_simulation groups sim)
  = group_add (map (fun e => (e.1, map (fun s => is_successful (reward_of s)) e.2)) groups)
              (task_id sim) (is_successful (reward_of sim)).
Proof.
  induction groups as [|[t g] groups IH]; simpl; [reflexivity|].
  destruct (String.eqb t (task_id sim)); simpl.
  - rewrite map_app. reflexivity.
  - rewrite IH. reflexivity.
Qed.

Lemma task_groups_by_task (sims : list SimulationRun) :
  task_groups sims
  = map (fun e => (e.1, map (fun s => is_successful (reward_of s)) e.2))
        (TcrrByTask.group_by_task sims).
Proof.
  unfold task_groups, TcrrByTask.group_by_task.
  change (@nil (string * list bool))
    with (map (fun e : string * list SimulationRun =>
                 (e.1, map (fun s => is_successful (reward_of s)) e.2)) []).
  generalize (@nil (string * list SimulationRun)).
  induction sims as [|sim sims IH]; intros groups; simpl; [reflexivity|].
  rewrite <- group_add_file. apply IH.
Qed.

Lemma count_if_map {A B} (f : A -> B) (test : B -> bool) (l : list A) :
  count_if test (map f l) = count_if (fun x => test (f x)) l.
Proof.
  unfold count_if. f_equal. induction l as [|x l IH]; [reflexivity|].
  simpl map. rewrite !filter_cons.
  repeat case_decide; try contradiction; simpl; rewrite IH; reflexivity.
Qed.

Lemma count_if_bounds {A} (test : A -> bool) (l : list A) :
  0 <= count_if test l <= Z.of_nat (length l).
Proof.
  unfold count_if. pose proof (length_filter (fun x => test x = true) l). lia.
Qed.

Lemma Qsum_from (l : list Q) (a : Q) : (fold_left Qplus l a == a + Qsum l)%Q.
Proof.
  unfold Qsum. revert a. induction l as [|x l IH]; intros a; simpl.
  - rewrite Qplus_0_r. reflexivity.
  - rewrite (IH (a + x)%Q), (IH (0 + x)%Q). ring.
Qed.

Lemma Qsum_bounds (l : list Q) :
  Forall (fun x => (0 <= x)%Q /\ (x <= 1)%Q) l ->
  (0 <= Qsum l)%Q /\ (Qsum l <= inject_Z (Z.of_nat (length l)))%Q.
Proof.
  induction 1 as [|x l [Hx0 Hx1] _ [IH0 IH1]].
  - split; [apply Qle_refl|]. simpl. apply Qle_refl.
  - assert (Hs : (Qsum (x :: l) == x + Qsum l)%Q).
    { unfold Qsum at 1. simpl. rewrite Qsum_from. ring. }
    assert (Hn : (inject_Z (Z.of_nat (length (x :: l)))
                  == 1 + inject_Z (Z.of_nat (length l)))%Q).
    { simpl length. rewrite Nat2Z.inj_succ, <- Z.add_1_l, inject_Z_plus. reflexivity. }
    rewrite Hs, Hn. split; lra.
Qed.

Lemma np_mean_bounds (l : list Q) :
  l <> [] -> Forall (fun x => (0 <= x)%Q /\ (x <= 1)%Q) l ->
  (0 <= np_mean l)%Q /\ (np_mean l <= 1)%Q.
Proof.
  intros Hne H. destruct (Qsum_bounds l H) as [H0 H1]. unfold np_mean.
  assert (Hn : (0 < inject_Z (Z.of_nat (length l)))%Q).
  { change 0%Q with (inject_Z 0). rewrite <- Zlt_Qlt.
    destruct l; [contradiction | simpl; lia]. }
  split.
  - apply Qle_shift_div_l; [exact Hn|]. rewrite Qmult_0_l. exact H0.
  - apply Qle_shift_div_r; [exact Hn|]. rewrite Qmult_1_l. exact H1.
Qed.

Lemma group_success_rate_runs (g : list SimulationRun) :
  g <> [] ->
  group_success_rate (map (fun s => is_successful (reward_of s)) g)
  = Ok (inject_Z (count_if (fun s => is_successful (reward_of s)) g)
        / inject_Z (Z.of_nat (length g)))%Q.
Proof.
  intros Hg. unfold group_success_rate, true_div.
  rewrite length_map, (count_if_map _ id).
  destruct (Z.eqb_spec (Z.of_nat (length g)) 0) as [Hz|_]; [|reflexivity].
  destruct g; [contradiction | simpl in Hz; lia].
Qed.

Lemma success_rates (groups : list (string * list SimulationRun)) :
  Forall (fun e => e.2 <> []) groups ->
  mapM (fun g : string * list bool => group_success_rate g.2)
       (map (fun e => (e.1, map (fun s => is_successful (reward_of s)) e.2)) groups)
  = Ok (map (fun e => (inject_Z (count_if (fun s => is_successful (reward_of s)) e.2)
                       / inject_Z (Z.of_nat (length e.2)))%Q) groups).
Proof.
  induction 1 as [|[t g] groups Hg _ IH]; [reflexivity|].
  simpl map. rewrite mapM_cons. cbn [snd fst].
  rewrite (group_success_rate_runs g Hg). cbn [mbind result_bind].
  rewrite IH. reflexivity.
Qed.

(** The report's pass^k table has at most the entry for [k = 1]: none
    without runs, and otherwise the mean over the tasks of the share of
    each task's runs whose reward is in the success band, a value
    between 0 and 1. [compute_metrics] never reports pass^k for a
    greater [k]. *)
Theorem report_pass_hat_1_only :
  forall (Task Frame : Type) (env : Collaborators Task Frame) (results : Results Task),
    exists m,
      compute_metrics env results = Ok m
      /\ (simulations results = [] -> pass_hat_ks m = ∅)
      /\ (simulations results <> [] ->
          exists task_ids q,
            pass_hat_ks m = <[1 := q]> ∅
            /\ NoDup task_ids
            /\ (forall t, t ∈ task_ids
                          <-> exists sim, sim ∈ simulations results /\ task_id sim = t)
            /\ q = np_mean
                     (map (fun t =>
                             let runs := filter (fun s => task_id s = t)
                                                (simulations results) in
                             (inject_Z (count_if (fun s => is_successful (reward_of s)) runs)
                              / inject_Z (Z.of_nat (length runs)))%Q)
                          task_ids)
            /\ (0 <= q)%Q /\ (q <= 1)%Q).
Proof.
  intros Task Frame env results.
  destruct (compute_metrics_total env results) as [m Hm].
  exists m. split; [exact Hm|].
  rewrite compute_metrics_is_simple in Hm. unfold compute_metrics_simple in Hm.
  apply bind_ok in Hm as (ks & Hks & Ha).
  unfold assemble in Ha. apply bind_ok in Ha as ([cb ub] & _ & [= <-]).
  cbn [pass_hat_ks]. set (sims := simulations results) in *. clearbody sims.
  split.
  - intros ->. simpl in Hks. congruence.
  - intros Hne.
    destruct (TcrrByTaskFacts.group_by_task_spec sims) as (Hnd & Hg & Hk & Hp).
    set (groups := TcrrByTask.group_by_task sims) in *.
    assert (Hgne : Forall (fun e : string * list SimulationRun => e.2 <> []) groups).
    { apply Forall_forall. intros e He Hnil.
      assert (Hin : e.1 ∈ map fst groups) by (apply list_elem_of_fmap; eauto).
      apply Hk in Hin as (sim & Hsim & Ht).
      rewrite Forall_forall in Hg. specialize (Hg e He). rewrite Hnil in Hg.
      assert (Hf : sim ∈ filter (fun s => task_id s = e.1) sims).
      { apply list_elem_of_filter. auto. }
      rewrite <- Hg in Hf. inversion Hf. }
    assert (Hgroups : groups <> []).
    { intros Hnil. destruct sims as [|sim sims]; [contradiction|].
      assert (Hin : task_id sim ∈ map fst groups) by (apply Hk; exists sim; split; [left|reflexivity]).
      rewrite Hnil in Hin. inversion Hin. }
    unfold simple_pass_hat_ks in Hks. rewrite task_groups_by_task in Hks. fold groups in Hks.
    destruct sims as [|sim0 sims0] eqn:Esims; [contradiction|]. rewrite <- Esims in *.
    destruct groups as [|g0 groups0] eqn:Egroups; [contradiction|]. rewrite <- Egroups in *.
    assert (Hks' : (task_success_rates ←
                      mapM (fun g : string * list bool => group_success_rate g.2)
                           (map (fun e => (e.1, map (fun s => is_successful (reward_of s)) e.2))
                                groups);
                    Ok (<[1 := np_mean task_success_rates]> ∅)) = Ok ks).
    { rewrite Egroups in Hks |- *. exact Hks. }
    rewrite (success_rates groups Hgne) in Hks'. cbn [mbind result_bind] in Hks'.
    injection Hks' as <-.
    exists (map fst groups). eexists. split; [reflexivity|].
    split; [exact Hnd|]. split; [exact Hk|]. split.
    + f_equal. rewrite map_map. apply map_ext_in. intros e He. cbv zeta.
      rewrite Forall_forall in Hg. rewrite <- (Hg e); [reflexivity|].
      apply list_elem_of_In, He.
    + apply np_mean_bounds.
      * rewrite Egroups. discriminate.
      * apply Forall_fmap, Forall_forall. intros e He. simpl.
        rewrite Forall_forall in Hgne. specialize (Hgne e He).
        pose proof (count_if_bounds (fun s => is_successful (reward_of s)) e.2) as Hc.
        assert (Hn : (0 < inject_Z (Z.of_nat (length e.2)))%Q).
        { change 0%Q with (inject_Z 0). rewrite <- Zlt_Qlt.
          destruct e.2; [contradiction | simpl; lia]. }
        split.
        -- apply Qle_shift_div_l; [exact Hn|]. rewrite Qmult_0_l.
           change 0%Q with (inject_Z 0). rewrite <- Zle_Qle. lia.
        -- apply Qle_shift_div_r; [exact Hn|]. rewrite Qmult_1_l, <- Zle_Qle. lia.
Qed.

(** *** The TUE and GSRT fallbacks *)

Lemma py_max_bounds (a b : Q) : (a <= py_max a b)%Q /\ (b <= py_max a b)%Q.
Proof.
  unfold py_max. destruct (Qlt_bool a b) eqn:E.
  - apply TcrrByTaskFacts.Qlt_bool_iff in E. split; [apply Qlt_le_weak, E | apply Qle_refl].
  - apply TcrrByTaskFacts.Qlt_bool_false in E. split; [apply Qle_refl | exact E].
Qed.

Lemma clamp_bounds (x : Q) :
  (0 <= py_max 0 (py_min 1 x))%Q /\ (py_max 0 (py_min 1 x) <= 1)%Q.
Proof.
  split; [apply py_max_bounds|].
  unfold py_max, py_min.
  destruct (Qlt_bool x 1) eqn:E1.
  - apply TcrrByTaskFacts.Qlt_bool_iff in E1.
    destruct (Qlt_bool 0 x); [apply Qlt_le_weak, E1 | discriminate].
  - destruct (Qlt_bool 0 1); [apply Qle_refl | discriminate].
Qed.

Lemma no_latencies (calls : list ToolCallMetric) :
  Forall (fun m => latency m = 0%Q) calls ->
  filter (fun c => Qlt_bool 0 c = true) (map latency calls) = [].
Proof.
  induction 1 as [|m calls Hm _ IH]; [reflexivity|].
  simpl map. rewrite filter_cons, Hm. rewrite decide_False by discriminate. exact IH.
Qed.

Lemma ratio_bounds (c n : Z) :
  0 <= c <= n -> 0 < n ->
  (0 <= inject_Z c / inject_Z n)%Q /\ (inject_Z c / inject_Z n <= 1)%Q.
Proof.
  intros Hc Hn.
  assert (Hn' : (0 < inject_Z n)%Q).
  { change 0%Q with (inject_Z 0). rewrite <- Zlt_Qlt. exact Hn. }
  split.
  - apply Qle_shift_div_l; [exact Hn'|]. rewrite Qmult_0_l.
    change 0%Q with (inject_Z 0). rewrite <- Zle_Qle. lia.
  - apply Qle_shift_div_r; [exact Hn'|]. rewrite Qmult_1_l, <- Zle_Qle. lia.
Qed.

Lemma all_calls_latency (sims : list SimulationRun) :
  Forall (fun m => latency m = 0%Q)
         (flat_map (fun run => extract_tool_calls_from_messages (messages run)) sims).
Proof.
  induction sims as [|sim sims IH]; simpl; [constructor|].
  apply Forall_app. split; [apply ExtractorFacts.metrics_latency | exact IH].
Qed.

Section Fallbacks.
Context {Task Frame : Type} (env : Collaborators Task Frame).

Lemma tue_fallback_value (calls : list ToolCallMetric) :
  calls <> [] ->
  Forall (fun m => latency m = 0%Q) calls ->
  exists u cost_term,
    tue_fallback env calls = Ok u
    /\ (0 <= cost_term)%Q /\ (cost_term <= 1)%Q
    /\ b_tue u
       = ((2 # 5) * (inject_Z (count_if correct calls) / inject_Z (Z.of_nat (length calls)))
          + (1 # 4) * (inject_Z (count_if params_valid calls)
                       / inject_Z (Z.of_nat (length calls)))
          + (1 # 5) * cost_term + (3 # 20) * 1)%Q
    /\ b_tool_correctness u
       = (inject_Z (count_if correct calls) / inject_Z (Z.of_nat (length calls)))%Q
    /\ b_param_accuracy u
       = (inject_Z (count_if params_valid calls) / inject_Z (Z.of_nat (length calls)))%Q
    /\ b_correct_calls u = count_if correct calls
    /\ b_valid_param_calls u = count_if params_valid calls
    /\ b_tue_by_task u = ∅.
Proof.
  intros Hne Hlat. unfold tue_fallback. rewrite (no_latencies calls Hlat). cbv zeta.
  unfold true_div.
  destruct (Z.eqb_spec (Z.of_nat (length calls)) 0) as [Hz|_].
  { destruct calls; [contradiction | simpl in Hz; lia]. }
  cbn [mbind result_bind].
  set (cap := py_max _ (1 # 1000)).
  assert (Hcap : Qlt_bool 0 cap = true).
  { apply TcrrByTaskFacts.Qlt_bool_iff.
    eapply Qlt_le_trans; [|apply (proj2 (py_max_bounds _ (1 # 1000)))]. reflexivity. }
  rewrite Hcap.
  destruct calls as [|c0 l0]; [contradiction|].
  eexists. exists (py_max 0 (py_min 1 (1 - Qsum (map cost (c0 :: l0)) / cap))).
  split; [reflexivity|].
  split; [apply clamp_bounds|]. split; [apply clamp_bounds|].
  cbn [b_tue b_tool_correctness b_param_accuracy b_correct_calls b_valid_param_calls
       b_tue_by_task].
  repeat split; reflexivity.
Qed.

End Fallbacks.

(** When the enhanced TUE estimator fails (either of its two calls) and
    the transcripts hold a tool call, the report carries the fallback
    TUE: the shares of correct calls and of calls with valid parameters,
    their counts, no per-task breakdown, and
    [tue = 0.4 T + 0.25 P + 0.2 C + 0.15] with a cost term [C] between 0
    and 1. The latency term is always at its best, 1, because the
    extractor records latency 0.0 for every call; so [tue] is at least
    0.15, and at most 1. *)
Theorem tue_fallback_floor :
  forall (Task Frame : Type) (env : Collaborators Task Frame) (results : Results Task),
    raises (compute_tue_enhanced_for_simulations env (simulations results))
    \/ raises (compute_tue_by_task env (simulations results)) ->
    flat_map (fun run => extract_tool_calls_from_messages (messages run))
             (simulations results) <> [] ->
    exists m cost_term,
      compute_metrics env results = Ok m
      /\ tue_tool_correctness m
         = (inject_Z (tue_correct_calls m) / inject_Z (num_tool_calls m))%Q
      /\ tue_param_accuracy m
         = (inject_Z (tue_valid_param_calls m) / inject_Z (num_tool_calls m))%Q
      /\ tue_correct_calls m
         = count_if correct
             (flat_map (fun run => extract_tool_calls_from_messages (messages run))
                       (simulations results))
      /\ tue_valid_param_calls m
         = count_if params_valid
             (flat_map (fun run => extract_tool_calls_from_messages (messages run))
                       (simulations results))
      /\ tue_by_task m = ∅
      /\ (0 <= cost_term)%Q /\ (cost_term <= 1)%Q
      /\ (tue m == (2 # 5) * tue_tool_correctness m + (1 # 4) * tue_param_accuracy m
                   + (1 # 5) * cost_term + (3 # 20))%Q
      /\ (3 # 20 <= tue m)%Q /\ (tue m <= 1)%Q.
Proof.
  intros Task Frame env results Hraise Hcalls.
  destruct (compute_metrics_total env results) as [m Hm].
  destruct (compute_metrics_from_assemble env results m Hm) as (r & ks & c & Ha).
  unfold assemble in Ha. apply bind_ok in Ha as ([cb ub] & Hblocks & [= <-]).
  set (calls := flat_map (fun run => extract_tool_calls_from_messages (messages run))
                         (simulations results)) in *.
  assert (Hlat : Forall (fun m => latency m = 0%Q) calls).
  { apply all_calls_latency. }
  destruct (tue_fallback_value env calls Hcalls Hlat)
    as (u & C & Hu & HC0 & HC1 & Htue & Htc & Hpa & Hcc & Hvp & Hbt).
  assert (Hub : ub = u).
  { destruct calls as [|c0 l0] eqn:E; [contradiction|].
    apply bind_ok in Hblocks as (cb' & _ & Hrest).
    apply bind_ok in Hrest as (ub' & Hub' & [= _ <-]).
    unfold tue_block in Hub'.
    destruct Hraise as [[e He]|[e He]].
    - rewrite He in Hub'. simpl in Hub'. congruence.
    - rewrite He in Hub'.
      destruct (compute_tue_enhanced_for_simulations env (simulations results));
        simpl in Hub'; congruence. }
  subst ub. eexists. exists C. split; [exact Hm|].
  cbn [tue_tool_correctness tue_param_accuracy tue_correct_calls tue_valid_param_calls
       tue_by_task tue num_tool_calls].
  rewrite Htc, Hpa, Hcc, Hvp, Hbt, Htue.
  pose proof (count_if_bounds correct calls) as Hc1.
  pose proof (count_if_bounds params_valid calls) as Hc2.
  assert (Hn : 0 < Z.of_nat (length calls)).
  { destruct calls; [contradiction | simpl; lia]. }
  destruct (ratio_bounds _ _ Hc1 Hn) as [HT0 HT1].
  destruct (ratio_bounds _ _ Hc2 Hn) as [HP0 HP1].
  split; [reflexivity|]. split; [reflexivity|]. split; [reflexivity|].
  split; [reflexivity|]. split; [reflexivity|]. split; [exact HC0|]. split; [exact HC1|].
  split; [ring|]. split; lra.
Qed.

(** [tue_fallback_floor] where every collaborator fails, on two runs
    with one tool call. *)
Lemma tue_fallback_floor_witness :
  exists m cost_term,
    compute_metrics failing_collaborators two_runs = Ok m
    /\ tue_tool_correctness m
       = (inject_Z (tue_correct_calls m) / inject_Z (num_tool_calls m))%Q
    /\ tue_param_accuracy m
       = (inject_Z (tue_valid_param_calls m) / inject_Z (num_tool_calls m))%Q
    /\ tue_correct_calls m
       = count_if correct
           (flat_map (fun run => extract_tool_calls_from_messages (messages run))
                     (simulations two_runs))
    /\ tue_valid_param_calls m
       = count_if params_valid
           (flat_map (fun run => extract_tool_calls_from_messages (messages run))
                     (simulations two_runs))
    /\ tue_by_task m = ∅
    /\ (0 <= cost_term)%Q /\ (cost_term <= 1)%Q
    /\ (tue m == (2 # 5) * tue_tool_correctness m + (1 # 4) * tue_param_accuracy m
                 + (1 # 5) * cost_term + (3 # 20))%Q
    /\ (3 # 20 <= tue m)%Q /\ (tue m <= 1)%Q.
Proof.
  apply (tue_fallback_floor unit unit failing_collaborators two_runs).
  - left. exists ValueError. reflexivity.
  - discriminate.
Defined.

(** When the GSRT estimator (the judge) fails, [compute_metrics] still
    returns a report, in which no goal shift is counted: the three
    medians are [None], the three rates are 0 and there is no per-task
    entry. *)
Theorem gsrt_fallback_isolated :
  forall (Task Frame : Type) (env : Collaborators Task Frame) (results : Results Task),
    raises (compute_gsrt_enhanced_metrics env (tasks results) (simulations results)
              (judge_model_of (info results)) (judge_args_of (info results))) ->
    exists m,
      compute_metrics env results = Ok m
      /\ gsrt_num_shifts m = 0
      /\ gsrt_median_ack m = None
      /\ gsrt_median_tool m = None
      /\ gsrt_median_outcome m = None
      /\ gsrt_recovery_rate m = 0%Q
      /\ gsrt_transfer_rate m = 0%Q
      /\ gsrt_never_recovered_rate m = 0%Q
      /\ gsrt_by_task m = ∅.
Proof.
  intros Task Frame env results [e He].
  destruct (compute_metrics_total env results) as [m Hm].
  exists m. split; [exact Hm|].
  destruct (compute_metrics_from_assemble env results m Hm) as (r & ks & c & Ha).
  unfold assemble in Ha. apply bind_ok in Ha as ([cb ub] & _ & [= <-]).
  unfold gsrt_block. rewrite He. cbn. repeat split; reflexivity.
Qed.

(** [gsrt_fallback_isolated] where every collaborator fails. *)
Lemma gsrt_fallback_isolated_witness :
  exists m,
    compute_metrics failing_collaborators two_runs = Ok m
    /\ gsrt_num_shifts m = 0
    /\ gsrt_median_ack m = None
    /\ gsrt_median_tool m = None
    /\ gsrt_median_outcome m = None
    /\ gsrt_recovery_rate m = 0%Q
    /\ gsrt_transfer_rate m = 0%Q
    /\ gsrt_never_recovered_rate m = 0%Q
    /\ gsrt_by_task m = ∅.
Proof.
  apply (gsrt_fallback_isolated unit unit failing_collaborators two_runs).
  exists RuntimeError. reflexivity.
Defined.

Lemma no_tool_calls (sims : list SimulationRun) :
  Forall (fun sim => transcript_calls (messages sim) = []) sims ->
  flat_map (fun run => extract_tool_calls_from_messages (messages run)) sims = [].
Proof.
  intros H. apply length_zero_iff_nil. rewrite all_tool_calls_length.
  induction H as [|sim sims Hsim _ IH]; simpl; [reflexivity|].
  rewrite length_app, Hsim, IH. reflexivity.
Qed.

(** When no run made a tool call, the TCRR and TUE figures of the report
    are all 0 (window size 3, no per-task entries) and the enhanced TUE
    estimator is not consulted: the figures are the same whatever it
    would return. Without any run, the averages are 0 and the pass^k
    table is empty as well. *)
Theorem report_without_tool_calls :
  forall (Task Frame : Type) (env : Collaborators Task Frame) (results : Results Task),
    Forall (fun sim => transcript_calls (messages sim) = []) (simulations results) ->
    exists m,
      compute_metrics env results = Ok m
      /\ num_tool_calls m = 0
      /\ tcrr m = 0%Q /\ tcrr_total_calls m = 0 /\ tcrr_redundant_calls m = 0
      /\ tcrr_window_size m = 3 /\ tcrr_by_task m = ∅
      /\ tue m = 0%Q /\ tue_tool_correctness m = 0%Q /\ tue_param_accuracy m = 0%Q
      /\ tue_correct_calls m = 0 /\ tue_valid_param_calls m = 0 /\ tue_by_task m = ∅
      /\ (simulations results = [] ->
          avg_reward m = 0%Q /\ avg_agent_cost m = 0%Q /\ pass_hat_ks m = ∅).
Proof.
  intros Task Frame env results Hnone.
  destruct (compute_metrics_total env results) as [m Hm].
  exists m. split; [exact Hm|].
  rewrite compute_metrics_is_simple in Hm. unfold compute_metrics_simple in Hm.
  apply bind_ok in Hm as (ks & Hks & Ha).
  unfold assemble in Ha. apply bind_ok in Ha as ([cb ub] & Hblocks & [= <-]).
  assert (Hcalls : flat_map (fun run => extract_tool_calls_from_messages (messages run))
                            (simulations results) = []).
  { apply no_tool_calls, Hnone. }
  rewrite Hcalls in *. injection Hblocks as <- <-. cbn.
  repeat (split; [reflexivity|]).
  intros Hsims. rewrite Hsims in *. simpl in Hks. injection Hks as <-.
  repeat split; reflexivity.
Qed.

(** [report_without_tool_calls] on results without runs. *)
Lemma report_without_tool_calls_witness :
  exists m,
    compute_metrics failing_collaborators
      {| tasks := [tt]; simulations := [];
         info := {| gsrt_judge_llm := None; gsrt_judge_llm_args := None |} |} = Ok m
    /\ num_tool_calls m = 0
    /\ tcrr m = 0%Q /\ tcrr_total_calls m = 0 /\ tcrr_redundant_calls m = 0
    /\ tcrr_window_size m = 3 /\ tcrr_by_task m = ∅
    /\ tue m = 0%Q /\ tue_tool_correctness m = 0%Q /\ tue_param_accuracy m = 0%Q
    /\ tue_correct_calls m = 0 /\ tue_valid_param_calls m = 0 /\ tue_by_task m = ∅
    /\ (@nil SimulationRun = [] ->
        avg_reward m = 0%Q /\ avg_agent_cost m = 0%Q /\ pass_hat_ks m = ∅).
Proof.
  apply (report_without_tool_calls unit unit failing_collaborators
           {| tasks := [tt]; simulations := [];
              info := {| gsrt_judge_llm := None; gsrt_judge_llm_args := None |} |}).
  constructor.
Defined.

End ReportMoreFacts.

(** ** The banking environment *)

Module BankingFacts.
Import PyFacts NormFacts EqFacts Banking.

(** *** Assignment and lookup *)

Lemma json_keys (d : list (pyval * pyval)) :
  is_json (PDict d) = true -> Forall (fun kv => exists s, kv.1 = PStr s) d.
Proof.
  intros H. simpl in H. apply andb_true_iff in H as [H _].
  rewrite forallb_forall in H. apply List.Forall_forall. intros [k v] Hin.
  specialize (H _ Hin). simpl in H. destruct k; try discriminate. eauto.
Qed.

Lemma entry_set_same (d : list (pyval * pyval)) (key : string) (v : pyval) :
  entry (dict_set d (PStr key) v) key = Some v.
Proof.
  unfold entry. induction d as [|[k' v'] d IH]; simpl.
  - rewrite String.eqb_refl. reflexivity.
  - destruct (py_eq k' (PStr key)) eqn:E; simpl; rewrite E; [reflexivity | exact IH].
Qed.

Lemma entry_set_other (d : list (pyval * pyval)) (key key' : string) (v : pyval) :
  key' <> key ->
  entry (dict_set d (PStr key) v) key' = entry d key'.
Proof.
  intros Hne. unfold entry. induction d as [|[k' v'] d IH]; simpl.
  - destruct (String.eqb_spec key key'); [congruence | reflexivity].
  - destruct (py_eq k' (PStr key)) eqn:E; simpl.
    + destruct (py_eq k' (PStr key')) eqn:E'; [|reflexivity].
      destruct k'; simpl in E, E'; try discriminate.
      apply String.eqb_eq in E, E'. congruence.
    + rewrite IH. reflexivity.
Qed.

Lemma dict_set_keys (d : list (pyval * pyval)) (key : string) (v v0 : pyval) :
  entry d key = Some v0 -> map fst (dict_set d (PStr key) v) = map fst d.
Proof.
  unfold entry. induction d as [|[k' v'] d IH]; simpl; [discriminate|].
  destruct (py_eq k' (PStr key)); simpl; [reflexivity|].
  intros H. rewrite (IH H). reflexivity.
Qed.

Lemma in_dict (d : list (pyval * pyval)) (key : string) :
  py_in (PStr key) (PDict d) = Ok (bool_decide (is_Some (entry d key))).
Proof. reflexivity. Qed.

Lemma getitem_dict (d : list (pyval * pyval)) (key : string) (v : pyval) :
  entry d key = Some v -> py_getitem (PDict d) (PStr key) = Ok v.
Proof. unfold entry. intros H. simpl. rewrite H. reflexivity. Qed.

(** [inject_persona_data] on a task whose scenario, if any, is a mapping
    and whose persona, if any, is a string key. *)
Lemma inject_cases (d ps : list (pyval * pyval)) :
  inject_persona_data (PDict d) (PDict ps)
  = match entry d "user_scenario" with
    | Some (PDict sc) =>
        match entry sc "persona" with
        | Some (PStr p) =>
            match entry ps p with
            | Some persona =>
                Ok (PDict (dict_set d (PStr "user_scenario")
                                    (PDict (dict_set sc (PStr "persona") persona))))
            | None => Ok (PDict d)
            end
        | Some _ => inject_persona_data (PDict d) (PDict ps)
        | None => Ok (PDict d)
        end
    | Some _ => inject_persona_data (PDict d) (PDict ps)
    | None => Ok (PDict d)
    end.
Proof.
  destruct (entry d "user_scenario") as [v|] eqn:Ev.
  - destruct v as [| | | | | |sc]; try reflexivity.
    destruct (entry sc "persona") as [pv|] eqn:Ep.
    + destruct pv as [| | |p| | |]; try reflexivity.
      unfold inject_persona_data. rewrite in_dict, Ev.
      rewrite bool_decide_eq_true_2 by eauto. cbn [mbind result_bind].
      rewrite (getitem_dict d _ _ Ev). cbn [mbind result_bind].
      rewrite in_dict, Ep. rewrite bool_decide_eq_true_2 by eauto.
      cbn [mbind result_bind]. rewrite (getitem_dict sc _ _ Ep).
      cbn [mbind result_bind]. rewrite in_dict.
      destruct (entry ps p) as [persona|] eqn:Eps.
      * rewrite bool_decide_eq_true_2 by eauto. cbn [mbind result_bind].
        rewrite (getitem_dict ps _ _ Eps). reflexivity.
      * rewrite bool_decide_eq_false_2 by (intros [x Hx]; discriminate). reflexivity.
    + unfold inject_persona_data. rewrite in_dict, Ev.
      rewrite bool_decide_eq_true_2 by eauto. cbn [mbind result_bind].
      rewrite (getitem_dict d _ _ Ev). cbn [mbind result_bind].
      rewrite in_dict, Ep. rewrite bool_decide_eq_false_2 by (intros [x Hx]; discriminate).
      reflexivity.
  - unfold inject_persona_data. rewrite in_dict, Ev.
    rewrite bool_decide_eq_false_2 by (intros [x Hx]; discriminate). reflexivity.
Qed.

Lemma inject_unhashable (d sc ps : list (pyval * pyval)) (pv : pyval) :
  entry d "user_scenario" = Some (PDict sc) ->
  entry sc "persona" = Some pv ->
  py_hashable pv = false ->
  inject_persona_data (PDict d) (PDict ps) = Raise TypeError.
Proof.
  intros Ev Ep Hh. unfold inject_persona_data. rewrite in_dict, Ev.
  rewrite bool_decide_eq_true_2 by eauto. cbn [mbind result_bind].
  rewrite (getitem_dict d _ _ Ev). cbn [mbind result_bind].
  rewrite in_dict, Ep. rewrite bool_decide_eq_true_2 by eauto.
  cbn [mbind result_bind]. rewrite (getitem_dict sc _ _ Ep).
  cbn [mbind result_bind]. unfold py_in. rewrite Hh. reflexivity.
Qed.

(** [inject_persona_data] on a task whose scenario (if it has one) is a
    mapping and whose persona (if it has one) is a string: it returns the
    task with, in the scenario, the persona key replaced by the persona
    on file under that key, or left as it is when no persona is on file
    under it. Nothing else changes: the task and the scenario keep their
    keys, in order, and the values of all other keys; a task without
    scenario, and a scenario without persona, come back unchanged. *)
Theorem inject_persona_replaces_key :
  forall d ps : list (pyval * pyval),
    (forall v, entry d "user_scenario" = Some v ->
       exists sc, v = PDict sc
                  /\ forall pv, entry sc "persona" = Some pv -> exists p, pv = PStr p) ->
    exists out,
      inject_persona_data (PDict d) (PDict ps) = Ok (PDict out)
      /\ map fst out = map fst d
      /\ (forall key, key <> "user_scenario" -> entry out key = entry d key)
      /\ (entry d "user_scenario" = None -> out = d)
      /\ (forall sc, entry d "user_scenario" = Some (PDict sc) ->
            exists sc',
              entry out "user_scenario" = Some (PDict sc')
              /\ map fst sc' = map fst sc
              /\ (forall key, key <> "persona" -> entry sc' key = entry sc key)
              /\ (entry sc "persona" = None -> sc' = sc)
              /\ (forall p, entry sc "persona" = Some (PStr p) ->
                    entry sc' "persona" = Some (default (PStr p) (entry ps p)))).
Proof.
  intros d ps Hshape. rewrite inject_cases.
  destruct (entry d "user_scenario") as [v|] eqn:Ev.
  - destruct (Hshape v eq_refl) as (sc & -> & Hp).
    assert (Hsame : exists sc', Some (PDict sc) = Some (PDict sc')
              /\ map fst sc' = map fst sc
              /\ (forall key, key <> "persona" -> entry sc' key = entry sc key)
              /\ (entry sc "persona" = None -> sc' = sc)
              /\ (forall p, entry sc "persona" = Some (PStr p) ->
                    entry sc "persona" = Some (PStr p))).
    { exists sc. auto. }
    destruct (entry sc "persona") as [pv|] eqn:Ep.
    + destruct (Hp pv eq_refl) as [p ->].
      destruct (entry ps p) as [persona|] eqn:Eps.
      * eexists. split; [reflexivity|].
        split; [apply (dict_set_keys _ _ _ _ Ev)|].
        split; [intros key Hk; apply entry_set_other, Hk|].
        split; [discriminate|].
        intros sc0 [= <-]. eexists. split; [apply entry_set_same|].
        split; [apply (dict_set_keys _ _ _ _ Ep)|].
        split; [intros key Hk; apply entry_set_other, Hk|].
        split; [intros H; rewrite Ep in H; discriminate|].
        intros p0 H. rewrite Ep in H. injection H as <-.
        rewrite entry_set_same, Eps. reflexivity.
      * exists d. split; [reflexivity|]. split; [reflexivity|].
        split; [reflexivity|]. split; [reflexivity|].
        intros sc0 [= <-]. exists sc. split; [exact Ev|]. split; [reflexivity|].
        split; [reflexivity|]. split; [reflexivity|].
        intros p0 H. rewrite Ep in H. injection H as <-. rewrite Ep, Eps. reflexivity.
    + exists d. split; [reflexivity|]. split; [reflexivity|].
      split; [reflexivity|]. split; [reflexivity|].
      intros sc0 [= <-]. exists sc. split; [exact Ev|]. split; [reflexivity|].
      split; [reflexivity|]. split; [reflexivity|]. intros p0 H. rewrite Ep in H. discriminate.
  - exists d. split; [reflexivity|]. split; [reflexivity|].
    split; [reflexivity|]. split; [reflexivity|]. discriminate.
Qed.

(** [inject_persona_replaces_key] on a task that names a persona on
    file. *)
Lemma inject_persona_replaces_key_witness :
  exists out,
    inject_persona_data (PDict named_persona_task) (PDict personas_on_file)
    = Ok (PDict out)
    /\ map fst out = map fst named_persona_task
    /\ (forall key, key <> "user_scenario" -> entry out key = entry named_persona_task key)
    /\ (entry named_persona_task "user_scenario" = None -> out = named_persona_task)
    /\ (forall sc, entry named_persona_task "user_scenario" = Some (PDict sc) ->
          exists sc',
            entry out "user_scenario" = Some (PDict sc')
            /\ map fst sc' = map fst sc
            /\ (forall key, key <> "persona" -> entry sc' key = entry sc key)
            /\ (entry sc "persona" = None -> sc' = sc)
            /\ (forall p, entry sc "persona" = Some (PStr p) ->
                  entry sc' "persona" = Some (default (PStr p) (entry personas_on_file p)))).
Proof.
  apply (inject_persona_replaces_key named_persona_task personas_on_file).
  intros v Hv. vm_compute in Hv. injection Hv as <-. eexists. split; [reflexivity|].
  intros pv Hpv. vm_compute in Hpv. injection Hpv as <-. eexists. reflexivity.
Defined.

(** A persona that is not hashable stops [inject_persona_data]: when the
    scenario gives its persona inline, as a mapping or a list, the test
    [persona_key in personas] raises [TypeError]. In particular the
    function cannot be applied twice to a task: once a persona that is a
    mapping has been injected, a second call on the result raises. *)
Theorem persona_injection_not_repeatable :
  forall (d sc ps : list (pyval * pyval)) (pv : pyval),
    entry d "user_scenario" = Some (PDict sc) ->
    entry sc "persona" = Some pv ->
    (py_hashable pv = false ->
     inject_persona_data (PDict d) (PDict ps) = Raise TypeError)
    /\ (forall p persona,
          pv = PStr p -> entry ps p = Some persona -> py_hashable persona = false ->
          exists out,
            inject_persona_data (PDict d) (PDict ps) = Ok out
            /\ inject_persona_data out (PDict ps) = Raise TypeError).
Proof.
  intros d sc ps pv Ev Ep. split; [apply (inject_unhashable d sc ps pv Ev Ep)|].
  intros p persona -> Eps Hh. rewrite inject_cases, Ev, Ep, Eps.
  eexists. split; [reflexivity|].
  apply (inject_unhashable _ (dict_set sc (PStr "persona") persona) ps persona).
  - apply entry_set_same.
  - apply entry_set_same.
  - exact Hh.
Qed.

(** [persona_injection_not_repeatable] on a task that names a persona
    on file. *)
Lemma persona_injection_not_repeatable_witness :
  exists out,
    inject_persona_data (PDict named_persona_task) (PDict personas_on_file) = Ok out
    /\ inject_persona_data out (PDict personas_on_file) = Raise TypeError.
Proof.
  refine (proj2 (persona_injection_not_repeatable named_persona_task
                   [ (PStr "persona", PStr "EASY_1");
                     (PStr "instructions", PStr "Ask for the balance.") ]
                   personas_on_file (PStr "EASY_1") eq_refl eq_refl)
                "EASY_1" (PDict [(PStr "tone", PStr "polite")]) eq_refl eq_refl eq_refl).
Defined.

(** *** [sync_tools] *)

(** [sync_tools] never changes the phone number, and does nothing at all
    without one or when the customer is not found. It is not atomic: the
    customer id is written before the account is looked up, and the card
    is looked up last, so a failing account lookup leaves the customer id
    updated and the card unsynced, and a failing card lookup leaves the
    account synced. When every lookup succeeds, the database holds the
    ids, the activity flags ([status == "Active"]) and the balance of the
    customer's first account and first card. *)
Theorem sync_tools_stepwise :
  forall (tools : Tools) (db : UserDB),
    phone_number (sync_tools tools db) = phone_number db
    /\ (phone_number db = None \/ phone_number db = Some "" -> sync_tools tools db = db)
    /\ (forall phone,
          phone_number db = Some phone ->
          raises (get_customer_by_phone tools phone) ->
          sync_tools tools db = db)
    /\ (forall phone customer,
          phone_number db = Some phone -> phone <> "" ->
          get_customer_by_phone tools phone = Ok customer ->
          customer_id (sync_tools tools db) = Some (c_customer_id customer)
          /\ (forall first rest,
                account_ids customer = first :: rest ->
                raises (get_account tools first) ->
                primary_account_id (sync_tools tools db) = primary_account_id db
                /\ primary_account_active (sync_tools tools db) = primary_account_active db
                /\ account_balance (sync_tools tools db) = account_balance db
                /\ primary_card_id (sync_tools tools db) = primary_card_id db
                /\ primary_card_active (sync_tools tools db) = primary_card_active db)
          /\ (forall first rest account,
                account_ids customer = first :: rest ->
                get_account tools first = Ok account ->
                primary_account_id (sync_tools tools db) = Some (a_account_id account)
                /\ primary_account_active (sync_tools tools db)
                   = Some (String.eqb (a_status account) "Active")
                /\ account_balance (sync_tools tools db) = Some (current_balance account)
                /\ (forall card_id others,
                      card_ids customer = card_id :: others ->
                      raises (_get_card tools card_id) ->
                      primary_card_id (sync_tools tools db) = primary_card_id db
                      /\ primary_card_active (sync_tools tools db)
                         = primary_card_active db)
                /\ (forall card_id others card,
                      card_ids customer = card_id :: others ->
                      _get_card tools card_id = Ok card ->
                      primary_card_id (sync_tools tools db) = Some (k_card_id card)
                      /\ primary_card_active (sync_tools tools db)
                         = Some (String.eqb (k_status card) "Active")))
          /\ (account_ids customer = [] ->
              primary_account_id (sync_tools tools db) = primary_account_id db
              /\ account_balance (sync_tools tools db) = account_balance db)).
Proof.
  intros tools db. unfold sync_tools.
  destruct (phone_number db) as [phone|] eqn:Ephone.
  2:{ split; [exact Ephone|]. split; [reflexivity|]. split; intros; discriminate. }
  destruct (String.eqb_spec phone "") as [->|Hne].
  { split; [exact Ephone|]. split; [reflexivity|]. split; [reflexivity|].
    intros phone customer [= <-] H. contradiction. }
  unfold sync_body, sync_bind, call, assign, sync_ret.
  split.
  { destruct (get_customer_by_phone tools phone) as [customer|e]; [|exact Ephone].
    destruct (account_ids customer) as [|first rest];
      [|destruct (get_account tools first)];
      (destruct (card_ids customer) as [|card_id others];
       [|destruct (_get_card tools card_id)]); exact Ephone. }
  split; [intros [H|H]; congruence|].
  split.
  { intros phone0 [= <-] [e He]. rewrite He. reflexivity. }
  intros phone0 customer [= <-] _ Hc. rewrite Hc.
  split.
  { destruct (account_ids customer) as [|first rest];
      [|destruct (get_account tools first)];
      (destruct (card_ids customer) as [|card_id others];
       [|destruct (_get_card tools card_id)]); reflexivity. }
  split.
  { intros first rest -> [e He]. rewrite He. cbn. repeat split; reflexivity. }
  split.
  { intros first rest account -> ->.
    split; [|split; [|split; [|split]]].
    - destruct (card_ids customer) as [|card_id others];
        [|destruct (_get_card tools card_id)]; reflexivity.
    - destruct (card_ids customer) as [|card_id others];
        [|destruct (_get_card tools card_id)]; reflexivity.
    - destruct (card_ids customer) as [|card_id others];
        [|destruct (_get_card tools card_id)]; reflexivity.
    - intros card_id others -> [e He]. rewrite He. split; reflexivity.
    - intros card_id others card -> ->. split; reflexivity. }
  intros ->.
  destruct (card_ids customer) as [|card_id others];
    [|destruct (_get_card tools card_id)]; split; reflexivity.
Qed.

End BankingFacts.

(** ** The retail user simulator *)

Module RetailUserFacts.
Import RetailUser.

Section Simulator.
Context {Usage RawData : Type}.
Variable flip_roles : @UserState Usage RawData -> result (list (@ChatMessage Usage RawData)).
Variable generate : list (@ChatMessage Usage RawData) -> result (@AssistantMessage Usage RawData).

Lemma as_user_calls_requestor (tool_calls : list ToolCall) :
  Forall (fun tc => tc_requestor tc = "user") (map as_user_call tool_calls).
Proof.
  induction tool_calls as [|tc tcs IH]; constructor; [reflexivity | exact IH].
Qed.

Lemma user_message_not_empty (m : @AssistantMessage Usage RawData) :
  (u_tool_calls (user_message_of m) = None ->
   exists content, u_content (user_message_of m) = Some content
                   /\ is_blank content = false)
  /\ (forall tool_calls,
        u_tool_calls (user_message_of m) = Some tool_calls ->
        tool_calls <> []
        /\ Forall (fun tc => tc_requestor tc = "user") tool_calls).
Proof.
  unfold user_message_of, ensured_content, has_tool_calls. cbn [u_tool_calls u_content].
  destruct (a_tool_calls m) as [[|tc tcs]|]; cbn [negb andb].
  - split; [|discriminate]. intros _.
    destruct (a_content m) as [c|]; [|eexists; split; reflexivity].
    destruct (is_blank c) eqn:E; eexists; split; try reflexivity. exact E.
  - split; [discriminate|]. intros tool_calls [= <-]. split; [discriminate|].
    apply (as_user_calls_requestor (tc :: tcs)).
  - split; [|discriminate]. intros _.
    destruct (a_content m) as [c|]; [|eexists; split; reflexivity].
    destruct (is_blank c) eqn:E; eexists; split; try reflexivity. exact E.
Qed.

End Simulator.

(** Whatever the language model does, the user message that
    [_generate_next_message] returns is never empty: it has at least one
    tool call, all attributed to the user, or else a content that is not
    blank. The system messages of the state are kept, the history only
    grows, and the returned message is its last element. *)
Theorem next_user_message_never_empty :
  forall (Usage RawData : Type)
         (flip_roles : @UserState Usage RawData -> result (list ChatMessage))
         (generate : list ChatMessage -> result AssistantMessage)
         (message : ChatMessage) (state : UserState),
    (u_tool_calls (_generate_next_message flip_roles generate message state).1 = None ->
     exists content,
       u_content (_generate_next_message flip_roles generate message state).1 = Some content
       /\ is_blank content = false)
    /\ (forall tool_calls,
          u_tool_calls (_generate_next_message flip_roles generate message state).1
          = Some tool_calls ->
          tool_calls <> [] /\ Forall (fun tc => tc_requestor tc = "user") tool_calls)
    /\ system_messages (_generate_next_message flip_roles generate message state).2
       = system_messages state
    /\ exists added,
         messages (_generate_next_message flip_roles generate message state).2
         = messages state ++ added
              ++ [FromUser (_generate_next_message flip_roles generate message state).1].
Proof.
  intros Usage RawData flip_roles generate message state.
  unfold _generate_next_message.
  destruct (flipped ← flip_roles (receive message state);
            generate (system_messages (receive message state) ++ flipped))
    as [reply|e]; cbn [fst snd system_messages messages].
  - destruct (user_message_not_empty reply) as [H1 H2].
    split; [exact H1|]. split; [exact H2|]. split; [reflexivity|].
    destruct message; simpl; eexists; rewrite <- app_assoc; reflexivity.
  - split; [intros _; eexists; split; reflexivity|]. split; [discriminate|].
    split; [reflexivity|].
    destruct message as [c|m|m|m|ts]; simpl.
    + exists [FromSystem c; FromSystem c]. rewrite <- app_assoc. reflexivity.
    + exists [FromAssistant m; FromAssistant m]. rewrite <- app_assoc. reflexivity.
    + exists [FromUser m; FromUser m]. rewrite <- app_assoc. reflexivity.
    + exists [FromTool m; FromTool m]. rewrite <- app_assoc. reflexivity.
    + exists (map FromTool ts ++ [FromTools ts]). rewrite <- !app_assoc. reflexivity.
Qed.

(** When the language model (or the flipping of roles) fails, the
    simulator answers with its fixed apology, and the history it returns
    holds the incoming message twice: once from the update made before
    the call, once from the handler. For a bundle of tool results, the
    history gets the results one by one and then the bundle itself. *)
Theorem failed_generation_repeats_message :
  forall (Usage RawData : Type)
         (flip_roles : @UserState Usage RawData -> result (list ChatMessage))
         (generate : list ChatMessage -> result AssistantMessage)
         (message : ChatMessage) (state : UserState),
    raises (flipped ← flip_roles (receive message state);
            generate (system_messages state ++ flipped)) ->
    (_generate_next_message flip_roles generate message state).1 = fallback_message
    /\ system_messages (_generate_next_message flip_roles generate message state).2
       = system_messages state
    /\ messages (_generate_next_message flip_roles generate message state).2
       = match message with
         | FromTools tool_messages =>
             messages state ++ map FromTool tool_messages
               ++ [FromTools tool_messages; FromUser fallback_message]
         | _ => messages state ++ [message; message; FromUser fallback_message]
         end.
Proof.
  intros Usage RawData flip_roles generate message state [e He].
  unfold _generate_next_message.
  change (system_messages (receive message state)) with (system_messages state).
  rewrite He. cbn [fst snd system_messages messages].
  split; [reflexivity|]. split; [reflexivity|].
  destruct message; simpl; rewrite <- ?app_assoc; reflexivity.
Qed.

(** [failed_generation_repeats_message] with a model that is down. *)
Lemma failed_generation_repeats_message_witness :
  (_generate_next_message (Usage := unit) (RawData := unit)
     (fun _ => Ok []) (fun _ => Raise RuntimeError)
     (FromAssistant {| a_content := Some "Hello"; a_tool_calls := None; a_cost := None;
                       a_usage := None; a_raw_data := None |})
     {| system_messages := [FromSystem "policy"]; messages := [] |}).1
  = fallback_message
  /\ system_messages
       (_generate_next_message (Usage := unit) (RawData := unit)
          (fun _ => Ok []) (fun _ => Raise RuntimeError)
          (FromAssistant {| a_content := Some "Hello"; a_tool_calls := None; a_cost := None;
                            a_usage := None; a_raw_data := None |})
          {| system_messages := [FromSystem "policy"]; messages := [] |}).2
     = [FromSystem "policy"]
  /\ messages
       (_generate_next_message (Usage := unit) (RawData := unit)
          (fun _ => Ok []) (fun _ => Raise RuntimeError)
          (FromAssistant {| a_content := Some "Hello"; a_tool_calls := None; a_cost := None;
                            a_usage := None; a_raw_data := None |})
          {| system_messages := [FromSystem "policy"]; messages := [] |}).2
     = [ FromAssistant {| a_content := Some "Hello"; a_tool_calls := None; a_cost := None;
                          a_usage := None; a_raw_data := None |};
         FromAssistant {| a_content := Some "Hello"; a_tool_calls := None; a_cost := None;
                          a_usage := None; a_raw_data := None |};
         FromUser fallback_message ].
Proof.
  apply (failed_generation_repeats_message unit unit
           (fun _ => Ok []) (fun _ => Raise RuntimeError)
           (FromAssistant {| a_content := Some "Hello"; a_tool_calls := None; a_cost := None;
                             a_usage := None; a_raw_data := None |})
           {| system_messages := [FromSystem "policy"]; messages := [] |}).
  exists RuntimeError. reflexivity.
Defined.

(** When the model answers, its tool calls come back as the user's, in
    order, with their ids, names and arguments, and the reply's cost,
    usage and raw data are passed on. The content is the reply's, except
    that a reply without tool calls whose content is missing or blank
    (nothing but whitespace, Unicode whitespace included) gets the
    content ["(no content)"]; a reply whose list of tool calls is empty
    counts as one without tool calls. The history gets the
    incoming message (a bundle: its results) and then the user message. *)
Theorem reply_becomes_user_message :
  forall (Usage RawData : Type)
         (flip_roles : @UserState Usage RawData -> result (list ChatMessage))
         (generate : list ChatMessage -> result AssistantMessage)
         (message : ChatMessage) (state : UserState)
         (flipped : list ChatMessage) (reply : AssistantMessage),
    flip_roles (receive message state) = Ok flipped ->
    generate (system_messages state ++ flipped) = Ok reply ->
    exists user_message,
      _generate_next_message flip_roles generate message state
      = (user_message,
         {| system_messages := system_messages state;
            messages := messages (receive message state) ++ [FromUser user_message] |})
      /\ u_cost user_message = a_cost reply
      /\ u_usage user_message = a_usage reply
      /\ u_raw_data user_message = a_raw_data reply
      /\ (forall tool_calls,
            a_tool_calls reply = Some tool_calls -> tool_calls <> [] ->
            u_content user_message = a_content reply
            /\ exists calls,
                 u_tool_calls user_message = Some calls
                 /\ map tc_id calls = map tc_id tool_calls
                 /\ map tc_name calls = map tc_name tool_calls
                 /\ map tc_arguments calls = map tc_arguments tool_calls
                 /\ Forall (fun tc => tc_requestor tc = "user") calls)
      /\ (a_tool_calls reply = None \/ a_tool_calls reply = Some [] ->
          u_tool_calls user_message = None
          /\ (forall content,
                a_content reply = Some content -> is_blank content = false ->
                u_content user_message = Some content)
          /\ (a_content reply = None
              \/ (exists content, a_content reply = Some content
                                  /\ is_blank content = true) ->
              u_content user_message = Some "(no content)")).
Proof.
  intros Usage RawData flip_roles generate message state flipped reply Hf Hg.
  exists (user_message_of reply). split.
  { unfold _generate_next_message.
    change (system_messages (receive message state)) with (system_messages state).
    rewrite Hf. cbn [mbind result_bind]. rewrite Hg. reflexivity. }
  unfold user_message_of, ensured_content, has_tool_calls.
  cbn [u_cost u_usage u_raw_data u_content u_tool_calls].
  split; [reflexivity|]. split; [reflexivity|]. split; [reflexivity|]. split.
  - intros tool_calls -> Hne. destruct tool_calls as [|tc tcs]; [contradiction|].
    cbn [negb andb]. split; [reflexivity|]. eexists. split; [reflexivity|].
    rewrite !map_map. cbn [as_user_call tc_id tc_name tc_arguments].
    split; [reflexivity|]. split; [reflexivity|]. split; [reflexivity|].
    apply (as_user_calls_requestor (tc :: tcs)).
  - intros Hnone.
    assert (Hcalls : match a_tool_calls reply with Some (_ :: _) => false | _ => true end
                     = true).
    { destruct Hnone as [-> | ->]; reflexivity. }
    destruct (a_tool_calls reply) as [[|tc tcs]|]; try discriminate; cbn [negb andb].
    + split; [reflexivity|]. split.
      * intros content -> ->. reflexivity.
      * intros [-> | (content & -> & ->)]; reflexivity.
    + split; [reflexivity|]. split.
      * intros content -> ->. reflexivity.
      * intros [-> | (content & -> & ->)]; reflexivity.
Qed.

(** [reply_becomes_user_message] on a reply without tool calls whose
    content is a no-break space, which [strip] removes: the simulator
    returns a user message with the content ["(no content)"] and files it
    after the incoming message. *)
Lemma reply_becomes_user_message_witness :
  u_content
    (_generate_next_message (Usage := unit) (RawData := unit)
       (fun _ => Ok [])
       (fun _ => Ok {| a_content := Some no_break_space; a_tool_calls := Some [];
                       a_cost := None; a_usage := None; a_raw_data := None |})
       (FromSystem "go") {| system_messages := []; messages := [] |}).1
  = Some "(no content)"
  /\ u_tool_calls
       (_generate_next_message (Usage := unit) (RawData := unit)
          (fun _ => Ok [])
          (fun _ => Ok {| a_content := Some no_break_space; a_tool_calls := Some [];
                          a_cost := None; a_usage := None; a_raw_data := None |})
          (FromSystem "go") {| system_messages := []; messages := [] |}).1
     = None
  /\ length
       (messages
          (_generate_next_message (Usage := unit) (RawData := unit)
             (fun _ => Ok [])
             (fun _ => Ok {| a_content := Some no_break_space; a_tool_calls := Some [];
                             a_cost := None; a_usage := None; a_raw_data := None |})
             (FromSystem "go") {| system_messages := []; messages := [] |}).2)
     = 2%nat.
Proof.
  destruct (reply_becomes_user_message unit unit
              (fun _ => Ok [])
              (fun _ => Ok {| a_content := Some no_break_space; a_tool_calls := Some [];
                              a_cost := None; a_usage := None; a_raw_data := None |})
              (FromSystem "go") {| system_messages := []; messages := [] |}
              [] _ eq_refl eq_refl)
    as (user_message & Hrun & _ & _ & _ & _ & Hnone).
  rewrite Hrun. cbn [fst snd messages].
  destruct (Hnone (or_intror eq_refl)) as (Hcalls & _ & Hblank).
  split; [|split; [exact Hcalls | reflexivity]].
  apply Hblank. right. exists no_break_space. split; reflexivity.
Defined.

End RetailUserFacts.

(** ** What [compute_tcrr_windowed] counts *)

Module RepeatFacts.
Import PyFacts NormFacts EqFacts Tcrr TcrrFacts TcrrBoundFacts Repeats.

Lemma wf_batch_identity (c : ToolCallInfo) :
  is_args (params c) = true -> wf_value (batch_identity c) = true.
Proof.
  intros H. destruct (batch_identity_args c H) as (n & _ & Hh & ->).
  apply InvarianceFacts.hashable_wf. rewrite hashable_identity. exact Hh.
Qed.

Lemma add_previous_args (s : list pyval) (c : ToolCallInfo) :
  is_args (params c) = true ->
  add_previous s c
  = Ok (if existsb (fun y => py_eq y (batch_identity c)) s then s
        else s ++ [batch_identity c]).
Proof.
  intros H. destruct (batch_identity_args c H) as (n & Hn & Hh & ->).
  unfold add_previous, set_add, set_contains. rewrite Hn. cbn [mbind result_bind].
  rewrite hashable_identity, Hh. reflexivity.
Qed.

Lemma check_window_args (prev : list pyval) (t : Z) (st : Z * gmap Z Z)
    (c : ToolCallInfo) :
  is_args (params c) = true ->
  check_window prev t st c
  = Ok (if existsb (fun y => py_eq y (batch_identity c)) prev
        then (st.1 + 1, bump t 1 st.2) else st).
Proof.
  intros H. destruct (batch_identity_args c H) as (n & Hn & Hh & ->).
  unfold check_window, set_contains. rewrite Hn. cbn [mbind result_bind].
  rewrite hashable_identity, Hh. reflexivity.
Qed.

(** The set of previous identities holds an identity exactly when one of
    the previous calls has it. *)
Lemma previous_fold (calls : list ToolCallInfo) :
  Forall (fun c => is_args (params c) = true) calls ->
  forall s, Forall (fun y => wf_value y = true) s ->
  exists s',
    foldM add_previous calls s = Ok s'
    /\ forall x, wf_value x = true ->
         existsb (fun y => py_eq y x) s'
         = existsb (fun y => py_eq y x) s
           || existsb (fun c' => py_eq (batch_identity c') x) calls.
Proof.
  induction 1 as [|c calls Hc _ IH]; intros s Hs.
  - exists s. split; [reflexivity|]. intros x _. simpl. rewrite orb_false_r. reflexivity.
  - cbn [foldM]. rewrite (add_previous_args s c Hc). cbn [mbind result_bind].
    pose proof (wf_batch_identity c Hc) as Hw.
    set (s1 := if existsb (fun y => py_eq y (batch_identity c)) s then s
               else s ++ [batch_identity c]).
    assert (Hs1 : Forall (fun y => wf_value y = true) s1).
    { unfold s1. destruct (existsb _ s); [exact Hs|].
      apply Forall_app. split; [exact Hs|]. constructor; [exact Hw | constructor]. }
    assert (Hmem : forall x, wf_value x = true ->
               existsb (fun y => py_eq y x) s1
               = existsb (fun y => py_eq y x) s || py_eq (batch_identity c) x).
    { intros x Hx. unfold s1.
      destruct (existsb (fun y => py_eq y (batch_identity c)) s) eqn:E.
      - destruct (py_eq (batch_identity c) x) eqn:Ex; [|rewrite orb_false_r; reflexivity].
        rewrite orb_true_r. apply existsb_exists.
        apply existsb_exists in E as (y & Hy & Eq). exists y. split; [exact Hy|].
        rewrite Forall_forall in Hs.
        apply (py_eq_trans y (Hs y (proj2 (list_elem_of_In _ _) Hy))
                 (batch_identity c) x Hw Hx Eq Ex).
      - rewrite existsb_app. simpl. rewrite orb_false_r. reflexivity. }
    destruct (IH s1 Hs1) as (s' & Hf & Hall). exists s'. split; [exact Hf|].
    intros x Hx. rewrite (Hall x Hx), (Hmem x Hx). simpl. rewrite orb_assoc. reflexivity.
Qed.

Lemma window_fold_exact (prev : list pyval) (t : Z) (calls : list ToolCallInfo) :
  Forall (fun c => is_args (params c) = true) calls ->
  forall (w x : Z) (base : gmap Z Z),
    foldM (check_window prev t) calls (w, <[t := x]> base)
    = Ok (w + Z.of_nat (length (List.filter
                                  (fun c => existsb (fun y => py_eq y (batch_identity c)) prev)
                                  calls)),
          <[t := x + Z.of_nat (length (List.filter
                                  (fun c => existsb (fun y => py_eq y (batch_identity c)) prev)
                                  calls))]> base).
Proof.
  induction 1 as [|c calls Hc _ IH]; intros w x base.
  - simpl. rewrite !Z.add_0_r. reflexivity.
  - cbn [foldM List.filter]. rewrite (check_window_args prev t _ c Hc).
    cbn [mbind result_bind fst snd].
    destruct (existsb (fun y => py_eq y (batch_identity c)) prev).
    + rewrite bump_insert, IH. cbn [length]. rewrite Nat2Z.inj_succ.
      replace (w + 1 + Z.of_nat (length (List.filter
                 (fun c => existsb (fun y => py_eq y (batch_identity c)) prev) calls)))
        with (w + Z.succ (Z.of_nat (length (List.filter
                 (fun c => existsb (fun y => py_eq y (batch_identity c)) prev) calls))))
        by lia.
      replace (x + 1 + Z.of_nat (length (List.filter
                 (fun c => existsb (fun y => py_eq y (batch_identity c)) prev) calls)))
        with (x + Z.succ (Z.of_nat (length (List.filter
                 (fun c => existsb (fun y => py_eq y (batch_identity c)) prev) calls))))
        by lia.
      reflexivity.
    + apply IH.
Qed.

(** The calls filed under a turn are the calls of that turn, in order. *)
Lemma group_by_turn_lookup (tool_calls : list ToolCallInfo) (t : Z) :
  default [] (group_by_turn tool_calls !! t)
  = List.filter (fun c => assistant_turn_idx c =? t) tool_calls.
Proof.
  unfold group_by_turn.
  assert (H : forall (l : list ToolCallInfo) (m : gmap Z (list ToolCallInfo)),
             default [] (fold_left
                           (fun calls_by_turn call =>
                              <[assistant_turn_idx call :=
                                  default [] (calls_by_turn !! assistant_turn_idx call)
                                  ++ [call]]> calls_by_turn) l m !! t)
             = default [] (m !! t)
               ++ List.filter (fun c => assistant_turn_idx c =? t) l).
  { induction l as [|c l IH]; intros m.
    - simpl. rewrite app_nil_r. reflexivity.
    - cbn [fold_left List.filter]. rewrite IH.
      destruct (Z.eqb_spec (assistant_turn_idx c) t) as [->|Hne].
      + rewrite lookup_insert_eq. simpl. rewrite <- app_assoc. reflexivity.
      + rewrite lookup_insert_ne by exact Hne. reflexivity. }
  rewrite H, lookup_empty. reflexivity.
Qed.

Lemma previous_calls_spec (tool_calls : list ToolCallInfo) (a t : Z) (c' : ToolCallInfo) :
  In c' (flat_map (fun prev_turn => default [] (group_by_turn tool_calls !! prev_turn))
                  (range a t))
  <-> In c' tool_calls /\ a <= assistant_turn_idx c' < t.
Proof.
  rewrite in_flat_map. split.
  - intros (p & Hp & Hin). rewrite group_by_turn_lookup in Hin.
    apply filter_In in Hin as [Hin Ht]. apply Z.eqb_eq in Ht. subst p.
    split; [exact Hin|]. unfold range in Hp.
    apply list_elem_of_In, elem_of_seqZ in Hp. lia.
  - intros [Hin Ht]. exists (assistant_turn_idx c'). split.
    + apply list_elem_of_In. unfold range. apply elem_of_seqZ. lia.
    + rewrite group_by_turn_lookup. apply filter_In. split; [exact Hin|].
      apply Z.eqb_refl.
Qed.

Lemma window_hit (tool_calls : list ToolCallInfo) (ws t : Z) (c : ToolCallInfo)
    (prev : list pyval) :
  Forall (fun c => is_args (params c) = true) tool_calls ->
  is_args (params c) = true ->
  assistant_turn_idx c = t ->
  foldM add_previous
        (flat_map (fun prev_turn => default [] (group_by_turn tool_calls !! prev_turn))
                  (range (Z.max 1 (t - ws)) t)) [] = Ok prev ->
  existsb (fun y => py_eq y (batch_identity c)) prev = repeats_earlier tool_calls ws c.
Proof.
  intros Hargs Hc Ht Hprev.
  set (previous_calls :=
         flat_map (fun prev_turn => default [] (group_by_turn tool_calls !! prev_turn))
                  (range (Z.max 1 (t - ws)) t)) in *.
  assert (Hpa : Forall (fun c => is_args (params c) = true) previous_calls).
  { apply Forall_forall. intros c' Hc'. apply list_elem_of_In in Hc'.
    apply previous_calls_spec in Hc' as [Hin _].
    rewrite Forall_forall in Hargs. apply Hargs, list_elem_of_In, Hin. }
  destruct (previous_fold previous_calls Hpa [] (Forall_nil_2 _)) as (s' & Hf & Hall).
  rewrite Hprev in Hf. injection Hf as <-.
  rewrite (Hall _ (wf_batch_identity c Hc)). cbn [existsb orb].
  apply eq_true_iff_eq. unfold repeats_earlier. rewrite !existsb_exists.
  split; intros (c' & Hc' & E).
  - apply previous_calls_spec in Hc' as [Hin Hr]. exists c'. split; [exact Hin|].
    unfold in_window, same_call. rewrite Ht, E.
    rewrite andb_true_r. apply andb_true_iff. split; [apply Z.leb_le | apply Z.ltb_lt]; lia.
  - unfold in_window, same_call in E. rewrite Ht in E.
    apply andb_true_iff in E as [E1 E2]. apply andb_true_iff in E1 as [Ea Eb].
    apply Z.leb_le in Ea. apply Z.ltb_lt in Eb.
    exists c'. split; [|exact E2]. apply previous_calls_spec. split; [exact Hc' | lia].
Qed.

(** *** The counting loop *)

Lemma count_up_cases (d : list (pyval * Z)) (x : pyval) :
  (existsb (fun k => py_eq k x) (map fst d) = false /\ count_up d x = d ++ [(x, 1)])
  \/ (exists d1 y n d2,
        d = d1 ++ (y, n) :: d2
        /\ py_eq y x = true
        /\ existsb (fun k => py_eq k x) (map fst d1) = false
        /\ count_up d x = d1 ++ (y, n + 1) :: d2).
Proof.
  induction d as [|[y n] d IH].
  - left. split; reflexivity.
  - destruct (py_eq y x) eqn:E.
    + right. exists [], y, n, d. split; [reflexivity|]. split; [exact E|].
      split; [reflexivity|]. simpl. rewrite E. reflexivity.
    + destruct IH as [[Hn Hc] | (d1 & y' & n' & d2 & Hd & Hy & Hn & Hc)].
      * left. split; [cbn [map existsb fst]; rewrite E; exact Hn|].
        simpl. rewrite E, Hc. reflexivity.
      * right. exists ((y, n) :: d1), y', n', d2.
        split; [rewrite Hd; reflexivity|]. split; [exact Hy|].
        split; [cbn [map existsb fst]; rewrite E; exact Hn|].
        simpl. rewrite E, Hc. reflexivity.
Qed.

Lemma filter_none {A} (f : A -> bool) (l : list A) :
  (forall a, In a l -> f a = false) -> List.filter f l = [].
Proof.
  induction l as [|a l IH]; intros H; [reflexivity|]. simpl.
  rewrite (H a (or_introl eq_refl)). apply IH. intros b Hb. apply H. right. exact Hb.
Qed.

Lemma copies_of_snoc (done : list ToolCallInfo) (c : ToolCallInfo) (k : pyval) :
  copies_of (done ++ [c]) k
  = copies_of done k + (if py_eq (batch_identity c) k then 1 else 0).
Proof.
  unfold copies_of. rewrite List.filter_app, List.length_app, Nat2Z.inj_add. simpl.
  destruct (py_eq (batch_identity c) k); reflexivity.
Qed.

Lemma copies_of_cong (calls : list ToolCallInfo) (x y : pyval) :
  Forall (fun c => is_args (params c) = true) calls ->
  wf_value x = true -> wf_value y = true -> py_eq x y = true ->
  copies_of calls x = copies_of calls y.
Proof.
  intros Hargs Hx Hy E. unfold copies_of. f_equal. f_equal.
  apply List.filter_ext_in. intros c Hc.
  rewrite Forall_forall in Hargs.
  pose proof (wf_batch_identity c (Hargs c (proj2 (list_elem_of_In _ _) Hc))) as Hw.
  apply (LtFacts.py_eq_cong _ _ _ _ Hw Hw Hx Hy); [apply py_eq_refl; exact Hw | exact E].
Qed.

Lemma counted_step (d : list (pyval * Z)) (done : list ToolCallInfo) (c : ToolCallInfo) :
  Forall (fun c => is_args (params c) = true) done ->
  is_args (params c) = true ->
  counted d done ->
  counted (count_up d (batch_identity c)) (done ++ [c]).
Proof.
  intros Hdone Hc (Hss & Hall & Hcov).
  pose proof (wf_batch_identity c Hc) as Hw.
  set (x := batch_identity c) in *.
  assert (Hrefl : py_eq x x = true) by (apply py_eq_refl; exact Hw).
  assert (Hdw : forall c0, In c0 done -> wf_value (batch_identity c0) = true).
  { intros c0 H0. apply wf_batch_identity. rewrite Forall_forall in Hdone.
    apply Hdone, list_elem_of_In, H0. }
  destruct (count_up_cases d x) as [[Hn Hcu] | (d1 & y & n & d2 & Hd & Hy & Hn & Hcu)];
    rewrite Hcu.
  - (* a new identity *)
    assert (Hmiss : forall e, In e d -> py_eq e.1 x = false).
    { intros e He. destruct (py_eq e.1 x) eqn:E; [|reflexivity].
      assert (existsb (fun k => py_eq k x) (map fst d) = true); [|congruence].
      apply existsb_exists. exists e.1. split; [apply in_map; exact He | exact E]. }
    split; [|split].
    + rewrite map_app. apply StronglySorted_app_2.
      * intros k1 k2 H1 H2. apply list_elem_of_In in H1, H2.
        destruct H2 as [<-|[]]. apply in_map_iff in H1 as (e & <- & He).
        apply Hmiss, He.
      * exact Hss.
      * repeat constructor.
    + apply Forall_app. split.
      * rewrite Forall_forall in Hall. apply Forall_forall. intros e He.
        destruct (Hall e He) as (Hwe & Hcount & c0 & H0 & E0).
        split; [exact Hwe|]. split.
        -- rewrite copies_of_snoc. fold x.
           rewrite (py_eq_sym x e.1 Hw Hwe), (Hmiss e (proj1 (list_elem_of_In _ _) He)).
           lia.
        -- exists c0. split; [apply in_or_app; left; exact H0 | exact E0].
      * constructor; [|constructor]. cbn [fst snd]. split; [exact Hw|]. split.
        -- rewrite copies_of_snoc. fold x. rewrite Hrefl.
           unfold copies_of. rewrite filter_none; [reflexivity|].
           intros c0 H0. destruct (py_eq (batch_identity c0) x) eqn:E; [|reflexivity].
           pose proof (Hcov c0 H0) as Hex.
           apply existsb_exists in Hex as (k & Hk & Ek).
           apply in_map_iff in Hk as (e & <- & He).
           rewrite Forall_forall in Hall.
           destruct (Hall e (proj2 (list_elem_of_In _ _) He)) as (Hwe & _).
           rewrite <- (Hmiss e He). symmetry.
           apply (py_eq_trans e.1 Hwe (batch_identity c0) x (Hdw c0 H0) Hw Ek E).
        -- exists c. split; [apply in_or_app; right; left; reflexivity | exact Hrefl].
    + intros c0 H0. rewrite map_app, existsb_app.
      apply in_app_or in H0 as [H0 | [<- | []]].
      * rewrite (Hcov c0 H0). reflexivity.
      * cbn [map existsb fst]. fold x. rewrite Hrefl, orb_true_r. reflexivity.
  - (* an identity met before *)
    assert (Hkeys : map fst (d1 ++ (y, n + 1) :: d2) = map fst d).
    { rewrite Hd, !map_app. reflexivity. }
    rewrite Forall_forall in Hall.
    assert (Hwy : wf_value y = true).
    { destruct (Hall (y, n)) as (H & _); [|exact H].
      rewrite Hd. apply list_elem_of_In, in_or_app. right. left. reflexivity. }
    assert (Hxy : py_eq x y = true) by (rewrite (py_eq_sym x y Hw Hwy); exact Hy).
    assert (Hd1 : forall e, In e d1 -> py_eq x e.1 = false).
    { intros e He.
      assert (Hwe : wf_value e.1 = true).
      { destruct (Hall e) as (H & _); [|exact H].
        rewrite Hd. apply list_elem_of_In, in_or_app. left. exact He. }
      rewrite (py_eq_sym x e.1 Hw Hwe).
      destruct (py_eq e.1 x) eqn:E; [|reflexivity].
      assert (existsb (fun k => py_eq k x) (map fst d1) = true); [|congruence].
      apply existsb_exists. exists e.1. split; [apply in_map; exact He | exact E]. }
    assert (Hd2 : forall e, In e d2 -> py_eq x e.1 = false).
    { intros e He.
      assert (Hwe : wf_value e.1 = true).
      { destruct (Hall e) as (H & _); [|exact H].
        rewrite Hd. apply list_elem_of_In, in_or_app. right. right. exact He. }
      destruct (py_eq x e.1) eqn:E; [|reflexivity].
      rewrite Hd, map_app in Hss. apply StronglySorted_app_1_r in Hss.
      cbn [map fst] in Hss. apply StronglySorted_inv in Hss as [_ Hfa].
      rewrite Forall_forall in Hfa.
      rewrite <- (Hfa e.1 (proj2 (list_elem_of_In _ _) (in_map fst _ _ He))). symmetry.
      apply (py_eq_trans y Hwy x e.1 Hw Hwe Hy E). }
    split; [|split].
    + rewrite Hkeys. exact Hss.
    + apply Forall_forall. intros e He. apply list_elem_of_In, in_app_or in He.
      destruct He as [He | [<- | He]].
      * destruct (Hall e) as (Hwe & Hcount & c0 & H0 & E0).
        { rewrite Hd. apply list_elem_of_In, in_or_app. left. exact He. }
        split; [exact Hwe|]. split.
        -- rewrite copies_of_snoc. fold x. rewrite (Hd1 e He). lia.
        -- exists c0. split; [apply in_or_app; left; exact H0 | exact E0].
      * destruct (Hall (y, n)) as (_ & Hcount & _).
        { rewrite Hd. apply list_elem_of_In, in_or_app. right. left. reflexivity. }
        cbn [fst snd] in *. split; [exact Hwy|]. split.
        -- rewrite copies_of_snoc. fold x. rewrite Hxy. lia.
        -- exists c. split; [apply in_or_app; right; left; reflexivity | exact Hxy].
      * destruct (Hall e) as (Hwe & Hcount & c0 & H0 & E0).
        { rewrite Hd. apply list_elem_of_In, in_or_app. right. right. exact He. }
        split; [exact Hwe|]. split.
        -- rewrite copies_of_snoc. fold x. rewrite (Hd2 e He). lia.
        -- exists c0. split; [apply in_or_app; left; exact H0 | exact E0].
    + rewrite Hkeys. intros c0 H0. apply in_app_or in H0 as [H0 | [<- | []]].
      * apply Hcov, H0.
      * fold x. apply existsb_exists. exists y. split; [|exact Hy].
        rewrite Hd, map_app. apply in_or_app. right. left. reflexivity.
Qed.

Lemma counted_fold (calls : list ToolCallInfo) :
  Forall (fun c => is_args (params c) = true) calls ->
  forall d done,
    Forall (fun c => is_args (params c) = true) done ->
    counted d done ->
    exists d',
      foldM (fun d call => count_identity d (batch_identity call)) calls d = Ok d'
      /\ counted d' (done ++ calls).
Proof.
  induction 1 as [|c calls Hc _ IH]; intros d done Hdone Hinv.
  - exists d. rewrite app_nil_r. split; [reflexivity | exact Hinv].
  - cbn [foldM]. unfold count_identity at 2.
    destruct (batch_identity_args c Hc) as (n & _ & Hh & Hid).
    rewrite Hid, hashable_identity, Hh, <- Hid. cbn [mbind result_bind].
    destruct (IH (count_up d (batch_identity c)) (done ++ [c])) as (d' & Hf & Hinv').
    + apply Forall_app. split; [exact Hdone | constructor; [exact Hc | constructor]].
    + apply counted_step; assumption.
    + exists d'. split; [exact Hf|]. rewrite <- app_assoc in Hinv'. exact Hinv'.
Qed.

Lemma counted_nil : counted [] [].
Proof.
  split; [constructor|]. split; [constructor|]. intros c0 [].
Qed.

Lemma batch_excess_zero (bt : Z) (d : list (pyval * Z)) :
  batch_excess bt d = 0 <-> Forall (fun e => e.2 <= bt) d.
Proof.
  induction d as [|e d IH]; simpl.
  - split; [constructor | reflexivity].
  - pose proof (batch_excess_nonneg bt d) as Hpos. rewrite Forall_cons. split.
    + intros H. split; [lia|]. apply IH. lia.
    + intros [H1 H2]. apply IH in H2. lia.
Qed.

Lemma counted_excess (bt : Z) (d : list (pyval * Z)) (calls : list ToolCallInfo) :
  Forall (fun c => is_args (params c) = true) calls ->
  counted d calls ->
  batch_excess bt d = 0
  <-> forall c, In c calls -> copies_of calls (batch_identity c) <= bt.
Proof.
  intros Hargs (_ & Hall & Hcov). rewrite batch_excess_zero.
  rewrite Forall_forall in Hall. rewrite Forall_forall in Hargs.
  assert (Hargs' : Forall (fun c => is_args (params c) = true) calls)
    by (apply Forall_forall; exact Hargs).
  split.
  - intros Hle c Hc. pose proof (Hcov c Hc) as Hex.
    apply existsb_exists in Hex as (k & Hk & Ek).
    apply in_map_iff in Hk as (e & <- & He). apply list_elem_of_In in He.
    destruct (Hall e He) as (Hwe & Hcount & _).
    rewrite Forall_forall in Hle. pose proof (Hle e He) as Hb.
    rewrite <- (copies_of_cong calls e.1 (batch_identity c) Hargs' Hwe
                  (wf_batch_identity c (Hargs c (proj2 (list_elem_of_In _ _) Hc))) Ek).
    lia.
  - intros Hle. apply Forall_forall. intros e He.
    destruct (Hall e He) as (Hwe & Hcount & c0 & H0 & E0).
    pose proof (Hle c0 H0) as Hb.
    rewrite (copies_of_cong calls (batch_identity c0) e.1 Hargs'
               (wf_batch_identity c0 (Hargs c0 (proj2 (list_elem_of_In _ _) H0))) Hwe E0)
      in Hb.
    lia.
Qed.

Lemma filter_filter {A} (f g : A -> bool) (l : list A) :
  List.filter f (List.filter g l) = List.filter (fun a => g a && f a) l.
Proof.
  induction l as [|a l IH]; [reflexivity|]. simpl.
  destruct (g a); simpl; [destruct (f a)|]; rewrite ?IH; reflexivity.
Qed.

Lemma copies_in_turn_spec (tool_calls : list ToolCallInfo) (c : ToolCallInfo) :
  copies_of (List.filter (fun c' => assistant_turn_idx c' =? assistant_turn_idx c)
                         tool_calls)
            (batch_identity c)
  = copies_in_turn tool_calls c.
Proof. unfold copies_of, copies_in_turn. rewrite filter_filter. reflexivity. Qed.

(** *** One turn, and all of them *)

Lemma process_turn_exact (tool_calls : list ToolCallInfo) (ws bt : Z)
    (w b : Z) (rbt : gmap Z Z) (t : Z) (st' : Z * Z * gmap Z Z) :
  Forall (fun c => is_args (params c) = true) tool_calls ->
  process_turn (group_by_turn tool_calls) ws bt (w, b, rbt) t = Ok st' ->
  exists db,
    st'.1.1 = w + repeats_in tool_calls ws [t]
    /\ st'.1.2 = b + db
    /\ 0 <= db
    /\ (db = 0 <-> forall c, In c tool_calls -> assistant_turn_idx c = t ->
                             copies_in_turn tool_calls c <= bt).
Proof.
  intros Hargs. unfold process_turn. rewrite (group_by_turn_lookup tool_calls t).
  set (calls := List.filter (fun c => assistant_turn_idx c =? t) tool_calls).
  assert (Hin : forall c, In c calls <-> In c tool_calls /\ assistant_turn_idx c = t).
  { intros c. unfold calls. rewrite filter_In, Z.eqb_eq. reflexivity. }
  assert (Hca : Forall (fun c => is_args (params c) = true) calls).
  { apply Forall_forall. intros c Hc. apply list_elem_of_In, Hin in Hc as [Hc _].
    rewrite Forall_forall in Hargs. apply Hargs, list_elem_of_In, Hc. }
  destruct (foldM_total add_previous
              (flat_map (fun prev_turn => default [] (group_by_turn tool_calls !! prev_turn))
                        (range (Z.max 1 (t - ws)) t)) []) as [prev Hprev].
  { apply Forall_forall. intros c _ s. apply add_previous_total. }
  rewrite Hprev. cbn [mbind result_bind].
  rewrite (window_fold_exact prev t calls Hca w 0 rbt). cbn [mbind result_bind fst snd].
  destruct (counted_fold calls Hca [] [] (Forall_nil_2 _) counted_nil)
    as (d & Hd & Hinv).
  rewrite Hd. cbn [mbind result_bind]. rewrite check_batch_fold. cbn [fst snd].
  intros [= <-]. cbn [fst snd]. exists (batch_excess bt d).
  split.
  { unfold repeats_in. cbn [foldr]. rewrite Z.add_0_r. fold calls. f_equal. f_equal.
    f_equal. apply List.filter_ext_in. intros c Hc. apply Hin in Hc as [Hc Ht].
    rewrite Forall_forall in Hargs.
    apply (window_hit tool_calls ws t c prev); try assumption.
    - apply Forall_forall; exact Hargs.
    - apply Hargs, list_elem_of_In, Hc. }
  split; [reflexivity|]. split; [apply batch_excess_nonneg|].
  cbn [app] in Hinv. rewrite (counted_excess bt d calls Hca Hinv). split.
  - intros H c Hc Ht. rewrite <- copies_in_turn_spec. rewrite Ht. fold calls.
    apply H, Hin. split; assumption.
  - intros H c Hc. apply Hin in Hc as [Hc Ht].
    pose proof (H c Hc Ht) as Hle. rewrite <- copies_in_turn_spec in Hle.
    rewrite Ht in Hle. exact Hle.
Qed.

Lemma repeats_in_cons (tool_calls : list ToolCallInfo) (ws t : Z) (ts : list Z) :
  repeats_in tool_calls ws (t :: ts)
  = repeats_in tool_calls ws [t] + repeats_in tool_calls ws ts.
Proof. unfold repeats_in. cbn [foldr]. lia. Qed.

Lemma turns_exact (tool_calls : list ToolCallInfo) (ws bt : Z) (ts : list Z) :
  Forall (fun c => is_args (params c) = true) tool_calls ->
  forall (w b : Z) (rbt : gmap Z Z) (st' : Z * Z * gmap Z Z),
    foldM (process_turn (group_by_turn tool_calls) ws bt) ts (w, b, rbt) = Ok st' ->
    exists db,
      st'.1.1 = w + repeats_in tool_calls ws ts
      /\ st'.1.2 = b + db
      /\ 0 <= db
      /\ (db = 0 <-> forall c, In c tool_calls -> In (assistant_turn_idx c) ts ->
                               copies_in_turn tool_calls c <= bt).
Proof.
  intros Hargs. induction ts as [|t ts IH]; intros w b rbt st'.
  - cbn [foldM]. intros [= <-]. exists 0. cbn [fst snd]. unfold repeats_in. cbn [foldr].
    split; [lia|]. split; [lia|]. split; [lia|]. split; [intros _ c _ []|reflexivity].
  - cbn [foldM].
    destruct (process_turn (group_by_turn tool_calls) ws bt (w, b, rbt) t)
      as [[[w1 b1] rbt1]|e] eqn:E; [|discriminate].
    cbn [mbind result_bind]. intros Hrest.
    destruct (process_turn_exact tool_calls ws bt w b rbt t _ Hargs E)
      as (db1 & Hw1 & Hb1 & Hpos1 & Hz1).
    cbn [fst snd] in Hw1, Hb1.
    destruct (IH w1 b1 rbt1 st' Hrest) as (db2 & Hw2 & Hb2 & Hpos2 & Hz2).
    exists (db1 + db2). rewrite repeats_in_cons.
    split; [lia|]. split; [lia|]. split; [lia|]. split.
    + intros Hsum c Hc [Et|Ht].
      * apply Hz1; [lia | exact Hc | symmetry; exact Et].
      * apply Hz2; [lia | exact Hc | exact Ht].
    + intros H.
      assert (db1 = 0).
      { apply Hz1. intros c Hc Ht. apply H; [exact Hc | left; symmetry; exact Ht]. }
      assert (db2 = 0).
      { apply Hz2. intros c Hc Ht. apply H; [exact Hc | right; exact Ht]. }
      lia.
Qed.

Lemma count_by_turns (P : ToolCallInfo -> bool) (l : list ToolCallInfo) (ts : list Z) :
  NoDup ts ->
  foldr (fun t acc =>
           Z.of_nat (length (List.filter P
                               (List.filter (fun c => assistant_turn_idx c =? t) l))) + acc)
        0 ts
  = Z.of_nat (length (List.filter
                        (fun c => existsb (Z.eqb (assistant_turn_idx c)) ts && P c) l)).
Proof.
  induction 1 as [|t ts Hnotin _ IH].
  - cbn [foldr existsb]. rewrite filter_none; [reflexivity|]. intros; reflexivity.
  - cbn [foldr]. rewrite IH. rewrite filter_filter, <- Nat2Z.inj_add. f_equal.
    clear IH. cbn [existsb]. induction l as [|c l IHl]; [reflexivity|].
    cbn [List.filter].
    destruct (Z.eqb_spec (assistant_turn_idx c) t) as [Et|Et].
    + assert (Hex : existsb (Z.eqb (assistant_turn_idx c)) ts = false).
      { destruct (existsb (Z.eqb (assistant_turn_idx c)) ts) eqn:Ex; [|reflexivity].
        apply existsb_exists in Ex as (t' & Ht' & Eq). apply Z.eqb_eq in Eq.
        exfalso. apply Hnotin. apply list_elem_of_In. congruence. }
      rewrite Hex. cbn [orb andb]. destruct (P c); cbn [length]; rewrite <- IHl; lia.
    + cbn [orb andb]. destruct (existsb (Z.eqb (assistant_turn_idx c)) ts && P c);
        cbn [length]; rewrite <- IHl; lia.
Qed.

Lemma repeats_in_turns (tool_calls : list ToolCallInfo) (ws : Z) (ts : list Z) :
  NoDup ts ->
  repeats_in tool_calls ws ts
  = Z.of_nat (length (List.filter
                        (fun c => existsb (Z.eqb (assistant_turn_idx c)) ts
                                  && repeats_earlier tool_calls ws c)
                        tool_calls)).
Proof. apply (count_by_turns (repeats_earlier tool_calls ws) tool_calls). Qed.

(** What the two counts of [compute_tcrr_windowed] are. *)
Lemma compute_exact (tool_calls : list ToolCallInfo) (ws bt : Z) :
  Forall (fun c => is_args (params c) = true) tool_calls ->
  exists r,
    compute_tcrr_windowed tool_calls ws bt = Ok r
    /\ window_redundant_calls r = window_repeats tool_calls ws
    /\ 0 <= batch_redundant_calls r
    /\ (batch_redundant_calls r = 0
        <-> forall c, In c tool_calls -> copies_in_turn tool_calls c <= bt)
    /\ redundant_calls r = window_redundant_calls r + batch_redundant_calls r
    /\ redundancy_ratio r = ratio_of (redundant_calls r) (Z.of_nat (length tool_calls)).
Proof.
  intros Hargs. destruct tool_calls as [|c0 l0] eqn:El.
  - eexists. split; [reflexivity|]. cbn.
    split; [reflexivity|]. split; [lia|]. split; [|split; reflexivity].
    split; [intros _ c []|reflexivity].
  - rewrite <- El in *. assert (Hne : tool_calls <> []) by (rewrite El; discriminate).
    clear El. rewrite (compute_nonempty _ _ _ Hne).
    set (m := group_by_turn tool_calls).
    destruct (sorted_turns_spec m) as (Hnd & Hset & _).
    set (ts := merge_sort Z.le (map fst (map_to_list m))) in *.
    destruct (foldM_total (process_turn m ws bt) ts (0, 0, ∅)) as [st Hst].
    { apply Forall_forall. intros t _ st. apply process_turn_total. exact Hargs. }
    rewrite Hst. cbn [mbind result_bind].
    destruct (turns_exact tool_calls ws bt ts Hargs 0 0 ∅ st Hst)
      as (db & Hw & Hb & Hpos & Hz).
    assert (Hcover : forall c, In c tool_calls -> In (assistant_turn_idx c) ts).
    { intros c Hc. apply list_elem_of_In.
      apply (proj1 (elem_of_list_to_set (C := gset Z) _ _)).
      rewrite Hset. unfold m. rewrite group_by_turn_dom.
      apply elem_of_list_to_set, list_elem_of_fmap. exists c.
      split; [reflexivity | apply list_elem_of_In; exact Hc]. }
    eexists. split; [reflexivity|].
    cbn [window_redundant_calls batch_redundant_calls redundant_calls redundancy_ratio].
    split.
    { rewrite Hw, (repeats_in_turns tool_calls ws ts Hnd). unfold window_repeats.
      rewrite Z.add_0_l. f_equal. f_equal. apply List.filter_ext_in. intros c Hc.
      replace (existsb (Z.eqb (assistant_turn_idx c)) ts) with true; [reflexivity|].
      symmetry. apply existsb_exists. exists (assistant_turn_idx c).
      split; [apply Hcover, Hc | apply Z.eqb_refl]. }
    split; [lia|]. split; [|split; reflexivity].
    rewrite Hb, Z.add_0_l. rewrite Hz. split.
    + intros H c Hc. apply H; [exact Hc | apply Hcover, Hc].
    + intros H c Hc _. apply H, Hc.
Qed.

Lemma same_call_sym (a b : ToolCallInfo) :
  is_args (params a) = true -> is_args (params b) = true ->
  same_call a b = same_call b a.
Proof.
  intros Ha Hb. apply py_eq_sym; apply wf_batch_identity; assumption.
Qed.

Lemma all_distinct_pairs (l : list ToolCallInfo) :
  Forall (fun c => is_args (params c) = true) l ->
  all_distinct l = true ->
  forall i j a b, l !! i = Some a -> l !! j = Some b -> i <> j -> same_call a b = false.
Proof.
  intros Hargs Hd.
  assert (Hlt : forall i j a b, l !! i = Some a -> l !! j = Some b -> (i < j)%nat ->
                                same_call a b = false).
  { clear Hargs. induction l as [|c l IH]; intros i j a b Hi Hj Hij.
    - rewrite lookup_nil in Hi. discriminate.
    - cbn [all_distinct] in Hd. apply andb_true_iff in Hd as [Hc Hd].
      destruct j as [|j]; [lia|]. cbn in Hj. destruct i as [|i].
      + cbn in Hi. injection Hi as <-. rewrite forallb_forall in Hc.
        apply negb_true_iff, Hc, list_elem_of_In, list_elem_of_lookup. eauto.
      + cbn in Hi. apply (IH Hd i j a b Hi Hj). lia. }
  intros i j a b Hi Hj Hne. rewrite Forall_forall in Hargs.
  destruct (Nat.lt_ge_cases i j) as [Hij|Hij].
  - apply (Hlt i j a b Hi Hj Hij).
  - rewrite same_call_sym.
    + apply (Hlt j i b a Hj Hi). lia.
    + apply Hargs, list_elem_of_lookup. eauto.
    + apply Hargs, list_elem_of_lookup. eauto.
Qed.

Lemma filter_at_most_one {A} (f : A -> bool) (l : list A) :
  (forall i j a b, l !! i = Some a -> l !! j = Some b -> (i < j)%nat ->
                   f a = true -> f b = true -> False) ->
  (length (List.filter f l) <= 1)%nat.
Proof.
  induction l as [|a l IH]; intros H; [simpl; lia|].
  assert (Hl : (length (List.filter f l) <= 1)%nat).
  { apply IH. intros i j x y Hi Hj Hij. apply (H (S i) (S j) x y Hi Hj). lia. }
  simpl. destruct (f a) eqn:Ea; [|exact Hl].
  rewrite filter_none; [simpl; lia|].
  intros b Hb. apply list_elem_of_In, list_elem_of_lookup in Hb as [j Hj].
  destruct (f b) eqn:Eb; [|reflexivity].
  exfalso. apply (H 0%nat (S j) a b eq_refl Hj); [lia | exact Ea | exact Eb].
Qed.

Lemma distinct_no_repeat (l : list ToolCallInfo) (ws : Z) (c : ToolCallInfo) :
  Forall (fun c => is_args (params c) = true) l ->
  all_distinct l = true ->
  In c l ->
  repeats_earlier l ws c = false.
Proof.
  intros Hargs Hd Hc. destruct (repeats_earlier l ws c) eqn:E; [|reflexivity].
  unfold repeats_earlier in E. apply existsb_exists in E as (e & He & E).
  apply andb_true_iff in E as [Ew Es].
  apply list_elem_of_In, list_elem_of_lookup in He as [i Hi].
  apply list_elem_of_In, list_elem_of_lookup in Hc as [j Hj].
  destruct (Nat.eq_dec i j) as [->|Hne].
  - rewrite Hi in Hj. injection Hj as ->. unfold in_window in Ew.
    apply andb_true_iff in Ew as [_ Ew]. apply Z.ltb_lt in Ew. lia.
  - rewrite (all_distinct_pairs l Hargs Hd i j e c Hi Hj Hne) in Es. discriminate.
Qed.

Lemma distinct_one_copy (l : list ToolCallInfo) (c : ToolCallInfo) :
  Forall (fun c => is_args (params c) = true) l ->
  all_distinct l = true ->
  In c l ->
  copies_in_turn l c <= 1.
Proof.
  intros Hargs Hd Hc. unfold copies_in_turn.
  change 1 with (Z.of_nat 1). apply Nat2Z.inj_le, filter_at_most_one.
  intros i j a b Hi Hj Hij Ea Eb.
  apply andb_true_iff in Ea as [_ Ea]. apply andb_true_iff in Eb as [_ Eb].
  rewrite Forall_forall in Hargs.
  assert (Ha : is_args (params a) = true) by (apply Hargs, list_elem_of_lookup; eauto).
  assert (Hb : is_args (params b) = true) by (apply Hargs, list_elem_of_lookup; eauto).
  assert (Hcc : is_args (params c) = true) by (apply Hargs, list_elem_of_In, Hc).
  assert (Hab : same_call a b = true).
  { rewrite (same_call_sym b c Hb Hcc) in Eb. unfold same_call in *.
    apply (py_eq_trans _ (wf_batch_identity a Ha) _ _
             (wf_batch_identity c Hcc) (wf_batch_identity b Hb) Ea Eb). }
  rewrite (all_distinct_pairs l (proj2 (Forall_forall _ _) Hargs) Hd i j a b Hi Hj) in Hab;
    [discriminate | lia].
Qed.

(** The window count of [compute_tcrr_windowed] is the number of calls
    that repeat an earlier one: the calls for which a call with the same
    name and the same canonical arguments was made in one of the
    [window_size] assistant turns before their own, turn 0 left out. The
    count depends neither on the batch threshold nor on the order of the
    calls within a turn, and a call counts once however many earlier
    calls it repeats. *)
Theorem window_counts_repeats :
  forall (tool_calls : list ToolCallInfo) (window_sz batch_threshold : Z),
    Forall (fun c => is_args (params c) = true) tool_calls ->
    exists r,
      compute_tcrr_windowed tool_calls window_sz batch_threshold = Ok r
      /\ window_redundant_calls r = window_repeats tool_calls window_sz.
Proof.
  intros tool_calls ws bt Hargs.
  destruct (compute_exact tool_calls ws bt Hargs) as (r & Hr & Hw & _).
  exists r. split; [exact Hr | exact Hw].
Qed.

(** [window_counts_repeats] on a balance request made in the turns 1, 2,
    6 and 9: the requests of the turns 2 and 9 repeat one of the three
    turns before them, the request of turn 6 does not. *)
Lemma window_counts_repeats_witness :
  exists r,
    compute_tcrr_windowed
      [balance_of "A1" 1; balance_of "A1" 2; balance_of "A1" 6; balance_of "A1" 9] 3 2
    = Ok r
    /\ window_redundant_calls r = 2.
Proof.
  destruct (window_counts_repeats
              [balance_of "A1" 1; balance_of "A1" 2; balance_of "A1" 6; balance_of "A1" 9]
              3 2)
    as (r & Hr & Hw).
  { repeat constructor. }
  exists r. split; [exact Hr|]. rewrite Hw. reflexivity.
Defined.

(** The batch count of [compute_tcrr_windowed] is never negative, and it
    is zero exactly when no call has more than [batch_threshold] copies
    (calls with the same name and the same canonical arguments, itself
    included) within its own assistant turn. *)
Theorem batch_flags_excess_copies :
  forall (tool_calls : list ToolCallInfo) (window_sz batch_threshold : Z),
    Forall (fun c => is_args (params c) = true) tool_calls ->
    exists r,
      compute_tcrr_windowed tool_calls window_sz batch_threshold = Ok r
      /\ 0 <= batch_redundant_calls r
      /\ (batch_redundant_calls r = 0
          <-> forall c, In c tool_calls -> copies_in_turn tool_calls c <= batch_threshold).
Proof.
  intros tool_calls ws bt Hargs.
  destruct (compute_exact tool_calls ws bt Hargs) as (r & Hr & _ & Hpos & Hz & _).
  exists r. split; [exact Hr|]. split; [exact Hpos | exact Hz].
Qed.

(** [batch_flags_excess_copies] on three copies of a request in one
    turn, one more than the threshold allows: the batch count is not
    zero. *)
Lemma batch_flags_excess_copies_witness :
  exists r,
    compute_tcrr_windowed
      [balance_of "A1" 1; balance_of "A1" 1; balance_of "A1" 1] 3 2 = Ok r
    /\ 0 <= batch_redundant_calls r
    /\ batch_redundant_calls r <> 0.
Proof.
  destruct (batch_flags_excess_copies
              [balance_of "A1" 1; balance_of "A1" 1; balance_of "A1" 1] 3 2)
    as (r & Hr & Hpos & Hz).
  { repeat constructor. }
  exists r. split; [exact Hr|]. split; [exact Hpos|].
  intros H0.
  pose proof (proj1 Hz H0 (balance_of "A1" 1) (or_introl eq_refl)) as Hle.
  vm_compute in Hle. apply Hle. reflexivity.
Defined.

(** Calls that are all different are never redundant: when no two calls
    of the transcript have the same name and the same canonical
    arguments (whatever their turns), and the batch threshold is at
    least 1, [compute_tcrr_windowed] reports no redundant call, a ratio
    of 0 and 0 for every turn. *)
Theorem distinct_calls_not_redundant :
  forall (tool_calls : list ToolCallInfo) (window_sz batch_threshold : Z),
    Forall (fun c => is_args (params c) = true) tool_calls ->
    all_distinct tool_calls = true ->
    1 <= batch_threshold ->
    exists r,
      compute_tcrr_windowed tool_calls window_sz batch_threshold = Ok r
      /\ window_redundant_calls r = 0
      /\ batch_redundant_calls r = 0
      /\ redundant_calls r = 0
      /\ (redundancy_ratio r == 0)%Q
      /\ map_Forall (fun _ v => v = 0) (redundant_by_turn r).
Proof.
  intros tool_calls ws bt Hargs Hd Hbt.
  destruct (compute_exact tool_calls ws bt Hargs) as (r & Hr & Hw & Hpos & Hz & Hsum & Hq).
  destruct (compute_accounted tool_calls ws bt Hargs)
    as (r' & Hr' & _ & _ & _ & _ & _ & _ & _ & Htot & _ & Hnn).
  rewrite Hr in Hr'. injection Hr' as <-.
  assert (Hw0 : window_redundant_calls r = 0).
  { rewrite Hw. unfold window_repeats. rewrite filter_none; [reflexivity|].
    intros c Hc. apply distinct_no_repeat; assumption. }
  assert (Hb0 : batch_redundant_calls r = 0).
  { apply Hz. intros c Hc. pose proof (distinct_one_copy tool_calls c Hargs Hd Hc). lia. }
  assert (Hr0 : redundant_calls r = 0) by lia.
  exists r. split; [exact Hr|]. split; [exact Hw0|]. split; [exact Hb0|].
  split; [exact Hr0|]. split.
  { rewrite Hq, Hr0. unfold ratio_of. destruct (_ >? 0); [|reflexivity].
    unfold Qdiv. apply Qmult_0_l. }
  rewrite Hr0 in Htot. clear -Htot Hnn.
  revert Htot Hnn. unfold counter_total.
  intros Htot Hnn t v Htv.
  assert (Hall : Forall (fun kv : Z * Z => 0 <= kv.2) (map_to_list (redundant_by_turn r))).
  { apply Forall_forall. intros [k x] Hkx. apply elem_of_map_to_list in Hkx.
    apply (Hnn k x Hkx). }
  apply elem_of_map_to_list in Htv.
  revert Htot Hall Htv. generalize (map_to_list (redundant_by_turn r)) as l.
  induction l as [|[k x] l IH]; intros Htot Hall Htv.
  - apply elem_of_nil in Htv. contradiction.
  - apply Forall_cons in Hall as [Hx Hall]. cbn [map foldr snd] in Htot.
    assert (Hrest : 0 <= foldr Z.add 0 (map snd l)).
    { clear -Hall. induction Hall as [|[k' x'] l' Hx' _ IH']; simpl in *; lia. }
    cbn [snd] in Hx. apply elem_of_cons in Htv as [Heq|Htv].
    + injection Heq as -> ->. lia.
    + apply IH; [lia | exact Hall | exact Htv].
Qed.

(** [distinct_calls_not_redundant] on balance requests for three
    accounts, two of them in the same turn. *)
Lemma distinct_calls_not_redundant_witness :
  exists r,
    compute_tcrr_windowed
      [balance_of "A1" 1; balance_of "A2" 1; balance_of "A3" 2] 3 2 = Ok r
    /\ redundant_calls r = 0
    /\ (redundancy_ratio r == 0)%Q.
Proof.
  destruct (distinct_calls_not_redundant
              [balance_of "A1" 1; balance_of "A2" 1; balance_of "A3" 2] 3 2)
    as (r & Hr & _ & _ & H0 & Hq & _).
  { repeat constructor. }
  { reflexivity. }
  { lia. }
  exists r. split; [exact Hr|]. split; [exact H0 | exact Hq].
Defined.

End RepeatFacts.

(** ** The two canonical forms compared *)

Module AgreementFacts.
Import PyFacts NormFacts FlatArgs.

Lemma items_of_scalars (l : list pyval) :
  forallb scalar l = true -> mapM Tcrr.normalize_item l = Ok l.
Proof.
  induction l as [|x l IH]; [reflexivity|]. cbn [forallb]. intros H.
  apply andb_true_iff in H as [Hx Hl]. rewrite mapM_cons, (IH Hl).
  destruct x; try discriminate; reflexivity.
Qed.

Lemma values_agree (v : pyval) :
  flat_lists v = true ->
  (forall d, v = PDict d ->
     Tcrr.normalized_params (PDict d) = AgentMetrics.normalized_params (PDict d)) ->
  Tcrr.normalize_value v = AgentMetrics.normalize_value v.
Proof.
  intros Hf Hd. destruct v as [| b | z | s | l | l | d]; try reflexivity.
  - cbn [flat_lists] in Hf. unfold Tcrr.normalize_value, AgentMetrics.normalize_value.
    rewrite (items_of_scalars l Hf). reflexivity.
  - apply (Hd d eq_refl).
Qed.

(** On arguments whose lists hold scalars only, at every depth of
    nested mappings, [normalized_params] of [tcrr.py] and
    [normalized_params] of [agent_metrics.py] give the same outcome: the
    same canonical form, or the same exception. The two metrics then
    give a call the same identity. *)
Theorem normalizers_agree_on_flat_lists :
  forall d : list (pyval * pyval),
    flat_lists (PDict d) = true ->
    Tcrr.normalized_params (PDict d) = AgentMetrics.normalized_params (PDict d).
Proof.
  intros d. remember (PDict d) as v eqn:Ev. revert d Ev.
  induction v as [v IH] using pyval_size_ind. intros d -> Hf.
  rewrite tcrr_normalized_dict, am_normalized_dict.
  replace (map (fun kv : pyval * pyval =>
                  let '(k, v) := kv in (k, v, Tcrr.normalize_value v)) d)
    with (map (fun kv : pyval * pyval =>
                 let '(k, v) := kv in (k, v, AgentMetrics.normalize_value v)) d);
    [reflexivity|].
  apply map_ext_in. intros [k v] Hin. f_equal. symmetry.
  cbn [flat_lists] in Hf. rewrite forallb_forall in Hf.
  apply values_agree; [apply (Hf (k, v) Hin)|].
  intros d' ->.
  apply (IH (PDict d') (proj2 (pysize_dict_entry k (PDict d') d Hin)) d' eq_refl).
  apply (Hf (k, PDict d') Hin).
Qed.

(** [normalizers_agree_on_flat_lists] on a mapping with a nested mapping
    and a list of numbers. *)
Lemma normalizers_agree_on_flat_lists_witness :
  Tcrr.normalized_params
    (PDict [(PStr "order", PDict [(PStr "id", PStr "W1")]);
            (PStr "items", PList [PInt 3; PInt 1; PInt 2])])
  = AgentMetrics.normalized_params
      (PDict [(PStr "order", PDict [(PStr "id", PStr "W1")]);
              (PStr "items", PList [PInt 3; PInt 1; PInt 2])]).
Proof.
  apply (normalizers_agree_on_flat_lists
           [(PStr "order", PDict [(PStr "id", PStr "W1")]);
            (PStr "items", PList [PInt 3; PInt 1; PInt 2])]).
  reflexivity.
Defined.

(** A list of lists is where the two part: [tcrr.py] renders the inner
    list as a tuple of strings, [agent_metrics.py] keeps it as a list. *)
Example normalizers_differ_on_nested_lists :
  Tcrr.normalized_params nested_list_args
  = Ok (PTuple [PTuple [PStr "ids"; PTuple [PTuple [PStr "1"; PStr "2"]]]])
  /\ AgentMetrics.normalized_params nested_list_args
     = Ok (PTuple [PTuple [PStr "ids"; PTuple [PList [PInt 1; PInt 2]]]]).
Proof. split; reflexivity. Qed.

End AgreementFacts.

(** ** The report as a dict *)

Module ReportDictFacts.
Import AgentMetrics ReportDict.

Lemma pass_hat_key_inj (k k' : Z) : pass_hat_key k = pass_hat_key k' -> k = k'.
Proof.
  unfold pass_hat_key. cbn [py_str py_repr]. intros H. cbn in H.
  injection H as H. exact (pretty_Z_inj k k' H).
Qed.

Lemma fixed_keys_NoDup (self : AgentMetrics) : NoDup (fixed_entries self).*1.
Proof. cbn. apply (bool_decide_unpack _). vm_compute. reflexivity. Qed.

Lemma pass_hat_key_fresh (self : AgentMetrics) (k : Z) :
  pass_hat_key k ∉ (fixed_entries self).*1.
Proof.
  unfold pass_hat_key. intros H. apply list_elem_of_In in H. cbn in H.
  repeat (destruct H as [H|H]; [discriminate H|]). exact H.
Qed.

Lemma file_lookup_ne (l : list (Z * Q)) (data : gmap string Value) (key : string) :
  (forall kv, kv ∈ l -> pass_hat_key kv.1 <> key) ->
  fold_left file_pass_hat l data !! key = data !! key.
Proof.
  revert data. induction l as [|kv l IH]; intros data H; [reflexivity|].
  cbn [fold_left]. rewrite IH.
  - unfold file_pass_hat. apply lookup_insert_ne, H. left.
  - intros kv' Hkv'. apply H. right. exact Hkv'.
Qed.

Lemma file_lookup_in (l : list (Z * Q)) (data : gmap string Value) (k : Z) (x : Q) :
  NoDup l.*1 -> (k, x) ∈ l ->
  fold_left file_pass_hat l data !! pass_hat_key k = Some (VFloat x).
Proof.
  revert data. induction l as [|[k' x'] l IH]; intros data Hnd Hin.
  - apply elem_of_nil in Hin. contradiction.
  - cbn [fmap list_fmap fst] in Hnd. apply NoDup_cons in Hnd as [Hk' Hnd].
    cbn [fold_left]. apply elem_of_cons in Hin as [Heq|Hin].
    + injection Heq as <- <-. rewrite file_lookup_ne.
      * unfold file_pass_hat. apply lookup_insert_eq.
      * intros [k2 x2] H2 Hkey. apply pass_hat_key_inj in Hkey. cbn [fst] in Hkey.
        subst k2. apply Hk'. apply list_elem_of_fmap. exists (k, x2). split; [reflexivity|].
        exact H2.
    + apply IH; assumption.
Qed.

Lemma file_size (l : list (Z * Q)) (data : gmap string Value) :
  NoDup l.*1 ->
  (forall kv, kv ∈ l -> data !! pass_hat_key kv.1 = None) ->
  size (fold_left file_pass_hat l data) = (size data + length l)%nat.
Proof.
  revert data. induction l as [|[k x] l IH]; intros data Hnd Hfresh.
  - simpl. lia.
  - cbn [fmap list_fmap fst] in Hnd. apply NoDup_cons in Hnd as [Hk Hnd].
    cbn [fold_left length]. rewrite IH.
    + unfold file_pass_hat. cbn [fst snd]. rewrite map_size_insert_None; [lia|].
      apply (Hfresh (k, x)). left.
    + exact Hnd.
    + intros [k2 x2] H2. unfold file_pass_hat. cbn [fst snd].
      rewrite lookup_insert_ne.
      * apply (Hfresh (k2, x2)). right. exact H2.
      * intros Hkey. apply pass_hat_key_inj in Hkey. subst k2. apply Hk.
        apply list_elem_of_fmap. exists (k, x2). split; [reflexivity | exact H2].
Qed.

Lemma file_lookup_cases (l : list (Z * Q)) (data : gmap string Value)
    (key : string) (v : Value) :
  fold_left file_pass_hat l data !! key = Some v ->
  data !! key = Some v
  \/ exists k x, (k, x) ∈ l /\ key = pass_hat_key k /\ v = VFloat x.
Proof.
  revert data. induction l as [|[k x] l IH]; intros data H; [left; exact H|].
  cbn [fold_left] in H. apply IH in H as [H | (k' & x' & Hin & Hk & Hv)].
  - unfold file_pass_hat in H. cbn [fst snd] in H.
    destruct (decide (pass_hat_key k = key)) as [<-|Hne].
    + rewrite lookup_insert_eq in H. injection H as <-.
      right. exists k, x. split; [left|]. split; reflexivity.
    + rewrite lookup_insert_ne in H by exact Hne. left. exact H.
  - right. exists k', x'. split; [right; exact Hin|]. split; assumption.
Qed.

(** [as_dict] loses nothing: each of the 28 fields of the literal is
    found under its name with the field's value, each [k] of
    [pass_hat_ks] is found under [pass_hat_<k>] with its value, and the
    dict has exactly 28 entries plus one per [k]: no [pass_hat_<k>] key
    overwrites a field or another [k], and there is no other key. *)
Theorem as_dict_keeps_every_entry :
  forall self : AgentMetrics,
    (forall key v, (key, v) ∈ fixed_entries self -> as_dict self !! key = Some v)
    /\ (forall k x, pass_hat_ks self !! k = Some x ->
                    as_dict self !! pass_hat_key k = Some (VFloat x))
    /\ size (as_dict self) = (28 + size (pass_hat_ks self))%nat
    /\ (forall key v,
          as_dict self !! key = Some v ->
          (key, v) ∈ fixed_entries self
          \/ exists k x, pass_hat_ks self !! k = Some x
                         /\ key = pass_hat_key k /\ v = VFloat x).
Proof.
  intros self. unfold as_dict.
  pose proof (NoDup_fst_map_to_list (pass_hat_ks self)) as Hnd.
  split; [|split; [|split]].
  - intros key v Hin. rewrite file_lookup_ne.
    + apply elem_of_list_to_map_1; [apply fixed_keys_NoDup | exact Hin].
    + intros kv _ Hkey. apply (pass_hat_key_fresh self kv.1). rewrite Hkey.
      apply list_elem_of_fmap. exists (key, v). split; [reflexivity | exact Hin].
  - intros k x Hk. apply file_lookup_in; [exact Hnd|].
    apply elem_of_map_to_list. exact Hk.
  - rewrite file_size.
    + rewrite map_size_list_to_map by apply fixed_keys_NoDup.
      rewrite <- (length_map_to_list (pass_hat_ks self)). reflexivity.
    + exact Hnd.
    + intros kv _. apply not_elem_of_list_to_map_1, pass_hat_key_fresh.
  - intros key v Hlk. apply file_lookup_cases in Hlk as [Hlk | (k & x & Hin & -> & ->)].
    + left. apply elem_of_list_to_map_2. exact Hlk.
    + right. exists k, x. split; [apply elem_of_map_to_list; exact Hin|].
      split; reflexivity.
Qed.

End ReportDictFacts.
